(** * ChatLlama web client (src/script.js): model and verification

    The client script keeps three globals ([currentChatId], [chats],
    [isGenerating]) next to the page's DOM, talks to the server with [fetch],
    reads the reply of [/chat-stream] as a stream of [data: ] frames and
    renders assistant text with [formatMessage].  This development embeds the
    script function by function and proves properties of the embedding:

    - [JsString]: JavaScript strings as sequences of UTF-16 code units, with
      the [String.prototype] methods the script calls;
    - [Regex]: a backtracking matcher for the regular expressions of
      [formatMessage] and the global [replace] built on it;
    - [Format]: [formatMessage] and [escapeForAttribute];
    - [Json]: parsed JSON values, the coercions the script applies to them,
      and the functions it takes from the engine and the DOM ([Platform]);
    - [Stream]: the two loops that cut the response body into frames;
    - [Client]: the page state, the DOM operations and the async handlers,
      cut at their [await] points;
    - [Reference]: a concrete [Platform] to run the handlers on;
    - [Observations]: what the properties speak about, and a sample session;
    - [Conditions]: where a pattern can match, text without formatting
      marks, frames on the wire, and conditions that the page keeps;
    - Properties: strings, the matcher, framing, the conversation pane, the
      in-flight flag, completion of a Turn, the chat list, formatting;
    - Further properties: plain and marked text through [formatMessage],
      the escaping, the wire format, the sidebar and the send button, moving,
      deleting, selecting and creating chats, sends that fail. *)

From Stdlib Require Import String Ascii.
From Stdlib Require Import Bool Arith NArith ZArith QArith Lia List.
From Stdlib Require DecimalString.
Import ListNotations.
Close Scope Q_scope.

Set Implicit Arguments.

(* ================================================================= *)
(** ** JavaScript strings *)

Module JsString.

(** A string value is a finite sequence of 16-bit code units. *)
Abbreviation jsstring := (list N).

(** An ASCII literal as a string value. *)
Definition str (s : string) : jsstring :=
  map N_of_ascii (list_ascii_of_string s).

Definition LF : N := 10.
Definition DQUOTE : N := 34.

(** ECMAScript [LineTerminator]: LF, CR, LS, PS. *)
Definition is_line_terminator (c : N) : bool :=
  (c =? 10)%N || (c =? 13)%N || (c =? 8232)%N || (c =? 8233)%N.

(** ECMAScript [WhiteSpace] (TAB, VT, FF, SP, NBSP, ZWNBSP and the
    Unicode space separators) together with [LineTerminator]: what
    [trim] strips and what [\s] matches. *)
Definition is_ws (c : N) : bool :=
  (c =? 9)%N || (c =? 11)%N || (c =? 12)%N || (c =? 32)%N || (c =? 160)%N
  || (c =? 5760)%N || ((8192 <=? c)%N && (c <=? 8202)%N)
  || (c =? 8239)%N || (c =? 8287)%N || (c =? 12288)%N || (c =? 65279)%N
  || is_line_terminator c.

(** [\w]: ASCII letters, digits and underscore. *)
Definition is_word (c : N) : bool :=
  ((48 <=? c)%N && (c <=? 57)%N) || ((65 <=? c)%N && (c <=? 90)%N)
  || ((97 <=? c)%N && (c <=? 122)%N) || (c =? 95)%N.

Fixpoint streq (a b : jsstring) : bool :=
  match a, b with
  | [], [] => true
  | x :: a', y :: b' => (x =? y)%N && streq a' b'
  | _, _ => false
  end.

(** [s.startsWith(p)] *)
Fixpoint startsWith (p s : jsstring) : bool :=
  match p, s with
  | [], _ => true
  | x :: p', y :: s' => (x =? y)%N && startsWith p' s'
  | _ :: _, [] => false
  end.

(** [s.indexOf(p)]: the least index at which [p] occurs, [None] for -1. *)
Fixpoint indexOf (p s : jsstring) : option nat :=
  if startsWith p s then Some 0
  else match s with
       | [] => None
       | _ :: s' => option_map S (indexOf p s')
       end.

(** [s.includes(p)] *)
Definition includes (p s : jsstring) : bool :=
  match indexOf p s with Some _ => true | None => false end.

(** [s.substring(a, b)] for [a <= b]; indices past the end are clamped. *)
Definition substring (a b : nat) (s : jsstring) : jsstring :=
  firstn (b - a) (skipn a s).

(** [s.substring(a)] and, for a non-negative [a], [s.slice(a)]. *)
Definition slice (a : nat) (s : jsstring) : jsstring := skipn a s.

(** The string operations that [formatMessage]'s callbacks apply to captured
    text are written over any carrier [A] of code units, so that the same
    definition runs on plain strings and on strings whose units carry a
    mark. *)
Section Carrier.
Context {A : Type} (code : A -> N).

Fixpoint trimStart (s : list A) : list A :=
  match s with
  | x :: s' => if is_ws (code x) then trimStart s' else s
  | [] => []
  end.

Definition trimEnd (s : list A) : list A := rev (trimStart (rev s)).

(** [s.trim()] *)
Definition trim_on (s : list A) : list A := trimEnd (trimStart s).

(** [s.split('\n').length] *)
Definition line_count (s : list A) : nat :=
  S (length (filter (fun x => (code x =? LF)%N) s)).
End Carrier.

Definition trim (s : jsstring) : jsstring := trim_on (fun c => c) s.

(** Decimal rendering of a non-negative integer (template interpolation of
    an integer-valued number). *)
Definition decimal (n : N) : jsstring :=
  str (DecimalString.NilZero.string_of_uint (N.to_uint n)).

End JsString.
Import JsString.

(* ================================================================= *)
(** ** Regular expressions *)

Module Regex.

(** The pattern syntax used by the script.  [Rep min max greedy r] is the
    quantified atom: [r*] is [Rep 0 None true r], [r+] is
    [Rep 1 None true r], [r?] is [Rep 0 (Some 1) true r] and [r*?] is
    [Rep 0 None false r]. *)
Inductive regex : Type :=
| Eps
| Chr (p : N -> bool)
| Seq (a b : regex)
| Alt (a b : regex)
| Rep (min : nat) (max : option nat) (greedy : bool) (a : regex)
| Group (n : nat) (a : regex)
| Bol
| Eol
| Look (a : regex).

Definition chr (c : N) : regex := Chr (N.eqb c).
Definition dot : regex := Chr (fun c => negb (is_line_terminator c)).
Definition any : regex := Chr (fun _ => true).

Fixpoint lit (s : jsstring) : regex :=
  match s with
  | [] => Eps
  | [c] => chr c
  | c :: s' => Seq (chr c) (lit s')
  end.

Definition star (a : regex) : regex := Rep 0 None true a.
Definition lazy_star (a : regex) : regex := Rep 0 None false a.
Definition plus (a : regex) : regex := Rep 1 None true a.
Definition opt (a : regex) : regex := Rep 0 (Some 1) true a.

(** Capture groups occurring in a pattern (cleared on every iteration of an
    enclosing quantifier). *)
Fixpoint groups (r : regex) : list nat :=
  match r with
  | Eps | Chr _ | Bol | Eol => []
  | Seq a b | Alt a b => groups a ++ groups b
  | Rep _ _ _ a | Look a => groups a
  | Group n a => n :: groups a
  end.

(** Matcher state: the unit before the current position, the input from
    the current position on, the offset from the start of the attempt, and
    the captures as (start, end) offsets. *)
Record mstate : Type := {
  m_prev : option N;
  m_rest : list N;
  m_pos : nat;
  m_caps : list (nat * (nat * nat))
}.

Definition set_cap (n a b : nat) (x : mstate) : mstate :=
  {| m_prev := m_prev x; m_rest := m_rest x; m_pos := m_pos x;
     m_caps := (n, (a, b)) :: filter (fun e => negb (fst e =? n)) (m_caps x) |}.

Definition clear_caps (gs : list nat) (x : mstate) : mstate :=
  {| m_prev := m_prev x; m_rest := m_rest x; m_pos := m_pos x;
     m_caps := filter (fun e => negb (existsb (Nat.eqb (fst e)) gs)) (m_caps x) |}.

Definition with_caps (cs : list (nat * (nat * nat))) (x : mstate) : mstate :=
  {| m_prev := m_prev x; m_rest := m_rest x; m_pos := m_pos x; m_caps := cs |}.

(** [y] lies at or after [x] in the same input. *)
Definition reach (x y : mstate) : Prop :=
  m_pos x <= m_pos y
  /\ m_pos y + length (m_rest y) = m_pos x + length (m_rest x).

(** A matcher looks at its continuation only on states further on in the
    input. *)
Definition local (m : (mstate -> option mstate) -> mstate -> option mstate)
  : Prop :=
  forall k k' x, (forall y, reach x y -> k y = k' y) -> m k x = m k' x.

Definition orelse {T} (a : option T) (b : unit -> option T) : option T :=
  match a with Some z => Some z | None => b tt end.

(** The iteration of a quantified atom (RepeatMatcher of the ECMAScript
    specification): [m] matches the atom once, [gs] are its capture groups,
    cleared before every iteration.  An iteration that consumes nothing once
    [min] is exhausted is rejected, so [min] plus the length of the remaining
    input bounds the number of iterations; [fuel] counts them down. *)
Fixpoint repeat_loop (m : (mstate -> option mstate) -> mstate -> option mstate)
         (gs : list nat) (greedy : bool) (k : mstate -> option mstate)
         (fuel : nat) (min : nat) (max : option nat) (x : mstate)
         {struct fuel} : option mstate :=
  match fuel with
  | O => None
  | S fuel' =>
      match max with
      | Some O => k x
      | _ =>
          let d := fun y =>
            if (min =? 0) && (m_pos y =? m_pos x) then None
            else repeat_loop m gs greedy k fuel' (pred min)
                   (option_map pred max) y in
          let xr := clear_caps gs x in
          if negb (min =? 0) then m d xr
          else if greedy
               then orelse (m d xr) (fun _ => k x)
               else orelse (k x) (fun _ => m d xr)
      end
  end.

(** The backtracking matcher in continuation-passing style, as in the
    ECMAScript specification: [rmatch ml r k x] tries [r] at [x] and hands
    every end state to [k], in priority order, until [k] succeeds.  [ml] is
    the [m] flag. *)
Fixpoint rmatch (ml : bool) (r : regex) (k : mstate -> option mstate)
         (x : mstate) {struct r} : option mstate :=
  match r with
  | Eps => k x
  | Chr p =>
      match m_rest x with
      | c :: rest =>
          if p c
          then k {| m_prev := Some c; m_rest := rest; m_pos := S (m_pos x);
                    m_caps := m_caps x |}
          else None
      | [] => None
      end
  | Seq a b => rmatch ml a (fun y => rmatch ml b k y) x
  | Alt a b => orelse (rmatch ml a k x) (fun _ => rmatch ml b k x)
  | Rep min max greedy a =>
      repeat_loop (rmatch ml a) (groups a) greedy k
        (S (min + length (m_rest x))) min max x
  | Group n a =>
      rmatch ml a (fun y => k (set_cap n (m_pos x) (m_pos y) y)) x
  | Bol =>
      match m_prev x with
      | None => k x
      | Some c => if ml && is_line_terminator c then k x else None
      end
  | Eol =>
      match m_rest x with
      | [] => k x
      | c :: _ => if ml && is_line_terminator c then k x else None
      end
  | Look a =>
      match rmatch ml a Some x with
      | Some y => k (with_caps (m_caps y) x)
      | None => None
      end
  end.

(** One match attempt at a given position: its length and captures. *)
Definition match_here (ml : bool) (r : regex) (prev : option N)
           (rest : list N) : option (nat * list (nat * (nat * nat))) :=
  match rmatch ml r Some
          {| m_prev := prev; m_rest := rest; m_pos := 0; m_caps := [] |} with
  | Some y => Some (m_pos y, m_caps y)
  | None => None
  end.

Fixpoint cap_lookup (n : nat) (cs : list (nat * (nat * nat)))
  : option (nat * nat) :=
  match cs with
  | [] => None
  | (m, se) :: cs' => if m =? n then Some se else cap_lookup n cs'
  end.

Section Replace.
Context {A : Type} (code : A -> N).

(** What a replacement sees: the matched text and the captured groups
    ([None] for a group that did not take part). *)
Definition replacer : Type := list A -> (nat -> option (list A)) -> list A.

Definition capture (l : list A) (cs : list (nat * (nat * nat))) (n : nat)
  : option (list A) :=
  match cap_lookup n cs with
  | Some (a, b) => Some (firstn (b - a) (skipn a l))
  | None => None
  end.

(** [s.replace(/r/g, f)]: scan left to right; at each position not inside
    a previous match try [r]; a match is replaced by [f]'s result and the
    scan resumes at its end (one unit further after an empty match, that
    unit being copied).  [skip] counts the units of the current match
    still to drop and [prev] is the unit before the current position. *)
Fixpoint scan (ml : bool) (r : regex) (f : replacer) (prev : option N)
         (skip : nat) (l : list A) {struct l} : list A :=
  match l with
  | [] =>
      match skip with
      | O => match match_here ml r prev [] with
             | Some (_, cs) => f [] (capture [] cs)
             | None => []
             end
      | S _ => []
      end
  | x :: l' =>
      match skip with
      | S k => scan ml r f (Some (code x)) k l'
      | O =>
          match match_here ml r prev (map code l) with
          | Some (len, cs) =>
              let out := f (firstn len l) (capture l cs) in
              match len with
              | O => out ++ x :: scan ml r f (Some (code x)) 0 l'
              | S k => out ++ scan ml r f (Some (code x)) k l'
              end
          | None => x :: scan ml r f (Some (code x)) 0 l'
          end
      end
  end.

Definition replace_g (ml : bool) (r : regex) (f : replacer) (s : list A)
  : list A := scan ml r f None 0 s.

(** Replacement strings: literal text, [$n] and [$&]. *)
Inductive titem : Type :=
| TLit (s : jsstring)
| TGroup (n : nat)
| TWhole.

Definition expand (inj : N -> A) (t : list titem) : replacer :=
  fun whole caps =>
    flat_map (fun it =>
                match it with
                | TLit s => map inj s
                | TGroup n => match caps n with Some g => g | None => [] end
                | TWhole => whole
                end) t.
End Replace.

End Regex.
Import Regex.

(* ================================================================= *)
(** ** Message formatting *)

Module Format.

Definition spaces (n : nat) : jsstring := repeat 32%N n.

(** [/```(\w+)?\s*\n?([\s\S]*?)```/] *)
Definition re_code_block : regex :=
  Seq (lit (str "```"))
    (Seq (opt (Group 1 (plus (Chr is_word))))
       (Seq (star (Chr is_ws))
          (Seq (opt (chr LF))
             (Seq (Group 2 (lazy_star any)) (lit (str "```")))))).

(** [/`([^`\n]+)`/] *)
Definition re_inline_code : regex :=
  Seq (chr 96)
    (Seq (Group 1 (plus (Chr (fun c => negb ((c =? 96)%N || (c =? LF)%N)))))
       (chr 96)).

(** [/\*\*(.*?)\*\*/] *)
Definition re_bold : regex :=
  Seq (lit (str "**")) (Seq (Group 1 (lazy_star dot)) (lit (str "**"))).

(** [/\*(.*?)\*/] *)
Definition re_italic : regex :=
  Seq (chr 42) (Seq (Group 1 (lazy_star dot)) (chr 42)).

(** [/^### (.*$)/], [/^## (.*$)/], [/^# (.*$)/], [/^- (.*$)/] by prefix *)
Definition re_line (prefix : jsstring) : regex :=
  Seq Bol (Seq (lit prefix) (Group 1 (Seq (star dot) Eol))).

(** [/(<li>.*<\/li>)/] *)
Definition re_li_line : regex :=
  Group 1 (Seq (lit (str "<li>")) (Seq (star dot) (lit (str "</li>")))).

(** [/(<li>.*?<\/li>)(?=\s*<li>|$)/] *)
Definition re_li_item : regex :=
  Seq (Group 1 (Seq (lit (str "<li>"))
                  (Seq (lazy_star dot) (lit (str "</li>")))))
    (Look (Alt (Seq (star (Chr is_ws)) (lit (str "<li>"))) Eol)).

(** [/(<li>.*?<\/li>)(\s*<li>.*?<\/li>)*/] *)
Definition re_li_run : regex :=
  Seq (Group 1 (Seq (lit (str "<li>"))
                  (Seq (lazy_star dot) (lit (str "</li>")))))
    (star (Group 2 (Seq (star (Chr is_ws))
                      (Seq (lit (str "<li>"))
                         (Seq (lazy_star dot) (lit (str "</li>"))))))).

Section Carrier.
(** [code] reads the code unit of a carrier element; [ent] injects the
    units of an entity written by the escaping step and [mk] the units of
    markup written by a formatting step. *)
Context {A : Type} (code : A -> N) (ent : N -> A) (mk : N -> A).

(** [s.replace(/c/g, entity)] for a single character [c] *)
Definition replace_char (c : N) (entity : jsstring) (s : list A) : list A :=
  replace_g code false (chr c) (expand ent [TLit entity]) s.

(** The escaping chain at the head of [formatMessage]. *)
Definition escapeHtml_on (text : list A) : list A :=
  replace_char 39 (str "&#x27;")
    (replace_char 34 (str "&quot;")
       (replace_char 62 (str "&gt;")
          (replace_char 60 (str "&lt;")
             (replace_char 38 (str "&amp;") text)))).

(** The replacement callback of the code-block pass. *)
Definition code_block : replacer (A:=A) :=
  fun _ caps =>
    let code_ := match caps 2 with Some c => c | None => [] end in
    let trimmedCode := trim_on code code_ in
    let lineCount := line_count code trimmedCode in
    let isCompact := (lineCount <=? 3) && (length trimmedCode <? 100) in
    let compactClass := if isCompact then str " compact" else [] in
    map mk (str "<div class=" ++ [DQUOTE] ++ str "code-block"
              ++ compactClass ++ [DQUOTE] ++ str ">" ++ [LF]
              ++ spaces 20 ++ str "<pre><code>")
      ++ trimmedCode
      ++ map mk (str "</code></pre>" ++ [LF] ++ spaces 16 ++ str "</div>").

(** The replacement callback of the first list pass: it rewrites each
    captured run of items with [$1] of [re_li_item]. *)
Definition li_line : replacer (A:=A) :=
  fun _ caps =>
    let listItems := match caps 1 with Some c => c | None => [] end in
    replace_g code false re_li_item (expand mk [TGroup 1]) listItems.

Definition wrap (open close : jsstring) : replacer (A:=A) :=
  expand mk [TLit open; TGroup 1; TLit close].

(** The formatting passes that follow the escaping, in source order. *)
Definition markdown_on (html : list A) : list A :=
  let html := replace_g code false re_code_block code_block html in
  let html :=
    replace_g code false re_inline_code
      (wrap (str "<code class=" ++ [DQUOTE] ++ str "inline-code"
               ++ [DQUOTE] ++ str ">") (str "</code>")) html in
  let html := replace_g code false re_bold
                (wrap (str "<strong>") (str "</strong>")) html in
  let html := replace_g code false re_italic
                (wrap (str "<em>") (str "</em>")) html in
  let html := replace_g code true (re_line (str "### "))
                (wrap (str "<h3>") (str "</h3>")) html in
  let html := replace_g code true (re_line (str "## "))
                (wrap (str "<h2>") (str "</h2>")) html in
  let html := replace_g code true (re_line (str "# "))
                (wrap (str "<h1>") (str "</h1>")) html in
  let html := replace_g code true (re_line (str "- "))
                (wrap (str "<li>") (str "</li>")) html in
  let html := replace_g code true re_li_line li_line html in
  let html := replace_g code false re_li_run
                (expand mk [TLit (str "<ul>"); TWhole; TLit (str "</ul>")])
                html in
  let html := replace_g code false (chr LF)
                (expand mk [TLit (str "<br>")]) html in
  html.

Definition formatMessage_on (text : list A) : list A :=
  match text with
  | [] => []
  | _ => markdown_on (escapeHtml_on text)
  end.
End Carrier.

Definition escapeHtml (text : jsstring) : jsstring :=
  escapeHtml_on (fun c => c) (fun c => c) text.

Definition markdown (html : jsstring) : jsstring :=
  markdown_on (fun c => c) (fun c => c) html.

(** [formatMessage(text)]; [None] stands for a [null] or [undefined]
    argument. *)
Definition formatMessage (text : option jsstring) : jsstring :=
  match text with
  | None => []
  | Some s => formatMessage_on (fun c => c) (fun c => c) (fun c => c) s
  end.

(** [escapeForAttribute(str)] *)
Definition escapeForAttribute (s : jsstring) : jsstring :=
  let r := replace_char (fun c => c) (fun c => c) in
  r 62%N (str "&gt;") (r 60%N (str "&lt;") (r 39%N (str "&#x27;")
    (r 34%N (str "&quot;") (r 38%N (str "&amp;") s)))).

End Format.
Import Format.

(* ================================================================= *)
(** ** JSON values and the coercions the script applies to them *)

Module Json.

(** A number produced by [JSON.parse]: a finite double, that is a rational,
    or an infinity (from a literal such as [1e999]). *)
Inductive Num : Type :=
| Finite (q : Q)
| PlusInfinity
| MinusInfinity.

Unset Elimination Schemes.
Inductive JsValue : Type :=
| JUndefined
| JNull
| JBool (b : bool)
| JNum (n : Num)
| JStr (s : jsstring)
| JArr (items : list JsValue)
| JObj (members : list (jsstring * JsValue)).
Set Elimination Schemes.

(** ToBoolean *)
Definition truthy (v : JsValue) : bool :=
  match v with
  | JUndefined | JNull => false
  | JBool b => b
  | JNum (Finite q) => negb (Qeq_bool q 0)
  | JNum _ => true
  | JStr s => match s with [] => false | _ => true end
  | JArr _ | JObj _ => true
  end.

(** The own property [name] of a parsed object; of duplicate members the
    last one wins. *)
Fixpoint own (name : jsstring) (members : list (jsstring * JsValue))
  : option JsValue :=
  match members with
  | [] => None
  | (k, v) :: rest =>
      match own name rest with
      | Some w => Some w
      | None => if streq k name then Some v else None
      end
  end.

(** [v.name] for a property name that no built-in prototype defines (all
    the names the script reads are such): [None] is the TypeError raised on
    [null] and [undefined]. *)
Definition get (name : jsstring) (v : JsValue) : option JsValue :=
  match v with
  | JUndefined | JNull => None
  | JObj members =>
      Some (match own name members with Some w => w | None => JUndefined end)
  | _ => Some JUndefined
  end.

(** Why the engine raises a TypeError in the script: a value that cannot
    be converted to a primitive, or a property read on [undefined] or
    [null].  The message of the error depends on the cause. *)
Inductive TypeErrorCause : Type :=
| NotConvertible (v : JsValue)
| PropertyOfMissing (base : JsValue) (property : jsstring).

(** What the script takes from the engine and the DOM without defining it. *)
Record Platform : Type := {
  JSON_parse : jsstring -> option JsValue;   (* [None]: SyntaxError *)
  number_to_string : Num -> jsstring;        (* Number::toString *)
  string_is_positive : jsstring -> bool;     (* StringToNumber(s) > 0 *)
  innerHTML_of : jsstring -> jsstring;       (* markup read back from innerHTML *)
  textContent_of : jsstring -> jsstring;     (* textContent of that markup *)
  innerText_of : jsstring -> jsstring;       (* innerText of that markup *)
  type_error_message : TypeErrorCause -> jsstring
                                             (* message of an engine TypeError *)
}.

Section Coercions.
Variable P : Platform.

(** ToString, also the string that [+=] appends to a string; [None] is
    the TypeError of an object whose own [toString] member hides the
    inherited method. *)
Fixpoint to_string (v : JsValue) : option jsstring :=
  match v with
  | JUndefined => Some (str "undefined")
  | JNull => Some (str "null")
  | JBool true => Some (str "true")
  | JBool false => Some (str "false")
  | JNum n => Some (number_to_string P n)
  | JStr s => Some s
  | JArr items =>
      (fix join (l : list JsValue) : option jsstring :=
         match l with
         | [] => Some []
         | x :: l' =>
             let head := match x with
                         | JUndefined | JNull => Some []
                         | _ => to_string x
                         end in
             match head, l' with
             | None, _ => None
             | Some h, [] => Some h
             | Some h, _ :: _ =>
                 match join l' with
                 | Some t => Some (h ++ str "," ++ t)
                 | None => None
                 end
             end
         end) items
  | JObj members =>
      match own (str "toString") members with
      | Some _ => None
      | None => Some (str "[object Object]")
      end
  end.

(** [v > 0]; [None] when the conversion throws. *)
Definition gt_zero (v : JsValue) : option bool :=
  match v with
  | JUndefined | JNull => Some false
  | JBool b => Some b
  | JNum (Finite q) => Some (0 <? Qnum q)%Z
  | JNum PlusInfinity => Some true
  | JNum MinusInfinity => Some false
  | _ => option_map (string_is_positive P) (to_string v)
  end.
End Coercions.

End Json.
Import Json.

(* ================================================================= *)
(** ** Framing of the response stream *)

Module Stream.

(** What handling one frame decides: go on with the loop, or [return] from
    the enclosing function. *)
Inductive Flow (X : Type) : Type :=
| Continue (x : X)
| Return (x : X).
Arguments Continue {X} x.
Arguments Return {X} x.

(** Result of the inner [while (buffer.includes('\n\n'))] loop. *)
Inductive Drained (X : Type) : Type :=
| Pending (buffer : jsstring) (x : X)
| Returned (x : X).
Arguments Pending {X} buffer x.
Arguments Returned {X} x.

(** How [reader.read()] ends the stream: [done], or a rejection. *)
Inductive StreamEnd : Type :=
| EndOfStream
| ReadFailed (message : jsstring).

(** How the outer [while (true)] loop is left. *)
Inductive LoopExit (X : Type) : Type :=
| ExitReturn (x : X)
| ExitBreak (buffer : jsstring) (x : X)
| ExitThrow (message : jsstring) (x : X).
Arguments ExitReturn {X} x.
Arguments ExitBreak {X} buffer x.
Arguments ExitThrow {X} message x.

Definition boundary : jsstring := [LF; LF].

Section Framing.
(** [X] is everything the frame handler may change; the receive buffer is
    threaded by the loops themselves. *)
Context {X : Type} (on_frame : jsstring -> X -> Flow X).

Fixpoint drain_fuel (fuel : nat) (buffer : jsstring) (x : X) : Drained X :=
  match fuel with
  | O => Pending buffer x
  | S fuel' =>
      match indexOf boundary buffer with
      | None => Pending buffer x
      | Some doubleNewlineIndex =>
          let line := trim (substring 0 doubleNewlineIndex buffer) in
          let buffer := slice (doubleNewlineIndex + 2) buffer in
          match on_frame line x with
          | Return x' => Returned x'
          | Continue x' => drain_fuel fuel' buffer x'
          end
      end
  end.

(** Every iteration shortens the buffer, so its length is fuel enough. *)
Definition drain (buffer : jsstring) (x : X) : Drained X :=
  drain_fuel (length buffer) buffer x.

(** The read loop over the decoded chunks of the body, in arrival
    order. *)
Fixpoint read_loop (chunks : list jsstring) (fin : StreamEnd)
         (buffer : jsstring) (x : X) : LoopExit X :=
  match chunks with
  | [] =>
      match fin with
      | EndOfStream => ExitBreak buffer x
      | ReadFailed message => ExitThrow message x
      end
  | chunk :: rest =>
      match drain (buffer ++ chunk) x with
      | Returned x' => ExitReturn x'
      | Pending buffer' x' => read_loop rest fin buffer' x'
      end
  end.

(** The handler applied to a sequence of lines in order, stopping at the
    first [Return]: what the inner loop does with the lines it cuts. *)
Fixpoint run (lines : list jsstring) (x : X) : Flow X :=
  match lines with
  | [] => Continue x
  | line :: rest =>
      match on_frame line x with
      | Return x' => Return x'
      | Continue x' => run rest x'
      end
  end.
End Framing.

(** The complete frames of a buffer, trimmed, and the partial frame left
    after the last boundary. *)
Fixpoint frames_fuel (fuel : nat) (buffer : jsstring)
  : list jsstring * jsstring :=
  match fuel with
  | O => ([], buffer)
  | S fuel' =>
      match indexOf boundary buffer with
      | None => ([], buffer)
      | Some i =>
          let (lines, rest) := frames_fuel fuel' (slice (i + 2) buffer) in
          (trim (substring 0 i buffer) :: lines, rest)
      end
  end.

Definition frames (buffer : jsstring) : list jsstring * jsstring :=
  frames_fuel (length buffer) buffer.

(** The frames a stream makes the loop hand over, in order: the handler
    that only records them, returning at the end-of-stream marker as the
    client does. *)
Definition DONE : jsstring := str "[DONE]".

Definition record_frame (line : jsstring) (seen : list jsstring)
  : Flow (list jsstring) :=
  if startsWith (str "data: ") line && streq (slice 6 line) DONE
  then Return (seen ++ [line])
  else Continue (seen ++ [line]).

End Stream.
Import Stream.

(* ================================================================= *)
(** ** The page: globals, DOM and handlers *)

Module Client.

(** *** The DOM of the page *)

(** Element ids the script generates: [msg-${Date.now()}-${Math.random()}],
    [stream-${Date.now()}], or none. *)
Inductive ElemId : Type :=
| NoId
| MsgId (now random : N)
| StreamId (now : N).

(** [document.getElementById(i)] selects an element with id [e]. *)
Definition id_matches (i e : ElemId) : bool :=
  match i, e with
  | MsgId t r, MsgId t' r' => (t =? t')%N && (r =? r')%N
  | StreamId t, StreamId t' => (t =? t')%N
  | _, _ => false
  end.

Inductive MessageType : Type := user | assistant.
Inductive Avatar : Type := AvatarUser | AvatarLlama | AvatarWarning.

(** A message [div] of the conversation pane: its id, its class
    ([message user] or [message assistant]), its avatar, the markup assigned
    to its [.message-content] child with that child's [short] and
    [error-message] classes and [data-streaming] attribute, and the values
    shown by the memory indicators appended after the content. *)
Record Element : Type := {
  e_id : ElemId;
  e_type : MessageType;
  e_avatar : Avatar;
  e_content : jsstring;
  e_short : bool;
  e_error : bool;
  e_streaming : bool;
  e_memory : list JsValue
}.

(** Children of [#messages]: message elements, or the banner that
    [createNewChat] writes. *)
Inductive Node : Type :=
| MessageDiv (e : Element)
| NewChatReady.

(** An entry of the [chats] array. *)
Record Chat : Type := {
  id : jsstring;
  title : jsstring;
  created_at : jsstring;
  updated_at : jsstring
}.

(** A [.chat-item] of the sidebar as [renderChatList] builds it. *)
Record ChatItem : Type := {
  item_chatId : jsstring;
  item_title : jsstring;
  item_updated_at : jsstring;
  item_active : bool
}.

Inductive Display : Type := DisplayUnset | DisplayNone | DisplayFlex.

(** The calls to [fetch]. *)
Inductive Request : Type :=
| GetChats
| GetChat (chatId : jsstring)
| GetMemoryStats (chatId : jsstring)
| PostNewChat (message : jsstring)
| PostChatStream (message chat_id : jsstring)
| DeleteChat (chatId : jsstring).

(** The script's globals, the parts of the DOM it reads and writes, and the
    requests it has issued (oldest first). *)
Record State : Type := {
  currentChatId : option jsstring;
  chats : list Chat;
  isGenerating : bool;
  messagesContainer : list Node;
  messageInput : jsstring;           (* messageInput.value *)
  sendButton_disabled : bool;
  chatList : list ChatItem;
  chatTitle : jsstring;              (* chatTitle.textContent *)
  modelStatus : jsstring;            (* modelStatus.textContent *)
  emptyState : Display;              (* emptyState.style.display *)
  requests : list Request
}.

Definition set_currentChatId (v : option jsstring) (s : State) : State :=
  {| currentChatId := v; chats := chats s; isGenerating := isGenerating s;
     messagesContainer := messagesContainer s; messageInput := messageInput s;
     sendButton_disabled := sendButton_disabled s; chatList := chatList s;
     chatTitle := chatTitle s; modelStatus := modelStatus s;
     emptyState := emptyState s; requests := requests s |}.

Definition set_chats (v : list Chat) (s : State) : State :=
  {| currentChatId := currentChatId s; chats := v;
     isGenerating := isGenerating s;
     messagesContainer := messagesContainer s; messageInput := messageInput s;
     sendButton_disabled := sendButton_disabled s; chatList := chatList s;
     chatTitle := chatTitle s; modelStatus := modelStatus s;
     emptyState := emptyState s; requests := requests s |}.

Definition set_isGenerating (v : bool) (s : State) : State :=
  {| currentChatId := currentChatId s; chats := chats s; isGenerating := v;
     messagesContainer := messagesContainer s; messageInput := messageInput s;
     sendButton_disabled := sendButton_disabled s; chatList := chatList s;
     chatTitle := chatTitle s; modelStatus := modelStatus s;
     emptyState := emptyState s; requests := requests s |}.

Definition set_messages (v : list Node) (s : State) : State :=
  {| currentChatId := currentChatId s; chats := chats s;
     isGenerating := isGenerating s;
     messagesContainer := v; messageInput := messageInput s;
     sendButton_disabled := sendButton_disabled s; chatList := chatList s;
     chatTitle := chatTitle s; modelStatus := modelStatus s;
     emptyState := emptyState s; requests := requests s |}.

Definition set_messageInput (v : jsstring) (s : State) : State :=
  {| currentChatId := currentChatId s; chats := chats s;
     isGenerating := isGenerating s;
     messagesContainer := messagesContainer s; messageInput := v;
     sendButton_disabled := sendButton_disabled s; chatList := chatList s;
     chatTitle := chatTitle s; modelStatus := modelStatus s;
     emptyState := emptyState s; requests := requests s |}.

Definition set_sendButton_disabled (v : bool) (s : State) : State :=
  {| currentChatId := currentChatId s; chats := chats s;
     isGenerating := isGenerating s;
     messagesContainer := messagesContainer s; messageInput := messageInput s;
     sendButton_disabled := v; chatList := chatList s;
     chatTitle := chatTitle s; modelStatus := modelStatus s;
     emptyState := emptyState s; requests := requests s |}.

Definition set_chatList (v : list ChatItem) (s : State) : State :=
  {| currentChatId := currentChatId s; chats := chats s;
     isGenerating := isGenerating s;
     messagesContainer := messagesContainer s; messageInput := messageInput s;
     sendButton_disabled := sendButton_disabled s; chatList := v;
     chatTitle := chatTitle s; modelStatus := modelStatus s;
     emptyState := emptyState s; requests := requests s |}.

Definition set_chatTitle (v : jsstring) (s : State) : State :=
  {| currentChatId := currentChatId s; chats := chats s;
     isGenerating := isGenerating s;
     messagesContainer := messagesContainer s; messageInput := messageInput s;
     sendButton_disabled := sendButton_disabled s; chatList := chatList s;
     chatTitle := v; modelStatus := modelStatus s;
     emptyState := emptyState s; requests := requests s |}.

Definition set_modelStatus (v : jsstring) (s : State) : State :=
  {| currentChatId := currentChatId s; chats := chats s;
     isGenerating := isGenerating s;
     messagesContainer := messagesContainer s; messageInput := messageInput s;
     sendButton_disabled := sendButton_disabled s; chatList := chatList s;
     chatTitle := chatTitle s; modelStatus := v;
     emptyState := emptyState s; requests := requests s |}.

Definition set_emptyState (v : Display) (s : State) : State :=
  {| currentChatId := currentChatId s; chats := chats s;
     isGenerating := isGenerating s;
     messagesContainer := messagesContainer s; messageInput := messageInput s;
     sendButton_disabled := sendButton_disabled s; chatList := chatList s;
     chatTitle := chatTitle s; modelStatus := modelStatus s;
     emptyState := v; requests := requests s |}.

(** [fetch(r)] up to its [await]: the request goes out. *)
Definition fetch (r : Request) (s : State) : State :=
  {| currentChatId := currentChatId s; chats := chats s;
     isGenerating := isGenerating s;
     messagesContainer := messagesContainer s; messageInput := messageInput s;
     sendButton_disabled := sendButton_disabled s; chatList := chatList s;
     chatTitle := chatTitle s; modelStatus := modelStatus s;
     emptyState := emptyState s; requests := requests s ++ [r] |}.

(** A statement sequence either completes or throws; the page state reached
    is kept in both cases. *)
Inductive Completion : Type :=
| Normal (s : State)
| Throw (message : jsstring) (s : State).

(** [a === b] between the current chat id and a string. *)
Definition is_current (chatId : jsstring) (current : option jsstring) : bool :=
  match current with
  | Some c => streq chatId c
  | None => false
  end.

(** *** DOM helpers *)

(** [document.getElementById(i)] within the conversation pane *)
Fixpoint getElementById (i : ElemId) (nodes : list Node) : option Element :=
  match nodes with
  | [] => None
  | MessageDiv e :: rest =>
      if id_matches i (e_id e) then Some e else getElementById i rest
  | NewChatReady :: rest => getElementById i rest
  end.

(** Writing through the element that [getElementById] returns. *)
Fixpoint update_element (i : ElemId) (f : Element -> Element)
         (nodes : list Node) : list Node :=
  match nodes with
  | [] => []
  | MessageDiv e :: rest =>
      if id_matches i (e_id e) then MessageDiv (f e) :: rest
      else MessageDiv e :: update_element i f rest
  | NewChatReady :: rest => NewChatReady :: update_element i f rest
  end.

(** [element.remove()] on the element that [getElementById] returns. *)
Fixpoint remove_element (i : ElemId) (nodes : list Node) : list Node :=
  match nodes with
  | [] => []
  | MessageDiv e :: rest =>
      if id_matches i (e_id e) then rest
      else MessageDiv e :: remove_element i rest
  | NewChatReady :: rest => NewChatReady :: remove_element i rest
  end.

Definition cursor : jsstring :=
  str "<span class=" ++ [DQUOTE] ++ str "cursor" ++ [DQUOTE] ++ str ">|</span>".

Definition READY : jsstring := str "Llama 3 8B Q4_K_M Ready".

(** [s.replace(pattern, by)] for a string pattern: the first occurrence. *)
Definition replace_first (pattern by_ s : jsstring) : jsstring :=
  match indexOf pattern s with
  | Some i => firstn i s ++ by_ ++ skipn (i + length pattern) s
  | None => s
  end.

Definition set_content (html : jsstring) (e : Element) : Element :=
  {| e_id := e_id e; e_type := e_type e; e_avatar := e_avatar e;
     e_content := html; e_short := e_short e; e_error := e_error e;
     e_streaming := e_streaming e; e_memory := e_memory e |}.

Definition add_memory (v : JsValue) (e : Element) : Element :=
  {| e_id := e_id e; e_type := e_type e; e_avatar := e_avatar e;
     e_content := e_content e; e_short := e_short e; e_error := e_error e;
     e_streaming := e_streaming e; e_memory := e_memory e ++ [v] |}.

(** [content.length < 50 && !content.includes('\n')] *)
Definition is_short (content : jsstring) : bool :=
  (length content <? 50) && negb (includes [LF] content).

Definition renderChatList (s : State) : State :=
  set_chatList
    (map (fun chat =>
            {| item_chatId := id chat; item_title := title chat;
               item_updated_at := updated_at chat;
               item_active := is_current (id chat) (currentChatId s) |})
       (chats s)) s.

Section Handlers.
Variable P : Platform.

(** [updateMemoryDisplay(stats)] only builds a string; it throws when
    [stats] is [null] or [undefined] or a field cannot be converted. *)
Definition updateMemoryDisplay (stats : JsValue) : option unit :=
  match get (str "facts") stats, get (str "experiences") stats,
        get (str "topics") stats with
  | Some f, Some e, Some t =>
      match to_string P f, to_string P e, to_string P t with
      | Some _, Some _, Some _ => Some tt
      | _, _, _ => None
      end
  | _, _, _ => None
  end.

(** The TypeError that [updateMemoryDisplay(stats)] raises when it throws:
    the read of [stats.facts], or the first field that cannot be
    converted. *)
Definition updateMemoryDisplay_error (stats : JsValue) : TypeErrorCause :=
  match get (str "facts") stats, get (str "experiences") stats,
        get (str "topics") stats with
  | Some f, Some e, Some t =>
      match to_string P f, to_string P e with
      | None, _ => NotConvertible f
      | Some _, None => NotConvertible e
      | Some _, Some _ => NotConvertible t
      end
  | _, _, _ => PropertyOfMissing stats (str "facts")
  end.

(** [addMessageToUI(type, content, memoriesAdded)]; [now] and [random] are
    the results of [Date.now()] and [Math.random()], [content = None]
    stands for an [undefined] argument. *)
Definition addMessageToUI (now random : N) (type : MessageType)
           (content : option jsstring) (memoriesAdded : JsValue)
           (s : State) : Completion :=
  let indicator :=
    match type with
    | assistant =>
        match gt_zero P memoriesAdded with
        | Some true => Some [memoriesAdded]
        | Some false => Some []
        | None => None
        end
    | user => Some []
    end in
  match indicator, content with
  | Some memory, Some content =>
      Normal (set_messages
                (messagesContainer s ++
                   [MessageDiv
                      {| e_id := MsgId now random; e_type := type;
                         e_avatar := match type with
                                     | user => AvatarUser
                                     | assistant => AvatarLlama
                                     end;
                         e_content := formatMessage (Some content);
                         e_short := is_short content; e_error := false;
                         e_streaming := false; e_memory := memory |}]) s)
  | None, _ => Throw (type_error_message P (NotConvertible memoriesAdded)) s
  | Some _, None =>
      Throw (type_error_message P
               (PropertyOfMissing JUndefined (str "length"))) s
  end.

(** [addStreamingMessagePlaceholder()] with its [Date.now()]; the new
    element's id is returned. *)
Definition addStreamingMessagePlaceholder (now : N) (s : State)
  : State * ElemId :=
  (set_messages
     (messagesContainer s ++
        [MessageDiv
           {| e_id := StreamId now; e_type := assistant;
              e_avatar := AvatarLlama;
              e_content := [LF] ++ spaces 24 ++ cursor ++ [LF] ++ spaces 20;
              e_short := false; e_error := false; e_streaming := true;
              e_memory := [] |}]) s,
   StreamId now).

(** [updateStreamingMessage(messageId, content)] *)
Definition updateStreamingMessage (messageId : ElemId) (content : jsstring)
           (s : State) : State :=
  match getElementById messageId (messagesContainer s) with
  | Some _ =>
      set_messages
        (update_element messageId
           (set_content (formatMessage (Some content) ++ cursor))
           (messagesContainer s)) s
  | None => s
  end.

(** [finalizeStreamingMessage(messageId, memoriesAdded)] *)
Definition finalizeStreamingMessage (messageId : ElemId)
           (memoriesAdded : JsValue) (s : State) : Completion :=
  match getElementById messageId (messagesContainer s) with
  | Some e =>
      let finalContent :=
        replace_first cursor [] (innerHTML_of P (e_content e)) in
      let textContent :=
        match textContent_of P finalContent with
        | [] => innerText_of P finalContent
        | t => t
        end in
      let finalize e :=
        {| e_id := e_id e; e_type := e_type e; e_avatar := e_avatar e;
           e_content := finalContent;
           e_short := e_short e || is_short textContent;
           e_error := e_error e; e_streaming := false;
           e_memory := e_memory e |} in
      let s1 := set_messages
                  (update_element messageId finalize (messagesContainer s))
                  s in
      match gt_zero P memoriesAdded with
      | Some true =>
          Normal (set_messages
                    (update_element messageId (add_memory memoriesAdded)
                       (messagesContainer s1)) s1)
      | Some false => Normal s1
      | None => Throw (type_error_message P (NotConvertible memoriesAdded)) s1
      end
  | None => Normal s
  end.

(** [addErrorMessage(error)] *)
Definition addErrorMessage (error : jsstring) (s : State) : State :=
  set_messages
    (messagesContainer s ++
       [MessageDiv
          {| e_id := NoId; e_type := assistant; e_avatar := AvatarWarning;
             e_content := [LF] ++ spaces 24 ++ str "Error: " ++ error
                            ++ [LF] ++ spaces 20;
             e_short := false; e_error := true; e_streaming := false;
             e_memory := [] |}]) s.

(** [removeMessage(messageId)] *)
Definition removeMessage (messageId : ElemId) (s : State) : State :=
  set_messages (remove_element messageId (messagesContainer s)) s.
End Handlers.

(** *** Handlers, cut at their [await] points

    A handler runs to its first [await], where the state is left to
    whatever else the page does; the rest is a continuation that takes the
    awaited reply and the state found on resumption. *)

Definition NEW_CHAT : jsstring := [10024%N] ++ str " New Chat".
Definition APP_TITLE : jsstring := str "Llama 3 8B Multi-Chat".
Definition zero : JsValue := JNum (Finite 0).

(** [response.ok] *)
Definition response_ok (status : N) : bool :=
  (200 <=? status)%N && (status <=? 299)%N.

(** [chats.findIndex(p)]; [None] for -1. *)
Fixpoint findIndex (p : Chat -> bool) (l : list Chat) : option nat :=
  match l with
  | [] => None
  | c :: l' => if p c then Some 0 else option_map S (findIndex p l')
  end.

Definition touch (iso : jsstring) (chat : Chat) : Chat :=
  {| id := id chat; title := title chat; created_at := created_at chat;
     updated_at := iso |}.

Definition set_active (f : ChatItem -> bool) (item : ChatItem) : ChatItem :=
  {| item_chatId := item_chatId item; item_title := item_title item;
     item_updated_at := item_updated_at item; item_active := f item |}.

(** What a suspended [sendMessage] call is waiting for. *)
Inductive Awaiting : Type :=
| AwaitNewChat
| AwaitChatStream (assistantMessageId : ElemId).

(** What [fetch('/chat-stream')] brings: a rejection (or any other exception
    raised before the first read), or a response with its status and its
    body, given as the decoded chunks -- the strings that
    [decoder.decode(value, {stream: true})] returns for the successive reads
    -- and the way the reads end. *)
Inductive StreamReply : Type :=
| FetchRejected (message : jsstring)
| Response (status : N) (chunks : list jsstring) (fin : StreamEnd).

(** The fields that the script reads from the JSON answer of [/new-chat].
    Chat ids and titles are strings; [data_response = None] is a missing
    response text. *)
Record NewChatData : Type := {
  data_error : JsValue;
  data_chat_id : jsstring;
  data_title : jsstring;
  data_response : option jsstring;
  data_memories_added : JsValue;
  data_memory_stats : JsValue
}.

(** A rejected [fetch] or [response.json()], or the parsed answer. *)
Inductive NewChatReply : Type :=
| NewChatRejected (message : jsstring)
| NewChatJson (data : NewChatData).

(** A rejected [fetch], or the status of the response. *)
Inductive DeleteReply : Type :=
| DeleteRejected (message : jsstring)
| DeleteResponse (status : N).

(** A stored message with the [Date.now()] and [Math.random()] drawn when
    it is rendered. *)
Record StoredMessage : Type := {
  msg_now : N;
  msg_random : N;
  msg_role : MessageType;
  msg_content : option jsstring
}.

(** A rejected request for [/chat/<id>], or its messages together with the
    [memory_stats] of [/memory-stats/<id>] ([None]: that request failed). *)
Inductive ChatReply : Type :=
| ChatRejected
| ChatJson (messages : list StoredMessage) (memory_stats : option JsValue).

Section Async.
Variable P : Platform.

(** The [finally] block shared by [sendMessage] and
    [createNewChatWithMessage]. *)
Definition release (s : State) : State :=
  set_modelStatus READY
    (set_sendButton_disabled false (set_isGenerating false s)).

(** [selectChat(chatId, title)] up to the [await] inside
    [loadChatMessages]. *)
Definition selectChat (chatId title_ : jsstring) (s : State) : State :=
  if is_current chatId (currentChatId s) then s
  else
    let s := set_currentChatId (Some chatId) s in
    let s := set_chatTitle title_ s in
    let s := set_chatList
               (map (set_active (fun item => streq (item_chatId item) chatId))
                  (chatList s)) s in
    fetch (GetChat chatId) s.

(** [loadChatMessages(chatId)] from the reply of [/chat/<id>] on (the
    reply of [/memory-stats/<id>] is folded into [ChatJson]; [None] there
    is a rejected request). *)
Definition loadChatMessages_resume (chatId : jsstring) (reply : ChatReply)
           (s : State) : State :=
  let failed := addErrorMessage (str "Failed to load chat messages") in
  match reply with
  | ChatRejected => failed s
  | ChatJson messages memory_stats =>
      let render :=
        fold_left
          (fun acc m =>
             match acc with
             | Normal s =>
                 addMessageToUI P (msg_now m) (msg_random m) (msg_role m)
                   (msg_content m) zero s
             | Throw _ _ => acc
             end) messages (Normal (set_messages [] s)) in
      match render with
      | Throw _ s => failed s
      | Normal s =>
          let s := fetch (GetMemoryStats chatId) s in
          match memory_stats with
          | None => failed s
          | Some stats =>
              if truthy stats
              then match updateMemoryDisplay P stats with
                   | Some _ => s
                   | None => failed s
                   end
              else s
          end
      end
  end.

(** The rest of [selectChat] once [loadChatMessages] has settled. *)
Definition selectChat_resume (chatId : jsstring) (reply : ChatReply)
           (s : State) : State :=
  set_emptyState DisplayNone (loadChatMessages_resume chatId reply s).

(** [createNewChat()] *)
Definition createNewChat (s : State) : State :=
  let s := set_currentChatId None s in
  let s := set_chatTitle NEW_CHAT s in
  let s := set_messages [NewChatReady] s in
  set_chatList (map (set_active (fun _ => false)) (chatList s)) s.

(** [createNewChatWithMessage(message)] up to [await fetch('/new-chat')]. *)
Definition createNewChatWithMessage_begin (now random : N)
           (message : jsstring) (s : State) : State * option Awaiting :=
  let s := set_messages [] s in
  match addMessageToUI P now random user (Some message) zero s with
  | Throw _ s => (s, None)
  | Normal s =>
      let s := set_messageInput [] s in
      let s := set_isGenerating true s in
      let s := set_sendButton_disabled true s in
      let s := set_modelStatus (str "Creating new chat...") s in
      (fetch (PostNewChat (trim message)) s, Some AwaitNewChat)
  end.

(** [createNewChatWithMessage] from the reply on; [iso] and [iso'] are the
    two [new Date().toISOString()] results. *)
Definition createNewChatWithMessage_resume (iso iso' : jsstring)
           (now random : N) (reply : NewChatReply) (s : State) : State :=
  let body : Completion :=
    match reply with
    | NewChatRejected message => Throw message s
    | NewChatJson data =>
        if truthy (data_error data)
        then match to_string P (data_error data) with
             | Some error => Normal (addErrorMessage error s)
             | None =>
                 Throw (type_error_message P (NotConvertible (data_error data)))
                   s
             end
        else
          let newChat := {| id := data_chat_id data;
                            title := data_title data;
                            created_at := iso; updated_at := iso' |} in
          let s := set_chats (newChat :: chats s) s in
          let s := renderChatList s in
          let s := selectChat (data_chat_id data) (data_title data) s in
          let memoriesAdded := if truthy (data_memories_added data)
                               then data_memories_added data else zero in
          match addMessageToUI P now random assistant (data_response data)
                  memoriesAdded s with
          | Throw message s => Throw message s
          | Normal s =>
              match updateMemoryDisplay P (data_memory_stats data) with
              | Some _ => Normal s
              | None =>
                  Throw (type_error_message P
                           (updateMemoryDisplay_error P (data_memory_stats data)))
                    s
              end
          end
    end in
  let s := match body with
           | Normal s => s
           | Throw message s =>
               addErrorMessage
                 (str "Failed to create new chat: " ++ message) s
           end in
  release s.

(** [sendMessage()] up to its first [await]; [now], [random] serve
    [addMessageToUI] and [now'] the streaming placeholder. *)
Definition sendMessage_begin (now random now' : N) (s : State)
  : State * option Awaiting :=
  let message := trim (messageInput s) in
  if match message with [] => true | _ => false end || isGenerating s
  then (s, None)
  else
    match currentChatId s with
    | None | Some [] => createNewChatWithMessage_begin now random message s
    | Some chat_id =>
        match addMessageToUI P now random user (Some message) zero s with
        | Throw _ s => (s, None)
        | Normal s =>
            let s := set_messageInput [] s in
            let (s, assistantMessageId) :=
              addStreamingMessagePlaceholder now' s in
            let s := set_isGenerating true s in
            let s := set_sendButton_disabled true s in
            let s := set_modelStatus (str "Generating...") s in
            (fetch (PostChatStream message chat_id) s,
             Some (AwaitChatStream assistantMessageId))
        end
    end.

(** The body of the frame loop: what is done with one complete line.  The
    handler state is [fullResponse] and the page. *)
Definition on_line (assistantMessageId : ElemId) (line : jsstring)
           (x : jsstring * State) : Flow (jsstring * State) :=
  let (fullResponse, s) := x in
  if startsWith (str "data: ") line then
    let data := slice 6 line in
    if streq data DONE then Return x
    else
      match JSON_parse P data with
      | None => Continue x
      | Some parsed =>
          match get (str "token") parsed with
          | None => Continue x
          | Some token =>
              if truthy token then
                match to_string P token with
                | None => Continue x
                | Some fragment =>
                    let fullResponse := fullResponse ++ fragment in
                    Continue
                      (fullResponse,
                       updateStreamingMessage assistantMessageId
                         fullResponse s)
                end
              else
                match get (str "memories_added") parsed with
                | None | Some JUndefined => Continue x
                | Some memories_added =>
                    match finalizeStreamingMessage P assistantMessageId
                            memories_added s with
                    | Throw _ s => Continue (fullResponse, s)
                    | Normal s =>
                        match get (str "memory_stats") parsed with
                        | Some stats =>
                            match updateMemoryDisplay P stats with
                            | Some _ | None => Continue (fullResponse, s)
                            end
                        | None => Continue (fullResponse, s)
                        end
                    end
                end
          end
      end
  else Continue x.

(** "Update chat in sidebar (move to top)" *)
Definition move_to_top (iso : jsstring) (s : State) : State :=
  match findIndex (fun c => is_current (id c) (currentChatId s)) (chats s) with
  | Some chatIndex =>
      match nth_error (chats s) chatIndex with
      | Some chat =>
          let rest := firstn chatIndex (chats s)
                        ++ skipn (S chatIndex) (chats s) in
          renderChatList (set_chats (touch iso chat :: rest) s)
      | None => s
      end
  | None => s
  end.

(** [sendMessage] from the reply of [/chat-stream] on: the [try] body,
    the [catch] and the [finally], when the reads of the body are answered
    one after the other and no other handler runs in between
    ([sendMessage_stream] below has the handlers that run in between). *)
Definition sendMessage_resume (iso : jsstring) (reply : StreamReply)
           (assistantMessageId : ElemId) (s : State) : State :=
  let body : Completion :=
    match reply with
    | FetchRejected message => Throw message s
    | Response status chunks fin =>
        if negb (response_ok status)
        then Throw (str "HTTP " ++ decimal status) s
        else
          match read_loop (on_line assistantMessageId) chunks fin [] ([], s) with
          | ExitReturn (_, s) => Normal s
          | ExitBreak _ (_, s) => Normal (move_to_top iso s)
          | ExitThrow message (_, s) => Throw message s
          end
    end in
  let s := match body with
           | Normal s => s
           | Throw message s =>
               addErrorMessage (str "Connection error: " ++ message)
                 (removeMessage assistantMessageId s)
           end in
  release s.

(** [deleteChat(chatId)]: the [confirm] dialog and the request. *)
Definition deleteChat_begin (confirmed : bool) (chatId : jsstring)
           (s : State) : State :=
  if confirmed then fetch (DeleteChat chatId) s else s.

(** [deleteChat] from the reply on (the [alert]s of the failure branches
    leave the page as it is). *)
Definition deleteChat_resume (chatId : jsstring) (reply : DeleteReply)
           (s : State) : State :=
  match reply with
  | DeleteRejected _ => s
  | DeleteResponse status =>
      if response_ok status then
        let s := set_chats
                   (filter (fun c => negb (streq (id c) chatId)) (chats s))
                   s in
        let s := renderChatList s in
        if is_current chatId (currentChatId s) then
          let s := set_currentChatId None s in
          let s := set_chatTitle APP_TITLE s in
          let s := set_messages [] s in
          set_emptyState DisplayFlex s
        else s
      else s
  end.

(** [loadChatList()] from the reply on: [chats = data.chats || []]. *)
Definition loadChatList_resume (reply : option (option (list Chat)))
           (s : State) : State :=
  match reply with
  | None => s
  | Some data_chats =>
      renderChatList
        (set_chats (match data_chats with Some l => l | None => [] end) s)
  end.

(** *** A send run to completion *)

(** Everything a run of [sendMessage] draws from outside the page. *)
Record Env : Type := {
  env_now : N;
  env_random : N;
  env_stream_now : N;
  env_reply_now : N;
  env_reply_random : N;
  env_iso : jsstring;
  env_iso' : jsstring;
  env_stream : StreamReply;
  env_new_chat : NewChatReply
}.

Definition sendMessage (env : Env) (s : State) : State :=
  match sendMessage_begin (env_now env) (env_random env)
          (env_stream_now env) s with
  | (s, None) => s
  | (s, Some AwaitNewChat) =>
      createNewChatWithMessage_resume (env_iso env) (env_iso' env)
        (env_reply_now env) (env_reply_random env) (env_new_chat env) s
  | (s, Some (AwaitChatStream assistantMessageId)) =>
      sendMessage_resume (env_iso env) (env_stream env)
        assistantMessageId s
  end.

(** *** What can happen on the page while a call is suspended *)

Inductive Action : Type :=
| TypeText (text : jsstring)
| ClickChat (chatId title_ : jsstring)
| ChatArrived (chatId : jsstring) (reply : ChatReply)
| ClickNewChat
| ClickDelete (confirmed : bool) (chatId : jsstring)
| DeleteArrived (chatId : jsstring) (reply : DeleteReply)
| ChatsArrived (reply : option (option (list Chat)))
| PressSend (now random now' : N).

Definition perform (a : Action) (s : State) : State :=
  match a with
  | TypeText text => set_messageInput text s
  | ClickChat chatId title_ => selectChat chatId title_ s
  | ChatArrived chatId reply => selectChat_resume chatId reply s
  | ClickNewChat => createNewChat s
  | ClickDelete confirmed chatId => deleteChat_begin confirmed chatId s
  | DeleteArrived chatId reply => deleteChat_resume chatId reply s
  | ChatsArrived reply => loadChatList_resume reply s
  | PressSend now random now' => fst (sendMessage_begin now random now' s)
  end.

(** *** A stream read while the page goes on

    [sendMessage] is suspended at every [await reader.read()].  Until the
    read is answered any other handler may run on the page; the receive
    buffer and the response text are locals of the suspended call, out of
    the reach of the other handlers. *)
Inductive Event : Type :=
| Read (chunk : jsstring)
| Meanwhile (a : Action).

(** The chunks among the events, in arrival order. *)
Definition reads (events : list Event) : list jsstring :=
  flat_map (fun e => match e with
                     | Read chunk => [chunk]
                     | Meanwhile _ => []
                     end) events.

(** The [while (true)] loop over what happens while the body is read: a
    chunk is appended to the buffer and the complete frames are handled
    without a break; a handler that runs while the call is suspended changes
    the page only.  [Pending]: the loop is suspended at a read. *)
Fixpoint reading (assistantMessageId : ElemId) (events : list Event)
         (buffer : jsstring) (x : jsstring * State)
  : Drained (jsstring * State) :=
  match events with
  | [] => Pending buffer x
  | Read chunk :: rest =>
      match drain (on_line assistantMessageId) (buffer ++ chunk) x with
      | Returned x' => Returned x'
      | Pending buffer' x' => reading assistantMessageId rest buffer' x'
      end
  | Meanwhile a :: rest =>
      reading assistantMessageId rest buffer (fst x, perform a (snd x))
  end.

(** [sendMessage] from the response of [/chat-stream] on, with what happens
    on the page while the body is read; [fin] is how the read after the
    last event ends. *)
Definition sendMessage_stream (iso : jsstring) (status : N)
           (events : list Event) (fin : StreamEnd)
           (assistantMessageId : ElemId) (s : State) : State :=
  let body : Completion :=
    if negb (response_ok status)
    then Throw (str "HTTP " ++ decimal status) s
    else
      match reading assistantMessageId events [] ([], s) with
      | Returned (_, s) => Normal s
      | Pending _ (_, s) =>
          match fin with
          | EndOfStream => Normal (move_to_top iso s)
          | ReadFailed message => Throw message s
          end
      end in
  let s := match body with
           | Normal s => s
           | Throw message s =>
               addErrorMessage (str "Connection error: " ++ message)
                 (removeMessage assistantMessageId s)
           end in
  release s.
End Async.

End Client.
Import Client.

(* ================================================================= *)
(** ** A reference platform

    A [JSON.parse] by recursive descent and plain stand-ins for the DOM
    readers, used to run the handlers on concrete replies.  Numbers are kept
    exact (they are not rounded to a double) and are rendered only when they
    are integers. *)

Module Reference.

Fixpoint skip_ws (s : jsstring) : jsstring :=
  match s with
  | c :: s' =>
      if (c =? 32)%N || (c =? 9)%N || (c =? 10)%N || (c =? 13)%N
      then skip_ws s' else s
  | [] => []
  end.

Definition hex_digit (c : N) : option N :=
  if (48 <=? c)%N && (c <=? 57)%N then Some (c - 48)%N
  else if (65 <=? c)%N && (c <=? 70)%N then Some (c - 55)%N
  else if (97 <=? c)%N && (c <=? 102)%N then Some (c - 87)%N
  else None.

(** The characters of a string literal after its opening quote. *)
Fixpoint string_body (s acc : jsstring) : option (jsstring * jsstring) :=
  match s with
  | [] => None
  | 34%N :: rest => Some (acc, rest)
  | 92%N :: 117%N :: a :: b :: c :: d :: rest =>
      match hex_digit a, hex_digit b, hex_digit c, hex_digit d with
      | Some a, Some b, Some c, Some d =>
          string_body rest (acc ++ [((a * 16 + b) * 16 + c) * 16 + d])%N
      | _, _, _, _ => None
      end
  | 92%N :: e :: rest =>
      let unit :=
        if (e =? 34)%N then Some 34%N else if (e =? 92)%N then Some 92%N
        else if (e =? 47)%N then Some 47%N else if (e =? 98)%N then Some 8%N
        else if (e =? 102)%N then Some 12%N else if (e =? 110)%N then Some 10%N
        else if (e =? 114)%N then Some 13%N else if (e =? 116)%N then Some 9%N
        else None in
      match unit with
      | Some u => string_body rest (acc ++ [u])
      | None => None
      end
  | c :: rest =>
      if (c <? 32)%N || (c =? 92)%N then None
      else string_body rest (acc ++ [c])
  end.

Definition is_digit (c : N) : bool := (48 <=? c)%N && (c <=? 57)%N.

Fixpoint digits (s : jsstring) (acc : N) (n : nat) : N * nat * jsstring :=
  match s with
  | c :: s' =>
      if is_digit c then digits s' (acc * 10 + (c - 48))%N (S n)
      else (acc, n, s)
  | [] => (acc, n, [])
  end.

(** [-? int frac? exp?] as an exact rational. *)
Definition number (s : jsstring) : option (Num * jsstring) :=
  let (neg, s) := match s with
                  | 45%N :: s' => (true, s')
                  | _ => (false, s)
                  end in
  let '(int_, n, s1) := digits s 0%N 0 in
  let leading_zero := match s with
                      | 48%N :: _ => negb (n =? 1)
                      | _ => false
                      end in
  if (n =? 0) || leading_zero then None
  else
    let frac :=
      match s1 with
      | 46%N :: s2 =>
          let '(m, k, s3) := digits s2 int_ 0 in
          if k =? 0 then None else Some (m, k, s3)
      | _ => Some (int_, 0, s1)
      end in
    match frac with
    | None => None
    | Some (mant, k, s3) =>
        let expo :=
          match s3 with
          | c :: s4 =>
              if (c =? 101)%N || (c =? 69)%N then
                let (eneg, s5) := match s4 with
                                  | 45%N :: s' => (true, s')
                                  | 43%N :: s' => (false, s')
                                  | _ => (false, s4)
                                  end in
                let '(e, j, s6) := digits s5 0%N 0 in
                if j =? 0 then None
                else Some (if eneg then (- Z.of_N e)%Z else Z.of_N e, s6)
              else Some (0%Z, s3)
          | [] => Some (0%Z, [])
          end in
        match expo with
        | None => None
        | Some (e, rest) =>
            let e := (e - Z.of_nat k)%Z in
            let m := (if neg then - Z.of_N mant else Z.of_N mant)%Z in
            let q := if (0 <=? e)%Z
                     then Qmake (m * 10 ^ e) 1
                     else Qmake m (Z.to_pos (10 ^ (- e))) in
            Some (Finite q, rest)
        end
    end.

Fixpoint value (fuel : nat) (s : jsstring) {struct fuel}
  : option (JsValue * jsstring) :=
  match fuel with
  | O => None
  | S f =>
      match skip_ws s with
      | 91%N :: r =>
          match skip_ws r with
          | 93%N :: r' => Some (JArr [], r')
          | _ =>
              (fix elements (k : nat) (r : jsstring) (acc : list JsValue)
                 {struct k} : option (JsValue * jsstring) :=
                 match k with
                 | O => None
                 | S k' =>
                     match value f r with
                     | Some (v, r1) =>
                         match skip_ws r1 with
                         | 44%N :: r2 => elements k' r2 (acc ++ [v])
                         | 93%N :: r2 => Some (JArr (acc ++ [v]), r2)
                         | _ => None
                         end
                     | None => None
                     end
                 end) (length r) r []
          end
      | 123%N :: r =>
          match skip_ws r with
          | 125%N :: r' => Some (JObj [], r')
          | _ =>
              (fix members (k : nat) (r : jsstring)
                 (acc : list (jsstring * JsValue)) {struct k}
                 : option (JsValue * jsstring) :=
                 match k with
                 | O => None
                 | S k' =>
                     match skip_ws r with
                     | 34%N :: r0 =>
                         match string_body r0 [] with
                         | Some (key, r1) =>
                             match skip_ws r1 with
                             | 58%N :: r2 =>
                                 match value f r2 with
                                 | Some (v, r3) =>
                                     match skip_ws r3 with
                                     | 44%N :: r4 =>
                                         members k' r4 (acc ++ [(key, v)])
                                     | 125%N :: r4 =>
                                         Some (JObj (acc ++ [(key, v)]), r4)
                                     | _ => None
                                     end
                                 | None => None
                                 end
                             | _ => None
                             end
                         | None => None
                         end
                     | _ => None
                     end
                 end) (length r) r []
          end
      | 34%N :: r =>
          match string_body r [] with
          | Some (str_, r') => Some (JStr str_, r')
          | None => None
          end
      | 116%N :: 114%N :: 117%N :: 101%N :: r => Some (JBool true, r)
      | 102%N :: 97%N :: 108%N :: 115%N :: 101%N :: r => Some (JBool false, r)
      | 110%N :: 117%N :: 108%N :: 108%N :: r => Some (JNull, r)
      | r => match number r with
             | Some (n, r') => Some (JNum n, r')
             | None => None
             end
      end
  end.

Definition parse (s : jsstring) : option JsValue :=
  match value (S (length s)) s with
  | Some (v, rest) => match skip_ws rest with [] => Some v | _ => None end
  | None => None
  end.

Definition render_number (n : Num) : jsstring :=
  match n with
  | PlusInfinity => str "Infinity"
  | MinusInfinity => str "-Infinity"
  | Finite q =>
      let z := (Qnum q / Zpos (Qden q))%Z in
      if (z <? 0)%Z then str "-" ++ decimal (Z.to_N (- z))
      else decimal (Z.to_N z)
  end.

(** Whether a string is a positive decimal integer literal. *)
Definition positive_literal (s : jsstring) : bool :=
  let '(v, n, rest) := digits (trim s) 0%N 0 in
  negb (n =? 0) && match rest with [] => (0 <? v)%N | _ => false end.

(** Markup with its tags dropped. *)
Fixpoint strip_tags (inside : bool) (s : jsstring) : jsstring :=
  match s with
  | [] => []
  | c :: s' =>
      if (c =? 60)%N then strip_tags true s'
      else if (c =? 62)%N then strip_tags false s'
      else if inside then strip_tags inside s'
      else c :: strip_tags inside s'
  end.

Definition platform : Platform :=
  {| JSON_parse := parse;
     number_to_string := render_number;
     string_is_positive := positive_literal;
     innerHTML_of := fun html => html;
     textContent_of := strip_tags false;
     innerText_of := strip_tags false;
     type_error_message :=
       fun cause =>
         match cause with
         | NotConvertible _ => str "Cannot convert object to primitive value"
         | PropertyOfMissing base property =>
             str "Cannot read properties of "
               ++ match base with JNull => str "null" | _ => str "undefined" end
               ++ str " (reading '" ++ property ++ str "')"
         end |}.

End Reference.

(* ================================================================= *)
(** ** Observations on runs, and a sample session *)

Module Observations.

(** The text a line contributes to the response when it is a token event:
    a [data: ] line, not the end marker, whose JSON has a truthy [token]
    that converts to a string. *)
Definition fragment_of (P : Platform) (line : jsstring) : option jsstring :=
  if startsWith (str "data: ") line then
    if streq (slice 6 line) DONE then None
    else match JSON_parse P (slice 6 line) with
         | Some parsed =>
             match get (str "token") parsed with
             | Some token => if truthy token then to_string P token else None
             | None => None
             end
         | None => None
         end
  else None.

(** The fragments of a sequence of lines, in order. *)
Definition fragments (P : Platform) (lines : list jsstring) : list jsstring :=
  flat_map (fun line => match fragment_of P line with
                        | Some fragment => [fragment]
                        | None => []
                        end) lines.

(** The markup shown in the message element with id [i]. *)
Definition displayed (i : ElemId) (s : State) : option jsstring :=
  option_map e_content (getElementById i (messagesContainer s)).

Definition present (i : ElemId) (s : State) : Prop :=
  getElementById i (messagesContainer s) <> None.

(** Number of error messages in the conversation pane. *)
Definition is_error_node (n : Node) : bool :=
  match n with
  | MessageDiv e => e_error e
  | NewChatReady => false
  end.

Definition errors (s : State) : nat :=
  length (filter is_error_node (messagesContainer s)).

(** Two states that differ at most in the conversation pane. *)
Definition same_outside_pane (s s' : State) : Prop :=
  currentChatId s' = currentChatId s /\ chats s' = chats s
  /\ isGenerating s' = isGenerating s /\ messageInput s' = messageInput s
  /\ sendButton_disabled s' = sendButton_disabled s
  /\ chatList s' = chatList s /\ chatTitle s' = chatTitle s
  /\ modelStatus s' = modelStatus s /\ emptyState s' = emptyState s
  /\ requests s' = requests s.

(** What handling a frame may touch: the element with id [i] stays in the
    pane, no error message appears or disappears, and nothing outside the
    pane changes. *)
Definition pane_step (i : ElemId) (s s' : State) : Prop :=
  (present i s -> present i s')
  /\ errors s' = errors s
  /\ same_outside_pane s s'.

(** A Turn for chat [chat_id] is in flight: its request has gone out and the
    page has not been released since. *)
Definition turn_in_flight (chat_id : jsstring) (s : State) : Prop :=
  isGenerating s = true
  /\ exists message, In (PostChatStream message chat_id) (requests s).

(** The reading of the in-flight guard as a lock per session: with a Turn for
    [a] in flight, a send for another chat [b] proceeds. *)
Definition guard_is_per_session (P : Platform) : Prop :=
  forall (s : State) (a b : jsstring) (now random now' : N),
    a <> b -> turn_in_flight a s ->
    currentChatId s = Some b -> b <> [] -> trim (messageInput s) <> [] ->
    snd (sendMessage_begin P now random now' s) <> None.

(** The reading of the guard as an announced rejection: a send for a chat
    whose Turn is in flight changes something the user can see. *)
Definition busy_is_reported (P : Platform) : Prop :=
  forall (s : State) (a : jsstring) (now random now' : N),
    turn_in_flight a s ->
    currentChatId s = Some a -> trim (messageInput s) <> [] ->
    fst (sendMessage_begin P now random now' s) <> s.



(** Two states of a suspended [sendMessage] call with the same response
    text and the same conversation pane. *)
Definition same_text_and_pane (x y : jsstring * State) : Prop :=
  fst x = fst y /\ messagesContainer (snd x) = messagesContainer (snd y).

(** What happens while a body is read and leaves the conversation pane as
    it is: a read, typing, the selection of a chat (its messages arrive
    later), a request for a deletion, the arrival of the chat list. *)
Definition leaves_pane (e : Event) : bool :=
  match e with
  | Read _ => true
  | Meanwhile (TypeText _) | Meanwhile (ClickChat _ _)
  | Meanwhile (ClickDelete _ _) | Meanwhile (ChatsArrived _) => true
  | Meanwhile _ => false
  end.


(** Where a code unit of formatted output comes from: the text handed to
    [formatMessage] (copied, or written for it by the escaping step), or
    the markup written by a formatting pass. *)
Inductive Origin : Type := FromText | FromMarkup.

Definition Traced : Type := (Origin * N)%type.

(** [formatMessage] run on units that carry their origin. *)
Definition formatMessage_traced (text : jsstring) : list Traced :=
  formatMessage_on snd (pair FromText) (pair FromMarkup)
    (map (pair FromText) text).

(** The entity written for one code unit. *)
Definition escape_unit (c : N) : jsstring :=
  if (38 =? c)%N then str "&amp;"
  else if (60 =? c)%N then str "&lt;"
  else if (62 =? c)%N then str "&gt;"
  else if (34 =? c)%N then str "&quot;"
  else if (39 =? c)%N then str "&#x27;"
  else [c].

(** The characters that the escaping step rewrites. *)
Definition is_special (c : N) : bool :=
  (38 =? c)%N || (60 =? c)%N || (62 =? c)%N || (34 =? c)%N || (39 =? c)%N.

(** A code unit that is none of [<], [>], the double and the single quote. *)
Definition inert (c : N) : Prop :=
  c <> 60%N /\ c <> 62%N /\ c <> 34%N /\ c <> 39%N.

(** *** A sample session: two chats, the second one selected *)

Definition chatA : Chat :=
  {| id := str "A"; title := str "Alpha";
     created_at := str "2024-01-01T00:00:00.000Z";
     updated_at := str "2024-01-01T00:00:00.000Z" |}.

Definition chatB : Chat :=
  {| id := str "B"; title := str "Beta";
     created_at := str "2024-01-02T00:00:00.000Z";
     updated_at := str "2024-01-02T00:00:00.000Z" |}.

Definition page0 : State :=
  renderChatList
    {| currentChatId := Some (str "B"); chats := [chatA; chatB];
       isGenerating := false; messagesContainer := [];
       messageInput := str "hello"; sendButton_disabled := false;
       chatList := []; chatTitle := str "Beta"; modelStatus := READY;
       emptyState := DisplayNone; requests := [] |}.

(** [data: {"token":"<text>"}] followed by the frame boundary *)
Definition token_frame (text : string) : jsstring :=
  str "data: {" ++ [DQUOTE] ++ str "token" ++ [DQUOTE] ++ str ":"
    ++ [DQUOTE] ++ str text ++ [DQUOTE] ++ str "}" ++ boundary.

Definition done_frame : jsstring := str "data: [DONE]" ++ boundary.

Definition NOW : jsstring := str "2024-01-03T00:00:00.000Z".

Definition env_of (reply : StreamReply) : Env :=
  {| env_now := 1; env_random := 2; env_stream_now := 3;
     env_reply_now := 4; env_reply_random := 5;
     env_iso := NOW; env_iso' := NOW;
     env_stream := reply;
     env_new_chat := NewChatRejected (str "Failed to fetch") |}.

(** The page while a Turn for chat B is in flight: the send has gone out
    and its reply is awaited. *)
Definition page_in_flight : State :=
  fst (sendMessage_begin Reference.platform 1 2 3 page0).

End Observations.
Import Observations.

(* ================================================================= *)
(** ** Further observations: where a pattern can match, frames on the
    wire, and conditions that the page keeps *)

Module Conditions.

(** *** Where a pattern can match *)

(** A necessary condition for [r] to match at a position, read off the
    front of the pattern: [prev] is the unit before the position and [rest]
    the input from it on. *)
Fixpoint can_start (ml : bool) (r : regex) (prev : option N)
         (rest : jsstring) {struct r} : bool :=
  match r with
  | Eps | Eol => true
  | Chr p => match rest with u :: _ => p u | [] => false end
  | Seq a b =>
      match a with
      | Chr p =>
          match rest with
          | u :: rest' => p u && can_start ml b (Some u) rest'
          | [] => false
          end
      | Eps | Bol | Eol => can_start ml a prev rest && can_start ml b prev rest
      | _ => can_start ml a prev rest
      end
  | Alt a b => can_start ml a prev rest || can_start ml b prev rest
  | Rep min max _ a =>
      match min, max with
      | O, _ => true
      | _, Some O => true
      | _, _ => can_start ml a prev rest
      end
  | Group _ a | Look a => can_start ml a prev rest
  | Bol =>
      match prev with
      | None => true
      | Some c => ml && is_line_terminator c
      end
  end.

(** The matcher state after the unit [u], and after the units of [l]. *)
Definition step_over (u : N) (x : mstate) : mstate :=
  {| m_prev := Some u; m_rest := tl (m_rest x); m_pos := S (m_pos x);
     m_caps := m_caps x |}.

Fixpoint advance (l : jsstring) (x : mstate) : mstate :=
  match l with
  | [] => x
  | u :: l' => advance l' (step_over u x)
  end.

(** No position of [l], the end included, passes the test [g]. *)
Fixpoint unguarded (g : option N -> jsstring -> bool) (prev : option N)
         (l : jsstring) : bool :=
  negb (g prev l)
  && match l with
     | [] => true
     | c :: l' => unguarded g (Some c) l'
     end.

(** *** Text without formatting marks *)

(** A position at the start of a line, for a pattern with the [m] flag. *)
Definition at_line_start (prev : option N) : bool :=
  match prev with
  | None => true
  | Some c => is_line_terminator c
  end.

(** No line of [s] begins with [prefix]. *)
Definition line_free (prefix : jsstring) (prev : option N) (s : jsstring)
  : bool :=
  unguarded (fun prev l => at_line_start prev && startsWith prefix l) prev s.

(** The prefixes that the heading and list passes look for. *)
Definition line_marks : list jsstring :=
  [str "### "; str "## "; str "# "; str "- "].

(** Text with no backtick, no asterisk, and no line that begins with a
    heading or list prefix. *)
Definition mark_free (s : jsstring) : bool :=
  forallb (fun c => negb ((96 =? c)%N || (42 =? c)%N)) s
  && forallb (fun prefix => line_free prefix None s) line_marks.

(** Text of one line with no backtick and no asterisk. *)
Definition one_line_plain (s : jsstring) : bool :=
  forallb (fun c => negb (is_line_terminator c || (96 =? c)%N || (42 =? c)%N))
    s.

(** [lines.join(sep)] *)
Fixpoint joined (sep : jsstring) (lines : list jsstring) : jsstring :=
  match lines with
  | [] => []
  | l :: lines' =>
      match lines' with
      | [] => l
      | _ :: _ => l ++ sep ++ joined sep lines'
      end
  end.

(** What follows a line: nothing, or a line feed and further text. *)
Definition line_end (tail : jsstring) : Prop :=
  tail = [] \/ exists t, tail = LF :: t.

(** The three lines of the element that the code-block pass writes. *)
Definition code_block_lines (compact : bool) (code : jsstring)
  : list jsstring :=
  [str "<div class=" ++ [DQUOTE] ++ str "code-block"
     ++ (if compact then str " compact" else []) ++ [DQUOTE] ++ str ">";
   spaces 20 ++ str "<pre><code>" ++ code ++ str "</code></pre>";
   spaces 16 ++ str "</div>"].

(** What one unit of mark-free text becomes. *)
Definition render_unit (c : N) : jsstring :=
  if (LF =? c)%N then str "<br>" else escape_unit c.

(** *** Frames on the wire *)

(** A sequence of lines as the server writes them: each followed by a
    blank line. *)
Definition wire (lines : list jsstring) : jsstring :=
  flat_map (fun line => line ++ boundary) lines.

(** [data: {"token":"<text>"}], a token event as a line *)
Definition token_line (text : string) : jsstring :=
  str "data: {" ++ [DQUOTE] ++ str "token" ++ [DQUOTE] ++ str ":"
    ++ [DQUOTE] ++ str text ++ [DQUOTE] ++ str "}".

(** The end marker as a line *)
Definition done_line : jsstring := str "data: [DONE]".

(** *** Conditions on the page *)

(** The sidebar shows the [chats] array, with the active mark on the
    entries of the current chat. *)
Definition sidebar_in_sync (s : State) : Prop :=
  chatList s = chatList (renderChatList s).

(** The send button is disabled exactly while [isGenerating] is up. *)
Definition lock_in_sync (s : State) : Prop :=
  sendButton_disabled s = isGenerating s.

(** Two states with the same globals, sidebar and send button. *)
Definition same_lists_and_lock (s s' : State) : Prop :=
  currentChatId s' = currentChatId s /\ chats s' = chats s
  /\ chatList s' = chatList s /\ isGenerating s' = isGenerating s
  /\ sendButton_disabled s' = sendButton_disabled s.

(** The sidebar entry of a chat, marked or not. *)
Definition item_of (active : bool) (chat : Chat) : ChatItem :=
  {| item_chatId := id chat; item_title := title chat;
     item_updated_at := updated_at chat; item_active := active |}.



(** The element that [addMessageToUI] builds for the user's message. *)
Definition user_node (now random : N) (message : jsstring) : Node :=
  MessageDiv
    {| e_id := MsgId now random; e_type := user; e_avatar := AvatarUser;
       e_content := formatMessage (Some message);
       e_short := is_short message; e_error := false; e_streaming := false;
       e_memory := [] |}.

(** The element that [addStreamingMessagePlaceholder] builds. *)
Definition placeholder_node (now : N) : Node :=
  MessageDiv
    {| e_id := StreamId now; e_type := assistant; e_avatar := AvatarLlama;
       e_content := [LF] ++ spaces 24 ++ cursor ++ [LF] ++ spaces 20;
       e_short := false; e_error := false; e_streaming := true;
       e_memory := [] |}.

(** The element that [addErrorMessage] builds. *)
Definition error_node (error : jsstring) : Node :=
  MessageDiv
    {| e_id := NoId; e_type := assistant; e_avatar := AvatarWarning;
       e_content := [LF] ++ spaces 24 ++ str "Error: " ++ error
                      ++ [LF] ++ spaces 20;
       e_short := false; e_error := true; e_streaming := false;
       e_memory := [] |}.

(** The request that a send issues for a message: a Turn of the current
    chat, or the creation of a chat when none is current. *)
Definition request_for (current : option jsstring) (message : jsstring)
  : Request :=
  match current with
  | Some (c :: chat_id) => PostChatStream message (c :: chat_id)
  | _ => PostNewChat message
  end.


End Conditions.
Import Conditions.

(* ================================================================= *)
(** * Properties *)

Unset Implicit Arguments.

Ltac break_match :=
  match goal with
  | [ |- context [match ?e with _ => _ end] ] => destruct e eqn:?
  | [ H : context [match ?e with _ => _ end] |- _ ] => destruct e eqn:?
  end.

(** Steps shared by the proofs about single marked spans. *)
Ltac tag_units :=
  repeat (constructor;
          [repeat split; try reflexivity; try discriminate|]);
  try constructor.

Ltac tagged_units Hb :=
  apply Forall_app; split; [tag_units|];
  apply Forall_app; split; [exact Hb|tag_units].

Ltac line_pass Hline p :=
  match goal with
  | |- context [replace_g ?c true (re_line (str p)) ?f ?t] =>
      replace (replace_g c true (re_line (str p)) f t) with t
        by (symmetry; apply Hline; unfold line_marks; cbn [In]; tauto)
  end.

Ltac final_passes Hline Hl1 Hl2 Hlf :=
  try line_pass Hline "### "%string; try line_pass Hline "## "%string;
  try line_pass Hline "# "%string; line_pass Hline "- "%string;
  rewrite Hl1, Hl2, Hlf.

Ltac units H tac :=
  repeat first [ exact H | apply Forall_nil | apply Forall_app; split
               | apply Forall_cons; [solve [tac]|] ].

Ltac line_units H tac :=
  unfold code_block_lines;
  apply Forall_cons; [units H tac|];
  apply Forall_cons; [units H tac|];
  apply Forall_cons; [units H tac|apply Forall_nil].

(** ** Strings *)

Lemma startsWith_length : forall p s,
  startsWith p s = true -> length p <= length s.
Proof.
  induction p as [|x p IH]; intros [|y s] H; simpl in *; try lia; try discriminate.
  apply andb_true_iff in H. destruct H as [_ H]. apply IH in H. lia.
Qed.

Lemma startsWith_app_long : forall p s t,
  length p <= length s -> startsWith p (s ++ t) = startsWith p s.
Proof.
  induction p as [|x p IH]; intros [|y s] t H; simpl in *; try reflexivity; try lia.
  rewrite IH by lia. reflexivity.
Qed.

Lemma indexOf_bound : forall p s i,
  indexOf p s = Some i -> i + length p <= length s.
Proof.
  intros p s. induction s as [|c s IH]; intros i H.
  - simpl in H. destruct (startsWith p []) eqn:E; [|discriminate].
    inversion H; subst. apply startsWith_length in E. simpl in *. lia.
  - simpl in H. destruct (startsWith p (c :: s)) eqn:E.
    + inversion H; subst. apply startsWith_length in E. simpl in *. lia.
    + destruct (indexOf p s) as [j|] eqn:Ej; [|discriminate].
      simpl in H. inversion H; subst. specialize (IH j eq_refl). simpl. lia.
Qed.

Lemma indexOf_app : forall p s t i,
  indexOf p s = Some i -> indexOf p (s ++ t) = Some i.
Proof.
  intros p s t. induction s as [|c s IH]; intros i H.
  - simpl in H. destruct (startsWith p []) eqn:E; [|discriminate].
    inversion H; subst.
    destruct p; [|discriminate]. destruct t; reflexivity.
  - pose proof (indexOf_bound _ _ _ H) as Hb.
    assert (startsWith p (c :: s ++ t) = startsWith p (c :: s)) as Hs
      by (apply (startsWith_app_long p (c :: s) t); lia).
    change ((c :: s) ++ t) with (c :: (s ++ t)).
    cbn [indexOf] in *. rewrite Hs.
    destruct (startsWith p (c :: s)); [exact H|].
    destruct (indexOf p s) as [j|] eqn:Ej; [|discriminate].
    rewrite (IH j eq_refl). exact H.
Qed.

(** ** The matcher *)

Lemma reach_refl : forall x, reach x x.
Proof. intros x. split; reflexivity. Qed.

Lemma reach_trans : forall x y z, reach x y -> reach y z -> reach x z.
Proof. intros x y z [H1 H2] [H3 H4]. split; lia. Qed.

Lemma repeat_loop_local : forall m gs greedy fuel min max,
  local m -> local (fun k x => repeat_loop m gs greedy k fuel min max x).
Proof.
  intros m gs greedy fuel. induction fuel as [|fuel IH];
    intros min max Hm k k' x Hk; [reflexivity|].
  cbn [repeat_loop].
  assert (k x = k' x) as Hx by (apply Hk, reach_refl).
  assert (m (fun y =>
               if (min =? 0) && (m_pos y =? m_pos x) then None
               else repeat_loop m gs greedy k fuel (pred min)
                      (option_map pred max) y) (clear_caps gs x)
          = m (fun y =>
                 if (min =? 0) && (m_pos y =? m_pos x) then None
                 else repeat_loop m gs greedy k' fuel (pred min)
                        (option_map pred max) y) (clear_caps gs x)) as Hd.
  { apply Hm. intros y Hy.
    destruct ((min =? 0) && (m_pos y =? m_pos x)); [reflexivity|].
    apply (IH (pred min) (option_map pred max) Hm). intros z Hz.
    apply Hk. apply (reach_trans x y z); [exact Hy|exact Hz]. }
  destruct max as [[|n]|]; [exact Hx| |]; rewrite Hd, Hx; reflexivity.
Qed.

Lemma rmatch_local : forall ml r, local (rmatch ml r).
Proof.
  intros ml. unfold local.
  induction r as [|p|a IHa b IHb|a IHa b IHb|min max greedy a IHa|n a IHa
                 | | |a IHa]; intros k k' x Hk; cbn [rmatch].
  - apply Hk, reach_refl.
  - destruct (m_rest x) as [|c rest] eqn:E; [reflexivity|].
    destruct (p c); [|reflexivity]. apply Hk. split; simpl; [lia|].
    rewrite E. simpl. lia.
  - apply IHa. intros y Hy. apply IHb. intros z Hz.
    apply Hk, (reach_trans x y z); assumption.
  - rewrite (IHa k k' x Hk), (IHb k k' x Hk). reflexivity.
  - apply (repeat_loop_local (rmatch ml a) (groups a) greedy
             (S (min + length (m_rest x))) min max IHa k k' x Hk).
  - apply IHa. intros y Hy. apply Hk. exact Hy.
  - rewrite (Hk x (reach_refl x)). reflexivity.
  - rewrite (Hk x (reach_refl x)). reflexivity.
  - destruct (rmatch ml a Some x); [|reflexivity]. apply Hk.
    split; reflexivity.
Qed.

(** The fuel of the iteration is never used up: with any fuel above [min]
    plus the length of the remaining input the loop gives the same result. *)
Lemma repeat_loop_fuel : forall m gs greedy,
  local m ->
  forall fuel fuel' min max k x,
    min + length (m_rest x) < fuel -> min + length (m_rest x) < fuel' ->
    repeat_loop m gs greedy k fuel min max x
    = repeat_loop m gs greedy k fuel' min max x.
Proof.
  intros m gs greedy Hm. induction fuel as [|fuel IH];
    intros fuel' min max k x H H'; [lia|].
  destruct fuel' as [|fuel']; [lia|]. cbn [repeat_loop].
  assert (m (fun y =>
               if (min =? 0) && (m_pos y =? m_pos x) then None
               else repeat_loop m gs greedy k fuel (pred min)
                      (option_map pred max) y) (clear_caps gs x)
          = m (fun y =>
                 if (min =? 0) && (m_pos y =? m_pos x) then None
                 else repeat_loop m gs greedy k fuel' (pred min)
                        (option_map pred max) y) (clear_caps gs x)) as Hd.
  { apply Hm. intros y [Hy1 Hy2]. simpl in Hy1, Hy2.
    destruct (min =? 0) eqn:Emin; simpl.
    - apply Nat.eqb_eq in Emin. subst min.
      destruct (m_pos y =? m_pos x) eqn:Epos; [reflexivity|].
      apply Nat.eqb_neq in Epos. apply IH; simpl; lia.
    - apply Nat.eqb_neq in Emin. apply IH; lia. }
  destruct max as [[|n]|]; [reflexivity| |]; rewrite Hd; reflexivity.
Qed.

(** So a quantified atom is matched as with unbounded iteration. *)
Lemma rmatch_rep_fuel : forall ml min max greedy a k x fuel,
  min + length (m_rest x) < fuel ->
  repeat_loop (rmatch ml a) (groups a) greedy k fuel min max x
  = rmatch ml (Rep min max greedy a) k x.
Proof.
  intros ml min max greedy a k x fuel H. cbn [rmatch].
  apply repeat_loop_fuel; [apply rmatch_local|exact H|lia].
Qed.

(** ** Framing *)

Lemma frames_fuel_enough : forall fuel buffer,
  length buffer <= fuel -> frames_fuel fuel buffer = frames buffer.
Proof.
  unfold frames.
  induction fuel as [fuel IH] using lt_wf_ind. intros buffer Hle.
  destruct fuel as [|fuel].
  - assert (length buffer = 0) as -> by lia. reflexivity.
  - simpl. destruct (length buffer) as [|n] eqn:En.
    + destruct buffer; [|discriminate]. reflexivity.
    + simpl. destruct (indexOf boundary buffer) as [i|] eqn:Ei; [|reflexivity].
      pose proof (indexOf_bound _ _ _ Ei) as Hb. simpl in Hb.
      assert (length (slice (i + 2) buffer) < length buffer) as Hs
        by (unfold slice; rewrite length_skipn; lia).
      rewrite (IH fuel) by lia. rewrite (IH n) by lia. reflexivity.
Qed.

(** The complete frames of a buffer: the text before the first boundary,
    trimmed, then the frames of what follows that boundary. *)
Lemma frames_unfold : forall buffer,
  frames buffer =
  match indexOf boundary buffer with
  | None => ([], buffer)
  | Some i =>
      (trim (substring 0 i buffer) :: fst (frames (slice (i + 2) buffer)),
       snd (frames (slice (i + 2) buffer)))
  end.
Proof.
  intros buffer. unfold frames at 1.
  destruct (length buffer) as [|n] eqn:En.
  - destruct buffer; [|discriminate]. reflexivity.
  - simpl. destruct (indexOf boundary buffer) as [i|] eqn:Ei; [|reflexivity].
    pose proof (indexOf_bound _ _ _ Ei) as Hb. simpl in Hb.
    rewrite frames_fuel_enough
      by (unfold slice; rewrite length_skipn; lia).
    destruct (frames (slice (i + 2) buffer)); reflexivity.
Qed.

Section FramingFacts.
Context {X : Type} (on_frame : jsstring -> X -> Flow X).

Lemma slice_shorter : forall buffer i,
  indexOf boundary buffer = Some i ->
  length (slice (i + 2) buffer) < length buffer.
Proof.
  intros buffer i H. apply indexOf_bound in H. unfold slice.
  rewrite length_skipn. simpl in H. lia.
Qed.

(** Fuel beyond the buffer's length changes nothing. *)
Lemma drain_fuel_enough : forall fuel buffer x,
  length buffer <= fuel ->
  drain_fuel on_frame fuel buffer x = drain on_frame buffer x.
Proof.
  unfold drain.
  induction fuel as [fuel IH] using lt_wf_ind. intros buffer x Hle.
  destruct fuel as [|fuel].
  - assert (length buffer = 0) as -> by lia. reflexivity.
  - simpl. destruct (length buffer) as [|n] eqn:En.
    + destruct buffer; [|discriminate]. reflexivity.
    + simpl. destruct (indexOf boundary buffer) as [i|] eqn:Ei; [|reflexivity].
      destruct (on_frame _ x) as [x'|x']; [|reflexivity].
      pose proof (slice_shorter _ _ Ei) as Hs.
      rewrite (IH fuel) by lia.
      rewrite (IH n) by lia. reflexivity.
Qed.

(** The loop, one iteration unrolled. *)
Lemma drain_unfold : forall buffer x,
  drain on_frame buffer x =
  match indexOf boundary buffer with
  | None => Pending buffer x
  | Some i =>
      match on_frame (trim (substring 0 i buffer)) x with
      | Return x' => Returned x'
      | Continue x' => drain on_frame (slice (i + 2) buffer) x'
      end
  end.
Proof.
  intros buffer x. unfold drain at 1.
  destruct (length buffer) as [|n] eqn:En.
  - destruct buffer; [|discriminate]. reflexivity.
  - simpl. destruct (indexOf boundary buffer) as [i|] eqn:Ei; [|reflexivity].
    destruct (on_frame _ x) as [x'|x']; [|reflexivity].
    apply drain_fuel_enough.
    pose proof (slice_shorter _ _ Ei). lia.
Qed.

(** What the loop leaves in the buffer holds no boundary. *)
Lemma drain_pending : forall buffer x buffer' x',
  drain on_frame buffer x = Pending buffer' x' ->
  indexOf boundary buffer' = None.
Proof.
  intros buffer. remember (length buffer) as n eqn:En.
  revert buffer En. induction n as [n IH] using lt_wf_ind.
  intros buffer En x buffer' x' H.
  rewrite drain_unfold in H.
  destruct (indexOf boundary buffer) as [i|] eqn:Ei.
  - destruct (on_frame _ x) as [y|y]; [|discriminate].
    pose proof (slice_shorter _ _ Ei).
    eapply (IH (length (slice (i + 2) buffer))); [lia|reflexivity|exact H].
  - inversion H; subst. exact Ei.
Qed.

(** More input behind the buffer does not change what the loop does with
    the frames already complete. *)
Lemma drain_app : forall buffer chunk x,
  drain on_frame (buffer ++ chunk) x =
  match drain on_frame buffer x with
  | Returned x' => Returned x'
  | Pending buffer' x' => drain on_frame (buffer' ++ chunk) x'
  end.
Proof.
  intros buffer. remember (length buffer) as n eqn:En.
  revert buffer En. induction n as [n IH] using lt_wf_ind.
  intros buffer En chunk x.
  rewrite (drain_unfold buffer).
  destruct (indexOf boundary buffer) as [i|] eqn:Ei; [|reflexivity].
  rewrite (drain_unfold (buffer ++ chunk)).
  rewrite (indexOf_app _ _ chunk _ Ei).
  pose proof (indexOf_bound _ _ _ Ei) as Hb. simpl in Hb.
  unfold substring, slice. simpl skipn at 1 3.
  rewrite Nat.sub_0_r.
  rewrite firstn_app, skipn_app.
  replace (i - length buffer) with 0 by lia.
  replace (i + 2 - length buffer) with 0 by lia.
  simpl firstn at 2. simpl skipn at 2. rewrite app_nil_r.
  destruct (on_frame _ x) as [y|y]; [|reflexivity].
  pose proof (slice_shorter _ _ Ei) as Hs. unfold slice in Hs.
  apply (IH (length (skipn (i + 2) buffer))); [lia|reflexivity].
Qed.

(** Reading a stream chunk by chunk is reading it in one piece. *)
Lemma read_loop_concat : forall chunks fin buffer x,
  indexOf boundary buffer = None ->
  read_loop on_frame chunks fin buffer x =
  read_loop on_frame [concat chunks] fin buffer x.
Proof.
  induction chunks as [|chunk rest IH]; intros fin buffer x Hb.
  - cbn [read_loop concat]. rewrite app_nil_r, drain_unfold, Hb. reflexivity.
  - cbn [read_loop concat].
    rewrite app_assoc, (drain_app (buffer ++ chunk) (concat rest)).
    destruct (drain on_frame (buffer ++ chunk) x) as [b' x'|x'] eqn:Ed;
      [|reflexivity].
    rewrite IH by (eapply drain_pending; exact Ed).
    reflexivity.
Qed.

(** The inner loop is the handler run over the complete frames. *)
Lemma drain_frames : forall buffer x,
  drain on_frame buffer x =
  match run on_frame (fst (frames buffer)) x with
  | Return x' => Returned x'
  | Continue x' => Pending (snd (frames buffer)) x'
  end.
Proof.
  intros buffer. unfold drain, frames.
  generalize (length buffer) as fuel. intros fuel. revert buffer.
  induction fuel as [|fuel IH]; intros buffer x; [reflexivity|].
  simpl. destruct (indexOf boundary buffer) as [i|]; [|reflexivity].
  specialize (IH (slice (i + 2) buffer)).
  destruct (frames_fuel fuel (slice (i + 2) buffer)) as [lines rest].
  simpl in *. destruct (on_frame _ x) as [y|y]; [|reflexivity].
  apply IH.
Qed.

(** A whole stream, however it is cut, makes the loop run the handler over
    its complete frames, each once and in order, up to the first [Return];
    what follows the last boundary is left in the buffer unhandled. *)
Lemma read_loop_frames : forall chunks fin x,
  read_loop on_frame chunks fin [] x =
  match run on_frame (fst (frames (concat chunks))) x with
  | Return x' => ExitReturn x'
  | Continue x' =>
      match fin with
      | EndOfStream => ExitBreak (snd (frames (concat chunks))) x'
      | ReadFailed message => ExitThrow message x'
      end
  end.
Proof.
  intros chunks fin x. rewrite read_loop_concat by reflexivity.
  cbn [read_loop app]. rewrite drain_frames.
  destruct (run on_frame (fst (frames (concat chunks))) x); reflexivity.
Qed.

(** An invariant of the handler is an invariant of the loops. *)
Lemma run_invariant : forall (I : X -> Prop),
  (forall line x, I x ->
     match on_frame line x with Continue y | Return y => I y end) ->
  forall lines x, I x ->
  match run on_frame lines x with Continue y | Return y => I y end.
Proof.
  intros I Hstep. induction lines as [|line rest IH]; intros x Hx; simpl.
  - exact Hx.
  - specialize (Hstep line x Hx).
    destruct (on_frame line x) as [y|y]; [apply IH|]; exact Hstep.
Qed.

Lemma drain_invariant : forall (I : X -> Prop),
  (forall line x, I x ->
     match on_frame line x with Continue y | Return y => I y end) ->
  forall buffer x, I x ->
  match drain on_frame buffer x with Pending _ y | Returned y => I y end.
Proof.
  intros I Hstep buffer x Hx. rewrite drain_frames.
  pose proof (run_invariant I Hstep (fst (frames buffer)) x Hx) as H.
  destruct (run on_frame (fst (frames buffer)) x); exact H.
Qed.

Lemma read_loop_invariant : forall (I : X -> Prop),
  (forall line x, I x ->
     match on_frame line x with Continue y | Return y => I y end) ->
  forall chunks fin buffer x, I x ->
  match read_loop on_frame chunks fin buffer x with
  | ExitReturn y | ExitBreak _ y | ExitThrow _ y => I y
  end.
Proof.
  intros I Hstep. induction chunks as [|chunk rest IH]; intros fin buffer x Hx.
  - simpl. destruct fin; exact Hx.
  - simpl. pose proof (drain_invariant I Hstep (buffer ++ chunk) x Hx) as H.
    destruct (drain on_frame (buffer ++ chunk) x) as [b' y|y];
      [apply IH|]; exact H.
Qed.
End FramingFacts.

(** C3. However the response stream is cut into read chunks, the client does
    the same thing with it: two chunkings of one stream hand the same lines,
    in the same order, to the frame handler (recorded by [record_frame]) and
    leave the handler state, the unconsumed partial frame and the way the
    loop is left identical, and with them the page after the Turn.  The
    lines handled are the complete frames of the
    whole stream -- the pieces closed by a blank line, each once and in
    order, up to the end marker -- so a partial frame waits in the buffer for
    later reads, several frames in one read are all handled, and a boundary
    is consumed once even when it falls on the edge between two reads. *)
Theorem stream_parser_chunking_invariant :
  forall (P : Platform) (assistantMessageId : ElemId)
         (chunks chunks' : list jsstring) (fin : StreamEnd)
         (x : jsstring * State),
    concat chunks = concat chunks' ->
    read_loop record_frame chunks fin [] []
      = read_loop record_frame chunks' fin [] []
    /\ read_loop (on_line P assistantMessageId) chunks fin [] x
       = read_loop (on_line P assistantMessageId) chunks' fin [] x
    /\ read_loop (on_line P assistantMessageId) chunks fin [] x
       = match run (on_line P assistantMessageId)
                 (fst (frames (concat chunks))) x with
         | Return x' => ExitReturn x'
         | Continue x' =>
             match fin with
             | EndOfStream => ExitBreak (snd (frames (concat chunks))) x'
             | ReadFailed message => ExitThrow message x'
             end
         end
    /\ (forall iso status s,
          sendMessage_resume P iso (Response status chunks fin)
            assistantMessageId s
          = sendMessage_resume P iso (Response status chunks' fin)
              assistantMessageId s).
Proof.
  intros P i chunks chunks' fin x Heq.
  assert (forall y, read_loop (on_line P i) chunks fin [] y
                    = read_loop (on_line P i) chunks' fin [] y) as Hsame.
  { intros y.
    rewrite (read_loop_concat (on_line P i) chunks) by reflexivity.
    rewrite (read_loop_concat (on_line P i) chunks') by reflexivity.
    rewrite Heq. reflexivity. }
  split; [|split; [|split]].
  - rewrite (read_loop_concat record_frame chunks) by reflexivity.
    rewrite (read_loop_concat record_frame chunks') by reflexivity.
    rewrite Heq. reflexivity.
  - apply Hsame.
  - apply read_loop_frames.
  - intros iso status s. unfold sendMessage_resume.
    rewrite Hsame. reflexivity.
Qed.

(** A token frame whose boundary is split between two reads, followed by the
    end marker in the same read, against the same stream in one piece. *)
Lemma stream_parser_chunking_invariant_witness :
  let whole := token_frame "Hi" ++ done_frame in
  let cut := [firstn 21 whole; skipn 21 whole] in
  concat cut = concat [whole]
  /\ read_loop record_frame cut EndOfStream [] []
     = read_loop record_frame [whole] EndOfStream [] []
  /\ read_loop (on_line Reference.platform (StreamId 3)) cut EndOfStream []
       ([], page_in_flight)
     = read_loop (on_line Reference.platform (StreamId 3)) [whole] EndOfStream []
         ([], page_in_flight).
Proof.
  intros whole cut.
  assert (concat cut = concat [whole]) as H by reflexivity.
  split; [exact H|].
  destruct (stream_parser_chunking_invariant Reference.platform (StreamId 3)
              cut [whole] EndOfStream ([], page_in_flight) H)
    as (Hseen & Hsame & _).
  split; [exact Hseen | exact Hsame].
Defined.

(** ** The conversation pane *)

Lemma getElementById_update : forall i f nodes,
  (forall e, e_id (f e) = e_id e) ->
  getElementById i (update_element i f nodes)
  = option_map f (getElementById i nodes).
Proof.
  intros i f nodes Hid. induction nodes as [|[e|] rest IH]; simpl.
  - reflexivity.
  - destruct (id_matches i (e_id e)) eqn:E; simpl.
    + rewrite Hid, E. reflexivity.
    + rewrite E. exact IH.
  - exact IH.
Qed.

Lemma errors_update : forall i f nodes,
  (forall e, e_error (f e) = e_error e) ->
  length (filter is_error_node (update_element i f nodes))
  = length (filter is_error_node nodes).
Proof.
  intros i f nodes Herr. induction nodes as [|[e|] rest IH]; simpl.
  - reflexivity.
  - destruct (id_matches i (e_id e)); simpl.
    + rewrite Herr. destruct (e_error e); reflexivity.
    + destruct (e_error e); simpl; rewrite IH; reflexivity.
  - exact IH.
Qed.

Lemma same_outside_pane_refl : forall s, same_outside_pane s s.
Proof. intros s. repeat split. Qed.

Lemma same_outside_pane_set : forall s s' nodes,
  same_outside_pane s s' -> same_outside_pane s (set_messages nodes s').
Proof. intros s s' nodes H. exact H. Qed.

Section HandlerFacts.
Variable P : Platform.
Variable i : ElemId.

Lemma updateStreamingMessage_displayed : forall content s,
  present i s ->
  displayed i (updateStreamingMessage i content s)
  = Some (formatMessage (Some content) ++ cursor).
Proof.
  intros content s Hp. unfold present in Hp.
  unfold displayed, updateStreamingMessage.
  destruct (getElementById i (messagesContainer s)) as [e|] eqn:E;
    [|contradiction].
  simpl. rewrite getElementById_update by reflexivity.
  rewrite E. reflexivity.
Qed.

Lemma pane_step_refl : forall s, pane_step i s s.
Proof.
  intros s. split; [tauto|]. split; [reflexivity|].
  apply same_outside_pane_refl.
Qed.

Lemma pane_step_trans : forall s1 s2 s3,
  pane_step i s1 s2 -> pane_step i s2 s3 -> pane_step i s1 s3.
Proof.
  intros s1 s2 s3 (Hp & He & Ho) (Hp' & He' & Ho').
  split; [tauto|]. split; [congruence|].
  unfold same_outside_pane in *.
  repeat match goal with H : _ /\ _ |- _ => destruct H end.
  repeat split; congruence.
Qed.

Lemma pane_step_update : forall f s,
  (forall e, e_id (f e) = e_id e) ->
  (forall e, e_error (f e) = e_error e) ->
  pane_step i s (set_messages (update_element i f (messagesContainer s)) s).
Proof.
  intros f s Hid Herr. split; [|split].
  - unfold present. simpl. rewrite getElementById_update by exact Hid.
    destruct (getElementById i (messagesContainer s)); simpl; congruence.
  - unfold errors. simpl. apply errors_update. exact Herr.
  - apply same_outside_pane_set, same_outside_pane_refl.
Qed.

Lemma updateStreamingMessage_step : forall content s,
  pane_step i s (updateStreamingMessage i content s).
Proof.
  intros content s. unfold updateStreamingMessage.
  destruct (getElementById i (messagesContainer s)).
  - apply pane_step_update; reflexivity.
  - apply pane_step_refl.
Qed.

Lemma finalizeStreamingMessage_step : forall v s,
  match finalizeStreamingMessage P i v s with
  | Normal s' | Throw _ s' => pane_step i s s'
  end.
Proof.
  intros v s. unfold finalizeStreamingMessage.
  destruct (getElementById i (messagesContainer s)) as [e|];
    [|apply pane_step_refl].
  set (s1 := set_messages _ s).
  assert (pane_step i s s1) as H1 by (apply pane_step_update; reflexivity).
  destruct (gt_zero P v) as [[|]|]; try exact H1.
  eapply pane_step_trans; [exact H1|].
  apply pane_step_update; reflexivity.
Qed.

Lemma on_line_step : forall line full s,
  match on_line P i line (full, s) with
  | Continue (_, s') | Return (_, s') => pane_step i s s'
  end.
Proof.
  intros line full s.
  pose proof (pane_step_refl s) as Hr.
  destruct (on_line P i line (full, s)) as [[f' s']|[f' s']] eqn:E;
    unfold on_line in E;
    repeat match type of E with
           | context [match ?e with _ => _ end] => destruct e eqn:?
           end;
    inversion E; subst; try exact Hr;
    try apply updateStreamingMessage_step;
    match goal with
    | [ H : finalizeStreamingMessage P i ?v s = _ |- _ ] =>
        pose proof (finalizeStreamingMessage_step v s) as Hf;
        rewrite H in Hf; exact Hf
    end.
Qed.

(** A line that is a token event appends its fragment and re-renders the
    element from the whole response. *)
Lemma on_line_token : forall line fragment full s,
  fragment_of P line = Some fragment ->
  on_line P i line (full, s)
  = Continue (full ++ fragment,
              updateStreamingMessage i (full ++ fragment) s).
Proof.
  intros line fragment full s H. unfold fragment_of in H. unfold on_line.
  repeat (break_match; try discriminate).
  congruence.
Qed.

(** Any other line leaves the response text as it is. *)
Lemma on_line_other : forall line full s full' s',
  fragment_of P line = None ->
  on_line P i line (full, s) = Continue (full', s') ->
  full' = full.
Proof.
  intros line full s full' s' H Hl. unfold fragment_of in H.
  unfold on_line in Hl.
  repeat (break_match; try discriminate); congruence.
Qed.

Lemma run_fragments : forall lines full s full' s',
  run (on_line P i) lines (full, s) = Continue (full', s') ->
  full' = full ++ concat (fragments P lines).
Proof.
  induction lines as [|line rest IH]; intros full s full' s' H.
  - simpl in *. inversion H; subst. rewrite app_nil_r. reflexivity.
  - cbn [run] in H. unfold fragments. cbn [flat_map].
    destruct (fragment_of P line) as [fragment|] eqn:Ef.
    + rewrite (on_line_token _ _ _ _ Ef) in H.
      apply IH in H. rewrite H. unfold fragments.
      simpl. rewrite app_assoc. reflexivity.
    + destruct (on_line P i line (full, s)) as [[f1 s1]|[f1 s1]] eqn:El;
        [|discriminate].
      apply (on_line_other _ _ _ _ _ Ef) in El. subst f1.
      apply IH in H. exact H.
Qed.

Lemma on_line_keeps : forall s0 line x,
  pane_step i s0 (snd x) ->
  match on_line P i line x with
  | Continue y | Return y => pane_step i s0 (snd y)
  end.
Proof.
  intros s0 line [full s] Hx. simpl in Hx.
  pose proof (on_line_step line full s) as H.
  destruct (on_line P i line (full, s)) as [[f' s']|[f' s']];
    simpl; eapply pane_step_trans; eauto.
Qed.


Lemma read_loop_steps : forall chunks fin buffer full s,
  match read_loop (on_line P i) chunks fin buffer (full, s) with
  | ExitReturn y | ExitBreak _ y | ExitThrow _ y => pane_step i s (snd y)
  end.
Proof.
  intros chunks fin buffer full s.
  apply (read_loop_invariant (on_line P i) (fun x => pane_step i s (snd x))
           (@on_line_keeps s) chunks fin buffer (full, s)).
  apply pane_step_refl.
Qed.
End HandlerFacts.

(** ** Reads and the handlers that run in between *)

Lemma run_record : forall lines (seen : list jsstring),
  run (fun line seen => Continue (seen ++ [line])) lines seen
  = Continue (seen ++ lines).
Proof.
  induction lines as [|l lines IH]; intros seen; cbn [run].
  - rewrite app_nil_r. reflexivity.
  - rewrite IH, <- app_assoc. reflexivity.
Qed.

(** The frames of a buffer and a chunk: those of the buffer, then those of
    what the buffer left and the chunk. *)
Lemma frames_app : forall buffer chunk,
  frames (buffer ++ chunk)
  = (fst (frames buffer) ++ fst (frames (snd (frames buffer) ++ chunk)),
     snd (frames (snd (frames buffer) ++ chunk))).
Proof.
  intros buffer chunk.
  pose proof (drain_app (fun line seen => Continue (seen ++ [line]))
                buffer chunk []) as H.
  rewrite !drain_frames, !run_record in H. cbn [app] in H.
  rewrite drain_frames, run_record in H.
  destruct (frames (buffer ++ chunk)) as [l r].
  cbn [fst snd] in H. inversion H. reflexivity.
Qed.

Lemma fragments_app : forall P a b,
  fragments P (a ++ b) = fragments P a ++ fragments P b.
Proof. intros P a b. unfold fragments. apply flat_map_app. Qed.

(** The response text of a suspended call: the fragments of the token
    events among all the frames received, whatever has run in between. *)
Lemma reading_text : forall P i events buffer full s buffer' full' s',
  indexOf boundary buffer = None ->
  reading P i events buffer (full, s) = Pending buffer' (full', s') ->
  full' = full
            ++ concat (fragments P
                         (fst (frames (buffer ++ concat (reads events))))).
Proof.
  intros P i. induction events as [|[chunk|a] events IH];
    intros buffer full s buffer' full' s' Hb H.
  - cbn [reads flat_map concat]. rewrite app_nil_r, frames_unfold, Hb.
    cbn in H. inversion H; subst. cbn. rewrite app_nil_r. reflexivity.
  - cbn [reading] in H.
    destruct (drain (on_line P i) (buffer ++ chunk) (full, s))
      as [b1 [f1 s1]|x1] eqn:Ed; [|discriminate].
    pose proof (drain_pending _ _ _ _ _ Ed) as Hb1.
    rewrite drain_frames in Ed.
    destruct (run (on_line P i) (fst (frames (buffer ++ chunk))) (full, s))
      as [[f2 s2]|x2] eqn:Er; [|discriminate].
    inversion Ed; subst.
    pose proof (run_fragments P i _ _ _ _ _ Er) as Hf.
    rewrite (IH _ _ _ _ _ _ Hb1 H), Hf.
    change (reads (Read chunk :: events)) with (chunk :: reads events).
    cbn [concat]. rewrite app_assoc, (frames_app (buffer ++ chunk)).
    cbn [fst]. rewrite fragments_app, concat_app, app_assoc. reflexivity.
  - cbn [reading fst snd] in H.
    exact (IH _ _ _ _ _ _ Hb H).
Qed.

(** C4. During a streamed Turn the text shown for the assistant is always
    computed afresh from the whole response.  The response text of the
    suspended call is the concatenation, in arrival order, of the fragments
    of the token events among the frames received so far: across the reads,
    whatever other handlers have run on the page in between, and within a
    read.  A token event appends its fragment and, when the streaming
    element is in the pane at that moment, makes the markup of the element
    [formatMessage] of that whole text followed by the cursor marker; when
    another handler has taken the element out of the pane, the text grows
    all the same, nothing is shown and the page is left as it is.  A line
    that is no token event leaves the response text as it is, and a frame
    whose token is the empty string (and that carries no [memories_added])
    changes nothing at all. *)
Theorem streamed_message_rendered_from_full_buffer :
  forall (P : Platform) (assistantMessageId : ElemId),
    (forall events s buffer full s',
        reading P assistantMessageId events [] ([], s)
        = Pending buffer (full, s') ->
        full = concat (fragments P (fst (frames (concat (reads events))))))
    /\ (forall lines full s full' s',
          run (on_line P assistantMessageId) lines (full, s)
          = Continue (full', s') ->
          full' = full ++ concat (fragments P lines))
    /\ (forall line fragment full s,
          fragment_of P line = Some fragment ->
          on_line P assistantMessageId line (full, s)
          = Continue (full ++ fragment,
                      updateStreamingMessage assistantMessageId
                        (full ++ fragment) s)
          /\ (present assistantMessageId s ->
              displayed assistantMessageId
                (updateStreamingMessage assistantMessageId (full ++ fragment)
                   s)
              = Some (formatMessage (Some (full ++ fragment)) ++ cursor))
          /\ (~ present assistantMessageId s ->
              updateStreamingMessage assistantMessageId (full ++ fragment) s
              = s))
    /\ (forall line full s full' s',
          fragment_of P line = None ->
          on_line P assistantMessageId line (full, s) = Continue (full', s') ->
          full' = full)
    /\ (forall line parsed full s,
          startsWith (str "data: ") line = true ->
          streq (slice 6 line) DONE = false ->
          JSON_parse P (slice 6 line) = Some parsed ->
          get (str "token") parsed = Some (JStr []) ->
          get (str "memories_added") parsed = Some JUndefined ->
          on_line P assistantMessageId line (full, s) = Continue (full, s)).
Proof.
  intros P i. split; [|split; [|split; [|split]]].
  - intros events s buffer full s' H.
    exact (reading_text P i events [] [] s buffer full s' eq_refl H).
  - intros lines full s full' s' H. exact (run_fragments P i _ _ _ _ _ H).
  - intros line fragment full s Hf. split; [|split].
    + apply on_line_token. exact Hf.
    + intros Hp. apply updateStreamingMessage_displayed. exact Hp.
    + intros Hp. unfold updateStreamingMessage.
      destruct (getElementById i (messagesContainer s)) eqn:E;
        [|reflexivity].
      exfalso. apply Hp. unfold present. rewrite E. discriminate.
  - intros line full s full' s' Hf Hl.
    exact (on_line_other _ _ _ _ _ _ _ Hf Hl).
  - intros line parsed full s Hdata Hdone Hparse Htoken Hmem. unfold on_line.
    rewrite Hdata, Hdone, Hparse, Htoken. cbn [truthy].
    rewrite Hmem. reflexivity.
Qed.

(** On the sample session two token frames arrive in two reads.  With
    nothing in between the element shows both fragments formatted as one
    text; with a click on New Chat between the reads the response text is
    the same and nothing is shown. *)
Lemma streamed_message_rendered_from_full_buffer_witness :
  let P := Reference.platform in
  let quiet := [Read (token_frame "**Hel"); Read (token_frame "lo**")] in
  let busy := [Read (token_frame "**Hel"); Meanwhile ClickNewChat;
               Read (token_frame "lo**")] in
  exists s' s'',
    reading P (StreamId 3) quiet [] ([], page_in_flight)
    = Pending [] (str "**Hello**", s')
    /\ displayed (StreamId 3) s'
       = Some (str "<strong>Hello</strong>" ++ cursor)
    /\ reading P (StreamId 3) busy [] ([], page_in_flight)
       = Pending [] (str "**Hello**", s'')
    /\ displayed (StreamId 3) s'' = None.
Proof.
  intros P quiet busy.
  destruct (reading P (StreamId 3) quiet [] ([], page_in_flight))
    as [b [full s']|x] eqn:Hq; [|vm_compute in Hq; discriminate].
  destruct (reading P (StreamId 3) busy [] ([], page_in_flight))
    as [c [full' s'']|x] eqn:Hb; [|vm_compute in Hb; discriminate].
  destruct (streamed_message_rendered_from_full_buffer P (StreamId 3))
    as (Htext & _).
  pose proof (Htext quiet _ _ _ _ Hq) as Hfull.
  pose proof (Htext busy _ _ _ _ Hb) as Hfull'.
  exists s', s''.
  assert (b = []) as -> by (vm_compute in Hq; inversion Hq; reflexivity).
  assert (c = []) as -> by (vm_compute in Hb; inversion Hb; reflexivity).
  rewrite Hfull, Hfull'.
  split; [reflexivity|].
  split; [vm_compute in Hq; inversion Hq; reflexivity|].
  split; [reflexivity|].
  vm_compute in Hb. inversion Hb. reflexivity.
Defined.

(** C10. A [data: ] frame whose payload is neither the end marker nor
    parseable JSON is passed over: handling it neither returns nor throws and
    leaves the response text and the whole page (so also the message on
    display) as they were, and the frames behind it are handled as if it had
    not been there, both in a sequence of lines and in the receive buffer. *)
Theorem malformed_frame_is_skipped :
  forall (P : Platform) (assistantMessageId : ElemId) (line : jsstring)
         (x : jsstring * State),
    startsWith (str "data: ") line = true ->
    streq (slice 6 line) DONE = false ->
    JSON_parse P (slice 6 line) = None ->
    on_line P assistantMessageId line x = Continue x
    /\ (forall rest,
          run (on_line P assistantMessageId) (line :: rest) x
          = run (on_line P assistantMessageId) rest x)
    /\ (forall buffer k,
          indexOf boundary buffer = Some k ->
          trim (substring 0 k buffer) = line ->
          drain (on_line P assistantMessageId) buffer x
          = drain (on_line P assistantMessageId) (slice (k + 2) buffer) x).
Proof.
  intros P i line [full s] Hdata Hdone Hparse.
  assert (on_line P i line (full, s) = Continue (full, s)) as Hskip
    by (unfold on_line; rewrite Hdata, Hdone, Hparse; reflexivity).
  split; [exact Hskip|]. split.
  - intros rest. cbn [run]. rewrite Hskip. reflexivity.
  - intros buffer k Hk Hline. rewrite drain_unfold, Hk, Hline, Hskip.
    reflexivity.
Qed.

(** A truncated JSON payload between two well-formed token frames. *)
Lemma malformed_frame_is_skipped_witness :
  let P := Reference.platform in
  let bad := str "data: {" ++ [DQUOTE] ++ str "token" ++ [DQUOTE] ++ str ":" in
  let x := (str "Hi", page_in_flight) in
  startsWith (str "data: ") bad = true
  /\ streq (slice 6 bad) DONE = false
  /\ JSON_parse P (slice 6 bad) = None
  /\ on_line P (StreamId 3) bad x = Continue x
  /\ drain (on_line P (StreamId 3)) (bad ++ boundary ++ token_frame "!") x
     = drain (on_line P (StreamId 3)) (token_frame "!") x.
Proof.
  intros P bad x.
  assert (startsWith (str "data: ") bad = true) as H1 by reflexivity.
  assert (streq (slice 6 bad) DONE = false) as H2 by reflexivity.
  assert (JSON_parse P (slice 6 bad) = None) as H3 by reflexivity.
  destruct (malformed_frame_is_skipped P (StreamId 3) bad x H1 H2 H3)
    as (Hskip & _ & Hbuf).
  split; [exact H1|]. split; [exact H2|]. split; [exact H3|].
  split; [exact Hskip|].
  exact (Hbuf (bad ++ boundary ++ token_frame "!") 15 eq_refl eq_refl).
Defined.

(** ** The in-flight flag *)

Lemma addMessageToUI_outside : forall P now random type content v s,
  match addMessageToUI P now random type content v s with
  | Normal s' | Throw _ s' => same_outside_pane s s'
  end.
Proof.
  intros P now random type content v s. unfold addMessageToUI.
  destruct type, content; try destruct (gt_zero P v) as [[|]|];
    repeat split.
Qed.

Lemma render_messages_flag : forall P messages acc,
  match fold_left
          (fun acc m =>
             match acc with
             | Normal s =>
                 addMessageToUI P (msg_now m) (msg_random m) (msg_role m)
                   (msg_content m) zero s
             | Throw _ _ => acc
             end) messages acc with
  | Normal s' | Throw _ s' =>
      isGenerating s' = match acc with Normal s | Throw _ s => isGenerating s end
  end.
Proof.
  intros P. induction messages as [|m rest IH]; intros acc; simpl.
  - destruct acc; reflexivity.
  - specialize (IH (match acc with
                    | Normal s =>
                        addMessageToUI P (msg_now m) (msg_random m) (msg_role m)
                          (msg_content m) zero s
                    | Throw _ _ => acc
                    end)).
    destruct acc as [s|msg s]; [|exact IH].
    pose proof (addMessageToUI_outside P (msg_now m) (msg_random m)
                  (msg_role m) (msg_content m) zero s) as Ho.
    destruct (addMessageToUI P (msg_now m) (msg_random m) (msg_role m)
                (msg_content m) zero s) as [s1|msg1 s1];
      destruct Ho as (_ & _ & Hg & _); simpl in IH; rewrite Hg in IH;
      exact IH.
Qed.

Lemma loadChatMessages_flag : forall P chatId reply s,
  isGenerating (loadChatMessages_resume P chatId reply s) = isGenerating s.
Proof.
  intros P chatId reply s. unfold loadChatMessages_resume.
  destruct reply as [|messages stats]; [reflexivity|].
  pose proof (render_messages_flag P messages (Normal (set_messages [] s)))
    as H.
  destruct (fold_left _ messages (Normal (set_messages [] s))) as [s1|m s1];
    simpl in H; [|exact H].
  destruct stats as [stats|]; [|exact H].
  destruct (truthy stats); [|exact H].
  destruct (updateMemoryDisplay P stats); exact H.
Qed.

(** A send while the flag is up returns at once, the page untouched. *)
Lemma sendMessage_begin_busy : forall P now random now' s,
  isGenerating s = true ->
  sendMessage_begin P now random now' s = (s, None).
Proof.
  intros P now random now' s H. unfold sendMessage_begin.
  rewrite H, orb_true_r. reflexivity.
Qed.

(** A send that goes out has raised the flag. *)
Lemma sendMessage_begin_starts : forall P now random now' s s1 p,
  sendMessage_begin P now random now' s = (s1, Some p) ->
  isGenerating s1 = true.
Proof.
  intros P now random now' s s1 p H. unfold sendMessage_begin in H.
  destruct (trim (messageInput s)) as [|c m]; [discriminate|].
  destruct (isGenerating s); [discriminate|]. simpl in H.
  destruct (currentChatId s) as [[|d chat_id]|];
    unfold createNewChatWithMessage_begin in H; simpl in H;
    inversion H; reflexivity.
Qed.

(** With the flag down a non-empty message always goes out. *)
Lemma sendMessage_begin_free : forall P now random now' s,
  isGenerating s = false -> trim (messageInput s) <> [] ->
  exists s1 p, sendMessage_begin P now random now' s = (s1, Some p).
Proof.
  intros P now random now' s Hg Hm. unfold sendMessage_begin.
  destruct (trim (messageInput s)) as [|c m]; [contradiction|].
  rewrite Hg. simpl.
  destruct (currentChatId s) as [[|d chat_id]|];
    unfold createNewChatWithMessage_begin; simpl; eauto.
Qed.

(** Nothing that happens on the page while a call is suspended lowers the
    flag. *)
Lemma perform_keeps_flag : forall P a s,
  isGenerating s = true -> isGenerating (perform P a s) = true.
Proof.
  intros P a s H. destruct a; simpl.
  - exact H.
  - unfold selectChat. destruct (is_current chatId (currentChatId s)); exact H.
  - rewrite loadChatMessages_flag. exact H.
  - exact H.
  - destruct confirmed; exact H.
  - unfold deleteChat_resume. destruct reply as [|status]; [exact H|].
    destruct (response_ok status); [|exact H]. simpl.
    destruct (is_current chatId (currentChatId s)); exact H.
  - destruct reply; exact H.
  - rewrite sendMessage_begin_busy by exact H. exact H.
Qed.

Lemma perform_all_keeps_flag : forall P acts s,
  isGenerating s = true ->
  isGenerating (fold_left (fun st a => perform P a st) acts s) = true.
Proof.
  intros P. induction acts as [|a rest IH]; intros s H; simpl.
  - exact H.
  - apply IH, perform_keeps_flag, H.
Qed.

(** C1 (as amended). The in-flight guard is one flag for the whole client,
    not a lock per session.  A send goes out exactly when its message is not
    blank and no Turn at all is in flight, whichever chat is selected; and
    once a send has gone out, whatever happens on the page before its reply
    is handled -- selecting another chat, typing, starting a new chat,
    deleting, pressing send -- a further send for any chat does nothing. *)
Theorem send_guard_is_client_wide :
  forall (P : Platform) (s : State) (now random now' : N),
    (snd (sendMessage_begin P now random now' s) <> None
     <-> isGenerating s = false /\ trim (messageInput s) <> [])
    /\ (forall s1 p,
          sendMessage_begin P now random now' s = (s1, Some p) ->
          forall (acts : list Action) (t r t' : N),
            sendMessage_begin P t r t'
              (fold_left (fun st a => perform P a st) acts s1)
            = (fold_left (fun st a => perform P a st) acts s1, None)).
Proof.
  intros P s now random now'. split.
  - split.
    + intros H. destruct (isGenerating s) eqn:Hg.
      * rewrite sendMessage_begin_busy in H by exact Hg.
        simpl in H. contradiction.
      * split; [reflexivity|]. intros Hm. apply H.
        unfold sendMessage_begin. rewrite Hm. reflexivity.
    + intros [Hg Hm].
      destruct (sendMessage_begin_free P now random now' s Hg Hm)
        as (s1 & p & E).
      rewrite E. simpl. discriminate.
  - intros s1 p E acts t r t'.
    apply sendMessage_begin_busy, perform_all_keeps_flag.
    exact (sendMessage_begin_starts _ _ _ _ _ _ _ E).
Qed.

(** The sample session: the send for chat B has gone out; the user selects
    chat A, types and presses send, and nothing goes out. *)
Lemma send_guard_is_client_wide_witness :
  let P := Reference.platform in
  let acts := [ClickChat (str "A") (str "Alpha"); TypeText (str "hi")] in
  let s2 := fold_left (fun st a => perform P a st) acts page_in_flight in
  sendMessage_begin P 1 2 3 page0
  = (page_in_flight, Some (AwaitChatStream (StreamId 3)))
  /\ currentChatId s2 = Some (str "A")
  /\ sendMessage_begin P 7 8 9 s2 = (s2, None).
Proof.
  intros P acts s2.
  assert (sendMessage_begin P 1 2 3 page0
          = (page_in_flight, Some (AwaitChatStream (StreamId 3)))) as E
    by reflexivity.
  split; [exact E|]. split; [reflexivity|].
  exact (proj2 (send_guard_is_client_wide P page0 1 2 3)
           page_in_flight (AwaitChatStream (StreamId 3)) E acts 7%N 8%N 9%N).
Defined.

(** C1 (as stated) fails: with the Turn for chat B in flight and chat A
    selected, a send for A does not proceed. *)
Lemma guard_is_per_session_counterexample :
  ~ guard_is_per_session Reference.platform.
Proof.
  intros H.
  apply (H (perform Reference.platform (TypeText (str "hi"))
              (perform Reference.platform (ClickChat (str "A") (str "Alpha"))
                 page_in_flight))
           (str "B") (str "A") 7 8 9)%N.
  - discriminate.
  - split; [reflexivity|]. exists (str "hello"). left. reflexivity.
  - reflexivity.
  - discriminate.
  - discriminate.
  - reflexivity.
Qed.

(** C2 (as amended). A send while a Turn is in flight is ignored at once
    and in silence: the call returns with the page exactly as it was, so no
    request has gone out, nothing is queued for later, no error is shown and
    the typed text stays in the input box. *)
Theorem busy_send_is_silently_ignored :
  forall (P : Platform) (env : Env) (s : State),
    isGenerating s = true ->
    sendMessage_begin P (env_now env) (env_random env) (env_stream_now env) s
    = (s, None)
    /\ sendMessage P env s = s.
Proof.
  intros P env s H.
  pose proof (sendMessage_begin_busy P (env_now env) (env_random env)
                (env_stream_now env) s H) as E.
  split; [exact E|]. unfold sendMessage. rewrite E. reflexivity.
Qed.

Lemma busy_send_is_silently_ignored_witness :
  let s := set_messageInput (str "again") page_in_flight in
  let env := env_of (Response 200 [token_frame "Hi"; done_frame] EndOfStream) in
  isGenerating s = true
  /\ sendMessage_begin Reference.platform (env_now env) (env_random env)
       (env_stream_now env) s = (s, None)
  /\ sendMessage Reference.platform env s = s.
Proof.
  intros s env.
  assert (isGenerating s = true) as H by reflexivity.
  split; [exact H|].
  exact (busy_send_is_silently_ignored Reference.platform env s H).
Defined.

(** C2 (as stated) fails: with the Turn for chat B in flight, a second send
    for B leaves the page as it is; no busy error reaches the user. *)
Lemma busy_is_reported_counterexample :
  ~ busy_is_reported Reference.platform.
Proof.
  intros H.
  apply (H (set_messageInput (str "again") page_in_flight) (str "B") 7 8 9)%N.
  - split; [reflexivity|]. exists (str "hello"). left. reflexivity.
  - reflexivity.
  - discriminate.
  - reflexivity.
Qed.

(** ** Release of the flag *)

(** C8. A send that takes the lock gives it back however it ends.  When the
    message is not blank and nothing is in flight the call raises
    [isGenerating] and disables the send button before its request goes out;
    when the call has run to its end the flag is down and the button enabled
    again.  The same holds for each continuation on its own, for every reply
    -- a stream that ends with or without its marker, an error reported by
    the server, a rejected fetch or read, a type error inside the handler --
    and for every state of the page found when the reply arrives. *)
Theorem lock_released_on_every_exit :
  forall (P : Platform) (env : Env) (s : State),
    trim (messageInput s) <> [] -> isGenerating s = false ->
    (exists s1 p,
        sendMessage_begin P (env_now env) (env_random env)
          (env_stream_now env) s = (s1, Some p)
        /\ isGenerating s1 = true /\ sendButton_disabled s1 = true)
    /\ isGenerating (sendMessage P env s) = false
    /\ sendButton_disabled (sendMessage P env s) = false
    /\ (forall iso reply i s',
          isGenerating (sendMessage_resume P iso reply i s') = false
          /\ sendButton_disabled (sendMessage_resume P iso reply i s') = false)
    /\ (forall iso iso' now random reply s',
          isGenerating
            (createNewChatWithMessage_resume P iso iso' now random reply s')
          = false
          /\ sendButton_disabled
               (createNewChatWithMessage_resume P iso iso' now random reply s')
             = false).
Proof.
  intros P env s Hm Hg.
  assert (forall iso reply i s',
            isGenerating (sendMessage_resume P iso reply i s') = false
            /\ sendButton_disabled (sendMessage_resume P iso reply i s') = false)
    as Hstream by (intros; split; reflexivity).
  assert (forall iso iso' now random reply s',
            isGenerating
              (createNewChatWithMessage_resume P iso iso' now random reply s')
            = false
            /\ sendButton_disabled
                 (createNewChatWithMessage_resume P iso iso' now random reply s')
               = false)
    as Hnew by (intros; split; reflexivity).
  unfold sendMessage, sendMessage_begin.
  destruct (trim (messageInput s)) as [|c m]; [contradiction|].
  rewrite Hg. simpl.
  destruct (currentChatId s) as [[|d chat_id]|];
    unfold createNewChatWithMessage_begin; simpl;
    (split; [eexists; eexists; repeat split|]);
    (split; [reflexivity|]); (split; [reflexivity|]);
    (split; [exact Hstream | exact Hnew]).
Qed.

(** The sample session, with a stream whose read fails half-way. *)
Lemma lock_released_on_every_exit_witness :
  let P := Reference.platform in
  let env := env_of (Response 200 [token_frame "Hi"]
                       (ReadFailed (str "network error"))) in
  trim (messageInput page0) <> [] /\ isGenerating page0 = false
  /\ isGenerating page_in_flight = true
  /\ isGenerating (sendMessage P env page0) = false
  /\ sendButton_disabled (sendMessage P env page0) = false.
Proof.
  intros P env.
  assert (trim (messageInput page0) <> []) as Hm by discriminate.
  assert (isGenerating page0 = false) as Hg by reflexivity.
  destruct (lock_released_on_every_exit P env page0 Hm Hg)
    as (_ & Hflag & Hbutton & _).
  split; [exact Hm|]. split; [exact Hg|]. split; [reflexivity|].
  split; [exact Hflag | exact Hbutton].
Defined.

(** ** Completion of a Turn *)

Lemma move_to_top_pane : forall iso s,
  messagesContainer (move_to_top iso s) = messagesContainer s.
Proof.
  intros iso s. unfold move_to_top.
  destruct (findIndex _ (chats s)) as [k|]; [|reflexivity].
  destruct (nth_error (chats s) k); reflexivity.
Qed.


(** When the end marker is read the chat list is left as it was. *)
Lemma return_at_marker_keeps_chats :
  forall P iso status chunks fin i s x,
    response_ok status = true ->
    read_loop (on_line P i) chunks fin [] ([], s) = ExitReturn x ->
    chats (sendMessage_resume P iso (Response status chunks fin) i s) = chats s.
Proof.
  intros P iso status chunks fin i s x Hok Hloop.
  pose proof (read_loop_steps P i chunks fin [] [] s) as Hstep.
  unfold sendMessage_resume. rewrite Hok, Hloop in *. simpl.
  destruct x as [full s0]. simpl in *.
  destruct Hstep as (_ & _ & _ & Hchats & _). exact Hchats.
Qed.

(** C5. On the sample session (chats A, B with B selected) a stream that
    ends with the end marker leaves the chat list in its old order, B behind
    A with its old [updated_at]; the same stream without the marker moves B
    to the front and stamps it.  The reordering that the script places after
    the read loop is skipped by the [return] taken at the marker. *)
Lemma end_marker_skips_move_to_top :
  let P := Reference.platform in
  chats (sendMessage P
           (env_of (Response 200 [token_frame "Hi"; done_frame] EndOfStream))
           page0)
  = [chatA; chatB]
  /\ chats (sendMessage P
             (env_of (Response 200 [token_frame "Hi"] EndOfStream)) page0)
     = [touch NOW chatB; chatA].
Proof. split; reflexivity. Qed.

(** The loop of [sendMessage_resume] is the one in which nothing runs
    between the reads. *)
Lemma read_loop_reading : forall P i chunks fin buffer x,
  read_loop (on_line P i) chunks fin buffer x
  = match reading P i (map Read chunks) buffer x with
    | Returned x' => ExitReturn x'
    | Pending buffer' x' =>
        match fin with
        | EndOfStream => ExitBreak buffer' x'
        | ReadFailed message => ExitThrow message x'
        end
    end.
Proof.
  intros P i. induction chunks as [|chunk chunks IH]; intros fin buffer x.
  - reflexivity.
  - cbn [map read_loop reading].
    destruct (drain (on_line P i) (buffer ++ chunk) x) as [b1 x1|x1];
      [apply IH|reflexivity].
Qed.


Lemma reads_map_Read : forall chunks, reads (map Read chunks) = chunks.
Proof.
  induction chunks as [|c chunks IH]; [reflexivity|].
  cbn [map]. change (reads (Read c :: map Read chunks))
    with (c :: reads (map Read chunks)). rewrite IH. reflexivity.
Qed.

(** A handler of the kind [leaves_pane] leaves the pane as it is. *)
Lemma leaves_pane_perform : forall P a s,
  leaves_pane (Meanwhile a) = true ->
  messagesContainer (perform P a s) = messagesContainer s.
Proof.
  intros P a s H. destruct a; try discriminate; cbn [perform].
  - reflexivity.
  - unfold selectChat. destruct (is_current chatId (currentChatId s));
      reflexivity.
  - unfold deleteChat_begin. destruct confirmed; reflexivity.
  - unfold loadChatList_resume. destruct reply; reflexivity.
Qed.

(** The frame handler reads the page only through the pane: two calls at
    the same response text and the same pane go the same way. *)
Lemma on_line_pane : forall P i line x y,
  same_text_and_pane x y ->
  match on_line P i line x, on_line P i line y with
  | Continue x', Continue y' | Return x', Return y' => same_text_and_pane x' y'
  | _, _ => False
  end.
Proof.
  intros P i line [f s] [g t] [Hf Hp]. cbn [fst snd] in Hf, Hp. subst g.
  assert (same_text_and_pane (f, s) (f, t)) as Hsame by (split; auto).
  unfold on_line.
  destruct (startsWith (str "data: ") line); [|exact Hsame].
  destruct (streq (slice 6 line) DONE); [exact Hsame|].
  destruct (JSON_parse P (slice 6 line)) as [parsed|]; [|exact Hsame].
  destruct (get (str "token") parsed) as [token|]; [|exact Hsame].
  destruct (truthy token).
  - destruct (to_string P token) as [fragment|]; [|exact Hsame].
    split; [reflexivity|]. cbn [snd]. unfold updateStreamingMessage.
    rewrite Hp.
    destruct (getElementById i (messagesContainer t)); [reflexivity|exact Hp].
  - destruct (get (str "memories_added") parsed) as [[]|];
      try exact Hsame;
      unfold finalizeStreamingMessage; rewrite Hp;
      (destruct (getElementById i (messagesContainer t)) as [e|];
       [|destruct (get (str "memory_stats") parsed) as [stats|];
         [destruct (updateMemoryDisplay P stats)|]; exact Hsame]);
      cbv zeta;
      match goal with
      | |- context [gt_zero P ?v] => destruct (gt_zero P v) as [[|]|]
      end;
      try (destruct (get (str "memory_stats") parsed) as [stats|];
           [destruct (updateMemoryDisplay P stats)|]);
      (split; [reflexivity|]); cbn [snd messagesContainer set_messages];
      rewrite ?Hp; reflexivity.
Qed.

Lemma drain_fuel_pane : forall P i fuel buffer x y,
  same_text_and_pane x y ->
  match drain_fuel (on_line P i) fuel buffer x,
        drain_fuel (on_line P i) fuel buffer y with
  | Pending b x', Pending c y' => b = c /\ same_text_and_pane x' y'
  | Returned x', Returned y' => same_text_and_pane x' y'
  | _, _ => False
  end.
Proof.
  intros P i. induction fuel as [|fuel IH]; intros buffer x y H;
    cbn [drain_fuel]; [split; [reflexivity|exact H]|].
  destruct (indexOf boundary buffer) as [n|]; [|split; [reflexivity|exact H]].
  pose proof (on_line_pane P i (trim (substring 0 n buffer)) x y H) as Hl.
  destruct (on_line P i (trim (substring 0 n buffer)) x) as [x'|x'];
    destruct (on_line P i (trim (substring 0 n buffer)) y) as [y'|y'];
    try contradiction; [apply IH; exact Hl|exact Hl].
Qed.

(** Handlers that leave the pane alone do not show in what the read loop
    does with the response text and the pane. *)
Lemma reading_quiet : forall P i events buffer x y,
  forallb leaves_pane events = true ->
  same_text_and_pane x y ->
  match reading P i events buffer x,
        reading P i (map Read (reads events)) buffer y with
  | Pending b x', Pending c y' => b = c /\ same_text_and_pane x' y'
  | Returned x', Returned y' => same_text_and_pane x' y'
  | _, _ => False
  end.
Proof.
  intros P i. induction events as [|[chunk|a] events IH];
    intros buffer x y Hq H.
  - split; [reflexivity|exact H].
  - cbn [forallb leaves_pane andb] in Hq.
    change (reads (Read chunk :: events)) with (chunk :: reads events).
    cbn [map reading]. unfold drain.
    pose proof (drain_fuel_pane P i (length (buffer ++ chunk))
                  (buffer ++ chunk) x y H) as Hd.
    destruct (drain_fuel (on_line P i) (length (buffer ++ chunk))
                (buffer ++ chunk) x) as [b x'|x'];
      destruct (drain_fuel (on_line P i) (length (buffer ++ chunk))
                  (buffer ++ chunk) y) as [c y'|y'];
      try contradiction; [|exact Hd].
    destruct Hd as [<- Hd]. apply IH; [exact Hq|exact Hd].
  - cbn [forallb] in Hq. apply andb_true_iff in Hq. destruct Hq as [Ha Hq].
    change (reads (Meanwhile a :: events)) with (reads events).
    cbn [reading]. apply IH; [exact Hq|].
    destruct H as [Hf Hp]. split; [exact Hf|]. cbn [fst snd].
    rewrite (leaves_pane_perform P a (snd x) Ha). exact Hp.
Qed.



Lemma sendMessage_stream_released : forall P iso status events fin i s,
  isGenerating (sendMessage_stream P iso status events fin i s) = false
  /\ sendButton_disabled (sendMessage_stream P iso status events fin i s)
     = false.
Proof. intros. split; reflexivity. Qed.






(** ** The chat list *)

Lemma streq_eq : forall a b, streq a b = true <-> a = b.
Proof.
  induction a as [|x a IH]; intros [|y b]; simpl; split; intros H;
    try reflexivity; try discriminate.
  - apply andb_true_iff in H. destruct H as [Hx Ha].
    apply N.eqb_eq in Hx. apply IH in Ha. subst. reflexivity.
  - inversion H; subst. rewrite N.eqb_refl. simpl. apply IH. reflexivity.
Qed.

Lemma streq_neq : forall a b, streq a b = false <-> a <> b.
Proof.
  intros a b. split.
  - intros H E. apply streq_eq in E. congruence.
  - intros H. destruct (streq a b) eqn:E; [|reflexivity].
    apply streq_eq in E. contradiction.
Qed.

Lemma selectChat_chats : forall chatId title_ s,
  chats (selectChat chatId title_ s) = chats s.
Proof.
  intros chatId title_ s. unfold selectChat.
  destruct (is_current chatId (currentChatId s)); reflexivity.
Qed.

Lemma filter_all : forall (A : Type) (p : A -> bool) (l : list A),
  (forall x, In x l -> p x = true) -> filter p l = l.
Proof.
  intros A p. induction l as [|x l IH]; intros H; simpl.
  - reflexivity.
  - rewrite (H x (or_introl eq_refl)). rewrite IH; [reflexivity|].
    intros y Hy. apply H. right. exact Hy.
Qed.

(** C7. The local chat list on creation and deletion.  When [/new-chat]
    answers without an error the new chat, with the id and title of the
    answer, becomes the head of [chats] in front of the old entries.  When a
    deletion is acknowledged, [chats] keeps exactly the entries whose id is
    not the deleted one, each as it was and in the old order (with one entry
    for the deleted id, the list is the old one with that entry cut out);
    the view is cleared to the empty state -- no current chat, the
    application title, an empty pane, the empty-state block shown -- when the
    deleted chat was the current one, and otherwise the current chat, the
    title, the pane and the empty-state block are left as they were. *)
Theorem registry_inserts_at_front_and_deletes_exactly :
  forall (P : Platform) (s : State),
    (forall iso iso' now random data,
        truthy (data_error data) = false ->
        chats (createNewChatWithMessage_resume P iso iso' now random
                 (NewChatJson data) s)
        = {| id := data_chat_id data; title := data_title data;
             created_at := iso; updated_at := iso' |} :: chats s)
    /\ (forall chatId status,
          response_ok status = true ->
          (forall c, In c (chats (deleteChat_resume chatId
                                    (DeleteResponse status) s))
                     <-> In c (chats s) /\ id c <> chatId)
          /\ (forall before c after,
                chats s = before ++ c :: after ->
                id c = chatId ->
                (forall d, In d (before ++ after) -> id d <> chatId) ->
                chats (deleteChat_resume chatId (DeleteResponse status) s)
                = before ++ after)
          /\ (currentChatId s = Some chatId ->
              let s' := deleteChat_resume chatId (DeleteResponse status) s in
              currentChatId s' = None /\ chatTitle s' = APP_TITLE
              /\ messagesContainer s' = [] /\ emptyState s' = DisplayFlex)
          /\ (currentChatId s <> Some chatId ->
              let s' := deleteChat_resume chatId (DeleteResponse status) s in
              currentChatId s' = currentChatId s
              /\ chatTitle s' = chatTitle s
              /\ messagesContainer s' = messagesContainer s
              /\ emptyState s' = emptyState s)).
Proof.
  intros P s. split.
  - intros iso iso' now random data Herr.
    unfold createNewChatWithMessage_resume. rewrite Herr.
    set (newChat := {| id := data_chat_id data; title := data_title data;
                       created_at := iso; updated_at := iso' |}).
    set (s1 := selectChat _ _ _).
    assert (chats s1 = newChat :: chats s) as H1
      by (unfold s1; rewrite selectChat_chats; reflexivity).
    pose proof (addMessageToUI_outside P now random assistant
                  (data_response data)
                  (if truthy (data_memories_added data)
                   then data_memories_added data else zero) s1) as Ho.
    destruct (addMessageToUI P now random assistant (data_response data) _ s1)
      as [s2|m s2]; destruct Ho as (_ & Hc & _).
    + destruct (updateMemoryDisplay P (data_memory_stats data));
        simpl; congruence.
    + simpl. congruence.
  - intros chatId status Hok.
    assert (chats (deleteChat_resume chatId (DeleteResponse status) s)
            = filter (fun c => negb (streq (id c) chatId)) (chats s)) as Hchats.
    { unfold deleteChat_resume. rewrite Hok. simpl.
      destruct (is_current chatId (currentChatId s)); reflexivity. }
    split; [|split; [|split]].
    + intros c. rewrite Hchats, filter_In, negb_true_iff, streq_neq.
      reflexivity.
    + intros before c after Hsplit Hid Hothers.
      rewrite Hchats, Hsplit, filter_app. simpl.
      assert (streq (id c) chatId = true) as -> by (apply streq_eq; exact Hid).
      simpl. rewrite <- filter_app. apply filter_all.
      intros d Hd. apply negb_true_iff, streq_neq, Hothers, Hd.
    + intros Hcur. unfold deleteChat_resume. rewrite Hok. simpl.
      rewrite Hcur. simpl.
      assert (streq chatId chatId = true) as -> by (apply streq_eq; reflexivity).
      repeat split.
    + intros Hcur. unfold deleteChat_resume. rewrite Hok. simpl.
      assert (is_current chatId (currentChatId s) = false) as ->.
      { destruct (currentChatId s) as [c|]; [|reflexivity]. simpl.
        apply streq_neq. intros E. apply Hcur. subst. reflexivity. }
      repeat split.
Qed.

(** The sample session: chat B, the current one, is deleted, and a new chat
    is created from the page as it stood. *)
Lemma registry_inserts_at_front_and_deletes_exactly_witness :
  let P := Reference.platform in
  let data := {| data_error := JUndefined; data_chat_id := str "C";
                 data_title := str "Gamma";
                 data_response := Some (str "Hello!");
                 data_memories_added := JNum (Finite 1);
                 data_memory_stats := JObj [] |} in
  let s' := deleteChat_resume (str "B") (DeleteResponse 200) page0 in
  truthy (data_error data) = false
  /\ chats (createNewChatWithMessage_resume P NOW NOW 4 5 (NewChatJson data)
             page0)
     = {| id := str "C"; title := str "Gamma"; created_at := NOW;
          updated_at := NOW |} :: [chatA; chatB]
  /\ response_ok 200 = true
  /\ chats page0 = [chatA] ++ chatB :: []
  /\ chats s' = [chatA]
  /\ currentChatId page0 = Some (str "B")
  /\ currentChatId s' = None /\ chatTitle s' = APP_TITLE
  /\ messagesContainer s' = [] /\ emptyState s' = DisplayFlex.
Proof.
  intros P data s'.
  destruct (registry_inserts_at_front_and_deletes_exactly P page0)
    as (Hnew & Hdel).
  destruct (Hdel (str "B") 200%N eq_refl) as (_ & Hcut & Hclear & _).
  split; [reflexivity|].
  split; [exact (Hnew NOW NOW 4%N 5%N data eq_refl)|].
  split; [reflexivity|]. split; [reflexivity|].
  split.
  - apply (Hcut [chatA] chatB [] eq_refl eq_refl).
    intros d [Hd|[]]. subst d. discriminate.
  - split; [reflexivity|]. exact (Hclear eq_refl).
Defined.

(** ** Formatting *)

Lemma Forall_firstn_keep : forall (A : Type) (Q : A -> Prop) n (l : list A),
  Forall Q l -> Forall Q (firstn n l).
Proof.
  intros A Q n l H. rewrite <- (firstn_skipn n l) in H.
  apply Forall_app in H. tauto.
Qed.

Lemma Forall_skipn_keep : forall (A : Type) (Q : A -> Prop) n (l : list A),
  Forall Q l -> Forall Q (skipn n l).
Proof.
  intros A Q n l H. rewrite <- (firstn_skipn n l) in H.
  apply Forall_app in H. tauto.
Qed.

Section ReplaceFacts.
Context {A : Type} (code : A -> N).

Lemma capture_Forall : forall (Q : A -> Prop) l cs n g,
  Forall Q l -> capture l cs n = Some g -> Forall Q g.
Proof.
  intros Q l cs n g Hl H. unfold capture in H.
  destruct (cap_lookup n cs) as [[a b]|]; [|discriminate].
  inversion H; subst. apply Forall_firstn_keep, Forall_skipn_keep, Hl.
Qed.

(** A global replace only copies units of its input and adds what the
    replacement writes. *)
Lemma scan_Forall : forall (Q : A -> Prop) ml r (f : replacer),
  (forall whole caps,
      Forall Q whole -> (forall n g, caps n = Some g -> Forall Q g) ->
      Forall Q (f whole caps)) ->
  forall l prev skip, Forall Q l -> Forall Q (scan code ml r f prev skip l).
Proof.
  intros Q ml r f Hf. induction l as [|x l IH]; intros prev skip Hl.
  - simpl. destruct skip; [|constructor].
    destruct (match_here ml r prev []) as [[len cs]|]; [|constructor].
    apply Hf; [constructor|]. intros n g. apply capture_Forall. constructor.
  - simpl. destruct skip as [|k].
    + assert (Forall Q l) as Hl' by (inversion Hl; assumption).
      assert (Q x) as Hx by (inversion Hl; assumption).
      destruct (match_here ml r prev (code x :: map code l)) as [[len cs]|].
      * assert (Forall Q (f (firstn len (x :: l)) (capture (x :: l) cs)))
          as Hout.
        { apply Hf; [apply Forall_firstn_keep, Hl|].
          intros n g. apply capture_Forall, Hl. }
        destruct len as [|k]; apply Forall_app; split; try exact Hout.
        -- constructor; [exact Hx|]. apply IH, Hl'.
        -- apply IH, Hl'.
      * constructor; [exact Hx|]. apply IH, Hl'.
    + apply IH. inversion Hl; assumption.
Qed.

Lemma replace_g_Forall : forall (Q : A -> Prop) ml r (f : replacer) s,
  (forall whole caps,
      Forall Q whole -> (forall n g, caps n = Some g -> Forall Q g) ->
      Forall Q (f whole caps)) ->
  Forall Q s -> Forall Q (replace_g code ml r f s).
Proof. intros. unfold replace_g. apply scan_Forall; assumption. Qed.

Lemma expand_Forall : forall (Q : A -> Prop) (inj : N -> A) t whole caps,
  (forall c, Q (inj c)) ->
  Forall Q whole -> (forall n g, caps n = Some g -> Forall Q g) ->
  Forall Q (expand inj t whole caps).
Proof.
  intros Q inj t whole caps Hinj Hw Hc. unfold expand.
  apply Forall_flat_map. apply Forall_forall. intros it _.
  destruct it as [s|n|].
  - apply Forall_forall. intros y Hy. apply in_map_iff in Hy.
    destruct Hy as (c & <- & _). apply Hinj.
  - destruct (caps n) as [g|] eqn:E; [exact (Hc n g E)|constructor].
  - exact Hw.
Qed.

Lemma trimStart_Forall : forall (Q : A -> Prop) s,
  Forall Q s -> Forall Q (trimStart code s).
Proof.
  intros Q. induction s as [|x s IH]; intros H; simpl; [constructor|].
  destruct (is_ws (code x)); [apply IH; inversion H; assumption|exact H].
Qed.

Lemma trim_on_Forall : forall (Q : A -> Prop) s,
  Forall Q s -> Forall Q (trim_on code s).
Proof.
  intros Q s H. unfold trim_on, trimEnd.
  apply Forall_rev, trimStart_Forall, Forall_rev, trimStart_Forall, H.
Qed.

(** *** A replace that copies through a carrier is the replace on the units *)

Lemma capture_map : forall l cs n,
  capture (map code l) cs n = option_map (map code) (capture l cs n).
Proof.
  intros l cs n. unfold capture.
  destruct (cap_lookup n cs) as [[a b]|]; [|reflexivity].
  simpl. rewrite skipn_map, firstn_map. reflexivity.
Qed.

Lemma scan_map : forall ml r (f : replacer (A:=A)) (f' : replacer (A:=N)),
  (forall whole caps caps',
      (forall n, caps' n = option_map (map code) (caps n)) ->
      map code (f whole caps) = f' (map code whole) caps') ->
  forall l prev skip,
    map code (scan code ml r f prev skip l)
    = scan (fun c => c) ml r f' prev skip (map code l).
Proof.
  intros ml r f f' Hf. induction l as [|x l IH]; intros prev skip.
  - simpl. destruct skip; [|reflexivity].
    destruct (match_here ml r prev []) as [[len cs]|]; [|reflexivity].
    apply (Hf [] (capture [] cs) (capture [] cs)).
    intros n. apply (capture_map [] cs n).
  - cbn [scan map]. destruct skip as [|k]; [|apply IH].
    rewrite map_id.
    destruct (match_here ml r prev (code x :: map code l)) as [[len cs]|].
    + assert (map code (f (firstn len (x :: l)) (capture (x :: l) cs))
              = f' (firstn len (code x :: map code l))
                  (capture (code x :: map code l) cs)) as Hout.
      { rewrite (Hf (firstn len (x :: l)) (capture (x :: l) cs)
                   (capture (code x :: map code l) cs)).
        - change (code x :: map code l) with (map code (x :: l)).
          rewrite firstn_map. reflexivity.
        - intros n. apply (capture_map (x :: l) cs n). }
      destruct len as [|k]; rewrite map_app, Hout; cbn [map];
        [rewrite (IH (Some (code x)) 0) | rewrite (IH (Some (code x)) k)];
        reflexivity.
    + cbn [map]. rewrite IH. reflexivity.
Qed.

Lemma expand_map : forall (inj : N -> A) t whole caps caps',
  (forall c, code (inj c) = c) ->
  (forall n, caps' n = option_map (map code) (caps n)) ->
  map code (expand inj t whole caps)
  = expand (fun c => c) t (map code whole) caps'.
Proof.
  intros inj t whole caps caps' Hinj Hc. unfold expand.
  induction t as [|it t IH]; [reflexivity|].
  cbn [flat_map]. rewrite map_app, IH. f_equal.
  destruct it as [s|n|].
  - rewrite map_map, map_id. rewrite <- (map_id s) at 2.
    apply map_ext. exact Hinj.
  - rewrite Hc. destruct (caps n); reflexivity.
  - reflexivity.
Qed.

Lemma trimStart_map : forall s,
  map code (trimStart code s) = trimStart (fun c => c) (map code s).
Proof.
  induction s as [|x s IH]; [reflexivity|]. simpl.
  destruct (is_ws (code x)); [exact IH|reflexivity].
Qed.

Lemma trim_on_map : forall s,
  map code (trim_on code s) = trim_on (fun c => c) (map code s).
Proof.
  intros s. unfold trim_on, trimEnd.
  rewrite map_rev, trimStart_map, map_rev, trimStart_map. reflexivity.
Qed.

Lemma line_count_map : forall s,
  line_count (fun c => c) (map code s) = line_count code s.
Proof.
  intros s. unfold line_count. f_equal.
  induction s as [|x s IH]; [reflexivity|]. simpl.
  destruct (code x =? LF)%N; simpl; rewrite IH; reflexivity.
Qed.

(** *** Replacing one character *)

Lemma replace_char_flat_map : forall (inj : N -> A) c entity s,
  replace_char code inj c entity s
  = flat_map (fun x => if (c =? code x)%N then map inj entity else [x]) s.
Proof.
  intros inj c entity s. unfold replace_char, replace_g.
  generalize (@None N) as prev.
  induction s as [|x s IH]; intros prev; [reflexivity|].
  cbn [scan flat_map]. unfold match_here, chr. cbn [rmatch m_rest map].
  destruct (c =? code x)%N.
  - cbn. rewrite app_nil_r, IH. reflexivity.
  - cbn. rewrite IH. reflexivity.
Qed.
End ReplaceFacts.

Section FormatFacts.
Context {A : Type} (code : A -> N) (ent : N -> A).
Hypothesis code_ent : forall c, code (ent c) = c.

Lemma stage_keeps_entity : forall c e e',
  forallb (fun d => negb (c =? d)%N) e' = true ->
  flat_map (fun x => if (c =? code x)%N then map ent e else [x]) (map ent e')
  = map ent e'.
Proof.
  intros c e. induction e' as [|d e' IH]; cbn [forallb map flat_map];
    intros H; [reflexivity|].
  apply andb_true_iff in H. destruct H as [H1 H2].
  apply negb_true_iff in H1. rewrite code_ent, H1, IH by exact H2.
  reflexivity.
Qed.

Lemma stage_keeps_unit : forall c e x,
  (c =? code x)%N = false ->
  flat_map (fun x => if (c =? code x)%N then map ent e else [x]) [x] = [x].
Proof. intros c e x H. cbn [flat_map]. rewrite H. reflexivity. Qed.

Lemma stage_hits : forall c e x,
  (c =? code x)%N = true ->
  flat_map (fun x => if (c =? code x)%N then map ent e else [x]) [x]
  = map ent e.
Proof. intros c e x H. cbn [flat_map]. rewrite H. apply app_nil_r. Qed.

(** The five replacements in a row on one unit: a special character becomes
    its entity, any other unit is copied. *)
Lemma escapeHtml_on_unit : forall x,
  escapeHtml_on code ent [x]
  = if is_special (code x) then map ent (escape_unit (code x)) else [x].
Proof.
  intros x. unfold escapeHtml_on. rewrite !replace_char_flat_map.
  unfold is_special, escape_unit.
  destruct (38 =? code x)%N eqn:E38.
  { rewrite (stage_hits _ _ _ E38).
    rewrite !stage_keeps_entity by reflexivity. reflexivity. }
  rewrite (stage_keeps_unit _ _ _ E38).
  destruct (60 =? code x)%N eqn:E60.
  { rewrite (stage_hits _ _ _ E60).
    rewrite !stage_keeps_entity by reflexivity. reflexivity. }
  rewrite (stage_keeps_unit _ _ _ E60).
  destruct (62 =? code x)%N eqn:E62.
  { rewrite (stage_hits _ _ _ E62).
    rewrite !stage_keeps_entity by reflexivity. reflexivity. }
  rewrite (stage_keeps_unit _ _ _ E62).
  destruct (34 =? code x)%N eqn:E34.
  { rewrite (stage_hits _ _ _ E34).
    rewrite !stage_keeps_entity by reflexivity. reflexivity. }
  rewrite (stage_keeps_unit _ _ _ E34).
  destruct (39 =? code x)%N eqn:E39.
  { rewrite (stage_hits _ _ _ E39). reflexivity. }
  rewrite (stage_keeps_unit _ _ _ E39). reflexivity.
Qed.

Lemma escapeHtml_on_app : forall s t,
  escapeHtml_on code ent (s ++ t)
  = escapeHtml_on code ent s ++ escapeHtml_on code ent t.
Proof.
  intros s t. unfold escapeHtml_on.
  rewrite !replace_char_flat_map, !flat_map_app. reflexivity.
Qed.

Lemma escapeHtml_on_flat_map : forall text,
  escapeHtml_on code ent text
  = flat_map (fun x => if is_special (code x)
                       then map ent (escape_unit (code x)) else [x]) text.
Proof.
  induction text as [|x text IH].
  - unfold escapeHtml_on. rewrite !replace_char_flat_map. reflexivity.
  - change (x :: text) with ([x] ++ text).
    rewrite escapeHtml_on_app, flat_map_app, IH, escapeHtml_on_unit.
    cbn [flat_map]. rewrite app_nil_r. reflexivity.
Qed.

(** After the escaping step no unit is [<], [>] or a quote. *)
Lemma escapeHtml_on_inert : forall text,
  Forall (fun x => inert (code x)) (escapeHtml_on code ent text).
Proof.
  intros text. rewrite escapeHtml_on_flat_map.
  apply Forall_flat_map, Forall_forall. intros x _.
  unfold is_special, escape_unit, inert.
  destruct (N.eqb_spec 38 (code x)) as [E|E].
  { cbn. repeat constructor; rewrite code_ent; discriminate. }
  destruct (N.eqb_spec 60 (code x)) as [E1|E1].
  { cbn. repeat constructor; rewrite code_ent; discriminate. }
  destruct (N.eqb_spec 62 (code x)) as [E2|E2].
  { cbn. repeat constructor; rewrite code_ent; discriminate. }
  destruct (N.eqb_spec 34 (code x)) as [E3|E3].
  { cbn. repeat constructor; rewrite code_ent; discriminate. }
  destruct (N.eqb_spec 39 (code x)) as [E4|E4].
  { cbn. repeat constructor; rewrite code_ent; discriminate. }
  cbn. repeat constructor; congruence.
Qed.
End FormatFacts.

Section MarkdownFacts.
Context {A : Type} (code : A -> N) (mk : N -> A).

Lemma map_inj_Forall : forall (Q : A -> Prop) (s : jsstring),
  (forall c, Q (mk c)) -> Forall Q (map mk s).
Proof.
  intros Q s H. apply Forall_forall. intros y Hy.
  apply in_map_iff in Hy. destruct Hy as (c & <- & _). apply H.
Qed.

Lemma code_block_Forall : forall (Q : A -> Prop) whole caps,
  (forall c, Q (mk c)) ->
  Forall Q whole -> (forall n g, caps n = Some g -> Forall Q g) ->
  Forall Q (code_block code mk whole caps).
Proof.
  intros Q whole caps Hmk _ Hc. unfold code_block. cbv zeta.
  apply Forall_app. split; [apply map_inj_Forall, Hmk|].
  apply Forall_app. split; [|apply map_inj_Forall, Hmk].
  apply trim_on_Forall.
  destruct (caps 2) as [g|] eqn:E; [exact (Hc 2 g E)|constructor].
Qed.

Lemma li_line_Forall : forall (Q : A -> Prop) whole caps,
  (forall c, Q (mk c)) ->
  Forall Q whole -> (forall n g, caps n = Some g -> Forall Q g) ->
  Forall Q (li_line code mk whole caps).
Proof.
  intros Q whole caps Hmk _ Hc. unfold li_line. cbv zeta.
  apply replace_g_Forall.
  - intros w cs Hw Hcs. apply expand_Forall; assumption.
  - destruct (caps 1) as [g|] eqn:E; [exact (Hc 1 g E)|constructor].
Qed.

(** The formatting passes copy units of their input and add markup. *)
Lemma markdown_on_Forall : forall (Q : A -> Prop) html,
  (forall c, Q (mk c)) ->
  Forall Q html -> Forall Q (markdown_on code mk html).
Proof.
  intros Q html Hmk H. unfold markdown_on, wrap. cbv zeta.
  repeat (apply replace_g_Forall;
          [ intros w cs Hw Hcs;
            first [ apply expand_Forall; assumption
                  | apply code_block_Forall; assumption
                  | apply li_line_Forall; assumption ]
          | ]).
  exact H.
Qed.

Hypothesis code_mk : forall c, code (mk c) = c.

Lemma replace_g_map_eq :
  forall ml r (f : replacer (A:=A)) (f' : replacer (A:=N)) s s',
    (forall whole caps caps',
        (forall n, caps' n = option_map (map code) (caps n)) ->
        map code (f whole caps) = f' (map code whole) caps') ->
    map code s = s' ->
    map code (replace_g code ml r f s) = replace_g (fun c => c) ml r f' s'.
Proof.
  intros ml r f f' s s' Hf <-. unfold replace_g. apply scan_map. exact Hf.
Qed.

Lemma map_code_mk : forall s : jsstring,
  map code (map mk s) = map (fun c => c) s.
Proof. intros s. rewrite map_map. apply map_ext. exact code_mk. Qed.

Lemma code_block_map : forall whole caps caps',
  (forall n, caps' n = option_map (map code) (caps n)) ->
  map code (code_block code mk whole caps)
  = code_block (fun c => c) (fun c => c) (map code whole) caps'.
Proof.
  intros whole caps caps' Hc. unfold code_block. cbv zeta.
  rewrite (Hc 2).
  replace (match option_map (map code) (caps 2) with
           | Some c => c
           | None => []
           end)
    with (map code (match caps 2 with Some c => c | None => [] end))
    by (destruct (caps 2); reflexivity).
  rewrite <- trim_on_map, line_count_map, length_map.
  rewrite !map_app, !map_code_mk. reflexivity.
Qed.

Lemma li_line_map : forall whole caps caps',
  (forall n, caps' n = option_map (map code) (caps n)) ->
  map code (li_line code mk whole caps)
  = li_line (fun c => c) (fun c => c) (map code whole) caps'.
Proof.
  intros whole caps caps' Hc. unfold li_line. cbv zeta.
  apply replace_g_map_eq.
  - intros w cs cs' Hcs. apply expand_map; assumption.
  - rewrite (Hc 1). destruct (caps 1); reflexivity.
Qed.

(** Run through a carrier that forgets to its units, the formatting passes
    are the passes on the units. *)
Lemma markdown_on_map : forall html,
  map code (markdown_on code mk html)
  = markdown_on (fun c => c) (fun c => c) (map code html).
Proof.
  intros html. unfold markdown_on, wrap. cbv zeta.
  repeat (apply replace_g_map_eq;
          [ intros w cs cs' Hcs;
            first [ apply expand_map; assumption
                  | apply code_block_map; assumption
                  | apply li_line_map; assumption ]
          | ]).
  reflexivity.
Qed.
End MarkdownFacts.

Lemma escapeHtml_on_map : forall (A : Type) (code : A -> N) (ent : N -> A) text,
  (forall c, code (ent c) = c) ->
  map code (escapeHtml_on code ent text)
  = escapeHtml_on (fun c => c) (fun c => c) (map code text).
Proof.
  intros A code ent text Hent. unfold escapeHtml_on, replace_char.
  repeat (apply replace_g_map_eq;
          [ intros w cs cs' Hcs; apply expand_map; assumption | ]).
  reflexivity.
Qed.

Lemma escapeHtml_flat_map : forall s, escapeHtml s = flat_map escape_unit s.
Proof.
  intros s. unfold escapeHtml.
  rewrite (escapeHtml_on_flat_map (fun c => c) (fun c => c))
    by reflexivity.
  apply flat_map_ext. intros c. unfold is_special, escape_unit.
  destruct (38 =? c)%N; [apply map_id|].
  destruct (60 =? c)%N; [apply map_id|].
  destruct (62 =? c)%N; [apply map_id|].
  destruct (34 =? c)%N; [apply map_id|].
  destruct (39 =? c)%N; [apply map_id|reflexivity].
Qed.

(** C9. [formatMessage] returns the empty string for a [null] or empty
    argument.  For any other text it first rewrites every [&], [<], [>],
    double quote and single quote into its entity, unit by unit, so that the
    text handed to the formatting passes holds no [<], [>] or quote, and only
    then applies the formatting passes to that escaped text.  Run on units
    that carry their origin, it yields the same output, and in that output no
    unit that stems from the text is a [<], a [>] or a quote: every such
    character of the produced HTML was written by a formatting pass. *)
Theorem formatMessage_escapes_before_markup :
  forall text : option jsstring,
    (text = None \/ text = Some [] -> formatMessage text = [])
    /\ (forall s, text = Some s -> s <> [] ->
          formatMessage text = markdown (escapeHtml s)
          /\ escapeHtml s = flat_map escape_unit s
          /\ Forall inert (escapeHtml s)
          /\ map snd (formatMessage_traced s) = formatMessage text
          /\ Forall (fun u => fst u = FromText -> inert (snd u))
               (formatMessage_traced s)).
Proof.
  intros text. split.
  - intros [-> | ->]; reflexivity.
  - intros s -> Hs.
    destruct s as [|c s]; [contradiction|]. clear Hs.
    split; [reflexivity|]. split; [apply escapeHtml_flat_map|].
    split.
    { apply (@escapeHtml_on_inert _ (fun c => c) (fun c => c)). reflexivity. }
    unfold formatMessage_traced, formatMessage, formatMessage_on.
    cbn [map]. split.
    + rewrite (@markdown_on_map _ snd (pair FromMarkup)) by reflexivity.
      rewrite (@escapeHtml_on_map _ snd (pair FromText)) by reflexivity.
      cbn [map snd]. rewrite map_map. cbn [snd]. rewrite map_id.
      reflexivity.
    + apply markdown_on_Forall; [intros d; discriminate|].
      eapply Forall_impl;
        [|apply (@escapeHtml_on_inert _ snd (pair FromText)); reflexivity].
      intros u Hu _. exact Hu.
Qed.

(** A text with a tag, an ampersand and emphasis: [<b>] is shown as text,
    [*x*] becomes markup. *)
Lemma formatMessage_escapes_before_markup_witness :
  let s := str "<b> & *x*" in
  Some s = Some s /\ s <> []
  /\ formatMessage (Some s) = str "&lt;b&gt; &amp; <em>x</em>"
  /\ escapeHtml s = str "&lt;b&gt; &amp; *x*"
  /\ map snd (formatMessage_traced s) = formatMessage (Some s)
  /\ Forall (fun u => fst u = FromText -> inert (snd u))
       (formatMessage_traced s).
Proof.
  intros s.
  assert (s <> []) as Hs by discriminate.
  destruct (proj2 (formatMessage_escapes_before_markup (Some s)) s eq_refl Hs)
    as (Hfmt & Hesc & _ & Herase & Horigin).
  split; [reflexivity|]. split; [exact Hs|].
  split; [rewrite Hfmt; reflexivity|].
  split; [rewrite Hesc; reflexivity|].
  split; [exact Herase | exact Horigin].
Defined.

(* ================================================================= *)
(** * Further properties *)

(** ** Patterns that cannot match *)

Lemma can_start_sound : forall ml r k x,
  can_start ml r (m_prev x) (m_rest x) = false -> rmatch ml r k x = None.
Proof.
  intros ml. induction r as [|p|a IHa b IHb|a IHa b IHb|min max greedy a IHa
                             |n a IHa| | |a IHa]; intros k x H.
  - discriminate.
  - cbn [can_start rmatch] in *. destruct (m_rest x) as [|u rest];
      [reflexivity|]. rewrite H. reflexivity.
  - destruct a; cbn [can_start] in H;
      try (cbn [rmatch]; apply IHa; exact H).
    + cbn [rmatch]. apply IHb. exact H.
    + cbn [rmatch]. destruct (m_rest x) as [|u rest]; [reflexivity|].
      destruct (p u); [|reflexivity]. apply IHb. exact H.
    + cbn [rmatch]. destruct (m_prev x) as [c|] eqn:E.
      * destruct (ml && is_line_terminator c); [|reflexivity].
        apply IHb. rewrite E. exact H.
      * apply IHb. rewrite E. exact H.
    + cbn [rmatch].
      assert (rmatch ml b k x = None) as Hb by (apply IHb; exact H).
      destruct (m_rest x) as [|c rest]; [exact Hb|].
      destruct (ml && is_line_terminator c); [exact Hb|reflexivity].
  - cbn [can_start] in H. apply orb_false_iff in H. destruct H as [H1 H2].
    cbn [rmatch]. rewrite (IHa k x H1). cbn [orelse]. apply IHb. exact H2.
  - cbn [can_start] in H. destruct min as [|min]; [discriminate|].
    destruct max as [[|max]|]; [discriminate| |];
      cbn [rmatch Nat.add repeat_loop Nat.eqb andb negb];
      apply IHa; exact H.
  - cbn [can_start rmatch] in *. apply IHa. exact H.
  - cbn [can_start rmatch] in *. destruct (m_prev x) as [c|];
      [rewrite H; reflexivity|discriminate].
  - discriminate.
  - cbn [can_start rmatch] in *. rewrite (IHa Some x H). reflexivity.
Qed.

Lemma match_here_none : forall ml r prev rest,
  can_start ml r prev rest = false -> match_here ml r prev rest = None.
Proof.
  intros ml r prev rest H. unfold match_here.
  rewrite can_start_sound by exact H. reflexivity.
Qed.

(** A pass whose pattern can start nowhere copies its input. *)
Lemma scan_unguarded :
  forall (A : Type) (code : A -> N) ml r (f : replacer (A:=A)) l prev,
    unguarded (can_start ml r) prev (map code l) = true ->
    scan code ml r f prev 0 l = l.
Proof.
  intros A code ml r f. induction l as [|x l IH]; intros prev H;
    cbn [map unguarded] in H; apply andb_true_iff in H; destruct H as [H1 H2];
    apply negb_true_iff in H1; cbn [scan].
  - rewrite (match_here_none _ _ _ _ H1). reflexivity.
  - change (code x :: map code l) with (map code (x :: l)) in H1.
    rewrite (match_here_none _ _ _ _ H1). rewrite (IH _ H2). reflexivity.
Qed.

Lemma replace_g_unguarded : forall ml r (f : replacer (A:=N)) s,
  unguarded (can_start ml r) None s = true ->
  replace_g (fun c => c) ml r f s = s.
Proof.
  intros ml r f s H. unfold replace_g. apply scan_unguarded.
  rewrite map_id. exact H.
Qed.

Lemma unguarded_weaken : forall (g g' : option N -> jsstring -> bool),
  (forall prev l, g prev l = true -> g' prev l = true) ->
  forall l prev, unguarded g' prev l = true -> unguarded g prev l = true.
Proof.
  intros g g' Hg. induction l as [|c l IH]; intros prev H;
    cbn [unguarded] in *; apply andb_true_iff in H; destruct H as [H1 H2];
    apply negb_true_iff in H1; apply andb_true_iff; split;
    try (apply IH; exact H2); try reflexivity;
    apply negb_true_iff; destruct (g prev _) eqn:E; try reflexivity;
    apply Hg in E; congruence.
Qed.

(** A literal can start only where the input begins with it. *)
Lemma can_start_lit : forall ml p prev rest,
  can_start ml (lit p) prev rest = true -> startsWith p rest = true.
Proof.
  intros ml. induction p as [|c p IH]; intros prev rest H; [reflexivity|].
  destruct p as [|c' p].
  - cbn [lit chr can_start] in H. destruct rest as [|u rest];
      [discriminate|]. cbn [startsWith]. rewrite H. reflexivity.
  - change (lit (c :: c' :: p)) with (Seq (chr c) (lit (c' :: p))) in H.
    unfold chr in H. cbn [can_start] in H.
    destruct rest as [|u rest]; [discriminate|].
    apply andb_true_iff in H. destruct H as [H1 H2].
    apply IH in H2. cbn [startsWith] in *. rewrite H1, H2. reflexivity.
Qed.

Lemma can_start_lit_seq : forall ml p b prev rest,
  can_start ml (Seq (lit p) b) prev rest = true -> startsWith p rest = true.
Proof.
  intros ml p b prev rest H. destruct p as [|c [|c' p]].
  - reflexivity.
  - cbn [lit chr can_start] in H. destruct rest as [|u rest];
      [discriminate|]. apply andb_true_iff in H. destruct H as [H _].
    cbn [startsWith]. rewrite H. reflexivity.
  - change (lit (c :: c' :: p)) with (Seq (chr c) (lit (c' :: p))) in H.
    cbn [can_start] in H.
    apply (can_start_lit ml (c :: c' :: p) prev rest). exact H.
Qed.

(** A string that does not hold the first unit of a literal holds no
    position where the literal starts. *)
Lemma unguarded_absent : forall c p l prev,
  Forall (fun u => u <> c) l ->
  unguarded (fun _ rest => startsWith (c :: p) rest) prev l = true.
Proof.
  intros c p. induction l as [|u l IH]; intros prev H; cbn [unguarded].
  - reflexivity.
  - inversion H as [|u' l' Hu Hl]; subst. cbn [startsWith].
    apply N.eqb_neq in Hu. rewrite N.eqb_sym in Hu. rewrite Hu.
    cbn [andb negb]. apply IH. exact Hl.
Qed.

(** ** Text without formatting marks *)

(** What the escaping writes for one unit: the unit itself, or an entity,
    which begins with [&] and holds no line terminator. *)
Lemma escape_unit_cases : forall d,
  (is_special d = false /\ escape_unit d = [d])
  \/ (is_special d = true
      /\ exists w, escape_unit d = 38%N :: w
                   /\ forallb (fun u => negb (is_line_terminator u)) w = true
                   /\ forallb (fun u => negb (is_special u)) w = true
                   /\ w <> []).
Proof.
  intros d. unfold is_special, escape_unit.
  destruct (38 =? d)%N; [right; split; [reflexivity|]; eexists;
    split; [reflexivity|split; [reflexivity|split; [reflexivity|discriminate]]]|].
  destruct (60 =? d)%N; [right; split; [reflexivity|]; eexists;
    split; [reflexivity|split; [reflexivity|split; [reflexivity|discriminate]]]|].
  destruct (62 =? d)%N; [right; split; [reflexivity|]; eexists;
    split; [reflexivity|split; [reflexivity|split; [reflexivity|discriminate]]]|].
  destruct (34 =? d)%N; [right; split; [reflexivity|]; eexists;
    split; [reflexivity|split; [reflexivity|split; [reflexivity|discriminate]]]|].
  destruct (39 =? d)%N; [right; split; [reflexivity|]; eexists;
    split; [reflexivity|split; [reflexivity|split; [reflexivity|discriminate]]]|].
  left. split; reflexivity.
Qed.

Lemma special_not_terminator : forall d,
  is_special d = true -> is_line_terminator d = false.
Proof.
  intros d H. unfold is_special in H.
  repeat (apply orb_true_iff in H; destruct H as [H|H]);
    apply N.eqb_eq in H; subst; reflexivity.
Qed.

Lemma special_differs : forall c d,
  is_special c = false -> is_special d = true -> (c =? d)%N = false.
Proof.
  intros c d Hc Hd. apply N.eqb_neq. intros ->. congruence.
Qed.

(** A prefix without special characters is found in the escaped text where
    it is found in the text. *)
Lemma startsWith_escape : forall p s,
  forallb (fun c => negb (is_special c)) p = true ->
  startsWith p (flat_map escape_unit s) = startsWith p s.
Proof.
  induction p as [|c p IH]; intros s H; [reflexivity|].
  cbn [forallb] in H. apply andb_true_iff in H. destruct H as [Hc Hp].
  apply negb_true_iff in Hc.
  destruct s as [|d s]; [reflexivity|]. cbn [flat_map].
  destruct (escape_unit_cases d) as [[Hd ->]|[Hd (w & -> & _)]].
  - cbn [app startsWith]. rewrite (IH s Hp). reflexivity.
  - cbn [app startsWith].
    rewrite (special_differs c 38 Hc eq_refl), (special_differs c d Hc Hd).
    reflexivity.
Qed.

Lemma last_cons_default : forall (w : jsstring) u a b,
  last (u :: w) a = last (u :: w) b.
Proof.
  induction w as [|u' w IH]; intros u a b; [reflexivity|].
  change (last (u :: u' :: w) a) with (last (u' :: w) a).
  change (last (u :: u' :: w) b) with (last (u' :: w) b). apply IH.
Qed.

Lemma line_free_inner : forall p w rest q,
  is_line_terminator q = false ->
  forallb (fun u => negb (is_line_terminator u)) w = true ->
  line_free p (Some q) (w ++ rest) = line_free p (Some (last w q)) rest.
Proof.
  intros p. induction w as [|u w IH]; intros rest q Hq Hw; [reflexivity|].
  cbn [forallb] in Hw. apply andb_true_iff in Hw. destruct Hw as [Hu Hw].
  apply negb_true_iff in Hu.
  unfold line_free in *. cbn [app unguarded at_line_start]. rewrite Hq.
  cbn [andb negb]. rewrite (IH rest u Hu Hw).
  destruct w as [|u' w]; [reflexivity|].
  rewrite (last_cons_default w u' u q). reflexivity.
Qed.

Lemma last_forallb : forall (f : N -> bool) w q,
  f q = true -> forallb f w = true -> f (last w q) = true.
Proof.
  intros f. induction w as [|u w IH]; intros q Hq Hw; [exact Hq|].
  cbn [forallb] in Hw. apply andb_true_iff in Hw. destruct Hw as [Hu Hw].
  destruct w as [|u' w]; [exact Hu|]. apply (IH q Hq Hw).
Qed.

Lemma line_free_prev : forall p prev prev' s,
  at_line_start prev = at_line_start prev' ->
  line_free p prev s = line_free p prev' s.
Proof.
  intros p prev prev' s H. unfold line_free.
  destruct s; cbn [unguarded]; rewrite H; reflexivity.
Qed.

(** Escaping brings no prefix to the start of a line. *)
Lemma line_free_escape : forall p,
  p <> [] -> forallb (fun c => negb (is_special c)) p = true ->
  forall s prev,
    line_free p prev s = true ->
    line_free p prev (flat_map escape_unit s) = true.
Proof.
  intros p Hne Hp. induction s as [|d s IH]; intros prev H.
  - exact H.
  - unfold line_free in H. cbn [unguarded] in H.
    apply andb_true_iff in H. destruct H as [H1 H2].
    fold (line_free p (Some d) s) in H2. cbn [flat_map].
    rewrite <- (startsWith_escape p (d :: s) Hp) in H1.
    cbn [flat_map] in H1.
    destruct (escape_unit_cases d) as [[Hd Hu]|[Hd (w & Hu & Hw & _)]];
      rewrite Hu in *.
    + unfold line_free. cbn [app unguarded] in *.
      fold (line_free p (Some d) (flat_map escape_unit s)).
      rewrite (IH _ H2), andb_true_r. exact H1.
    + unfold line_free. cbn [app unguarded].
      fold (line_free p (Some 38%N) (w ++ flat_map escape_unit s)).
      rewrite (line_free_inner p w _ 38 eq_refl Hw).
      assert (is_line_terminator (last w 38%N) = false) as Hl.
      { apply negb_true_iff.
        apply (last_forallb (fun u => negb (is_line_terminator u)) w 38
                 eq_refl Hw). }
      rewrite (line_free_prev p (Some (last w 38%N)) (Some d)).
      * rewrite (IH _ H2), andb_true_r.
        destruct p as [|c p]; [contradiction|].
        cbn [forallb] in Hp. apply andb_true_iff in Hp.
        destruct Hp as [Hc _]. apply negb_true_iff in Hc.
        cbn [startsWith]. rewrite (special_differs c 38 Hc eq_refl).
        rewrite andb_false_r. reflexivity.
      * cbn [at_line_start]. rewrite Hl, (special_not_terminator d Hd).
        reflexivity.
Qed.

Lemma escape_keeps_marks_out : forall s,
  forallb (fun c => negb ((96 =? c)%N || (42 =? c)%N)) s = true ->
  Forall (fun u => u <> 96%N /\ u <> 42%N) (flat_map escape_unit s).
Proof.
  intros s H. apply Forall_flat_map, Forall_forall. intros d Hd.
  assert (negb ((96 =? d)%N || (42 =? d)%N) = true) as Hm.
  { rewrite forallb_forall in H. apply H. exact Hd. }
  apply negb_true_iff, orb_false_iff in Hm. destruct Hm as [H96 H42].
  apply N.eqb_neq in H96, H42.
  unfold escape_unit.
  destruct (38 =? d)%N; [repeat constructor; discriminate|].
  destruct (60 =? d)%N; [repeat constructor; discriminate|].
  destruct (62 =? d)%N; [repeat constructor; discriminate|].
  destruct (34 =? d)%N; [repeat constructor; discriminate|].
  destruct (39 =? d)%N; [repeat constructor; discriminate|].
  repeat constructor; congruence.
Qed.

Lemma can_start_re_line : forall p prev l,
  can_start true (re_line p) prev l = true ->
  at_line_start prev && startsWith p l = true.
Proof.
  intros p prev l H. unfold re_line in H. cbn [can_start] in H.
  apply andb_true_iff in H. destruct H as [H1 H2].
  apply can_start_lit_seq in H2. rewrite H2, andb_true_r.
  destruct prev as [c|]; [exact H1|reflexivity].
Qed.

(** The line-break pass after the escaping, unit by unit. *)
Lemma breaks_after_escape : forall s,
  flat_map (fun x => if (LF =? x)%N then map (fun c => c) (str "<br>")
                     else [x])
    (flat_map escape_unit s)
  = flat_map render_unit s.
Proof.
  induction s as [|d s IH]; [reflexivity|].
  cbn [flat_map]. rewrite flat_map_app, IH. f_equal.
  unfold render_unit, escape_unit.
  destruct (N.eqb_spec LF d) as [<-|Hd]; [reflexivity|].
  destruct (38 =? d)%N; [reflexivity|].
  destruct (60 =? d)%N; [reflexivity|].
  destruct (62 =? d)%N; [reflexivity|].
  destruct (34 =? d)%N; [reflexivity|].
  destruct (39 =? d)%N; [reflexivity|].
  cbn [flat_map]. apply N.eqb_neq in Hd. rewrite Hd. reflexivity.
Qed.

(** X1. Text without formatting marks -- no backtick, no asterisk, no line
    that begins with [### ], [## ], [# ] or [- ] -- goes through
    [formatMessage] unit by unit: a line feed becomes [<br>], each of the five
    special characters becomes its entity, and every other unit is copied.
    No formatting pass rewrites anything in such a text. *)
Theorem formatMessage_of_mark_free_text : forall s,
  mark_free s = true ->
  formatMessage (Some s) = flat_map render_unit s.
Proof.
  intros s H. destruct s as [|c0 s0] eqn:Es; [reflexivity|].
  rewrite <- Es in *. clear Es c0 s0.
  replace (formatMessage (Some s)) with (markdown (escapeHtml s))
    by (destruct s; [|reflexivity]; reflexivity).
  unfold mark_free in H. apply andb_true_iff in H. destruct H as [Hspan Hline].
  cbn [forallb line_marks] in Hline.
  apply andb_true_iff in Hline. destruct Hline as [Hh3 Hline].
  apply andb_true_iff in Hline. destruct Hline as [Hh2 Hline].
  apply andb_true_iff in Hline. destruct Hline as [Hh1 Hline].
  apply andb_true_iff in Hline. destruct Hline as [Hli _].
  pose proof (escape_keeps_marks_out s Hspan) as Hmarks.
  pose proof (@escapeHtml_on_inert _ (fun c => c) (fun c => c)
                (fun c => eq_refl) s) as Hinert.
  fold (escapeHtml s) in Hinert.
  rewrite escapeHtml_flat_map in *.
  set (e := flat_map escape_unit s) in *.
  assert (Forall (fun u => u <> 96%N) e) as H96
    by (eapply Forall_impl; [|exact Hmarks]; intros u [Hu _]; exact Hu).
  assert (Forall (fun u => u <> 42%N) e) as H42
    by (eapply Forall_impl; [|exact Hmarks]; intros u [_ Hu]; exact Hu).
  assert (Forall (fun u => u <> 60%N) e) as H60
    by (eapply Forall_impl; [|exact Hinert]; intros u [Hu _]; exact Hu).
  assert (forall ml p b c w,
            p = c :: w -> Forall (fun u => u <> c) e ->
            unguarded (can_start ml (Seq (lit p) b)) None e = true) as Hseq.
  { intros ml p b c w -> Hc.
    apply (unguarded_weaken _ (fun _ rest => startsWith (c :: w) rest)).
    - intros prev l Hs. apply (can_start_lit_seq ml _ b prev l). exact Hs.
    - apply unguarded_absent. exact Hc. }
  assert (forall p, p <> [] ->
            forallb (fun c => negb (is_special c)) p = true ->
            line_free p None s = true ->
            unguarded (can_start true (re_line p)) None e = true) as Hre.
  { intros p Hp Hsp Hfree.
    apply (unguarded_weaken _
             (fun prev l => at_line_start prev && startsWith p l)).
    - apply can_start_re_line.
    - apply (line_free_escape p Hp Hsp s None Hfree). }
  unfold markdown, markdown_on. cbv zeta.
  rewrite (replace_g_unguarded false re_code_block _ e
             (Hseq false _ _ 96%N [96%N; 96%N] eq_refl H96)).
  rewrite (replace_g_unguarded false re_inline_code _ e
             (Hseq false [96%N] _ 96%N [] eq_refl H96)).
  rewrite (replace_g_unguarded false re_bold _ e
             (Hseq false _ _ 42%N [42%N] eq_refl H42)).
  rewrite (replace_g_unguarded false re_italic _ e
             (Hseq false [42%N] _ 42%N [] eq_refl H42)).
  rewrite (replace_g_unguarded true (re_line (str "### ")) _ e
             (Hre (str "### ") ltac:(discriminate) eq_refl Hh3)).
  rewrite (replace_g_unguarded true (re_line (str "## ")) _ e
             (Hre (str "## ") ltac:(discriminate) eq_refl Hh2)).
  rewrite (replace_g_unguarded true (re_line (str "# ")) _ e
             (Hre (str "# ") ltac:(discriminate) eq_refl Hh1)).
  rewrite (replace_g_unguarded true (re_line (str "- ")) _ e
             (Hre (str "- ") ltac:(discriminate) eq_refl Hli)).
  assert (forall ml r,
            (forall prev l, can_start ml r prev l = true ->
                            startsWith (str "<li>") l = true) ->
            unguarded (can_start ml r) None e = true) as Hitem.
  { intros ml r Hr.
    apply (unguarded_weaken _ (fun _ rest => startsWith (str "<li>") rest)).
    - exact Hr.
    - apply (unguarded_absent 60 (str "li>")). exact H60. }
  rewrite (replace_g_unguarded true re_li_line _ e).
  2:{ apply Hitem. intros prev l Hs. unfold re_li_line in Hs.
      cbn [can_start] in Hs. apply can_start_lit_seq in Hs. exact Hs. }
  rewrite (replace_g_unguarded false re_li_run _ e).
  2:{ apply Hitem. intros prev l Hs. unfold re_li_run in Hs.
      cbn [can_start] in Hs. apply can_start_lit_seq in Hs. exact Hs. }
  change (replace_g (fun c : N => c) false (chr LF)
            (expand (fun c : N => c) [TLit (str "<br>")]) e)
    with (replace_char (fun c : N => c) (fun c : N => c) LF (str "<br>") e).
  rewrite replace_char_flat_map. apply breaks_after_escape.
Qed.

Lemma formatMessage_of_mark_free_text_witness :
  let s := str "Tom & Jerry" ++ [LF] ++ str "-5 < 3 #1" in
  mark_free s = true
  /\ formatMessage (Some s) = str "Tom &amp; Jerry<br>-5 &lt; 3 #1".
Proof.
  intros s. split; [reflexivity|].
  rewrite (formatMessage_of_mark_free_text s eq_refl). reflexivity.
Defined.

(** ** Escaping *)

Lemma escapeForAttribute_unit : forall x,
  escapeForAttribute [x] = escape_unit x.
Proof.
  intros x. unfold escapeForAttribute. cbv zeta.
  rewrite !replace_char_flat_map.
  pose proof (@stage_keeps_entity N (fun c => c) (fun c => c)
                (fun c => eq_refl)) as Hent.
  pose proof (@stage_keeps_unit N (fun c => c) (fun c => c)) as Hunit.
  pose proof (@stage_hits N (fun c => c) (fun c => c)) as Hhit.
  unfold escape_unit.
  destruct (38 =? x)%N eqn:E38.
  { rewrite (Hhit _ _ _ E38). rewrite !Hent by reflexivity. apply map_id. }
  rewrite (Hunit _ _ _ E38).
  destruct (34 =? x)%N eqn:E34.
  { rewrite (Hhit _ _ _ E34). rewrite !Hent by reflexivity.
    destruct (60 =? x)%N eqn:E60;
      [apply N.eqb_eq in E34, E60; congruence|].
    destruct (62 =? x)%N eqn:E62;
      [apply N.eqb_eq in E34, E62; congruence|].
    apply map_id. }
  rewrite (Hunit _ _ _ E34).
  destruct (39 =? x)%N eqn:E39.
  { rewrite (Hhit _ _ _ E39). rewrite !Hent by reflexivity.
    destruct (60 =? x)%N eqn:E60;
      [apply N.eqb_eq in E39, E60; congruence|].
    destruct (62 =? x)%N eqn:E62;
      [apply N.eqb_eq in E39, E62; congruence|].
    apply map_id. }
  rewrite (Hunit _ _ _ E39).
  destruct (60 =? x)%N eqn:E60.
  { rewrite (Hhit _ _ _ E60). rewrite !Hent by reflexivity. apply map_id. }
  rewrite (Hunit _ _ _ E60).
  destruct (62 =? x)%N eqn:E62.
  { rewrite (Hhit _ _ _ E62). apply map_id. }
  rewrite (Hunit _ _ _ E62). reflexivity.
Qed.

Lemma escapeForAttribute_app : forall s t,
  escapeForAttribute (s ++ t) = escapeForAttribute s ++ escapeForAttribute t.
Proof.
  intros s t. unfold escapeForAttribute. cbv zeta.
  rewrite !replace_char_flat_map, !flat_map_app. reflexivity.
Qed.

(** X2. [escapeForAttribute] replaces the five special characters in another
    order than [formatMessage] does ([&], the quotes, then [<] and [>]), and
    yields the same text all the same: every [&], [<], [>], double and single
    quote of the argument becomes its entity and every other unit is copied,
    so no [<], [>] or quote is left in the result. *)
Theorem escapeForAttribute_is_the_same_escaping : forall s,
  escapeForAttribute s = flat_map escape_unit s
  /\ escapeForAttribute s = escapeHtml s
  /\ Forall inert (escapeForAttribute s).
Proof.
  intros s.
  assert (escapeForAttribute s = flat_map escape_unit s) as H.
  { induction s as [|x s IH].
    - unfold escapeForAttribute. cbv zeta.
      rewrite !replace_char_flat_map. reflexivity.
    - change (x :: s) with ([x] ++ s).
      rewrite escapeForAttribute_app, IH, escapeForAttribute_unit.
      reflexivity. }
  split; [exact H|]. split.
  - rewrite H, escapeHtml_flat_map. reflexivity.
  - rewrite H, <- escapeHtml_flat_map.
    apply (@escapeHtml_on_inert _ (fun c => c) (fun c => c)). reflexivity.
Qed.

(** The escaping never shortens a text, and lengthens it when a special
    character occurs. *)
Lemma escape_length : forall s,
  length s <= length (flat_map escape_unit s)
  /\ (existsb is_special s = true ->
      length s < length (flat_map escape_unit s)).
Proof.
  induction s as [|d s [IH1 IH2]]; [split; [simpl; lia|discriminate]|].
  cbn [flat_map existsb length]. rewrite length_app.
  destruct (escape_unit_cases d) as [[Hd ->]|[Hd (w & -> & _ & _ & Hw)]];
    rewrite Hd; cbn [length orb]; split; try lia.
  - intros H. apply IH2 in H. lia.
  - intros _. destruct w; [contradiction|]. cbn [length]. lia.
Qed.

(** X3. The escaping step of [formatMessage] changes a text exactly when
    the text holds one of the five special characters, and it never makes a
    text shorter. *)
Theorem escapeHtml_fixes_exactly_plain_text : forall s,
  (escapeHtml s = s <-> existsb is_special s = false)
  /\ length s <= length (escapeHtml s).
Proof.
  intros s. rewrite escapeHtml_flat_map. split; [split|].
  - intros H. destruct (existsb is_special s) eqn:E; [|reflexivity].
    apply (proj2 (escape_length s)) in E. rewrite H in E. lia.
  - induction s as [|d s IH]; [reflexivity|].
    cbn [existsb flat_map]. intros H. apply orb_false_iff in H.
    destruct H as [Hd Hs].
    destruct (escape_unit_cases d) as [[_ ->]|[E _]]; [|congruence].
    cbn [app]. rewrite (IH Hs). reflexivity.
  - apply escape_length.
Qed.

Lemma special_or_plain : forall c : N,
  c = 38%N \/ c = 60%N \/ c = 62%N \/ c = 34%N \/ c = 39%N
  \/ (is_special c = false /\ escape_unit c = [c]).
Proof.
  intros c. unfold is_special, escape_unit.
  destruct (N.eqb_spec 38 c); [auto|].
  destruct (N.eqb_spec 60 c); [auto|].
  destruct (N.eqb_spec 62 c); [auto|].
  destruct (N.eqb_spec 34 c); [auto|].
  destruct (N.eqb_spec 39 c); [auto 6|].
  repeat right. split; reflexivity.
Qed.

(** X4. The escaping loses nothing: two texts with the same escaped form
    are the same text. *)
Theorem escapeHtml_is_injective : forall s t,
  escapeHtml s = escapeHtml t -> s = t.
Proof.
  intros s t. rewrite !escapeHtml_flat_map. revert t.
  assert (forall d, escape_unit d <> []) as Hne.
  { intros d. destruct (escape_unit_cases d) as [[_ ->]|[_ (w & -> & _)]];
      discriminate. }
  induction s as [|c s IH]; intros [|d t] H.
  - reflexivity.
  - cbn [flat_map] in H. symmetry in H. apply app_eq_nil in H.
    destruct H as [H _]. destruct (Hne d H).
  - cbn [flat_map] in H. apply app_eq_nil in H.
    destruct H as [H _]. destruct (Hne c H).
  - cbn [flat_map] in H.
    assert (c = d /\ flat_map escape_unit s = flat_map escape_unit t)
      as [-> Ht].
    { destruct (special_or_plain c) as [Ec|[Ec|[Ec|[Ec|[Ec|[Ec Ec']]]]]];
      destruct (special_or_plain d) as [Ed|[Ed|[Ed|[Ed|[Ed|[Ed Ed']]]]]];
        subst; try rewrite Ec' in H; try rewrite Ed' in H;
        cbn in H; inversion H; subst; try discriminate;
        split; reflexivity. }
    rewrite (IH t Ht). reflexivity.
Qed.

Lemma escapeHtml_is_injective_witness :
  escapeHtml (str "a<b") = escapeHtml (str "a<b")
  /\ str "a<b" = str "a<b".
Proof.
  split; [reflexivity|].
  apply (escapeHtml_is_injective (str "a<b") (str "a<b")). reflexivity.
Defined.

(** X5. The markup that [formatMessage] returns holds no line feed: the
    last pass turns every line feed into [<br>], those of the text as well as
    those that the code-block template writes. *)
Theorem formatMessage_leaves_no_line_feed : forall text,
  Forall (fun u => u <> LF) (formatMessage text).
Proof.
  intros [[|c s]|]; try constructor.
  unfold formatMessage, formatMessage_on, markdown_on. cbv zeta.
  match goal with
  | |- Forall _ (replace_g ?code false (chr LF) (expand ?inj [TLit ?e]) ?x) =>
      change (replace_g code false (chr LF) (expand inj [TLit e]) x)
        with (replace_char code inj LF e x)
  end.
  rewrite replace_char_flat_map.
  apply Forall_flat_map, Forall_forall. intros u _.
  destruct (N.eqb_spec LF u) as [E|E].
  - repeat constructor; discriminate.
  - repeat constructor. congruence.
Qed.

(** ** Frames on the wire *)

(** In a line without line feed that is followed by a blank line, the first
    boundary is the one after the line. *)
Lemma indexOf_boundary_after : forall line rest,
  Forall (fun u => u <> LF) line ->
  indexOf boundary (line ++ boundary ++ rest) = Some (length line).
Proof.
  induction line as [|c line IH]; intros rest H.
  - reflexivity.
  - inversion H as [|c' l' Hc Hl]; subst.
    change ((c :: line) ++ boundary ++ rest)
      with (c :: (line ++ boundary ++ rest)).
    cbn [indexOf]. unfold boundary at 1. cbn [startsWith].
    apply N.eqb_neq in Hc. rewrite N.eqb_sym in Hc. rewrite Hc.
    cbn [andb]. rewrite (IH rest Hl). reflexivity.
Qed.

Lemma frames_wire : forall lines rest,
  Forall (Forall (fun u => u <> LF)) lines ->
  frames (wire lines ++ rest)
  = (map trim lines ++ fst (frames rest), snd (frames rest)).
Proof.
  induction lines as [|line lines IH]; intros rest H.
  - cbn [wire flat_map map app]. destruct (frames rest); reflexivity.
  - inversion H as [|l' ls' Hl Hls]; subst.
    unfold wire. cbn [flat_map map]. fold (wire lines).
    rewrite <- !app_assoc. rewrite frames_unfold.
    rewrite (indexOf_boundary_after line (wire lines ++ rest) Hl).
    unfold substring, slice. cbn [skipn]. rewrite Nat.sub_0_r.
    rewrite firstn_app, firstn_all, Nat.sub_diag. cbn [firstn].
    rewrite app_nil_r.
    rewrite skipn_app.
    rewrite (skipn_all2 line) by lia.
    replace (length line + 2 - length line) with 2 by lia.
    cbn [app]. unfold boundary at 1 2. cbn [app skipn].
    rewrite (IH rest Hls). reflexivity.
Qed.

Section WireFacts.
Context {X : Type} (on_frame : jsstring -> X -> Flow X).

Lemma run_app : forall l1 l2 x,
  run on_frame (l1 ++ l2) x
  = match run on_frame l1 x with
    | Return y => Return y
    | Continue y => run on_frame l2 y
    end.
Proof.
  induction l1 as [|line l1 IH]; intros l2 x; [reflexivity|].
  cbn [app run]. destruct (on_frame line x) as [y|y]; [apply IH|reflexivity].
Qed.

(** Once the loop has returned, what the stream holds further on and the
    way it ends make no difference. *)
Lemma read_loop_returned : forall chunks fin buffer x y,
  read_loop on_frame chunks fin buffer x = ExitReturn y ->
  forall more fin',
    read_loop on_frame (chunks ++ more) fin' buffer x = ExitReturn y.
Proof.
  induction chunks as [|chunk chunks IH]; intros fin buffer x y H more fin'.
  - cbn [read_loop] in H. destruct fin; discriminate.
  - cbn [app read_loop] in *.
    destruct (drain on_frame (buffer ++ chunk) x) as [b' x'|x'];
      [|exact H].
    apply (IH fin b' x' y H).
Qed.
End WireFacts.

(** X6. Decoding inverts the server's framing.  When the body is a sequence
    of lines without line feed, each followed by a blank line, and then a
    piece that holds no blank line, the read loop -- however the body is cut
    into reads -- runs the frame handler over exactly those lines, trimmed,
    each once and in order; the piece after the last blank line is never
    handed to the handler: it is what the buffer holds when the stream
    ends. *)
Theorem frames_of_the_wire_format :
  forall (X : Type) (on_frame : jsstring -> X -> Flow X)
         (lines : list jsstring) (tail : jsstring)
         (chunks : list jsstring) (fin : StreamEnd) (x : X),
    Forall (Forall (fun u => u <> LF)) lines ->
    indexOf boundary tail = None ->
    concat chunks = wire lines ++ tail ->
    frames (wire lines ++ tail) = (map trim lines, tail)
    /\ read_loop on_frame chunks fin [] x
       = match run on_frame (map trim lines) x with
         | Return x' => ExitReturn x'
         | Continue x' =>
             match fin with
             | EndOfStream => ExitBreak tail x'
             | ReadFailed message => ExitThrow message x'
             end
         end.
Proof.
  intros X on_frame lines tail chunks fin x Hlines Htail Hcat.
  assert (frames (wire lines ++ tail) = (map trim lines, tail)) as Hf.
  { rewrite (frames_wire lines tail Hlines).
    rewrite (frames_unfold tail), Htail. cbn [fst snd].
    rewrite app_nil_r. reflexivity. }
  split; [exact Hf|].
  rewrite (read_loop_frames on_frame chunks fin x), Hcat, Hf.
  reflexivity.
Qed.

Lemma frames_of_the_wire_format_witness :
  let lines := [str "data: a"; str " data: b "] in
  let body := str "data: a" ++ boundary ++ str " data: b " ++ boundary
                ++ str "data: c" in
  frames body = ([str "data: a"; str "data: b"], str "data: c")
  /\ read_loop record_frame [firstn 8 body; skipn 8 body] EndOfStream [] []
     = ExitBreak (str "data: c") [str "data: a"; str "data: b"].
Proof.
  intros lines body.
  assert (Forall (Forall (fun u => u <> LF)) lines) as Hl
    by (repeat constructor; discriminate).
  destruct (frames_of_the_wire_format (list jsstring) record_frame lines
              (str "data: c") [firstn 8 body; skipn 8 body] EndOfStream []
              Hl eq_refl eq_refl) as [Hf Hr].
  split; [exact Hf|exact Hr].
Defined.

(** X7. Nothing behind the end marker counts.  Once the read loop has
    returned at [data: [DONE]], the outcome of [sendMessage] is the same
    whatever the stream holds further on and however it ends -- more frames,
    a clean end, or a failing read. *)
Theorem nothing_after_the_end_marker_counts :
  forall (P : Platform) (iso : jsstring) (status : N) (i : ElemId)
         (chunks : list jsstring) (fin : StreamEnd) (s : State)
         (y : jsstring * State),
    read_loop (on_line P i) chunks fin [] ([], s) = ExitReturn y ->
    forall (more : list jsstring) (fin' : StreamEnd),
      sendMessage_resume P iso (Response status (chunks ++ more) fin') i s
      = sendMessage_resume P iso (Response status chunks fin) i s.
Proof.
  intros P iso status i chunks fin s y H more fin'.
  unfold sendMessage_resume.
  rewrite (read_loop_returned (on_line P i) chunks fin [] ([], s) y H more fin').
  rewrite H. reflexivity.
Qed.

Lemma nothing_after_the_end_marker_counts_witness :
  let P := Reference.platform in
  let chunks := [token_frame "Hi"; done_frame] in
  (exists y, read_loop (on_line P (StreamId 3)) chunks EndOfStream []
               ([], page_in_flight) = ExitReturn y)
  /\ sendMessage_resume P NOW
       (Response 200 (chunks ++ [token_frame "late"])
          (ReadFailed (str "network error"))) (StreamId 3) page_in_flight
     = sendMessage_resume P NOW (Response 200 chunks EndOfStream)
         (StreamId 3) page_in_flight.
Proof.
  intros P chunks.
  assert (exists y, read_loop (on_line P (StreamId 3)) chunks EndOfStream []
                      ([], page_in_flight) = ExitReturn y) as Hy
    by (eexists; reflexivity).
  split; [exact Hy|].
  destruct Hy as [y Hy].
  exact (nothing_after_the_end_marker_counts P NOW 200 (StreamId 3) chunks
           EndOfStream page_in_flight y Hy [token_frame "late"]
           (ReadFailed (str "network error"))).
Defined.

(** ** A stream of token events *)

Lemma run_tokens : forall P i lines full s,
  present i s ->
  Forall (fun l => fragment_of P l <> None) lines ->
  exists s',
    run (on_line P i) lines (full, s)
    = Continue (full ++ concat (fragments P lines), s')
    /\ pane_step i s s'
    /\ (lines <> [] ->
        displayed i s'
        = Some (formatMessage (Some (full ++ concat (fragments P lines)))
                  ++ cursor)).
Proof.
  intros P i. induction lines as [|line rest IH]; intros full s Hp Hl.
  - exists s. cbn [run fragments flat_map concat]. rewrite app_nil_r.
    split; [reflexivity|]. split; [apply pane_step_refl|].
    intros H. contradiction.
  - inversion Hl as [|l' ls' Hline Hrest]; subst.
    destruct (fragment_of P line) as [fragment|] eqn:Ef; [|contradiction].
    pose proof (updateStreamingMessage_step i (full ++ fragment) s) as Hstep.
    destruct (IH (full ++ fragment)
                (updateStreamingMessage i (full ++ fragment) s)
                (proj1 Hstep Hp) Hrest) as (s' & Hrun & Hs' & Hshown).
    exists s'. cbn [run]. rewrite (on_line_token P i _ _ _ _ Ef).
    assert (concat (fragments P (line :: rest))
            = fragment ++ concat (fragments P rest)) as Hc.
    { unfold fragments. cbn [flat_map]. rewrite Ef.
      cbn [app concat]. reflexivity. }
    rewrite Hc, app_assoc.
    split; [exact Hrun|]. split.
    { apply (pane_step_trans i _ _ _ Hstep Hs'). }
    intros _. destruct rest as [|line' rest'].
    + cbn [run] in Hrun. inversion Hrun; subst.
      unfold fragments. cbn [flat_map concat]. rewrite app_nil_r.
      apply (updateStreamingMessage_displayed i _ _ Hp).
    + apply Hshown. discriminate.
Qed.

(** With nothing in between, a stream of token events closed by the end
    marker makes the read loop return at the marker, with all the tokens
    shown. *)
Lemma token_stream_returns :
  forall (P : Platform) (i : ElemId) (s : State) (lines : list jsstring)
         (chunks : list jsstring) (fin : StreamEnd) (more : jsstring),
    present i s ->
    lines <> [] ->
    Forall (fun l => Forall (fun u => u <> LF) l
                     /\ fragment_of P (trim l) <> None) lines ->
    concat chunks = wire (lines ++ [done_line]) ++ more ->
    exists s1,
      read_loop (on_line P i) chunks fin [] ([], s)
      = ExitReturn (concat (fragments P (map trim lines)), s1)
      /\ displayed i s1
         = Some (formatMessage (Some (concat (fragments P (map trim lines))))
                   ++ cursor)
      /\ errors s1 = errors s.
Proof.
  intros P i s lines chunks fin more Hp Hne Hl Hcat.
  assert (Forall (Forall (fun u => u <> LF)) (lines ++ [done_line])) as Hlf.
  { apply Forall_app. split.
    - eapply Forall_impl; [|exact Hl]. intros l [H _]. exact H.
    - repeat constructor; discriminate. }
  assert (Forall (fun l => fragment_of P l <> None) (map trim lines)) as Htok.
  { apply Forall_map. eapply Forall_impl; [|exact Hl].
    intros l [_ H]. exact H. }
  destruct (run_tokens P i (map trim lines) [] s Hp Htok)
    as (s1 & Hrun & Hstep & Hshown).
  assert (map trim lines <> []) as Hne'
    by (destruct lines; [contradiction|discriminate]).
  specialize (Hshown Hne'). cbn [app] in Hrun, Hshown.
  exists s1. split; [|split; [exact Hshown|]].
  - rewrite (read_loop_frames (on_line P i) chunks fin ([], s)), Hcat.
    rewrite (frames_wire _ more Hlf). cbn [fst].
    rewrite map_app, <- app_assoc, run_app, Hrun. reflexivity.
  - destruct Hstep as (_ & Herr & _). exact Herr.
Qed.

(** X8. A stream of token events closed by the end marker.  When the body
    of an accepted response is a non-empty sequence of token events followed
    by [data: [DONE]], the streaming element is in the pane when the
    response arrives, and the handlers that run while the body is read leave
    the pane alone, then -- however the body is cut into reads, whatever
    follows the marker and however the stream ends -- the call returns at
    the marker with all the tokens joined in order as the response text, the
    streaming element shows [formatMessage] of that text, still followed by
    the cursor marker (only a metadata event takes the cursor away), no
    error message is added, the chat list is the one the page had at the
    marker (nothing is moved to the top) and the in-flight flag is
    lowered. *)
Theorem token_stream_is_shown_in_full :
  forall (P : Platform) (iso : jsstring) (status : N) (i : ElemId)
         (s : State) (lines : list jsstring) (events : list Event)
         (fin : StreamEnd) (more : jsstring),
    response_ok status = true ->
    present i s ->
    lines <> [] ->
    Forall (fun l => Forall (fun u => u <> LF) l
                     /\ fragment_of P (trim l) <> None) lines ->
    forallb leaves_pane events = true ->
    concat (reads events) = wire (lines ++ [done_line]) ++ more ->
    let s' := sendMessage_stream P iso status events fin i s in
    exists t,
      reading P i events [] ([], s)
      = Returned (concat (fragments P (map trim lines)), t)
      /\ displayed i s'
         = Some (formatMessage (Some (concat (fragments P (map trim lines))))
                   ++ cursor)
      /\ errors s' = errors s
      /\ chats s' = chats t
      /\ isGenerating s' = false.
Proof.
  intros P iso status i s lines events fin more Hok Hp Hne Hl Hq Hcat s'.
  destruct (token_stream_returns P i s lines (reads events) fin more Hp Hne
              Hl Hcat) as (s1 & Hloop & Hshown & Herr).
  rewrite read_loop_reading in Hloop.
  assert (same_text_and_pane ([], s) ([], s)) as H0 by (split; reflexivity).
  pose proof (reading_quiet P i events [] ([], s) ([], s) Hq H0) as H.
  destruct (reading P i (map Read (reads events)) [] ([], s))
    as [c y|y]; [destruct fin; discriminate|].
  inversion Hloop; subst y. clear Hloop.
  subst s'. unfold sendMessage_stream. rewrite Hok. cbn [negb].
  destruct (reading P i events [] ([], s)) as [b x|[f t]];
    [contradiction|].
  destruct H as [Hf Hpane]. cbn [fst snd] in Hf, Hpane. subst f.
  exists t. unfold displayed, errors in *.
  cbn [release messagesContainer set_modelStatus set_sendButton_disabled
       set_isGenerating chats isGenerating].
  rewrite Hpane.
  split; [reflexivity|]. split; [exact Hshown|]. split; [exact Herr|].
  split; reflexivity.
Qed.

Lemma token_stream_is_shown_in_full_witness :
  let P := Reference.platform in
  let lines := [token_line "Hi"; token_line " *there*"] in
  let events := [Read (token_line "Hi");
                 Meanwhile (ClickChat (str "A") (str "Alpha"));
                 Read (boundary ++ token_line " *there*" ++ [LF]);
                 Meanwhile (TypeText (str "and then?"));
                 Read ([LF] ++ done_line ++ boundary)] in
  response_ok 200 = true
  /\ present (StreamId 3) page_in_flight
  /\ forallb leaves_pane events = true
  /\ displayed (StreamId 3)
       (sendMessage_stream P NOW 200 events EndOfStream (StreamId 3)
          page_in_flight)
     = Some (str "Hi <em>there</em>" ++ cursor).
Proof.
  intros P lines events.
  assert (present (StreamId 3) page_in_flight) as Hp by discriminate.
  assert (lines <> []) as Hne by discriminate.
  assert (Forall (fun l => Forall (fun u => u <> LF) l
                           /\ fragment_of P (trim l) <> None) lines) as Hl.
  { repeat constructor; discriminate. }
  destruct (token_stream_is_shown_in_full P NOW 200 (StreamId 3)
              page_in_flight lines events EndOfStream [] eq_refl Hp Hne Hl
              eq_refl eq_refl) as (t & _ & Hshown & _).
  split; [reflexivity|]. split; [exact Hp|]. split; [reflexivity|].
  rewrite Hshown. reflexivity.
Defined.

(** ** What the handlers leave alone *)

Lemma same_outside_pane_trans : forall s1 s2 s3,
  same_outside_pane s1 s2 -> same_outside_pane s2 s3 ->
  same_outside_pane s1 s3.
Proof.
  unfold same_outside_pane. intros s1 s2 s3 H1 H2.
  repeat match goal with H : _ /\ _ |- _ => destruct H end.
  repeat split; congruence.
Qed.

Lemma same_outside_pane_lists : forall s s',
  same_outside_pane s s' -> same_lists_and_lock s s'.
Proof.
  unfold same_outside_pane, same_lists_and_lock. intros s s' H.
  repeat match goal with H : _ /\ _ |- _ => destruct H end.
  repeat split; assumption.
Qed.

Lemma same_lists_and_lock_refl : forall s, same_lists_and_lock s s.
Proof. intros s. repeat split. Qed.

Lemma same_lists_and_lock_trans : forall s1 s2 s3,
  same_lists_and_lock s1 s2 -> same_lists_and_lock s2 s3 ->
  same_lists_and_lock s1 s3.
Proof.
  unfold same_lists_and_lock. intros s1 s2 s3 H1 H2.
  repeat match goal with H : _ /\ _ |- _ => destruct H end.
  repeat split; congruence.
Qed.

(** Rendering the stored messages of a chat touches the pane only. *)
Lemma render_messages_outside : forall P messages acc,
  match fold_left
          (fun acc m =>
             match acc with
             | Normal s =>
                 addMessageToUI P (msg_now m) (msg_random m) (msg_role m)
                   (msg_content m) zero s
             | Throw _ _ => acc
             end) messages acc with
  | Normal s' | Throw _ s' =>
      same_outside_pane (match acc with Normal s | Throw _ s => s end) s'
  end.
Proof.
  intros P. induction messages as [|m rest IH]; intros acc; cbn [fold_left].
  - destruct acc; apply same_outside_pane_refl.
  - specialize (IH (match acc with
                    | Normal s =>
                        addMessageToUI P (msg_now m) (msg_random m) (msg_role m)
                          (msg_content m) zero s
                    | Throw _ _ => acc
                    end)).
    destruct acc as [s|msg s]; [|exact IH].
    pose proof (addMessageToUI_outside P (msg_now m) (msg_random m)
                  (msg_role m) (msg_content m) zero s) as Ho.
    destruct (addMessageToUI P (msg_now m) (msg_random m) (msg_role m)
                (msg_content m) zero s) as [s1|msg1 s1];
      destruct (fold_left _ rest _) as [s2|msg2 s2];
      apply (same_outside_pane_trans _ _ _ Ho IH).
Qed.

Lemma loadChatMessages_keeps : forall P chatId reply s,
  same_lists_and_lock s (loadChatMessages_resume P chatId reply s).
Proof.
  intros P chatId reply s. unfold loadChatMessages_resume.
  destruct reply as [|messages stats]; [repeat split|].
  pose proof (render_messages_outside P messages (Normal (set_messages [] s)))
    as H.
  destruct (fold_left _ messages (Normal (set_messages [] s))) as [s1|m s1];
    apply same_outside_pane_lists in H;
    [|exact H].
  destruct stats as [stats|]; [|exact H].
  destruct (truthy stats); [|exact H].
  destruct (updateMemoryDisplay P stats); exact H.
Qed.

Lemma sendMessage_begin_keeps_lists : forall P now random now' s,
  let s1 := fst (sendMessage_begin P now random now' s) in
  currentChatId s1 = currentChatId s /\ chats s1 = chats s
  /\ chatList s1 = chatList s.
Proof.
  intros P now random now' s. unfold sendMessage_begin.
  destruct (trim (messageInput s)) as [|c m]; [repeat split|].
  destruct (isGenerating s); [repeat split|]. cbn [orb].
  destruct (currentChatId s) as [[|d chat_id]|] eqn:E;
    unfold createNewChatWithMessage_begin; cbn; rewrite ?E; repeat split.
Qed.

(** ** The sidebar *)

Lemma sidebar_in_sync_unfold : forall s,
  sidebar_in_sync s
  <-> chatList s
      = map (fun chat => item_of (is_current (id chat) (currentChatId s)) chat)
          (chats s).
Proof. intros s. reflexivity. Qed.

Lemma sidebar_in_sync_eq : forall s,
  sidebar_in_sync s ->
  chatList s
  = map (fun chat => item_of (is_current (id chat) (currentChatId s)) chat)
      (chats s).
Proof. intros s H. exact H. Qed.

Lemma sync_transfer : forall s s',
  currentChatId s' = currentChatId s -> chats s' = chats s ->
  chatList s' = chatList s ->
  sidebar_in_sync s -> sidebar_in_sync s'.
Proof.
  intros s s' Hc Hl Hi H. apply sidebar_in_sync_unfold.
  rewrite Hc, Hl, Hi. apply sidebar_in_sync_eq. exact H.
Qed.

Lemma sync_same_lists : forall s s',
  same_lists_and_lock s s' -> sidebar_in_sync s -> sidebar_in_sync s'.
Proof.
  intros s s' (Hc & Hl & Hi & _) H. apply (sync_transfer s s' Hc Hl Hi H).
Qed.

Lemma renderChatList_in_sync : forall s, sidebar_in_sync (renderChatList s).
Proof. intros s. reflexivity. Qed.

Lemma selectChat_in_sync : forall chatId title_ s,
  sidebar_in_sync s -> sidebar_in_sync (selectChat chatId title_ s).
Proof.
  intros chatId title_ s H. unfold selectChat.
  destruct (is_current chatId (currentChatId s)); [exact H|].
  apply sidebar_in_sync_unfold. cbv zeta.
  cbn [chatList currentChatId chats fetch set_chatList set_chatTitle
       set_currentChatId].
  rewrite (sidebar_in_sync_eq s H), map_map. apply map_ext. intros chat. reflexivity.
Qed.

Lemma createNewChat_in_sync : forall s,
  sidebar_in_sync s -> sidebar_in_sync (createNewChat s).
Proof.
  intros s H. apply sidebar_in_sync_unfold.
  unfold createNewChat. cbv zeta.
  cbn [chatList currentChatId chats set_chatList set_chatTitle
       set_currentChatId set_messages].
  rewrite (sidebar_in_sync_eq s H), map_map. apply map_ext. intros chat. reflexivity.
Qed.

(** No entry that a deletion keeps has the deleted id. *)
Lemma kept_is_not_current : forall chatId current (l : list Chat) chat,
  is_current chatId current = true ->
  In chat (filter (fun c => negb (streq (id c) chatId)) l) ->
  is_current (id chat) current = false.
Proof.
  intros chatId current l chat Hcur Hin.
  apply filter_In in Hin. destruct Hin as [_ Hin].
  apply negb_true_iff in Hin.
  destruct current as [c|]; [|reflexivity]. cbn [is_current] in *.
  apply streq_eq in Hcur. subst c. exact Hin.
Qed.

Lemma deleteChat_resume_in_sync : forall chatId reply s,
  sidebar_in_sync s -> sidebar_in_sync (deleteChat_resume chatId reply s).
Proof.
  intros chatId reply s H. unfold deleteChat_resume.
  destruct reply as [m|status]; [exact H|].
  destruct (response_ok status); [|exact H].
  cbn [currentChatId renderChatList set_chatList set_chats].
  destruct (is_current chatId (currentChatId s)) eqn:Hcur;
    [|apply renderChatList_in_sync].
  apply sidebar_in_sync_unfold.
  cbn [chatList currentChatId chats set_chatList set_chatTitle
       set_currentChatId set_messages set_emptyState set_chats
       renderChatList].
  apply map_ext_in. intros chat Hin.
  rewrite (kept_is_not_current chatId _ _ chat Hcur Hin). reflexivity.
Qed.

Lemma move_to_top_in_sync : forall iso s,
  sidebar_in_sync s -> sidebar_in_sync (move_to_top iso s).
Proof.
  intros iso s H. unfold move_to_top.
  destruct (findIndex _ (chats s)) as [k|]; [|exact H].
  destruct (nth_error (chats s) k); [apply renderChatList_in_sync|exact H].
Qed.

Lemma release_lists : forall s,
  currentChatId (release s) = currentChatId s
  /\ chats (release s) = chats s /\ chatList (release s) = chatList s.
Proof. intros s. repeat split. Qed.

Lemma sendMessage_resume_in_sync : forall P iso reply i s,
  sidebar_in_sync s -> sidebar_in_sync (sendMessage_resume P iso reply i s).
Proof.
  intros P iso reply i s H. unfold sendMessage_resume.
  apply (sync_transfer _ _ (proj1 (release_lists _))
           (proj1 (proj2 (release_lists _))) (proj2 (proj2 (release_lists _)))).
  destruct reply as [m|status chunks fin]; [exact H|].
  destruct (negb (response_ok status)); [exact H|].
  pose proof (read_loop_steps P i chunks fin [] [] s) as Hstep.
  destruct (read_loop (on_line P i) chunks fin [] ([], s))
    as [[f s1]|b [f s1]|m [f s1]]; cbn [snd] in Hstep;
    destruct Hstep as (_ & _ & Hout);
    apply same_outside_pane_lists in Hout;
    pose proof (sync_same_lists s s1 Hout H) as H1.
  - exact H1.
  - apply move_to_top_in_sync. exact H1.
  - exact H1.
Qed.

Lemma createNewChatWithMessage_resume_in_sync :
  forall P iso iso' now random reply s,
    sidebar_in_sync s ->
    sidebar_in_sync
      (createNewChatWithMessage_resume P iso iso' now random reply s).
Proof.
  intros P iso iso' now random reply s H.
  unfold createNewChatWithMessage_resume.
  apply (sync_transfer _ _ (proj1 (release_lists _))
           (proj1 (proj2 (release_lists _))) (proj2 (proj2 (release_lists _)))).
  destruct reply as [m|data]; [exact H|].
  destruct (truthy (data_error data)).
  { destruct (to_string P (data_error data)); exact H. }
  set (s3 := selectChat _ _ _).
  assert (sidebar_in_sync s3) as H3
    by (apply selectChat_in_sync, renderChatList_in_sync).
  pose proof (addMessageToUI_outside P now random assistant
                (data_response data)
                (if truthy (data_memories_added data)
                 then data_memories_added data else zero) s3) as Ho.
  destruct (addMessageToUI P now random assistant (data_response data) _ s3)
    as [s4|m s4]; apply same_outside_pane_lists in Ho;
    pose proof (sync_same_lists s3 s4 Ho H3) as H4.
  - destruct (updateMemoryDisplay P (data_memory_stats data)); exact H4.
  - exact H4.
Qed.

Lemma perform_in_sync : forall P a s,
  sidebar_in_sync s -> sidebar_in_sync (perform P a s).
Proof.
  intros P a s H. destruct a; cbn [perform].
  - exact H.
  - apply selectChat_in_sync. exact H.
  - unfold selectChat_resume.
    apply (sync_same_lists s _ (loadChatMessages_keeps P chatId reply s) H).
  - apply createNewChat_in_sync. exact H.
  - destruct confirmed; exact H.
  - apply deleteChat_resume_in_sync. exact H.
  - destruct reply as [data_chats|]; [apply renderChatList_in_sync|exact H].
  - destruct (sendMessage_begin_keeps_lists P now random now' s)
      as (Hc & Hl & Hi).
    apply (sync_transfer s _ Hc Hl Hi H).
Qed.

(** X9. The sidebar mirrors the chat list.  If the sidebar shows the
    entries of [chats], in order, with the active mark exactly on the
    entries whose id is the current chat, then it still does after any
    handler has run: a click on a chat or on New Chat, a deletion and its
    answer, the arrival of the chat list or of a chat's messages, a send up
    to its request, and the completion of a streamed Turn or of the creation
    of a new chat, whatever the server's reply. *)
Theorem sidebar_mirrors_the_chat_list :
  forall (P : Platform) (s : State),
    sidebar_in_sync s ->
    (forall acts, sidebar_in_sync (fold_left (fun st a => perform P a st) acts s))
    /\ (forall iso reply i, sidebar_in_sync (sendMessage_resume P iso reply i s))
    /\ (forall iso iso' now random reply,
          sidebar_in_sync
            (createNewChatWithMessage_resume P iso iso' now random reply s)).
Proof.
  intros P s H. split; [|split].
  - intros acts. revert s H.
    induction acts as [|a acts IH]; intros s H; cbn [fold_left].
    + exact H.
    + apply IH, perform_in_sync, H.
  - intros iso reply i. apply sendMessage_resume_in_sync. exact H.
  - intros iso iso' now random reply.
    apply createNewChatWithMessage_resume_in_sync. exact H.
Qed.

Lemma sidebar_mirrors_the_chat_list_witness :
  let P := Reference.platform in
  let s := fold_left (fun st a => perform P a st)
             [ClickChat (str "A") (str "Alpha"); ClickNewChat;
              DeleteArrived (str "B") (DeleteResponse 200)] page0 in
  sidebar_in_sync page0
  /\ sidebar_in_sync s
  /\ chatList s = [item_of false chatA].
Proof.
  intros P s.
  assert (sidebar_in_sync page0) as H0 by reflexivity.
  split; [exact H0|]. split; [|reflexivity].
  exact (proj1 (sidebar_mirrors_the_chat_list P page0 H0) _).
Defined.

(** ** The send button *)

Lemma perform_lock_in_sync : forall P a s,
  lock_in_sync s -> lock_in_sync (perform P a s).
Proof.
  unfold lock_in_sync. intros P a s H. destruct a; cbn [perform].
  - exact H.
  - unfold selectChat. destruct (is_current chatId (currentChatId s)); exact H.
  - unfold selectChat_resume.
    destruct (loadChatMessages_keeps P chatId reply s) as (_ & _ & _ & Hg & Hb).
    cbn [sendButton_disabled isGenerating set_emptyState]. congruence.
  - exact H.
  - destruct confirmed; exact H.
  - unfold deleteChat_resume. destruct reply as [|status]; [exact H|].
    destruct (response_ok status); [|exact H]. cbn.
    destruct (is_current chatId (currentChatId s)); exact H.
  - destruct reply; exact H.
  - unfold sendMessage_begin.
    destruct (trim (messageInput s)) as [|c m]; [exact H|].
    destruct (isGenerating s) eqn:Hg; [cbn; congruence|]. cbn [orb].
    destruct (currentChatId s) as [[|d chat_id]|];
      unfold createNewChatWithMessage_begin; reflexivity.
Qed.

(** X10. The send button mirrors the in-flight flag.  If the button is
    disabled exactly when [isGenerating] is up, it still is after any
    sequence of user actions and arrivals, after a whole send, and after the
    completion of a streamed Turn or of the creation of a new chat, whatever
    the reply: no handler changes one without the other. *)
Theorem send_button_mirrors_the_flag :
  forall (P : Platform) (s : State),
    lock_in_sync s ->
    (forall acts, lock_in_sync (fold_left (fun st a => perform P a st) acts s))
    /\ (forall env, lock_in_sync (sendMessage P env s))
    /\ (forall iso reply i, lock_in_sync (sendMessage_resume P iso reply i s))
    /\ (forall iso iso' now random reply,
          lock_in_sync
            (createNewChatWithMessage_resume P iso iso' now random reply s)).
Proof.
  intros P s H. split; [|split; [|split]].
  - intros acts. revert s H.
    induction acts as [|a acts IH]; intros s H; cbn [fold_left].
    + exact H.
    + apply IH, perform_lock_in_sync, H.
  - intros env. unfold sendMessage.
    pose proof (perform_lock_in_sync P
                  (PressSend (env_now env) (env_random env)
                     (env_stream_now env)) s H) as Hb.
    cbn [perform] in Hb.
    destruct (sendMessage_begin P (env_now env) (env_random env)
                (env_stream_now env) s) as [s1 [[|i]|]];
      [reflexivity|reflexivity|exact Hb].
  - intros iso reply i. reflexivity.
  - intros iso iso' now random reply. reflexivity.
Qed.

Lemma send_button_mirrors_the_flag_witness :
  let P := Reference.platform in
  lock_in_sync page0
  /\ lock_in_sync
       (fold_left (fun st a => perform P a st)
          [PressSend 1 2 3; ClickChat (str "A") (str "Alpha"); PressSend 4 5 6]
          page0)
  /\ sendButton_disabled
       (fold_left (fun st a => perform P a st)
          [PressSend 1 2 3; ClickChat (str "A") (str "Alpha"); PressSend 4 5 6]
          page0) = true.
Proof.
  intros P.
  assert (lock_in_sync page0) as H0 by reflexivity.
  destruct (send_button_mirrors_the_flag P page0 H0) as (Hacts & _).
  split; [exact H0|]. split; [apply Hacts|reflexivity].
Defined.

(** ** Moving the current chat to the top *)

Lemma findIndex_split : forall (p : Chat -> bool) before c after,
  (forall d, In d before -> p d = false) -> p c = true ->
  findIndex p (before ++ c :: after) = Some (length before).
Proof.
  intros p. induction before as [|b before IH]; intros c after Hb Hc.
  - cbn [app findIndex length]. rewrite Hc. reflexivity.
  - cbn [app findIndex length]. rewrite (Hb b (or_introl eq_refl)).
    rewrite (IH c after); [reflexivity| |exact Hc].
    intros d Hd. apply Hb. right. exact Hd.
Qed.

Lemma findIndex_none : forall (p : Chat -> bool) l,
  (forall d, In d l -> p d = false) -> findIndex p l = None.
Proof.
  intros p. induction l as [|c l IH]; intros H; [reflexivity|].
  cbn [findIndex]. rewrite (H c (or_introl eq_refl)).
  rewrite IH; [reflexivity|]. intros d Hd. apply H. right. exact Hd.
Qed.

Lemma findIndex_some : forall (p : Chat -> bool) l k,
  findIndex p l = Some k ->
  exists before c after,
    l = before ++ c :: after /\ length before = k /\ p c = true
    /\ (forall d, In d before -> p d = false).
Proof.
  intros p. induction l as [|c l IH]; intros k H; [discriminate|].
  cbn [findIndex] in H. destruct (p c) eqn:Hc.
  - inversion H; subst. exists [], c, l.
    repeat split; try assumption. intros d [].
  - destruct (findIndex p l) as [k'|]; [|discriminate].
    inversion H; subst.
    destruct (IH k' eq_refl) as (before & c' & after & -> & Hk & Hc' & Hb).
    exists (c :: before), c', after. cbn [length app].
    repeat split; try congruence.
    intros d [<-|Hd]; [exact Hc|apply Hb, Hd].
Qed.

Lemma skipn_past : forall (A : Type) (before : list A) c after,
  skipn (S (length before)) (before ++ c :: after) = after.
Proof.
  intros A. induction before as [|b before IH]; intros c after;
    [reflexivity|].
  cbn [length app]. rewrite skipn_cons. apply IH.
Qed.

Lemma move_to_top_split : forall iso s before c after,
  chats s = before ++ c :: after ->
  is_current (id c) (currentChatId s) = true ->
  (forall d, In d before -> is_current (id d) (currentChatId s) = false) ->
  move_to_top iso s
  = renderChatList (set_chats (touch iso c :: before ++ after) s).
Proof.
  intros iso s before c after Hl Hc Hb. unfold move_to_top.
  rewrite Hl.
  rewrite (findIndex_split (fun c => is_current (id c) (currentChatId s))
             before c after Hb Hc).
  rewrite nth_error_app2 by lia. rewrite Nat.sub_diag. cbn [nth_error].
  rewrite firstn_app, firstn_all, Nat.sub_diag. cbn [firstn].
  rewrite app_nil_r.
  rewrite skipn_past. reflexivity.
Qed.

(** X11. "Move to top" after a stream that ended without the end marker.
    The first entry of [chats] whose id is the chat current at that moment
    is taken out, stamped with the new time and put in front; the entries
    before and after it keep their order and the list keeps its length.
    With no such entry -- no chat current, or the current chat not in the
    list -- nothing changes at all.  The pane is never touched. *)
Theorem move_to_top_brings_the_current_chat_first :
  forall (iso : jsstring) (s : State),
    (forall before c after,
       chats s = before ++ c :: after ->
       is_current (id c) (currentChatId s) = true ->
       (forall d, In d before -> is_current (id d) (currentChatId s) = false) ->
       chats (move_to_top iso s) = touch iso c :: before ++ after
       /\ chatList (move_to_top iso s)
          = item_of true (touch iso c)
              :: map (fun chat =>
                        item_of (is_current (id chat) (currentChatId s)) chat)
                   (before ++ after))
    /\ ((forall d, In d (chats s) ->
                   is_current (id d) (currentChatId s) = false) ->
        move_to_top iso s = s)
    /\ length (chats (move_to_top iso s)) = length (chats s)
    /\ currentChatId (move_to_top iso s) = currentChatId s
    /\ messagesContainer (move_to_top iso s) = messagesContainer s.
Proof.
  intros iso s. split; [|split; [|split; [|split]]].
  - intros before c after Hl Hc Hb.
    rewrite (move_to_top_split iso s before c after Hl Hc Hb).
    cbn [chats chatList renderChatList set_chatList set_chats currentChatId
         map touch id].
    split; [reflexivity|]. unfold item_of at 1. cbn [touch id]. rewrite Hc.
    reflexivity.
  - intros H. unfold move_to_top. rewrite (findIndex_none _ _ H). reflexivity.
  - unfold move_to_top.
    destruct (findIndex _ (chats s)) as [k|] eqn:E; [|reflexivity].
    destruct (findIndex_some _ _ _ E) as (before & c & after & Hl & Hk & _).
    rewrite Hl. subst k.
    rewrite nth_error_app2 by lia. rewrite Nat.sub_diag. cbn [nth_error].
    cbn [chats renderChatList set_chatList set_chats length].
    rewrite length_app, length_firstn, length_skipn, !length_app.
    cbn [length]. lia.
  - unfold move_to_top.
    destruct (findIndex _ (chats s)) as [k|]; [|reflexivity].
    destruct (nth_error (chats s) k); reflexivity.
  - apply move_to_top_pane.
Qed.

Lemma move_to_top_brings_the_current_chat_first_witness :
  chats page0 = [chatA] ++ chatB :: []
  /\ chats (move_to_top NOW page0) = [touch NOW chatB; chatA]
  /\ chatList (move_to_top NOW page0)
     = [item_of true (touch NOW chatB); item_of false chatA].
Proof.
  assert (chats page0 = [chatA] ++ chatB :: []) as Hl by reflexivity.
  assert (forall d, In d [chatA] ->
                    is_current (id d) (currentChatId page0) = false) as Hb.
  { intros d [<-|[]]. reflexivity. }
  destruct (proj1 (move_to_top_brings_the_current_chat_first NOW page0)
              [chatA] chatB [] Hl eq_refl Hb) as [Hc Hi].
  split; [exact Hl|]. split; [exact Hc|exact Hi].
Defined.

(** ** Deleting and selecting *)

Lemma filter_twice : forall (A : Type) (p : A -> bool) (l : list A),
  filter p (filter p l) = filter p l.
Proof.
  intros A p l. apply filter_all. intros x Hx.
  apply filter_In in Hx. tauto.
Qed.

Lemma deleteChat_resume_other : forall chatId status s,
  response_ok status = true ->
  is_current chatId (currentChatId s) = false ->
  deleteChat_resume chatId (DeleteResponse status) s
  = renderChatList
      (set_chats (filter (fun c => negb (streq (id c) chatId)) (chats s)) s).
Proof.
  intros chatId status s Hok Hcur. unfold deleteChat_resume.
  rewrite Hok. cbv zeta.
  cbn [currentChatId renderChatList set_chatList set_chats].
  rewrite Hcur. reflexivity.
Qed.

Lemma deleteChat_resume_current : forall chatId status s,
  response_ok status = true ->
  is_current chatId (currentChatId s) = true ->
  deleteChat_resume chatId (DeleteResponse status) s
  = {| currentChatId := None;
       chats := filter (fun c => negb (streq (id c) chatId)) (chats s);
       isGenerating := isGenerating s; messagesContainer := [];
       messageInput := messageInput s;
       sendButton_disabled := sendButton_disabled s;
       chatList := map (item_of false)
                     (filter (fun c => negb (streq (id c) chatId)) (chats s));
       chatTitle := APP_TITLE; modelStatus := modelStatus s;
       emptyState := DisplayFlex; requests := requests s |}.
Proof.
  intros chatId status s Hok Hcur. unfold deleteChat_resume.
  rewrite Hok. cbv zeta.
  cbn [currentChatId renderChatList set_chatList set_chats].
  rewrite Hcur.
  unfold set_emptyState, set_messages, set_chatTitle, set_currentChatId,
    set_chatList, set_chats.
  cbn [currentChatId chats chatList isGenerating messagesContainer
       messageInput sendButton_disabled chatTitle modelStatus emptyState
       requests].
  erewrite map_ext_in; [reflexivity|].
  intros chat Hin. cbn beta. cbn [currentChatId].
  rewrite (kept_is_not_current chatId _ _ chat Hcur Hin). reflexivity.
Qed.

(** X12. An acknowledged deletion is idempotent, and a deletion that fails
    changes nothing.  Handling the answer to a deletion of [chatId] a second
    time leaves the page exactly as the first time left it, whatever the
    answer; and after a rejected request or a response that is not ok the
    page is the one before. *)
Theorem deleting_twice_is_deleting_once :
  forall (chatId : jsstring) (reply : DeleteReply) (s : State),
    deleteChat_resume chatId reply (deleteChat_resume chatId reply s)
    = deleteChat_resume chatId reply s
    /\ (forall message, deleteChat_resume chatId (DeleteRejected message) s = s)
    /\ (forall status, response_ok status = false ->
                       deleteChat_resume chatId (DeleteResponse status) s = s)
    /\ deleteChat_begin false chatId s = s.
Proof.
  intros chatId reply s. split; [|split; [|split]].
  - destruct reply as [m|status]; [reflexivity|].
    destruct (response_ok status) eqn:Hok;
      [|unfold deleteChat_resume; rewrite Hok; reflexivity].
    destruct (is_current chatId (currentChatId s)) eqn:Hcur.
    + rewrite (deleteChat_resume_current chatId status s Hok Hcur).
      rewrite (deleteChat_resume_other chatId status)
        by first [exact Hok | reflexivity].
      unfold renderChatList.
      cbn [currentChatId chats chatList set_chatList set_chats is_current].
      rewrite filter_twice. reflexivity.
    + rewrite (deleteChat_resume_other chatId status s Hok Hcur).
      rewrite (deleteChat_resume_other chatId status)
        by first [exact Hok | exact Hcur].
      unfold renderChatList.
      cbn [currentChatId chats chatList set_chatList set_chats].
      rewrite filter_twice. reflexivity.
  - reflexivity.
  - intros status H. unfold deleteChat_resume. rewrite H. reflexivity.
  - reflexivity.
Qed.

(** X13. Selecting the chat that is already current does nothing, and no
    request goes out; so a second click on a chat changes nothing after the
    first.  Selecting any other chat makes it current, sets the title, asks
    the server for its messages once, and leaves the chat list, the pane and
    the in-flight flag as they were. *)
Theorem selecting_the_current_chat_does_nothing :
  forall (chatId title_ title' : jsstring) (s : State),
    (currentChatId s = Some chatId -> selectChat chatId title_ s = s)
    /\ selectChat chatId title' (selectChat chatId title_ s)
       = selectChat chatId title_ s
    /\ (currentChatId s <> Some chatId ->
        let s' := selectChat chatId title_ s in
        currentChatId s' = Some chatId
        /\ chatTitle s' = title_
        /\ requests s' = requests s ++ [GetChat chatId]
        /\ chats s' = chats s
        /\ messagesContainer s' = messagesContainer s
        /\ isGenerating s' = isGenerating s).
Proof.
  intros chatId title_ title' s.
  assert (is_current chatId (Some chatId) = true) as Hrefl
    by (apply streq_eq; reflexivity).
  split; [|split].
  - intros H. unfold selectChat. rewrite H, Hrefl. reflexivity.
  - destruct (is_current chatId (currentChatId s)) eqn:Hcur.
    + assert (selectChat chatId title_ s = s) as ->
        by (unfold selectChat; rewrite Hcur; reflexivity).
      unfold selectChat. rewrite Hcur. reflexivity.
    + assert (currentChatId (selectChat chatId title_ s) = Some chatId) as Hc
        by (unfold selectChat; rewrite Hcur; reflexivity).
      unfold selectChat at 1. rewrite Hc, Hrefl. reflexivity.
  - intros H s'. subst s'. unfold selectChat.
    destruct (is_current chatId (currentChatId s)) eqn:Hcur.
    + destruct (currentChatId s) as [c|]; [|discriminate].
      cbn [is_current] in Hcur. apply streq_eq in Hcur. congruence.
    + repeat split.
Qed.

Lemma selecting_the_current_chat_does_nothing_witness :
  currentChatId page0 = Some (str "B")
  /\ selectChat (str "B") (str "Beta") page0 = page0
  /\ requests (selectChat (str "A") (str "Alpha") page0)
     = [GetChat (str "A")].
Proof.
  destruct (selecting_the_current_chat_does_nothing (str "B") (str "Beta")
              (str "Beta") page0) as (Hsame & _).
  destruct (selecting_the_current_chat_does_nothing (str "A") (str "Alpha")
              (str "Alpha") page0) as (_ & _ & Hother).
  split; [reflexivity|]. split; [exact (Hsame eq_refl)|].
  assert (currentChatId page0 <> Some (str "A")) as Hne by discriminate.
  exact (proj1 (proj2 (proj2 (Hother Hne)))).
Defined.

(** ** The messages of a chat *)







(** ** Trimming *)

Section TrimFacts.
Context {A : Type} (code : A -> N).

Lemma trimStart_all_ws : forall s : list A,
  forallb (fun x => is_ws (code x)) s = true -> trimStart code s = [].
Proof.
  induction s as [|x s IH]; intros H; [reflexivity|].
  cbn [forallb] in H. apply andb_true_iff in H. destruct H as [Hx Hs].
  cbn [trimStart]. rewrite Hx. apply IH. exact Hs.
Qed.

Lemma trimStart_head : forall (s : list A) x rest,
  trimStart code s = x :: rest -> is_ws (code x) = false.
Proof.
  induction s as [|y s IH]; intros x rest H; [discriminate|].
  cbn [trimStart] in H. destruct (is_ws (code y)) eqn:Hy.
  - apply (IH x rest H).
  - inversion H; subst. exact Hy.
Qed.

Lemma trimStart_fixed : forall x (rest : list A),
  is_ws (code x) = false -> trimStart code (x :: rest) = x :: rest.
Proof. intros x rest H. cbn [trimStart]. rewrite H. reflexivity. Qed.

Lemma trimStart_twice : forall s : list A,
  trimStart code (trimStart code s) = trimStart code s.
Proof.
  intros s. destruct (trimStart code s) as [|x rest] eqn:E; [reflexivity|].
  apply trimStart_fixed. apply (trimStart_head s x rest E).
Qed.

Lemma trimStart_snoc : forall (l : list A) x,
  is_ws (code x) = false ->
  trimStart code (l ++ [x]) = trimStart code l ++ [x].
Proof.
  induction l as [|y l IH]; intros x Hx; cbn [app trimStart].
  - rewrite Hx. reflexivity.
  - destruct (is_ws (code y)); [apply IH; exact Hx|reflexivity].
Qed.

Lemma trimEnd_cons : forall x (rest : list A),
  is_ws (code x) = false ->
  trimEnd code (x :: rest) = x :: trimEnd code rest.
Proof.
  intros x rest Hx. unfold trimEnd. cbn [rev].
  rewrite (trimStart_snoc _ x Hx), rev_app_distr. reflexivity.
Qed.

Lemma trimEnd_twice : forall s : list A,
  trimEnd code (trimEnd code s) = trimEnd code s.
Proof.
  intros s. unfold trimEnd. rewrite rev_involutive, trimStart_twice.
  reflexivity.
Qed.

(** [trim] of a trimmed string is that string. *)
Lemma trim_on_twice : forall s : list A,
  trim_on code (trim_on code s) = trim_on code s.
Proof.
  intros s. unfold trim_on.
  destruct (trimStart code s) as [|x rest] eqn:E; [reflexivity|].
  pose proof (trimStart_head s x rest E) as Hx.
  rewrite (trimEnd_cons x rest Hx), (trimStart_fixed x _ Hx).
  rewrite <- (trimEnd_cons x rest Hx). apply trimEnd_twice.
Qed.

Lemma trim_on_all_ws : forall s : list A,
  forallb (fun x => is_ws (code x)) s = true -> trim_on code s = [].
Proof.
  intros s H. unfold trim_on. rewrite (trimStart_all_ws s H). reflexivity.
Qed.
End TrimFacts.

(** ** What a send does before its request *)

(** X15. What goes out on a send.  Input that is only whitespace is not
    sent: the call returns with the page untouched.  Otherwise, with no Turn
    in flight, the input box is emptied and exactly one request is issued,
    whose message is the trimmed input: a [/chat-stream] request that names
    the current chat, or a [/new-chat] request when there is no current chat
    (its id [null] or empty).  In the first case the user's message and the
    streaming placeholder are appended to the pane; in the second the pane
    is cleared and holds the user's message only. *)
Theorem send_posts_the_trimmed_input :
  forall (P : Platform) (now random now' : N) (s : State),
    (forallb is_ws (messageInput s) = true ->
     sendMessage_begin P now random now' s = (s, None))
    /\ (isGenerating s = false -> trim (messageInput s) <> [] ->
        let message := trim (messageInput s) in
        let s1 := fst (sendMessage_begin P now random now' s) in
        messageInput s1 = []
        /\ requests s1 = requests s ++ [request_for (currentChatId s) message]
        /\ messagesContainer s1
           = match request_for (currentChatId s) message with
             | PostChatStream _ _ =>
                 messagesContainer s
                   ++ [user_node now random message; placeholder_node now']
             | _ => [user_node now random message]
             end
        /\ snd (sendMessage_begin P now random now' s)
           = match request_for (currentChatId s) message with
             | PostChatStream _ _ => Some (AwaitChatStream (StreamId now'))
             | _ => Some AwaitNewChat
             end).
Proof.
  intros P now random now' s. split.
  - intros H. unfold sendMessage_begin, trim.
    rewrite (trim_on_all_ws (fun c => c) _ H). reflexivity.
  - intros Hg Hm message s1. subst s1 message.
    pose proof (trim_on_twice (fun c : N => c) (messageInput s)) as Htwice.
    fold (trim (messageInput s)) in Htwice.
    fold (trim (trim (messageInput s))) in Htwice.
    unfold sendMessage_begin. rewrite Hg.
    destruct (trim (messageInput s)) as [|c m] eqn:E; [contradiction|].
    cbn [orb].
    destruct (currentChatId s) as [[|d chat_id]|];
      unfold createNewChatWithMessage_begin, request_for;
      cbn -[trim formatMessage is_short cursor spaces];
      rewrite ?Htwice, <- ?app_assoc; repeat split.
Qed.

Lemma send_posts_the_trimmed_input_witness :
  let P := Reference.platform in
  let s := set_messageInput (str "  hello  ") page0 in
  isGenerating s = false
  /\ requests (fst (sendMessage_begin P 1 2 3 s))
     = [PostChatStream (str "hello") (str "B")]
  /\ sendMessage_begin P 1 2 3 (set_messageInput (str "   ") page0)
     = (set_messageInput (str "   ") page0, None).
Proof.
  intros P s.
  assert (trim (messageInput s) <> []) as Hm by discriminate.
  destruct (send_posts_the_trimmed_input P 1 2 3 s) as [_ Hsend].
  destruct (Hsend eq_refl Hm) as (_ & Hreq & _).
  split; [reflexivity|]. split; [exact Hreq|].
  exact (proj1 (send_posts_the_trimmed_input P 1 2 3
                  (set_messageInput (str "   ") page0)) eq_refl).
Defined.

(** ** The streaming placeholder *)

Lemma id_matches_refl : forall i,
  i <> NoId -> id_matches i i = true.
Proof.
  intros [|t r|t] H; [contradiction| |]; cbn [id_matches];
    rewrite ?N.eqb_refl; reflexivity.
Qed.

Lemma getElementById_app_fresh : forall i nodes e,
  getElementById i nodes = None ->
  getElementById i (nodes ++ [MessageDiv e])
  = if id_matches i (e_id e) then Some e else None.
Proof.
  intros i. induction nodes as [|[e0|] rest IH]; intros e H;
    cbn [app getElementById] in *.
  - reflexivity.
  - destruct (id_matches i (e_id e0)); [discriminate|]. apply IH. exact H.
  - apply IH. exact H.
Qed.

Lemma remove_element_app_fresh : forall i nodes e,
  getElementById i nodes = None ->
  remove_element i (nodes ++ [MessageDiv e])
  = if id_matches i (e_id e) then nodes else nodes ++ [MessageDiv e].
Proof.
  intros i. induction nodes as [|[e0|] rest IH]; intros e H;
    cbn [app getElementById remove_element] in *.
  - destruct (id_matches i (e_id e)); reflexivity.
  - destruct (id_matches i (e_id e0)); [discriminate|].
    rewrite (IH e H). destruct (id_matches i (e_id e)); reflexivity.
  - rewrite (IH e H). destruct (id_matches i (e_id e)); reflexivity.
Qed.

Lemma set_messages_same : forall s, set_messages (messagesContainer s) s = s.
Proof. intros s. destruct s; reflexivity. Qed.

(** X16. The streaming placeholder can be found and taken out again.  When
    no element of the pane has the id that [addStreamingMessagePlaceholder]
    draws, the id it returns selects the element it has appended -- the
    cursor alone, marked as streaming -- an update through that id shows
    [formatMessage] of the text followed by the cursor, and [removeMessage]
    with that id gives back the page as it was before.  An update or a
    removal through an id that selects nothing leaves the page as it is. *)
Theorem placeholder_is_found_and_removed :
  forall (now : N) (s : State),
    getElementById (StreamId now) (messagesContainer s) = None ->
    let s1 := fst (addStreamingMessagePlaceholder now s) in
    let i := snd (addStreamingMessagePlaceholder now s) in
    messagesContainer s1 = messagesContainer s ++ [placeholder_node now]
    /\ getElementById i (messagesContainer s1)
       = Some {| e_id := StreamId now; e_type := assistant;
                 e_avatar := AvatarLlama;
                 e_content := [LF] ++ spaces 24 ++ cursor ++ [LF] ++ spaces 20;
                 e_short := false; e_error := false; e_streaming := true;
                 e_memory := [] |}
    /\ (forall content,
          displayed i (updateStreamingMessage i content s1)
          = Some (formatMessage (Some content) ++ cursor))
    /\ removeMessage i s1 = s
    /\ (forall content, updateStreamingMessage (StreamId now) content s = s)
    /\ removeMessage (StreamId now) s = s.
Proof.
  intros now s Hfresh s1 i. subst s1 i.
  cbn [fst snd addStreamingMessagePlaceholder].
  assert (getElementById (StreamId now)
            (messagesContainer s ++ [placeholder_node now])
          = Some {| e_id := StreamId now; e_type := assistant;
                    e_avatar := AvatarLlama;
                    e_content := [LF] ++ spaces 24 ++ cursor ++ [LF]
                                   ++ spaces 20;
                    e_short := false; e_error := false; e_streaming := true;
                    e_memory := [] |}) as Hget.
  { unfold placeholder_node.
    rewrite (getElementById_app_fresh _ _ _ Hfresh).
    cbn [e_id id_matches]. rewrite N.eqb_refl. reflexivity. }
  split; [reflexivity|]. split; [exact Hget|]. split; [|split; [|split]].
  - intros content. apply updateStreamingMessage_displayed.
    unfold present. cbn [messagesContainer set_messages].
    fold (placeholder_node now). rewrite Hget. discriminate.
  - unfold removeMessage. cbn [messagesContainer set_messages].
    fold (placeholder_node now). unfold placeholder_node at 1.
    rewrite (remove_element_app_fresh _ _ _ Hfresh).
    cbn [e_id id_matches]. rewrite N.eqb_refl.
    destruct s; reflexivity.
  - intros content. unfold updateStreamingMessage. rewrite Hfresh.
    reflexivity.
  - unfold removeMessage.
    assert (forall nodes, getElementById (StreamId now) nodes = None ->
                          remove_element (StreamId now) nodes = nodes) as Hrm.
    { induction nodes as [|[e0|] rest IH]; intros H;
        cbn [getElementById remove_element] in *.
      - reflexivity.
      - destruct (id_matches (StreamId now) (e_id e0)); [discriminate|].
        rewrite (IH H). reflexivity.
      - rewrite (IH H). reflexivity. }
    rewrite (Hrm _ Hfresh). apply set_messages_same.
Qed.

Lemma placeholder_is_found_and_removed_witness :
  getElementById (StreamId 3) (messagesContainer page0) = None
  /\ removeMessage (StreamId 3) (fst (addStreamingMessagePlaceholder 3 page0))
     = page0
  /\ displayed (StreamId 3)
       (updateStreamingMessage (StreamId 3) (str "**Hi**")
          (fst (addStreamingMessagePlaceholder 3 page0)))
     = Some (str "<strong>Hi</strong>" ++ cursor).
Proof.
  assert (getElementById (StreamId 3) (messagesContainer page0) = None) as H
    by reflexivity.
  destruct (placeholder_is_found_and_removed 3 page0 H)
    as (_ & _ & Hupd & Hrm & _).
  split; [exact H|]. split; [exact Hrm|].
  etransitivity; [exact (Hupd (str "**Hi**"))|reflexivity].
Defined.

(** ** A Turn that fails *)












(** ** Creating a chat *)

Lemma is_current_refl : forall chatId, is_current chatId (Some chatId) = true.
Proof. intros chatId. apply streq_eq. reflexivity. Qed.

Lemma is_current_eq : forall chatId current,
  is_current chatId current = true -> current = Some chatId.
Proof.
  intros chatId [c|] H; [|discriminate]. cbn [is_current] in H.
  apply streq_eq in H. congruence.
Qed.

(** The page once the new chat is registered and selected. *)
Lemma select_created_chat : forall newChat s,
  let s3 := selectChat (id newChat) (title newChat)
              (renderChatList (set_chats (newChat :: chats s) s)) in
  currentChatId s3 = Some (id newChat)
  /\ hd_error (chatList s3) = Some (item_of true newChat)
  /\ requests s3
     = (if is_current (id newChat) (currentChatId s) then requests s
        else requests s ++ [GetChat (id newChat)])
  /\ messagesContainer s3 = messagesContainer s.
Proof.
  intros newChat s s3. subst s3. unfold selectChat.
  cbn [currentChatId renderChatList set_chatList set_chats].
  destruct (is_current (id newChat) (currentChatId s)) eqn:Hcur.
  - unfold renderChatList.
    cbn [currentChatId chatList chats requests messagesContainer
         set_chatList set_chats map hd_error].
    rewrite ?Hcur. split; [apply is_current_eq; exact Hcur|]. repeat split.
  - cbv zeta. unfold renderChatList.
    cbn [currentChatId chatList chats requests messagesContainer fetch
         set_chatList set_chats set_chatTitle set_currentChatId map hd_error
         set_active item_chatId item_title item_updated_at].
    pose proof (is_current_refl (id newChat)) as Hr. cbn [is_current] in Hr.
    unfold set_active, item_of. cbn [item_chatId item_title item_updated_at].
    rewrite Hr. repeat split.
Qed.

(** X19. A chat that the server has created becomes the current one.  When
    [/new-chat] answers without an error, then -- whatever the rest of the
    answer holds, and whichever chat was selected while the request was in
    flight -- the new chat is the current chat and its entry, first in the
    sidebar, carries the active mark; its messages are asked for unless its
    id was the current one already.  With a response text (and a number of
    memories that converts) the assistant's message is the last element of
    the pane or, when the memory statistics are missing, the last but the
    error message; without a response text the chat is registered and
    selected all the same and one error message is appended, whose text is
    the message of the TypeError that [addMessageToUI] runs into first: the
    one of the comparison [memoriesAdded > 0] when the number of memories
    cannot be converted, else the one of the read of [content.length]. *)
Theorem created_chat_becomes_current :
  forall (P : Platform) (iso iso' : jsstring) (now random : N)
         (data : NewChatData) (s : State),
    truthy (data_error data) = false ->
    let newChat := {| id := data_chat_id data; title := data_title data;
                      created_at := iso; updated_at := iso' |} in
    let s' := createNewChatWithMessage_resume P iso iso' now random
                (NewChatJson data) s in
    currentChatId s' = Some (data_chat_id data)
    /\ hd_error (chatList s') = Some (item_of true newChat)
    /\ requests s'
       = (if is_current (data_chat_id data) (currentChatId s) then requests s
          else requests s ++ [GetChat (data_chat_id data)])
    /\ (data_response data = None ->
        let v := if truthy (data_memories_added data)
                 then data_memories_added data else zero in
        messagesContainer s'
        = messagesContainer s
            ++ [error_node
                  (str "Failed to create new chat: "
                     ++ type_error_message P
                          match gt_zero P v with
                          | None => NotConvertible v
                          | Some _ =>
                              PropertyOfMissing JUndefined (str "length")
                          end)])
    /\ (forall r, data_response data = Some r ->
        truthy (data_memories_added data) = false ->
        exists tail,
          messagesContainer s'
          = messagesContainer s
              ++ MessageDiv
                   {| e_id := MsgId now random; e_type := assistant;
                      e_avatar := AvatarLlama;
                      e_content := formatMessage (Some r);
                      e_short := is_short r; e_error := false;
                      e_streaming := false; e_memory := [] |} :: tail
          /\ forallb is_error_node tail = true /\ length tail <= 1).
Proof.
  intros P iso iso' now random data s Herr newChat s'. subst s'.
  unfold createNewChatWithMessage_resume. rewrite Herr. cbv zeta.
  fold newChat.
  set (s3 := selectChat (data_chat_id data) (data_title data) _).
  assert (currentChatId s3 = Some (id newChat)
          /\ hd_error (chatList s3) = Some (item_of true newChat)
          /\ requests s3
             = (if is_current (id newChat) (currentChatId s) then requests s
                else requests s ++ [GetChat (id newChat)])
          /\ messagesContainer s3 = messagesContainer s)
    as (Hc & Hhd & Hreq & Hpane)
    by (exact (select_created_chat newChat s)).
  change (data_chat_id data) with (id newChat).
  set (v := if truthy (data_memories_added data)
            then data_memories_added data else zero).
  pose proof (addMessageToUI_outside P now random assistant
                (data_response data) v s3) as Ho.
  assert (forall s4, same_outside_pane s3 s4 ->
            currentChatId (release s4) = Some (id newChat)
            /\ hd_error (chatList (release s4)) = Some (item_of true newChat)
            /\ requests (release s4)
               = (if is_current (id newChat) (currentChatId s)
                  then requests s else requests s ++ [GetChat (id newChat)]))
    as Hkeep.
  { intros s4 H4. unfold same_outside_pane in H4.
    repeat match goal with H : _ /\ _ |- _ => destruct H end.
    cbn [release currentChatId chatList requests set_modelStatus
         set_sendButton_disabled set_isGenerating].
    repeat split; congruence. }
  destruct (addMessageToUI P now random assistant (data_response data) v s3)
    as [s4|m s4] eqn:Eadd.
  - destruct (updateMemoryDisplay P (data_memory_stats data)) eqn:Emem;
      destruct (Hkeep _ Ho) as (K1 & K2 & K3);
      (split; [exact K1|]); (split; [exact K2|]); (split; [exact K3|]);
      (split;
       [ intros Hnone; unfold addMessageToUI in Eadd; rewrite Hnone in Eadd;
         destruct (gt_zero P v) as [[|]|]; discriminate
       | intros r Hr Hmem; unfold addMessageToUI in Eadd; rewrite Hr in Eadd;
         subst v; rewrite Hmem in Eadd; cbn in Eadd; inversion Eadd; subst;
         cbn [release addErrorMessage messagesContainer set_modelStatus
              set_sendButton_disabled set_isGenerating set_messages];
         rewrite Hpane, <- ?app_assoc; eexists;
         (split; [reflexivity|]); split; [reflexivity|cbn; lia] ]).
  - destruct (Hkeep _ Ho) as (K1 & K2 & K3).
    split; [exact K1|]. split; [exact K2|]. split; [exact K3|]. split.
    + intros Hnone. cbv zeta. fold v.
      unfold addMessageToUI in Eadd. rewrite Hnone in Eadd.
      assert (m = type_error_message P
                    match gt_zero P v with
                    | None => NotConvertible v
                    | Some _ => PropertyOfMissing JUndefined (str "length")
                    end
              /\ s4 = s3) as [-> ->]
        by (destruct (gt_zero P v) as [[|]|]; inversion Eadd; split;
            reflexivity).
      cbn [release addErrorMessage messagesContainer set_modelStatus
           set_sendButton_disabled set_isGenerating set_messages].
      rewrite Hpane. reflexivity.
    + intros r Hr Hmem. unfold addMessageToUI in Eadd. rewrite Hr in Eadd.
      subst v. rewrite Hmem in Eadd. cbn in Eadd. discriminate.
Qed.

Lemma created_chat_becomes_current_witness :
  let P := Reference.platform in
  let data := {| data_error := JUndefined; data_chat_id := str "C";
                 data_title := str "Gamma"; data_response := Some (str "Hi!");
                 data_memories_added := zero;
                 data_memory_stats := JObj [] |} in
  let s' := createNewChatWithMessage_resume P NOW NOW 4 5 (NewChatJson data)
              page0 in
  let silent := {| data_error := JUndefined; data_chat_id := str "C";
                   data_title := str "Gamma"; data_response := None;
                   data_memories_added := zero;
                   data_memory_stats := JObj [] |} in
  truthy (data_error data) = false
  /\ currentChatId s' = Some (str "C")
  /\ map item_active (chatList s') = [true; false; false]
  /\ requests s' = [GetChat (str "C")]
  /\ truthy (data_error silent) = false
  /\ messagesContainer
       (createNewChatWithMessage_resume P NOW NOW 4 5 (NewChatJson silent)
          page0)
     = messagesContainer page0
         ++ [error_node
               (str "Failed to create new chat: Cannot read properties of undefined (reading 'length')")].
Proof.
  intros P data s' silent.
  destruct (created_chat_becomes_current P NOW NOW 4 5 data page0 eq_refl)
    as (Hc & _ & Hreq & _).
  destruct (created_chat_becomes_current P NOW NOW 4 5 silent page0 eq_refl)
    as (_ & _ & _ & Hpane & _).
  split; [reflexivity|]. split; [exact Hc|]. split; [reflexivity|].
  split; [exact Hreq|]. split; [reflexivity|].
  exact (Hpane eq_refl).
Defined.

(** ** The New Chat button *)

(** X20. A click on New Chat.  It leaves no chat current, sets the title,
    replaces the pane by the "New Chat Ready" banner and takes the active
    mark off every sidebar entry, which otherwise stay as they are; the chat
    list, the input box and the in-flight flag are not touched and no
    request goes out.  A second click changes nothing more.  The next send,
    when nothing is in flight, is therefore a creation: it posts the trimmed
    input to [/new-chat] and the banner gives way to the user's message. *)
Theorem new_chat_click_clears_the_view :
  forall (P : Platform) (s : State),
    let s1 := createNewChat s in
    currentChatId s1 = None
    /\ chatTitle s1 = NEW_CHAT
    /\ messagesContainer s1 = [NewChatReady]
    /\ chatList s1 = map (set_active (fun _ => false)) (chatList s)
    /\ forallb (fun item => negb (item_active item)) (chatList s1) = true
    /\ chats s1 = chats s /\ messageInput s1 = messageInput s
    /\ isGenerating s1 = isGenerating s /\ requests s1 = requests s
    /\ createNewChat s1 = s1
    /\ (forall now random now',
          isGenerating s = false -> trim (messageInput s) <> [] ->
          let s2 := fst (sendMessage_begin P now random now' s1) in
          requests s2 = requests s ++ [PostNewChat (trim (messageInput s))]
          /\ messagesContainer s2
             = [user_node now random (trim (messageInput s))]).
Proof.
  intros P s s1. subst s1.
  assert (forall l : list ChatItem,
            map (set_active (fun _ => false))
              (map (set_active (fun _ => false)) l)
            = map (set_active (fun _ => false)) l) as Htwice.
  { intros l. rewrite map_map. apply map_ext. intros item. reflexivity. }
  do 4 (split; [reflexivity|]). split.
  { unfold createNewChat. cbv zeta. cbn [chatList set_chatList].
    rewrite forallb_forall. intros item Hin. apply in_map_iff in Hin.
    destruct Hin as (item0 & <- & _). reflexivity. }
  do 4 (split; [reflexivity|]). split.
  { unfold createNewChat. cbv zeta.
    cbn [chatList set_chatList set_messages set_chatTitle set_currentChatId].
    rewrite Htwice. reflexivity. }
  intros now random now' Hg Hm s2. subst s2.
  pose proof (trim_on_twice (fun c : N => c) (messageInput s)) as Ht.
  fold (trim (messageInput s)) in Ht.
  fold (trim (trim (messageInput s))) in Ht.
  unfold sendMessage_begin, createNewChat. cbv zeta.
  cbn [messageInput isGenerating currentChatId set_chatList set_messages
       set_chatTitle set_currentChatId].
  rewrite Hg.
  destruct (trim (messageInput s)) as [|c m] eqn:E; [contradiction|].
  cbn [orb]. unfold createNewChatWithMessage_begin.
  cbn -[trim formatMessage is_short]. rewrite Ht. split; reflexivity.
Qed.

Lemma new_chat_click_clears_the_view_witness :
  let P := Reference.platform in
  isGenerating page0 = false
  /\ requests (fst (sendMessage_begin P 1 2 3 (createNewChat page0)))
     = [PostNewChat (str "hello")]
  /\ map item_active (chatList (createNewChat page0)) = [false; false].
Proof.
  intros P.
  assert (trim (messageInput page0) <> []) as Hm by discriminate.
  destruct (new_chat_click_clears_the_view P page0)
    as (_ & _ & _ & _ & _ & _ & _ & _ & _ & _ & Hsend).
  split; [reflexivity|].
  split; [exact (proj1 (Hsend 1%N 2%N 3%N eq_refl Hm))|reflexivity].
Defined.

(** ** Patterns that match *)

Lemma advance_rest : forall l x tail,
  m_rest x = l ++ tail -> m_rest (advance l x) = tail.
Proof.
  induction l as [|u l IH]; intros x tail H; cbn [advance].
  - exact H.
  - apply IH. cbn [step_over m_rest]. rewrite H. reflexivity.
Qed.

Lemma advance_pos : forall l x, m_pos (advance l x) = m_pos x + length l.
Proof.
  induction l as [|u l IH]; intros x; cbn [advance length].
  - lia.
  - rewrite IH. cbn [step_over m_pos]. lia.
Qed.

Lemma advance_caps : forall l x, m_caps (advance l x) = m_caps x.
Proof.
  induction l as [|u l IH]; intros x; cbn [advance]; [reflexivity|].
  rewrite IH. reflexivity.
Qed.

Lemma advance_app : forall l1 l2 x,
  advance (l1 ++ l2) x = advance l2 (advance l1 x).
Proof.
  induction l1 as [|u l1 IH]; intros l2 x; cbn [app advance];
    [reflexivity|apply IH].
Qed.

Lemma rmatch_chr_ok : forall ml (p : N -> bool) k x u rest,
  m_rest x = u :: rest -> p u = true ->
  rmatch ml (Chr p) k x = k (step_over u x).
Proof.
  intros ml p k x u rest Hr Hp. cbn [rmatch]. rewrite Hr, Hp.
  unfold step_over. rewrite Hr. reflexivity.
Qed.

Lemma rmatch_chr_no : forall ml (p : N -> bool) k x u rest,
  m_rest x = u :: rest -> p u = false -> rmatch ml (Chr p) k x = None.
Proof.
  intros ml p k x u rest Hr Hp. cbn [rmatch]. rewrite Hr, Hp. reflexivity.
Qed.

(** A literal at the head of the input is matched, and the continuation
    takes over behind it. *)
Lemma rmatch_lit_ok : forall ml p k x tail,
  p <> [] -> m_rest x = p ++ tail ->
  rmatch ml (lit p) k x = k (advance p x).
Proof.
  intros ml. induction p as [|c p IH]; intros k x tail Hne Hr;
    [contradiction|].
  destruct p as [|c' p].
  - cbn [lit advance]. unfold chr.
    apply (rmatch_chr_ok ml _ k x c tail Hr). apply N.eqb_refl.
  - change (lit (c :: c' :: p)) with (Seq (chr c) (lit (c' :: p))).
    cbn [rmatch]. unfold chr.
    rewrite (rmatch_chr_ok ml _ _ x c ((c' :: p) ++ tail) Hr (N.eqb_refl c)).
    cbn [advance].
    apply (IH k (step_over c x) tail); [discriminate|].
    cbn [step_over m_rest]. rewrite Hr. reflexivity.
Qed.

(** A literal whose first unit is not the next unit of the input fails. *)
Lemma rmatch_lit_no : forall ml c p k x u rest,
  m_rest x = u :: rest -> (c =? u)%N = false ->
  rmatch ml (lit (c :: p)) k x = None.
Proof.
  intros ml c p k x u rest Hr Hc. destruct p as [|c' p].
  - cbn [lit]. unfold chr. apply (rmatch_chr_no ml _ k x u rest Hr Hc).
  - change (lit (c :: c' :: p)) with (Seq (chr c) (lit (c' :: p))).
    cbn [rmatch]. unfold chr. apply (rmatch_chr_no ml _ _ x u rest Hr Hc).
Qed.

Lemma clear_caps_nil : forall x, clear_caps [] x = x.
Proof.
  intros [prev rest pos caps]. unfold clear_caps.
  cbn [m_prev m_rest m_pos m_caps existsb negb].
  rewrite (filter_all _ (fun _ => true) caps) by reflexivity. reflexivity.
Qed.

Lemma repeat_loop_step : forall m gs greedy k fuel min max x,
  repeat_loop m gs greedy k (S fuel) min max x
  = match max with
    | Some O => k x
    | _ =>
        if negb (min =? 0)
        then m (fun y =>
                  if (min =? 0) && (m_pos y =? m_pos x) then None
                  else repeat_loop m gs greedy k fuel (pred min)
                         (option_map pred max) y) (clear_caps gs x)
        else if greedy
             then orelse
                    (m (fun y =>
                          if (min =? 0) && (m_pos y =? m_pos x) then None
                          else repeat_loop m gs greedy k fuel (pred min)
                                 (option_map pred max) y) (clear_caps gs x))
                    (fun _ => k x)
             else orelse (k x)
                    (fun _ =>
                       m (fun y =>
                            if (min =? 0) && (m_pos y =? m_pos x) then None
                            else repeat_loop m gs greedy k fuel (pred min)
                                   (option_map pred max) y) (clear_caps gs x))
    end.
Proof. reflexivity. Qed.

(** One iteration of a starred character class, unrolled. *)
Lemma rmatch_star_chr : forall ml greedy (p : N -> bool) k x,
  rmatch ml (Rep 0 None greedy (Chr p)) k x
  = match m_rest x with
    | u :: _ =>
        if p u
        then if greedy
             then orelse (rmatch ml (Rep 0 None greedy (Chr p)) k
                            (step_over u x))
                         (fun _ => k x)
             else orelse (k x)
                         (fun _ => rmatch ml (Rep 0 None greedy (Chr p)) k
                                     (step_over u x))
        else k x
    | [] => k x
    end.
Proof.
  intros ml greedy p k x.
  change (rmatch ml (Rep 0 None greedy (Chr p)) k x)
    with (repeat_loop (rmatch ml (Chr p)) [] greedy k
            (S (length (m_rest x))) 0 None x).
  rewrite repeat_loop_step.
  cbn [Nat.eqb andb negb Nat.pred option_map].
  rewrite clear_caps_nil.
  destruct (m_rest x) as [|u rest] eqn:Hr.
  - cbn [rmatch]. rewrite Hr.
    destruct greedy; cbn [orelse]; destruct (k x); reflexivity.
  - destruct (p u) eqn:Hp.
    + rewrite (rmatch_chr_ok ml p _ x u rest Hr Hp).
      assert (m_rest (step_over u x) = rest) as Hy
        by (cbn [step_over m_rest]; rewrite Hr; reflexivity).
      replace (m_pos (step_over u x) =? m_pos x) with false
        by (symmetry; apply Nat.eqb_neq; cbn [step_over m_pos]; lia).
      rewrite (rmatch_rep_fuel ml 0 None greedy (Chr p) k (step_over u x))
        by (rewrite Hy; cbn [length]; lia).
      reflexivity.
    + rewrite (rmatch_chr_no ml p _ x u rest Hr Hp).
      destruct greedy; cbn [orelse]; destruct (k x); reflexivity.
Qed.

(** A lazy starred class stops at the first position where what follows it
    matches. *)
Lemma rmatch_lazy_star : forall ml (p stop : N -> bool) K body x tail z,
  (forall y u r, m_rest y = u :: r -> stop u = false -> K y = None) ->
  Forall (fun u => p u = true /\ stop u = false) body ->
  m_rest x = body ++ tail ->
  K (advance body x) = Some z ->
  rmatch ml (Rep 0 None false (Chr p)) K x = Some z.
Proof.
  intros ml p stop K. induction body as [|u body IH];
    intros x tail z HK Hb Hr Hz; rewrite rmatch_star_chr.
  - cbn [advance] in Hz. destruct (m_rest x) as [|u r]; [exact Hz|].
    destruct (p u); [|exact Hz]. rewrite Hz. reflexivity.
  - inversion Hb as [|u' b' [Hp Hs] Hb']; subst.
    rewrite Hr. cbn [app]. rewrite Hp.
    rewrite (HK x u (body ++ tail) Hr Hs). cbn [orelse].
    apply (IH (step_over u x) tail z HK Hb'); [|exact Hz].
    cbn [step_over m_rest]. rewrite Hr. reflexivity.
Qed.

(** A greedy starred class runs to the first unit outside the class, when
    what follows it matches there. *)
Lemma rmatch_greedy_star : forall ml (p : N -> bool) K body x tail z,
  Forall (fun u => p u = true) body ->
  m_rest x = body ++ tail ->
  match tail with [] => True | u :: _ => p u = false end ->
  K (advance body x) = Some z ->
  rmatch ml (Rep 0 None true (Chr p)) K x = Some z.
Proof.
  intros ml p K. induction body as [|u body IH];
    intros x tail z Hb Hr Ht Hz; rewrite rmatch_star_chr.
  - cbn [advance app] in *. rewrite Hr.
    destruct tail as [|u r]; [exact Hz|]. rewrite Ht. exact Hz.
  - inversion Hb as [|u' b' Hp Hb']; subst.
    rewrite Hr. cbn [app]. rewrite Hp.
    rewrite (IH (step_over u x) tail z Hb'); [reflexivity| |exact Ht|exact Hz].
    cbn [step_over m_rest]. rewrite Hr. reflexivity.
Qed.

(** [x+] is [x] followed by [x*]. *)
Lemma rmatch_plus_chr : forall ml (p : N -> bool) k x u rest,
  m_rest x = u :: rest -> p u = true ->
  rmatch ml (Rep 1 None true (Chr p)) k x
  = rmatch ml (Rep 0 None true (Chr p)) k (step_over u x).
Proof.
  intros ml p k x u rest Hr Hp.
  change (rmatch ml (Rep 1 None true (Chr p)) k x)
    with (repeat_loop (rmatch ml (Chr p)) [] true k
            (S (S (length (m_rest x)))) 1 None x).
  rewrite repeat_loop_step.
  cbn [Nat.eqb andb negb Nat.pred option_map].
  rewrite clear_caps_nil.
  rewrite (rmatch_chr_ok ml p _ x u rest Hr Hp).
  apply (rmatch_rep_fuel ml 0 None true (Chr p) k).
  cbn [step_over m_rest]. rewrite Hr. cbn [tl length]. lia.
Qed.

(** ** A pass that rewrites the whole text *)

Lemma scan_skip_all :
  forall (A : Type) (code : A -> N) ml r (f : replacer (A:=A)) (l : list A) prev,
    (forall prev', can_start ml r (Some prev') [] = false) ->
    l <> [] ->
    scan code ml r f prev (length l) l = [].
Proof.
  intros A code ml r f. induction l as [|x l IH]; intros prev Hend Hne;
    [contradiction|].
  cbn [length scan]. destruct l as [|y l].
  - cbn [length scan]. rewrite (match_here_none _ _ _ _ (Hend (code x))).
    reflexivity.
  - apply IH; [exact Hend|discriminate].
Qed.

(** When the pattern matches the whole text from its start, the result of
    the pass is the replacement of that one match. *)
Lemma replace_g_whole : forall ml r (f : replacer (A:=N)) l cs,
  l <> [] ->
  match_here ml r None l = Some (length l, cs) ->
  (forall prev', can_start ml r (Some prev') [] = false) ->
  replace_g (fun c => c) ml r f l = f l (capture l cs).
Proof.
  intros ml r f l cs Hne Hm Hend. unfold replace_g.
  destruct l as [|x l]; [contradiction|].
  cbn [scan]. rewrite map_id, Hm. cbn [length].
  rewrite firstn_all2 by (cbn [length]; lia).
  destruct l as [|y l].
  - cbn [scan length]. rewrite (match_here_none _ _ _ _ (Hend x)).
    rewrite app_nil_r. reflexivity.
  - rewrite (scan_skip_all N (fun c => c) ml r f (y :: l) (Some x) Hend)
      by discriminate.
    rewrite app_nil_r. reflexivity.
Qed.

(** ** One marked span *)

Lemma can_start_lit_seq_end : forall ml p b prev,
  p <> [] -> can_start ml (Seq (lit p) b) prev [] = false.
Proof.
  intros ml p b prev Hp.
  destruct (can_start ml (Seq (lit p) b) prev []) eqn:E; [|reflexivity].
  apply can_start_lit_seq in E. destruct p; [contradiction|discriminate].
Qed.

(** [open(.*?)close] on a text that is [open], a body of units that [.]
    accepts and that are not the first unit of [close], and [close]. *)
Lemma match_here_span : forall ml open_ c close_ body prev,
  open_ <> [] ->
  Forall (fun u => negb (is_line_terminator u) = true /\ (c =? u)%N = false)
    body ->
  match_here ml
    (Seq (lit open_) (Seq (Group 1 (lazy_star dot)) (lit (c :: close_))))
    prev (open_ ++ body ++ c :: close_)
  = Some (length (open_ ++ body ++ c :: close_),
          [(1, (length open_, length open_ + length body))]).
Proof.
  intros ml open_ c close_ body prev Hopen Hbody. unfold match_here.
  set (x0 := {| m_prev := prev; m_rest := open_ ++ body ++ c :: close_;
                m_pos := 0; m_caps := [] |}).
  cbn [rmatch].
  rewrite (rmatch_lit_ok ml open_ _ x0 (body ++ c :: close_) Hopen eq_refl).
  set (x1 := advance open_ x0).
  assert (m_rest x1 = body ++ c :: close_) as Hr1
    by (apply advance_rest; reflexivity).
  assert (m_pos x1 = length open_) as Hp1
    by (unfold x1; rewrite advance_pos; reflexivity).
  assert (m_caps x1 = []) as Hc1
    by (unfold x1; rewrite advance_caps; reflexivity).
  set (w := advance body x1).
  assert (m_rest w = (c :: close_) ++ []) as Hrw
    by (rewrite app_nil_r; apply advance_rest; exact Hr1).
  set (z := advance (c :: close_)
              (set_cap 1 (m_pos x1) (m_pos w) w)).
  unfold lazy_star, dot.
  rewrite (rmatch_lazy_star ml _ (fun u => (c =? u)%N)
             (fun y => rmatch ml (lit (c :: close_)) Some
                         (set_cap 1 (m_pos x1) (m_pos y) y))
             body x1 (c :: close_) z).
  - unfold z. rewrite advance_pos, advance_caps.
    cbn [set_cap m_pos m_caps]. unfold w. rewrite advance_pos, advance_caps.
    rewrite Hp1, Hc1. cbn [filter]. rewrite !length_app.
    f_equal. f_equal. lia.
  - intros y u r Hy Hu.
    apply (rmatch_lit_no ml c close_ Some _ u r); [exact Hy|exact Hu].
  - exact Hbody.
  - exact Hr1.
  - apply (rmatch_lit_ok ml (c :: close_) Some _ []); [discriminate|].
    exact Hrw.
Qed.

Lemma capture_one : forall (l : jsstring) a b,
  capture l [(1, (a, b))] 1 = Some (firstn (b - a) (skipn a l)).
Proof. reflexivity. Qed.

Lemma middle_of : forall (a b c : jsstring),
  firstn (length a + length b - length a) (skipn (length a) (a ++ b ++ c)) = b.
Proof.
  intros a b c. rewrite skipn_app, skipn_all, Nat.sub_diag. cbn [skipn app].
  replace (length a + length b - length a) with (length b) by lia.
  rewrite firstn_app, firstn_all, Nat.sub_diag. cbn [firstn].
  apply app_nil_r.
Qed.

(** The pass for such a pattern, with replacement [tag_open $1 tag_close],
    turns the span into the tagged body. *)
Lemma replace_span : forall ml open_ c close_ body tag_open tag_close,
  open_ <> [] ->
  Forall (fun u => negb (is_line_terminator u) = true /\ (c =? u)%N = false)
    body ->
  replace_g (fun u => u) ml
    (Seq (lit open_) (Seq (Group 1 (lazy_star dot)) (lit (c :: close_))))
    (wrap (fun u => u) tag_open tag_close)
    (open_ ++ body ++ c :: close_)
  = tag_open ++ body ++ tag_close.
Proof.
  intros ml open_ c close_ body tag_open tag_close Hopen Hbody.
  assert (open_ ++ body ++ c :: close_ <> []) as Hne.
  { intros H. apply app_eq_nil in H. destruct H as [H _]. exact (Hopen H). }
  rewrite (replace_g_whole ml _ _ _ _ Hne
             (match_here_span ml open_ c close_ body None Hopen Hbody)
             (fun prev' => can_start_lit_seq_end ml open_ _ (Some prev') Hopen)).
  unfold wrap, expand. cbn [flat_map]. rewrite capture_one, middle_of.
  rewrite !map_id, app_nil_r. reflexivity.
Qed.

(** [^prefix(.*$)] with the [m] flag on a text that is [prefix] and one
    line. *)
Lemma match_here_line : forall prefix body,
  prefix <> [] ->
  Forall (fun u => negb (is_line_terminator u) = true) body ->
  match_here true (re_line prefix) None (prefix ++ body)
  = Some (length (prefix ++ body),
          [(1, (length prefix, length prefix + length body))]).
Proof.
  intros prefix body Hp Hbody. unfold match_here, re_line.
  set (x0 := {| m_prev := None; m_rest := prefix ++ body;
                m_pos := 0; m_caps := [] |}).
  cbn [rmatch m_prev x0].
  rewrite (rmatch_lit_ok true prefix _ x0 body Hp eq_refl).
  set (x1 := advance prefix x0).
  assert (m_rest x1 = body ++ []) as Hr1
    by (rewrite app_nil_r; apply advance_rest; reflexivity).
  assert (m_pos x1 = length prefix) as Hp1
    by (unfold x1; rewrite advance_pos; reflexivity).
  assert (m_caps x1 = []) as Hc1
    by (unfold x1; rewrite advance_caps; reflexivity).
  set (w := advance body x1).
  unfold star, dot.
  rewrite (rmatch_greedy_star true _
             (fun y => rmatch true Eol
                         (fun y0 => Some (set_cap 1 (m_pos x1) (m_pos y0) y0))
                         y)
             body x1 [] (set_cap 1 (m_pos x1) (m_pos w) w)).
  - cbn [set_cap m_pos m_caps]. unfold w. rewrite advance_pos, advance_caps.
    rewrite Hp1, Hc1. cbn [filter]. rewrite length_app. reflexivity.
  - exact Hbody.
  - exact Hr1.
  - exact I.
  - unfold w. cbn [rmatch]. rewrite (advance_rest body x1 [] Hr1).
    reflexivity.
Qed.

Lemma middle_to_end : forall (a b : jsstring),
  firstn (length a + length b - length a) (skipn (length a) (a ++ b)) = b.
Proof.
  intros a b. pose proof (middle_of a b []) as H.
  rewrite app_nil_r in H. exact H.
Qed.

Lemma replace_line : forall prefix body tag_open tag_close,
  prefix <> [] ->
  Forall (fun u => negb (is_line_terminator u) = true) body ->
  replace_g (fun u => u) true (re_line prefix)
    (wrap (fun u => u) tag_open tag_close) (prefix ++ body)
  = tag_open ++ body ++ tag_close.
Proof.
  intros prefix body tag_open tag_close Hp Hbody.
  assert (prefix ++ body <> []) as Hne.
  { intros H. apply app_eq_nil in H. destruct H as [H _]. exact (Hp H). }
  rewrite (replace_g_whole true _ _ _ _ Hne
             (match_here_line prefix body Hp Hbody)).
  - unfold wrap, expand. cbn [flat_map]. rewrite capture_one, middle_to_end.
    rewrite !map_id, app_nil_r. reflexivity.
  - intros prev'.
    destruct (can_start true (re_line prefix) (Some prev') []) eqn:E;
      [|reflexivity].
    apply can_start_re_line, andb_true_iff in E. destruct E as [_ E].
    destruct prefix; [contradiction|discriminate].
Qed.

Lemma replace_bold : forall body,
  Forall (fun u => negb (is_line_terminator u) = true /\ (42 =? u)%N = false)
    body ->
  replace_g (fun u => u) false re_bold
    (wrap (fun u => u) (str "<strong>") (str "</strong>"))
    (str "**" ++ body ++ str "**")
  = str "<strong>" ++ body ++ str "</strong>".
Proof.
  intros body H.
  exact (replace_span false (str "**") 42 [42%N] body (str "<strong>")
           (str "</strong>") ltac:(discriminate) H).
Qed.

Lemma replace_italic : forall body,
  Forall (fun u => negb (is_line_terminator u) = true /\ (42 =? u)%N = false)
    body ->
  replace_g (fun u => u) false re_italic
    (wrap (fun u => u) (str "<em>") (str "</em>"))
    (str "*" ++ body ++ str "*")
  = str "<em>" ++ body ++ str "</em>".
Proof.
  intros body H.
  exact (replace_span false [42%N] 42 [] body (str "<em>") (str "</em>")
           ltac:(discriminate) H).
Qed.

(** ** Passes that copy their input *)

(** A pass whose pattern begins with a unit that the text does not hold. *)
Lemma pass_absent : forall ml c w b (f : replacer (A:=N)) l,
  Forall (fun u => u <> c) l ->
  replace_g (fun u => u) ml (Seq (lit (c :: w)) b) f l = l.
Proof.
  intros ml c w b f l H. apply replace_g_unguarded.
  apply (unguarded_weaken _ (fun _ rest => startsWith (c :: w) rest)).
  - intros prev l' Hs. apply (can_start_lit_seq ml _ b prev l'). exact Hs.
  - apply unguarded_absent. exact H.
Qed.

Lemma pass_code_block : forall (f : replacer (A:=N)) l,
  Forall (fun u => u <> 96%N) l ->
  replace_g (fun u => u) false re_code_block f l = l.
Proof. intros f l H. exact (pass_absent false 96 [96; 96]%N _ f l H). Qed.

Lemma pass_inline_code : forall (f : replacer (A:=N)) l,
  Forall (fun u => u <> 96%N) l ->
  replace_g (fun u => u) false re_inline_code f l = l.
Proof. intros f l H. exact (pass_absent false 96 [] _ f l H). Qed.

Lemma pass_bold : forall (f : replacer (A:=N)) l,
  Forall (fun u => u <> 42%N) l ->
  replace_g (fun u => u) false re_bold f l = l.
Proof. intros f l H. exact (pass_absent false 42 [42%N] _ f l H). Qed.

Lemma pass_italic : forall (f : replacer (A:=N)) l,
  Forall (fun u => u <> 42%N) l ->
  replace_g (fun u => u) false re_italic f l = l.
Proof. intros f l H. exact (pass_absent false 42 [] _ f l H). Qed.

Lemma line_free_one_line : forall p l prev,
  Forall (fun u => negb (is_line_terminator u) = true) l ->
  at_line_start prev && startsWith p l = false ->
  p <> [] ->
  line_free p prev l = true.
Proof.
  intros p. induction l as [|u l IH]; intros prev Hl Hs Hp;
    unfold line_free in *; cbn [unguarded].
  - rewrite Hs. reflexivity.
  - rewrite Hs. cbn [negb andb]. inversion Hl as [|u' l' Hu Hl']; subst.
    apply IH; [exact Hl'| |exact Hp]. cbn [at_line_start].
    apply negb_true_iff in Hu. rewrite Hu. reflexivity.
Qed.

(** A heading or list pass on one line that does not begin with its
    prefix. *)
Lemma pass_line : forall p (f : replacer (A:=N)) l,
  Forall (fun u => negb (is_line_terminator u) = true) l ->
  startsWith p l = false -> p <> [] ->
  replace_g (fun u => u) true (re_line p) f l = l.
Proof.
  intros p f l Hl Hs Hp. apply replace_g_unguarded.
  apply (unguarded_weaken _
           (fun prev l' => at_line_start prev && startsWith p l')).
  - apply can_start_re_line.
  - apply (line_free_one_line p l None Hl); [|exact Hp].
    rewrite Hs. reflexivity.
Qed.

Lemma unguarded_cons : forall g prev c l,
  unguarded g prev (c :: l) = negb (g prev (c :: l)) && unguarded g (Some c) l.
Proof. reflexivity. Qed.

Lemma unguarded_absent_app : forall c p a b prev prev',
  Forall (fun u => u <> c) a ->
  unguarded (fun _ rest => startsWith (c :: p) rest) prev (a ++ b)
  = unguarded (fun _ rest => startsWith (c :: p) rest) prev' b.
Proof.
  intros c p. induction a as [|u a IH]; intros b prev prev' H.
  - cbn [app]. destruct b; reflexivity.
  - inversion H as [|u' a' Hu Ha]; subst. cbn [app unguarded startsWith].
    apply N.eqb_neq in Hu. rewrite N.eqb_sym in Hu. rewrite Hu.
    cbn [andb negb]. apply IH. exact Ha.
Qed.

(** A tag: [<], then a unit that is not [l], then no further [<]. *)
Lemma unguarded_tag : forall u o rest prev,
  u <> 108%N -> Forall (fun v => v <> 60%N) (u :: o) ->
  unguarded (fun _ r => startsWith (str "<li>") r) prev
    ((60%N :: u :: o) ++ rest)
  = unguarded (fun _ r => startsWith (str "<li>") r) None rest.
Proof.
  intros u o rest prev Hu Ho.
  change ((60%N :: u :: o) ++ rest) with (60%N :: ((u :: o) ++ rest)).
  cbn [unguarded]. change (str "<li>") with (60%N :: 108%N :: str "i>").
  cbn [startsWith app]. apply N.eqb_neq in Hu. rewrite N.eqb_sym in Hu.
  rewrite Hu. rewrite andb_false_r. cbn [negb andb].
  apply (unguarded_absent_app 60 (108%N :: str "i>") (u :: o) rest
           (Some 60%N) None Ho).
Qed.

(** A text made of an opening tag, a body without [<] and a closing tag
    holds no [<li>]. *)
Lemma unguarded_tagged : forall u o body u' o',
  u <> 108%N -> Forall (fun v => v <> 60%N) (u :: o) ->
  Forall (fun v => v <> 60%N) body ->
  u' <> 108%N -> Forall (fun v => v <> 60%N) (u' :: o') ->
  unguarded (fun _ r => startsWith (str "<li>") r) None
    ((60%N :: u :: o) ++ body ++ (60%N :: u' :: o'))
  = true.
Proof.
  intros u o body u' o' Hu Ho Hb Hu' Ho'.
  rewrite (unguarded_tag u o _ None Hu Ho).
  change (str "<li>") with (60%N :: 108%N :: str "i>").
  rewrite (unguarded_absent_app 60 (108%N :: str "i>") body _ None None Hb).
  change (60%N :: 108%N :: str "i>") with (str "<li>").
  rewrite <- (app_nil_r (60%N :: u' :: o')).
  rewrite (unguarded_tag u' o' [] None Hu' Ho'). reflexivity.
Qed.

Lemma pass_li : forall ml r (f : replacer (A:=N)) l,
  (forall prev l', can_start ml r prev l' = true ->
                   startsWith (str "<li>") l' = true) ->
  unguarded (fun _ rest => startsWith (str "<li>") rest) None l = true ->
  replace_g (fun u => u) ml r f l = l.
Proof.
  intros ml r f l Hr Hl. apply replace_g_unguarded.
  apply (unguarded_weaken _ _ Hr). exact Hl.
Qed.

Lemma can_start_li_line : forall prev l,
  can_start true re_li_line prev l = true -> startsWith (str "<li>") l = true.
Proof.
  intros prev l H. unfold re_li_line in H. cbn [can_start] in H.
  apply can_start_lit_seq in H. exact H.
Qed.

Lemma can_start_li_run : forall prev l,
  can_start false re_li_run prev l = true -> startsWith (str "<li>") l = true.
Proof.
  intros prev l H. unfold re_li_run in H. cbn [can_start] in H.
  apply can_start_lit_seq in H. exact H.
Qed.

(** The line-break pass on a text without line feed. *)
Lemma pass_line_feed : forall l,
  Forall (fun u => u <> LF) l ->
  replace_g (fun u => u) false (chr LF)
    (expand (fun u => u) [TLit (str "<br>")]) l = l.
Proof.
  intros l H.
  change (replace_g (fun u : N => u) false (chr LF)
            (expand (fun u : N => u) [TLit (str "<br>")]) l)
    with (replace_char (fun u : N => u) (fun u : N => u) LF (str "<br>") l).
  rewrite replace_char_flat_map.
  induction H as [|u l Hu Hl IH]; [reflexivity|].
  cbn [flat_map]. apply N.eqb_neq in Hu. rewrite N.eqb_sym in Hu.
  rewrite Hu, IH. reflexivity.
Qed.

(** ** The escaped form of a plain line *)

Lemma escape_one_line : forall x,
  one_line_plain x = true ->
  Forall (fun u => negb (is_line_terminator u) = true
                   /\ u <> 96%N /\ u <> 42%N /\ u <> 60%N /\ u <> LF)
    (escapeHtml x).
Proof.
  intros x H. rewrite escapeHtml_flat_map.
  apply Forall_flat_map, Forall_forall. intros d Hd.
  unfold one_line_plain in H. rewrite forallb_forall in H.
  specialize (H d Hd). apply negb_true_iff in H.
  apply orb_false_iff in H. destruct H as [H H42].
  apply orb_false_iff in H. destruct H as [Hlt H96].
  apply N.eqb_neq in H96, H42.
  assert (d <> LF) as Hlf.
  { intros ->. discriminate. }
  unfold escape_unit.
  destruct (N.eqb_spec 38 d); [repeat constructor; discriminate|].
  destruct (N.eqb_spec 60 d); [repeat constructor; discriminate|].
  destruct (N.eqb_spec 62 d); [repeat constructor; discriminate|].
  destruct (N.eqb_spec 34 d); [repeat constructor; discriminate|].
  destruct (N.eqb_spec 39 d); [repeat constructor; discriminate|].
  repeat constructor; try congruence. rewrite Hlt. reflexivity.
Qed.

Lemma formatMessage_nonempty : forall s,
  s <> [] -> formatMessage (Some s) = markdown (escapeHtml s).
Proof. intros [|c s] H; [contradiction|reflexivity]. Qed.

(** What the passes do with a text that already is a tagged body: none of
    them changes it. *)
Lemma tagged_is_final : forall t u o body u' o',
  t = (60%N :: u :: o) ++ body ++ (60%N :: u' :: o') ->
  u <> 108%N -> u' <> 108%N ->
  Forall (fun v => negb (is_line_terminator v) = true
                   /\ v <> 96%N /\ v <> 42%N /\ v <> 60%N /\ v <> LF)
    ((u :: o) ++ body ++ (u' :: o')) ->
  (forall f, replace_g (fun v => v) false re_code_block f t = t)
  /\ (forall f, replace_g (fun v => v) false re_inline_code f t = t)
  /\ (forall f, replace_g (fun v => v) false re_bold f t = t)
  /\ (forall f, replace_g (fun v => v) false re_italic f t = t)
  /\ (forall p f, In p line_marks ->
        replace_g (fun v => v) true (re_line p) f t = t)
  /\ (forall f, replace_g (fun v => v) true re_li_line f t = t)
  /\ (forall f, replace_g (fun v => v) false re_li_run f t = t)
  /\ replace_g (fun v => v) false (chr LF)
       (expand (fun v => v) [TLit (str "<br>")]) t = t.
Proof.
  intros t u o body u' o' Ht Hu Hu' Hall.
  apply Forall_app in Hall. destruct Hall as [Ho Hall].
  apply Forall_app in Hall. destruct Hall as [Hb Ho'].
  assert (forall (Q : N -> Prop),
            Q 60%N ->
            (forall v, negb (is_line_terminator v) = true
                       /\ v <> 96%N /\ v <> 42%N /\ v <> 60%N /\ v <> LF ->
                       Q v) ->
            Forall Q t) as Hq.
  { intros Q Q60 HQ. rewrite Ht.
    change ((60%N :: u :: o) ++ body ++ 60%N :: u' :: o')
      with (60%N :: ((u :: o) ++ body ++ 60%N :: u' :: o')).
    constructor; [exact Q60|].
    apply Forall_app. split; [eapply Forall_impl; [exact HQ|exact Ho]|].
    apply Forall_app. split; [eapply Forall_impl; [exact HQ|exact Hb]|].
    constructor; [exact Q60|]. eapply Forall_impl; [exact HQ|exact Ho']. }
  assert (unguarded (fun _ rest => startsWith (str "<li>") rest) None t
          = true) as Hli.
  { rewrite Ht. apply unguarded_tagged; try assumption.
    - eapply Forall_impl; [|exact Ho]. intros v (_ & _ & _ & H & _). exact H.
    - eapply Forall_impl; [|exact Hb]. intros v (_ & _ & _ & H & _). exact H.
    - eapply Forall_impl; [|exact Ho']. intros v (_ & _ & _ & H & _). exact H. }
  assert (Forall (fun v => v <> 96%N) t) as H96
    by (apply Hq; [discriminate|]; intros v (_ & H & _); exact H).
  assert (Forall (fun v => v <> 42%N) t) as H42
    by (apply Hq; [discriminate|]; intros v (_ & _ & H & _); exact H).
  split; [intros f; apply pass_code_block, H96|].
  split; [intros f; apply pass_inline_code, H96|].
  split; [intros f; apply pass_bold, H42|].
  split; [intros f; apply pass_italic, H42|].
  split; [|split; [|split]].
  - intros p f Hp. apply pass_line.
    + apply Hq; [reflexivity|]. intros v (H & _). exact H.
    + rewrite Ht. unfold line_marks in Hp.
      destruct Hp as [<-|[<-|[<-|[<-|[]]]]]; reflexivity.
    + unfold line_marks in Hp.
      destruct Hp as [<-|[<-|[<-|[<-|[]]]]]; discriminate.
  - intros f. apply (pass_li true re_li_line f t can_start_li_line Hli).
  - intros f. apply (pass_li false re_li_run f t can_start_li_run Hli).
  - apply pass_line_feed. apply Hq; [discriminate|].
    intros v (_ & _ & _ & _ & H). exact H.
Qed.

Lemma escapeHtml_app : forall s t,
  escapeHtml (s ++ t) = escapeHtml s ++ escapeHtml t.
Proof.
  intros s t. rewrite !escapeHtml_flat_map. apply flat_map_app.
Qed.

Lemma escapeHtml_nonempty : forall x, x <> [] -> escapeHtml x <> [].
Proof.
  intros [|d x] H; [contradiction|]. rewrite escapeHtml_flat_map.
  cbn [flat_map]. intros E. apply app_eq_nil in E. destruct E as [E _].
  destruct (escape_unit_cases d) as [[_ Hd]|[_ (w & Hd & _)]];
    rewrite Hd in E; discriminate.
Qed.

Lemma escapeHtml_of_marks :
  escapeHtml (str "**") = str "**" /\ escapeHtml (str "*") = str "*"
  /\ escapeHtml (str "`") = str "`" /\ escapeHtml (str "# ") = str "# "
  /\ escapeHtml (str "## ") = str "## "
  /\ escapeHtml (str "### ") = str "### ".
Proof. repeat split. Qed.

(** X21. Emphasis.  A message that is [**], one line of text without
    backtick or asterisk, and [**] is rendered as that text, escaped, inside
    [<strong>] and [</strong>]; with single asterisks around a non-empty
    such text it is rendered inside [<em>] and [</em>].  No other pass
    touches the result. *)
Theorem emphasis_is_rendered : forall x,
  one_line_plain x = true ->
  formatMessage (Some (str "**" ++ x ++ str "**"))
  = str "<strong>" ++ escapeHtml x ++ str "</strong>"
  /\ (x <> [] ->
      formatMessage (Some (str "*" ++ x ++ str "*"))
      = str "<em>" ++ escapeHtml x ++ str "</em>").
Proof.
  intros x Hx. pose proof (escape_one_line x Hx) as Hb.
  assert (Forall (fun u => u <> 96%N) (escapeHtml x)) as Hb96
    by (eapply Forall_impl; [|exact Hb]; intros v (_ & H & _); exact H).
  assert (Forall (fun u => u <> 42%N) (escapeHtml x)) as Hb42
    by (eapply Forall_impl; [|exact Hb]; intros v (_ & _ & H & _); exact H).
  assert (Forall (fun u => negb (is_line_terminator u) = true
                           /\ (42 =? u)%N = false) (escapeHtml x)) as Hbody.
  { eapply Forall_impl; [|exact Hb]. intros v (H1 & _ & H2 & _).
    split; [exact H1|]. apply N.eqb_neq. congruence. }
  split.
  - rewrite formatMessage_nonempty by discriminate.
    rewrite !escapeHtml_app.
    rewrite ?(proj1 escapeHtml_of_marks), ?(proj1 (proj2 escapeHtml_of_marks)), ?(proj1 (proj2 (proj2 escapeHtml_of_marks))), ?(proj1 (proj2 (proj2 (proj2 escapeHtml_of_marks)))), ?(proj1 (proj2 (proj2 (proj2 (proj2 escapeHtml_of_marks))))), ?(proj2 (proj2 (proj2 (proj2 (proj2 escapeHtml_of_marks))))).
    set (b := escapeHtml x) in *.
    unfold markdown, markdown_on. cbv zeta.
    assert (Forall (fun u => u <> 96%N) (str "**" ++ b ++ str "**")) as He.
    { apply Forall_app. split; [repeat constructor; discriminate|].
      apply Forall_app. split; [exact Hb96|repeat constructor; discriminate]. }
    rewrite (pass_code_block _ _ He), (pass_inline_code _ _ He).
    rewrite (replace_bold b Hbody).
    destruct (tagged_is_final (str "<strong>" ++ b ++ str "</strong>") 115
                (str "trong>") b 47 (str "strong>") eq_refl
                ltac:(discriminate) ltac:(discriminate)
                ltac:(tagged_units Hb))
      as (_ & _ & _ & Hit & Hline & Hl1 & Hl2 & Hlf).
    rewrite Hit.
    final_passes Hline Hl1 Hl2 Hlf. reflexivity.
  - intros Hne. rewrite formatMessage_nonempty by discriminate.
    rewrite !escapeHtml_app.
    rewrite ?(proj1 escapeHtml_of_marks), ?(proj1 (proj2 escapeHtml_of_marks)), ?(proj1 (proj2 (proj2 escapeHtml_of_marks))), ?(proj1 (proj2 (proj2 (proj2 escapeHtml_of_marks)))), ?(proj1 (proj2 (proj2 (proj2 (proj2 escapeHtml_of_marks))))), ?(proj2 (proj2 (proj2 (proj2 (proj2 escapeHtml_of_marks))))).
    pose proof (escapeHtml_nonempty x Hne) as Hbne.
    set (b := escapeHtml x) in *.
    unfold markdown, markdown_on. cbv zeta.
    assert (Forall (fun u => u <> 96%N) (str "*" ++ b ++ str "*")) as He.
    { apply Forall_app. split; [repeat constructor; discriminate|].
      apply Forall_app. split; [exact Hb96|repeat constructor; discriminate]. }
    rewrite (pass_code_block _ _ He), (pass_inline_code _ _ He).
    rewrite (replace_g_unguarded false re_bold _ (str "*" ++ b ++ str "*")).
    2:{ apply (unguarded_weaken _
                 (fun _ rest => startsWith (42%N :: [42%N]) rest)).
        - intros prev l Hs. unfold re_bold in Hs.
          apply can_start_lit_seq in Hs. exact Hs.
        - destruct b as [|u b']; [contradiction|].
          inversion Hb42 as [|u0 b0 Hu Hb']; subst.
          change (str "*" ++ (u :: b') ++ str "*")
            with (42%N :: ((u :: b') ++ str "*")).
          rewrite unguarded_cons.
          rewrite (unguarded_absent_app 42 [42%N] (u :: b') (str "*")
                     (Some 42%N) None Hb42).
          cbn [app startsWith].
          apply N.eqb_neq in Hu. rewrite N.eqb_sym in Hu. rewrite Hu.
          reflexivity. }
    rewrite (replace_italic b Hbody).
    destruct (tagged_is_final (str "<em>" ++ b ++ str "</em>") 101
                (str "m>") b 47 (str "em>") eq_refl
                ltac:(discriminate) ltac:(discriminate)
                ltac:(tagged_units Hb))
      as (_ & _ & _ & _ & Hline & Hl1 & Hl2 & Hlf).
    final_passes Hline Hl1 Hl2 Hlf. reflexivity.
Qed.

(** X22. Headings.  A message that is [# ], [## ] or [### ] followed by one
    line of text without backtick or asterisk is rendered as that text,
    escaped, inside [<h1>], [<h2>] or [<h3>]: the pass for the longer prefix
    runs first and does not take a shorter one, and the passes that follow
    leave the heading alone. *)
Theorem heading_is_rendered : forall x,
  one_line_plain x = true ->
  formatMessage (Some (str "# " ++ x)) = str "<h1>" ++ escapeHtml x ++ str "</h1>"
  /\ formatMessage (Some (str "## " ++ x))
     = str "<h2>" ++ escapeHtml x ++ str "</h2>"
  /\ formatMessage (Some (str "### " ++ x))
     = str "<h3>" ++ escapeHtml x ++ str "</h3>".
Proof.
  intros x Hx. pose proof (escape_one_line x Hx) as Hb.
  assert (Forall (fun u => negb (is_line_terminator u) = true) (escapeHtml x))
    as Hdot by (eapply Forall_impl; [|exact Hb]; intros v (H & _); exact H).
  assert (forall p,
            Forall (fun u => negb (is_line_terminator u) = true
                             /\ u <> 96%N /\ u <> 42%N) p ->
            Forall (fun u => negb (is_line_terminator u) = true)
              (p ++ escapeHtml x)
            /\ Forall (fun u => u <> 96%N) (p ++ escapeHtml x)
            /\ Forall (fun u => u <> 42%N) (p ++ escapeHtml x)) as Hsrc.
  { intros p Hp. repeat split; apply Forall_app; split;
      try (eapply Forall_impl; [|exact Hp]; cbv beta; tauto);
      (eapply Forall_impl; [|exact Hb]; cbv beta; tauto). }
  split; [|split].
  - rewrite formatMessage_nonempty by discriminate.
    rewrite escapeHtml_app. rewrite ?(proj1 escapeHtml_of_marks), ?(proj1 (proj2 escapeHtml_of_marks)), ?(proj1 (proj2 (proj2 escapeHtml_of_marks))), ?(proj1 (proj2 (proj2 (proj2 escapeHtml_of_marks)))), ?(proj1 (proj2 (proj2 (proj2 (proj2 escapeHtml_of_marks))))), ?(proj2 (proj2 (proj2 (proj2 (proj2 escapeHtml_of_marks))))).
    destruct (Hsrc (str "# ") ltac:(tag_units)) as (Hlt & H96 & H42).
    set (b := escapeHtml x) in *.
    unfold markdown, markdown_on. cbv zeta.
    rewrite (pass_code_block _ _ H96), (pass_inline_code _ _ H96).
    rewrite (pass_bold _ _ H42), (pass_italic _ _ H42).
    rewrite (pass_line (str "### ") _ _ Hlt eq_refl ltac:(discriminate)).
    rewrite (pass_line (str "## ") _ _ Hlt eq_refl ltac:(discriminate)).
    rewrite (replace_line (str "# ") b (str "<h1>") (str "</h1>")
               ltac:(discriminate) Hdot).
    destruct (tagged_is_final (str "<h1>" ++ b ++ str "</h1>") 104
                (str "1>") b 47 (str "h1>") eq_refl
                ltac:(discriminate) ltac:(discriminate)
                ltac:(tagged_units Hb))
      as (_ & _ & _ & _ & Hline & Hl1 & Hl2 & Hlf).
    final_passes Hline Hl1 Hl2 Hlf. reflexivity.
  - rewrite formatMessage_nonempty by discriminate.
    rewrite escapeHtml_app. rewrite ?(proj1 escapeHtml_of_marks), ?(proj1 (proj2 escapeHtml_of_marks)), ?(proj1 (proj2 (proj2 escapeHtml_of_marks))), ?(proj1 (proj2 (proj2 (proj2 escapeHtml_of_marks)))), ?(proj1 (proj2 (proj2 (proj2 (proj2 escapeHtml_of_marks))))), ?(proj2 (proj2 (proj2 (proj2 (proj2 escapeHtml_of_marks))))).
    destruct (Hsrc (str "## ") ltac:(tag_units)) as (Hlt & H96 & H42).
    set (b := escapeHtml x) in *.
    unfold markdown, markdown_on. cbv zeta.
    rewrite (pass_code_block _ _ H96), (pass_inline_code _ _ H96).
    rewrite (pass_bold _ _ H42), (pass_italic _ _ H42).
    rewrite (pass_line (str "### ") _ _ Hlt eq_refl ltac:(discriminate)).
    rewrite (replace_line (str "## ") b (str "<h2>") (str "</h2>")
               ltac:(discriminate) Hdot).
    destruct (tagged_is_final (str "<h2>" ++ b ++ str "</h2>") 104
                (str "2>") b 47 (str "h2>") eq_refl
                ltac:(discriminate) ltac:(discriminate)
                ltac:(tagged_units Hb))
      as (_ & _ & _ & _ & Hline & Hl1 & Hl2 & Hlf).
    final_passes Hline Hl1 Hl2 Hlf. reflexivity.
  - rewrite formatMessage_nonempty by discriminate.
    rewrite escapeHtml_app. rewrite ?(proj1 escapeHtml_of_marks), ?(proj1 (proj2 escapeHtml_of_marks)), ?(proj1 (proj2 (proj2 escapeHtml_of_marks))), ?(proj1 (proj2 (proj2 (proj2 escapeHtml_of_marks)))), ?(proj1 (proj2 (proj2 (proj2 (proj2 escapeHtml_of_marks))))), ?(proj2 (proj2 (proj2 (proj2 (proj2 escapeHtml_of_marks))))).
    destruct (Hsrc (str "### ") ltac:(tag_units)) as (Hlt & H96 & H42).
    set (b := escapeHtml x) in *.
    unfold markdown, markdown_on. cbv zeta.
    rewrite (pass_code_block _ _ H96), (pass_inline_code _ _ H96).
    rewrite (pass_bold _ _ H42), (pass_italic _ _ H42).
    rewrite (replace_line (str "### ") b (str "<h3>") (str "</h3>")
               ltac:(discriminate) Hdot).
    destruct (tagged_is_final (str "<h3>" ++ b ++ str "</h3>") 104
                (str "3>") b 47 (str "h3>") eq_refl
                ltac:(discriminate) ltac:(discriminate)
                ltac:(tagged_units Hb))
      as (_ & _ & _ & _ & Hline & Hl1 & Hl2 & Hlf).
    final_passes Hline Hl1 Hl2 Hlf. reflexivity.
Qed.

(** ** Inline code *)

Lemma match_here_inline_code : forall u body,
  Forall (fun v => negb ((v =? 96)%N || (v =? LF)%N) = true) (u :: body) ->
  match_here false re_inline_code None (str "`" ++ (u :: body) ++ str "`")
  = Some (length (str "`" ++ (u :: body) ++ str "`"),
          [(1, (1, 1 + length (u :: body)))]).
Proof.
  intros u body Hall. inversion Hall as [|u0 b0 Hu Hbody]; subst.
  unfold match_here, re_inline_code.
  set (x0 := {| m_prev := None; m_rest := str "`" ++ (u :: body) ++ str "`";
                m_pos := 0; m_caps := [] |}).
  cbn [rmatch]. unfold chr at 1.
  rewrite (rmatch_chr_ok false _ _ x0 96 ((u :: body) ++ str "`") eq_refl
             (N.eqb_refl 96)).
  set (x1 := step_over 96 x0).
  unfold plus.
  rewrite (rmatch_plus_chr false _ _ x1 u (body ++ str "`") eq_refl Hu).
  set (x2 := step_over u x1).
  set (w := advance body x2).
  assert (m_rest x2 = body ++ str "`") as Hr2 by reflexivity.
  rewrite (rmatch_greedy_star false _
             (fun y => rmatch false (chr 96) Some
                         (set_cap 1 (m_pos x1) (m_pos y) y))
             body x2 (str "`")
             (step_over 96 (set_cap 1 (m_pos x1) (m_pos w) w))).
  - cbn [step_over set_cap m_pos m_caps]. unfold w.
    rewrite advance_pos, advance_caps. cbn [x2 x1 x0 step_over m_pos m_caps].
    cbn [filter]. rewrite !length_app. cbn [length str list_ascii_of_string map].
    replace (1 + (S (length body) + 1)) with (S (2 + length body)) by lia.
    reflexivity.
  - exact Hbody.
  - exact Hr2.
  - reflexivity.
  - unfold chr.
    apply (rmatch_chr_ok false _ Some _ 96 []); [|apply N.eqb_refl].
    cbn [set_cap m_rest]. apply (advance_rest body x2 (str "`") Hr2).
Qed.

Lemma replace_inline_code : forall u body tag_open tag_close,
  Forall (fun v => negb ((v =? 96)%N || (v =? LF)%N) = true) (u :: body) ->
  replace_g (fun v => v) false re_inline_code
    (wrap (fun v => v) tag_open tag_close)
    (str "`" ++ (u :: body) ++ str "`")
  = tag_open ++ (u :: body) ++ tag_close.
Proof.
  intros u body tag_open tag_close Hall.
  assert (str "`" ++ (u :: body) ++ str "`" <> []) as Hne by discriminate.
  rewrite (replace_g_whole false _ _ _ _ Hne
             (match_here_inline_code u body Hall)).
  - unfold wrap, expand. cbn [flat_map]. rewrite capture_one.
    change 1 with (length (str "`")) at 1 2 3.
    rewrite middle_of. rewrite !map_id, app_nil_r. reflexivity.
  - intros prev'. reflexivity.
Qed.

(** X23. Inline code.  A message that is a backtick, a non-empty line of
    text without backtick or asterisk, and a backtick is rendered as that
    text, escaped, inside [<code class="inline-code">] and [</code>]. *)
Theorem inline_code_is_rendered : forall x,
  x <> [] -> one_line_plain x = true ->
  formatMessage (Some (str "`" ++ x ++ str "`"))
  = (str "<code class=" ++ [DQUOTE] ++ str "inline-code" ++ [DQUOTE]
       ++ str ">") ++ escapeHtml x ++ str "</code>".
Proof.
  intros x Hne Hx. pose proof (escape_one_line x Hx) as Hb.
  pose proof (escapeHtml_nonempty x Hne) as Hbne.
  rewrite formatMessage_nonempty by discriminate.
  rewrite !escapeHtml_app. rewrite ?(proj1 escapeHtml_of_marks), ?(proj1 (proj2 escapeHtml_of_marks)), ?(proj1 (proj2 (proj2 escapeHtml_of_marks))), ?(proj1 (proj2 (proj2 (proj2 escapeHtml_of_marks)))), ?(proj1 (proj2 (proj2 (proj2 (proj2 escapeHtml_of_marks))))), ?(proj2 (proj2 (proj2 (proj2 (proj2 escapeHtml_of_marks))))).
  remember (escapeHtml x) as b eqn:Eb. clear Eb.
  destruct b as [|u b']; [contradiction|].
  assert (Forall (fun v => v <> 96%N) (u :: b')) as Hb96
    by (eapply Forall_impl; [|exact Hb]; intros v (_ & H & _); exact H).
  assert (Forall (fun v => negb ((v =? 96)%N || (v =? LF)%N) = true)
            (u :: b')) as Hcls.
  { eapply Forall_impl; [|exact Hb]. intros v (_ & H96 & _ & _ & Hlf).
    apply negb_true_iff, orb_false_iff. split; apply N.eqb_neq; assumption. }
  unfold markdown, markdown_on. cbv zeta.
  rewrite (replace_g_unguarded false re_code_block _
             (str "`" ++ (u :: b') ++ str "`")).
  2:{ apply (unguarded_weaken _
               (fun _ rest => startsWith (96%N :: [96%N; 96%N]) rest)).
      - intros prev l Hs. unfold re_code_block in Hs.
        apply can_start_lit_seq in Hs. exact Hs.
      - change (str "`" ++ (u :: b') ++ str "`")
          with (96%N :: ((u :: b') ++ str "`")).
        rewrite unguarded_cons.
        rewrite (unguarded_absent_app 96 [96%N; 96%N] (u :: b') (str "`")
                   (Some 96%N) None Hb96).
        cbn [app startsWith].
        inversion Hb96 as [|u0 b0 Hu _]; subst.
        apply N.eqb_neq in Hu. rewrite N.eqb_sym in Hu. rewrite Hu.
        reflexivity. }
  rewrite (replace_inline_code u b' _ _ Hcls).
  destruct (tagged_is_final
              ((str "<code class=" ++ [DQUOTE] ++ str "inline-code"
                  ++ [DQUOTE] ++ str ">") ++ (u :: b') ++ str "</code>")
              99 (str "ode class=" ++ [DQUOTE] ++ str "inline-code"
                    ++ [DQUOTE] ++ str ">") (u :: b') 47 (str "code>")
              eq_refl ltac:(discriminate) ltac:(discriminate)
              ltac:(tagged_units Hb))
    as (_ & _ & Hbold & Hit & Hline & Hl1 & Hl2 & Hlf).
  rewrite Hbold, Hit. final_passes Hline Hl1 Hl2 Hlf. reflexivity.
Qed.

Lemma emphasis_is_rendered_witness :
  one_line_plain (str "a < b") = true
  /\ formatMessage (Some (str "**a < b**")) = str "<strong>a &lt; b</strong>"
  /\ formatMessage (Some (str "*a < b*")) = str "<em>a &lt; b</em>".
Proof.
  destruct (emphasis_is_rendered (str "a < b") eq_refl) as [Hbold Hem].
  split; [reflexivity|]. split; [exact Hbold|].
  apply Hem. discriminate.
Defined.

Lemma heading_is_rendered_witness :
  one_line_plain (str "Q&A - part #2") = true
  /\ formatMessage (Some (str "## Q&A - part #2"))
     = str "<h2>Q&amp;A - part #2</h2>".
Proof.
  split; [reflexivity|].
  exact (proj1 (proj2 (heading_is_rendered (str "Q&A - part #2") eq_refl))).
Defined.

Lemma inline_code_is_rendered_witness :
  str "a<b>" <> [] /\ one_line_plain (str "a<b>") = true
  /\ formatMessage (Some (str "`a<b>`"))
     = str "<code class=" ++ [DQUOTE] ++ str "inline-code" ++ [DQUOTE]
         ++ str ">a&lt;b&gt;</code>".
Proof.
  assert (str "a<b>" <> []) as Hne by discriminate.
  split; [exact Hne|]. split; [reflexivity|].
  exact (inline_code_is_rendered (str "a<b>") Hne eq_refl).
Defined.

(** ** Lists *)

(** A literal does not match where the input does not begin with it. *)
Lemma rmatch_lit_absent : forall ml p k x,
  startsWith p (m_rest x) = false -> rmatch ml (lit p) k x = None.
Proof.
  intros ml. induction p as [|c p IH]; intros k x H; [discriminate|].
  destruct p as [|c' p].
  - cbn [lit]. unfold chr. cbn [rmatch].
    destruct (m_rest x) as [|u r]; [reflexivity|].
    cbn [startsWith] in H. rewrite andb_true_r in H. rewrite H. reflexivity.
  - change (lit (c :: c' :: p)) with (Seq (chr c) (lit (c' :: p))).
    unfold chr. cbn [rmatch].
    destruct (m_rest x) as [|u r] eqn:E; [reflexivity|].
    change (startsWith (c :: c' :: p) (u :: r))
      with ((c =? u)%N && startsWith (c' :: p) r) in H.
    destruct (c =? u)%N; [|reflexivity].
    apply IH. exact H.
Qed.

(** A greedy starred class followed by something that matches at none of
    the positions it can reach fails. *)
Lemma rmatch_star_none : forall ml (p : N -> bool) K r tail x,
  m_rest x = r ++ tail ->
  match tail with [] => True | u :: _ => p u = false end ->
  (forall n y, n <= length r -> m_rest y = skipn n r ++ tail -> K y = None) ->
  rmatch ml (Rep 0 None true (Chr p)) K x = None.
Proof.
  intros ml p K. induction r as [|u r IH]; intros tail x Hr Ht HK;
    rewrite rmatch_star_chr; rewrite Hr;
    (assert (K x = None) as Hx
       by (apply (HK 0); [cbn [length]; lia|exact Hr])).
  - cbn [app]. destruct tail as [|u t]; [exact Hx|]. rewrite Ht. exact Hx.
  - cbn [app]. destruct (p u); [|exact Hx].
    rewrite (IH tail (step_over u x)).
    + cbn [orelse]. exact Hx.
    + cbn [step_over m_rest]. rewrite Hr. reflexivity.
    + exact Ht.
    + intros n y Hn Hy. apply (HK (S n)); [cbn [length]; lia|exact Hy].
Qed.

(** A greedy starred class gives units back: over [body] and then [back],
    when what follows matches before [back] and at no later position the
    star can reach, the match is the one that leaves [back] to it. *)
Lemma rmatch_greedy_star_back :
  forall ml (p : N -> bool) K body back tail x z,
    Forall (fun u => p u = true) body ->
    m_rest x = body ++ back ++ tail ->
    match tail with [] => True | u :: _ => p u = false end ->
    (forall n y, 0 < n <= length back ->
                 m_rest y = skipn n back ++ tail -> K y = None) ->
    K (advance body x) = Some z ->
    rmatch ml (Rep 0 None true (Chr p)) K x = Some z.
Proof.
  intros ml p K. induction body as [|u body IH];
    intros back tail x z Hb Hr Ht HK Hz; rewrite rmatch_star_chr.
  - cbn [advance app] in *. rewrite Hr.
    destruct back as [|u r].
    + cbn [app]. destruct tail as [|u t]; [exact Hz|]. rewrite Ht. exact Hz.
    + cbn [app]. destruct (p u); [|exact Hz].
      rewrite (rmatch_star_none ml p K r tail (step_over u x)).
      * cbn [orelse]. exact Hz.
      * cbn [step_over m_rest]. rewrite Hr. reflexivity.
      * exact Ht.
      * intros n y Hn Hy. apply (HK (S n)); [cbn [length]; lia|exact Hy].
  - inversion Hb as [|u' b' Hp Hb']; subst.
    rewrite Hr. cbn [app]. rewrite Hp.
    rewrite (IH back tail (step_over u x) z Hb');
      [reflexivity| |exact Ht|exact HK|exact Hz].
    cbn [step_over m_rest]. rewrite Hr. reflexivity.
Qed.

Lemma line_end_dot : forall tail,
  line_end tail ->
  match tail with
  | [] => True
  | u :: _ => negb (is_line_terminator u) = false
  end.
Proof.
  intros tail [->|(t & ->)]; [exact I|reflexivity].
Qed.

(** [(<li>.*</li>)] at the start of a line that is one item: the greedy
    star runs to the end of the line and gives [</li>] back. *)
Lemma match_here_li_line : forall body tail prev,
  Forall (fun u => negb (is_line_terminator u) = true) body ->
  line_end tail ->
  match_here true re_li_line prev ((str "<li>" ++ body ++ str "</li>") ++ tail)
  = Some (length (str "<li>" ++ body ++ str "</li>"),
          [(1, (0, length (str "<li>" ++ body ++ str "</li>")))]).
Proof.
  intros body tail prev Hdot Ht. unfold match_here, re_li_line.
  set (x0 := {| m_prev := prev;
                m_rest := (str "<li>" ++ body ++ str "</li>") ++ tail;
                m_pos := 0; m_caps := [] |}).
  assert (str "<li>" <> []) as Hopen by discriminate.
  assert (str "</li>" <> []) as Hclose by discriminate.
  assert (m_rest x0 = str "<li>" ++ body ++ str "</li>" ++ tail) as Hr0
    by (cbn [x0 m_rest]; rewrite <- !app_assoc; reflexivity).
  cbn [rmatch].
  rewrite (rmatch_lit_ok true (str "<li>") _ x0 (body ++ str "</li>" ++ tail)
             Hopen Hr0).
  set (x1 := advance (str "<li>") x0).
  assert (m_rest x1 = body ++ str "</li>" ++ tail) as Hr1
    by (apply advance_rest; exact Hr0).
  assert (m_pos x1 = 4) as Hp1
    by (unfold x1; rewrite advance_pos; reflexivity).
  assert (m_caps x1 = []) as Hc1
    by (unfold x1; rewrite advance_caps; reflexivity).
  set (w := advance (str "</li>") (advance body x1)).
  set (z := set_cap 1 (m_pos x0) (m_pos w) w).
  unfold star, dot.
  rewrite (rmatch_greedy_star_back true _
             (fun y => rmatch true (lit (str "</li>"))
                         (fun y' => Some (set_cap 1 (m_pos x0) (m_pos y') y'))
                         y)
             body (str "</li>") tail x1 z).
  - unfold z, w. cbn [set_cap m_pos m_caps].
    rewrite !advance_pos, !advance_caps, Hp1, Hc1. cbn [filter].
    rewrite !length_app. change (m_pos x0) with 0.
    change (length (str "<li>")) with 4. rewrite Nat.add_assoc.
    reflexivity.
  - exact Hdot.
  - exact Hr1.
  - apply line_end_dot. exact Ht.
  - intros n y Hn Hy. apply rmatch_lit_absent. rewrite Hy.
    change (length (str "</li>")) with 5 in Hn.
    destruct n as [|[|[|[|[|[|n]]]]]]; try lia; try reflexivity.
    destruct Ht as [->|(t & ->)]; reflexivity.
  - assert (m_rest (advance body x1) = str "</li>" ++ tail) as Hrw
      by (apply advance_rest; exact Hr1).
    exact (rmatch_lit_ok true (str "</li>") _ (advance body x1) tail
             Hclose Hrw).
Qed.

(** [(open.*?close)] at a state whose input is [open], one line without
    the first unit of [close], and [close]: the group takes these. *)
Lemma rmatch_lazy_group : forall ml open_ c close_ body tail K x z,
  open_ <> [] ->
  Forall (fun u => negb (is_line_terminator u) = true /\ (c =? u)%N = false)
    body ->
  m_rest x = open_ ++ body ++ (c :: close_) ++ tail ->
  K (set_cap 1 (m_pos x)
       (m_pos x + length open_ + length body + length (c :: close_))
       (advance (c :: close_) (advance body (advance open_ x)))) = Some z ->
  rmatch ml
    (Group 1 (Seq (lit open_) (Seq (lazy_star dot) (lit (c :: close_))))) K x
  = Some z.
Proof.
  intros ml open_ c close_ body tail K x z Hopen Hbody Hr Hz.
  cbn [rmatch].
  rewrite (rmatch_lit_ok ml open_ _ x (body ++ (c :: close_) ++ tail)
             Hopen Hr).
  set (x1 := advance open_ x) in *.
  assert (m_rest x1 = body ++ (c :: close_) ++ tail) as Hr1
    by (apply advance_rest; exact Hr).
  unfold lazy_star, dot.
  apply (rmatch_lazy_star ml _ (fun u => (c =? u)%N)
           (fun y => rmatch ml (lit (c :: close_))
                       (fun y' => K (set_cap 1 (m_pos x) (m_pos y') y')) y)
           body x1 ((c :: close_) ++ tail) z).
  - intros y u r Hy Hu.
    apply (rmatch_lit_no ml c close_ _ _ u r); [exact Hy|exact Hu].
  - exact Hbody.
  - exact Hr1.
  - assert (m_rest (advance body x1) = (c :: close_) ++ tail) as Hrw
      by (apply advance_rest; exact Hr1).
    rewrite (rmatch_lit_ok ml (c :: close_) _ (advance body x1) tail
               ltac:(discriminate) Hrw).
    unfold x1 in *. rewrite !advance_pos. exact Hz.
Qed.

(** *** Lines *)

Lemma joined_cons : forall sep l (ls : list jsstring),
  joined sep (l :: ls) = l ++ flat_map (fun l' => sep ++ l') ls.
Proof.
  intros sep l ls. revert l. induction ls as [|l' ls IH]; intros l.
  - cbn [joined flat_map]. rewrite app_nil_r. reflexivity.
  - change (joined sep (l :: l' :: ls)) with (l ++ sep ++ joined sep (l' :: ls)).
    rewrite IH. cbn [flat_map]. rewrite <- !app_assoc. reflexivity.
Qed.

Lemma joined_two : forall sep l l' (ls : list jsstring),
  joined sep (l :: l' :: ls) = l ++ sep ++ joined sep (l' :: ls).
Proof. reflexivity. Qed.

Lemma joined_more : forall sep l (ls : list jsstring),
  ls <> [] -> joined sep (l :: ls) = l ++ sep ++ joined sep ls.
Proof. intros sep l [|l' ls] H; [contradiction|reflexivity]. Qed.

Lemma Forall_joined : forall (P : N -> Prop) sep ls,
  Forall P sep -> Forall (Forall P) ls -> Forall P (joined sep ls).
Proof.
  intros P sep ls Hsep. induction ls as [|l ls IH]; intros H;
    [constructor|].
  inversion H as [|l0 ls0 Hl Hls]; subst.
  destruct ls as [|l' ls]; [exact Hl|].
  rewrite joined_two. apply Forall_app; split; [exact Hl|].
  apply Forall_app; split; [exact Hsep|]. apply IH. exact Hls.
Qed.

Lemma line_free_first : forall c p' prev u rest,
  (c =? u)%N = false ->
  line_free (c :: p') prev (u :: rest) = line_free (c :: p') (Some u) rest.
Proof.
  intros c p' prev u rest H. unfold line_free. rewrite unguarded_cons.
  cbn [startsWith]. rewrite H. cbn [andb]. rewrite andb_false_r.
  reflexivity.
Qed.

Lemma line_free_inside : forall p v u rest,
  is_line_terminator v = false ->
  line_free p (Some v) (u :: rest) = line_free p (Some u) rest.
Proof.
  intros p v u rest H. unfold line_free. rewrite unguarded_cons.
  cbn [at_line_start]. rewrite H. reflexivity.
Qed.

Lemma line_free_end : forall c p' prev, line_free (c :: p') prev [] = true.
Proof.
  intros c p' prev. unfold line_free. cbn [unguarded startsWith].
  rewrite andb_false_r. reflexivity.
Qed.

(** No line begins with a prefix whose first unit no line begins with. *)
Lemma line_free_lines : forall c p' ls prev,
  Forall (fun l => Forall (fun u => negb (is_line_terminator u) = true) l
                   /\ match l with
                      | [] => False
                      | u :: _ => (c =? u)%N = false
                      end) ls ->
  line_free (c :: p') prev (joined [LF] ls) = true.
Proof.
  intros c p'. induction ls as [|l ls IH]; intros prev H.
  - apply line_free_end.
  - inversion H as [|l0 ls0 (Hdot & Hl) Hls]; subst.
    destruct l as [|u l]; [contradiction|].
    inversion Hdot as [|u0 l0 Hu Hdot']; subst.
    apply negb_true_iff in Hu.
    assert (forallb (fun v => negb (is_line_terminator v)) l = true) as Hw
      by (apply forallb_forall; intros v Hv;
          exact (proj1 (Forall_forall _ _) Hdot' v Hv)).
    assert (is_line_terminator (last l u) = false) as Hlast.
    { apply negb_true_iff.
      apply (last_forallb (fun v => negb (is_line_terminator v)) l u);
        [apply negb_true_iff; exact Hu|exact Hw]. }
    destruct ls as [|l' ls].
    + cbn [joined]. rewrite (line_free_first c p' prev u l Hl).
      pose proof (line_free_inner (c :: p') l [] u Hu Hw) as Hin.
      rewrite app_nil_r in Hin. rewrite Hin. apply line_free_end.
    + rewrite joined_two.
      change ((u :: l) ++ [LF] ++ joined [LF] (l' :: ls))
        with (u :: (l ++ LF :: joined [LF] (l' :: ls))).
      rewrite (line_free_first c p' prev u _ Hl).
      rewrite (line_free_inner (c :: p') l
                 (LF :: joined [LF] (l' :: ls)) u Hu Hw).
      rewrite (line_free_inside (c :: p') (last l u) LF _ Hlast).
      exact (IH (Some LF) Hls).
Qed.

(** A pass for another line prefix leaves the lines alone. *)
Lemma pass_other_lines : forall c p' (f : replacer (A:=N)) ls,
  Forall (fun l => Forall (fun u => negb (is_line_terminator u) = true) l
                   /\ match l with
                      | [] => False
                      | u :: _ => (c =? u)%N = false
                      end) ls ->
  replace_g (fun u => u) true (re_line (c :: p')) f (joined [LF] ls)
  = joined [LF] ls.
Proof.
  intros c p' f ls H. apply replace_g_unguarded.
  apply (unguarded_weaken (can_start true (re_line (c :: p')))
           (fun prev l => at_line_start prev && startsWith (c :: p') l)).
  - intros prev l E. apply can_start_re_line. exact E.
  - exact (line_free_lines c p' ls None H).
Qed.

(** *** A pass over a match and what follows it *)

Lemma scan_skip : forall ml r (f : replacer (A:=N)) m prev rest,
  scan (fun u => u) ml r f prev (length m) (m ++ rest)
  = scan (fun u => u) ml r f (fold_left (fun _ u => Some u) m prev) 0 rest.
Proof.
  intros ml r f. induction m as [|x m IH]; intros prev rest; [reflexivity|].
  cbn [length app scan fold_left]. apply IH.
Qed.

Lemma scan_match : forall ml r (f : replacer (A:=N)) prev m rest cs,
  m <> [] ->
  match_here ml r prev (m ++ rest) = Some (length m, cs) ->
  exists prev',
    scan (fun u => u) ml r f prev 0 (m ++ rest)
    = f m (capture (m ++ rest) cs) ++ scan (fun u => u) ml r f prev' 0 rest.
Proof.
  intros ml r f prev m rest cs Hne Hm.
  destruct m as [|x m]; [contradiction|].
  exists (fold_left (fun _ u => Some u) m (Some x)).
  change ((x :: m) ++ rest) with (x :: (m ++ rest)) in *.
  cbn [scan]. rewrite map_id, Hm. cbn [length].
  rewrite scan_skip.
  change (firstn (S (length m)) (x :: m ++ rest))
    with (x :: firstn (length m) (m ++ rest)).
  rewrite firstn_app, Nat.sub_diag, firstn_all. cbn [firstn].
  rewrite app_nil_r. reflexivity.
Qed.

(** [^prefix(.*$)] with the [m] flag at the start of a line that begins
    with [prefix]. *)
Lemma match_here_line_at : forall prefix body tail prev,
  prefix <> [] ->
  Forall (fun u => negb (is_line_terminator u) = true) body ->
  line_end tail ->
  at_line_start prev = true ->
  match_here true (re_line prefix) prev ((prefix ++ body) ++ tail)
  = Some (length (prefix ++ body),
          [(1, (length prefix, length prefix + length body))]).
Proof.
  intros prefix body tail prev Hp Hbody Ht Hprev. unfold match_here, re_line.
  set (x0 := {| m_prev := prev; m_rest := (prefix ++ body) ++ tail;
                m_pos := 0; m_caps := [] |}).
  assert (m_rest x0 = prefix ++ body ++ tail) as Hr0
    by (cbn [x0 m_rest]; rewrite <- app_assoc; reflexivity).
  assert (rmatch true Bol
            (fun y => rmatch true
                        (Seq (lit prefix) (Group 1 (Seq (star dot) Eol)))
                        Some y) x0
          = rmatch true (Seq (lit prefix) (Group 1 (Seq (star dot) Eol)))
              Some x0) as Hbol.
  { cbn [rmatch m_prev x0]. destruct prev as [c|]; [|reflexivity].
    cbn [at_line_start] in Hprev. rewrite Hprev. reflexivity. }
  change (rmatch true
            (Seq Bol (Seq (lit prefix) (Group 1 (Seq (star dot) Eol))))
            Some x0)
    with (rmatch true Bol
            (fun y => rmatch true
                        (Seq (lit prefix) (Group 1 (Seq (star dot) Eol)))
                        Some y) x0).
  rewrite Hbol. cbn [rmatch].
  rewrite (rmatch_lit_ok true prefix _ x0 (body ++ tail) Hp Hr0).
  set (x1 := advance prefix x0).
  assert (m_rest x1 = body ++ tail) as Hr1
    by (apply advance_rest; exact Hr0).
  assert (m_pos x1 = length prefix) as Hp1
    by (unfold x1; rewrite advance_pos; reflexivity).
  assert (m_caps x1 = []) as Hc1
    by (unfold x1; rewrite advance_caps; reflexivity).
  set (w := advance body x1).
  unfold star, dot.
  rewrite (rmatch_greedy_star true _
             (fun y => rmatch true Eol
                         (fun y0 => Some (set_cap 1 (m_pos x1) (m_pos y0) y0))
                         y)
             body x1 tail (set_cap 1 (m_pos x1) (m_pos w) w)).
  - cbn [set_cap m_pos m_caps]. unfold w. rewrite advance_pos, advance_caps.
    rewrite Hp1, Hc1. cbn [filter]. rewrite length_app. reflexivity.
  - exact Hbody.
  - exact Hr1.
  - apply line_end_dot. exact Ht.
  - unfold w. cbn [rmatch]. rewrite (advance_rest body x1 tail Hr1).
    destruct Ht as [->|(t & ->)]; reflexivity.
Qed.

Lemma re_line_not_at : forall prefix prev rest,
  startsWith prefix rest = false ->
  match_here true (re_line prefix) prev rest = None.
Proof.
  intros prefix prev rest H. apply match_here_none.
  destruct (can_start true (re_line prefix) prev rest) eqn:E; [|reflexivity].
  apply can_start_re_line, andb_true_iff in E. destruct E as [_ E].
  congruence.
Qed.

(** The pass for a line prefix rewrites every line that begins with it. *)
Lemma replace_lines : forall c p' tag_open tag_close bodies prev,
  (c =? LF)%N = false ->
  Forall (Forall (fun u => negb (is_line_terminator u) = true)) bodies ->
  at_line_start prev = true ->
  scan (fun u => u) true (re_line (c :: p'))
    (wrap (fun u => u) tag_open tag_close) prev 0
    (joined [LF] (map (fun b => (c :: p') ++ b) bodies))
  = joined [LF] (map (fun b => tag_open ++ b ++ tag_close) bodies).
Proof.
  intros c p' tag_open tag_close bodies prev Hc.
  revert prev. induction bodies as [|b bs IH]; intros prev Hb Hprev.
  - cbn [map joined scan].
    rewrite (re_line_not_at (c :: p') prev [] eq_refl). reflexivity.
  - inversion Hb as [|b0 bs0 Hdot Hbs]; subst.
    assert (c :: p' <> []) as Hp by discriminate.
    assert ((c :: p') ++ b <> []) as Hne by discriminate.
    assert (forall tail,
              wrap (fun u => u) tag_open tag_close ((c :: p') ++ b)
                (capture (((c :: p') ++ b) ++ tail)
                   [(1, (length (c :: p'), length (c :: p') + length b))])
              = tag_open ++ b ++ tag_close) as Hout.
    { intros tail. unfold wrap, expand. cbn [flat_map].
      rewrite capture_one. rewrite <- app_assoc, middle_of.
      rewrite !map_id, app_nil_r. reflexivity. }
    destruct bs as [|b' bs].
    + cbn [map joined].
      destruct (scan_match true (re_line (c :: p'))
                  (wrap (fun u => u) tag_open tag_close) prev
                  ((c :: p') ++ b) []
                  [(1, (length (c :: p'), length (c :: p') + length b))]
                  Hne
                  (match_here_line_at (c :: p') b [] prev Hp Hdot
                     (or_introl eq_refl) Hprev)) as (prev' & Hs).
      rewrite app_nil_r in Hs at 1. rewrite Hs, Hout.
      cbn [scan]. rewrite (re_line_not_at (c :: p') prev' [] eq_refl).
      rewrite app_nil_r. reflexivity.
    + rewrite (map_cons (fun b0 => (c :: p') ++ b0) b (b' :: bs)).
      rewrite (map_cons (fun b0 => tag_open ++ b0 ++ tag_close) b (b' :: bs)).
      rewrite !joined_more by (cbn [map]; discriminate).
      set (J := joined [LF] (map (fun b0 => (c :: p') ++ b0) (b' :: bs))).
      assert (line_end ([LF] ++ J)) as Ht by (right; exists J; reflexivity).
      destruct (scan_match true (re_line (c :: p'))
                  (wrap (fun u => u) tag_open tag_close) prev
                  ((c :: p') ++ b) ([LF] ++ J)
                  [(1, (length (c :: p'), length (c :: p') + length b))]
                  Hne
                  (match_here_line_at (c :: p') b ([LF] ++ J) prev Hp Hdot
                     Ht Hprev)) as (prev' & Hs).
      rewrite Hs, Hout. rewrite <- !app_assoc. f_equal. f_equal.
      change ([LF] ++ J) with (LF :: J). cbn [scan].
      rewrite (re_line_not_at (c :: p') prev' (map (fun u => u) (LF :: J))).
      2:{ cbn [map startsWith]. rewrite Hc. reflexivity. }
      cbn [app]. unfold J. rewrite (IH (Some LF) Hbs eq_refl).
      reflexivity.
Qed.

(** *** Items *)

(** [open.*?close] at a state whose input is [open], one line without the
    first unit of [close], and [close]. *)
Lemma rmatch_lazy_span : forall ml open_ c close_ body tail K x z,
  open_ <> [] ->
  Forall (fun u => negb (is_line_terminator u) = true /\ (c =? u)%N = false)
    body ->
  m_rest x = open_ ++ body ++ (c :: close_) ++ tail ->
  K (advance (c :: close_) (advance body (advance open_ x))) = Some z ->
  rmatch ml (Seq (lit open_) (Seq (lazy_star dot) (lit (c :: close_)))) K x
  = Some z.
Proof.
  intros ml open_ c close_ body tail K x z Hopen Hbody Hr Hz.
  cbn [rmatch].
  rewrite (rmatch_lit_ok ml open_ _ x (body ++ (c :: close_) ++ tail)
             Hopen Hr).
  set (x1 := advance open_ x) in *.
  assert (m_rest x1 = body ++ (c :: close_) ++ tail) as Hr1
    by (apply advance_rest; exact Hr).
  unfold lazy_star, dot.
  apply (rmatch_lazy_star ml _ (fun u => (c =? u)%N)
           (fun y => rmatch ml (lit (c :: close_)) K y)
           body x1 ((c :: close_) ++ tail) z).
  - intros y u r Hy Hu.
    apply (rmatch_lit_no ml c close_ _ _ u r); [exact Hy|exact Hu].
  - exact Hbody.
  - exact Hr1.
  - assert (m_rest (advance body x1) = (c :: close_) ++ tail) as Hrw
      by (apply advance_rest; exact Hr1).
    rewrite (rmatch_lit_ok ml (c :: close_) _ (advance body x1) tail
               ltac:(discriminate) Hrw).
    exact Hz.
Qed.

(** Optional whitespace and then something that cannot match at the end of
    the input does not match there. *)
Lemma rmatch_ws_then_end : forall ml b K y,
  m_rest y = [] ->
  (forall K', rmatch ml b K' y = None) ->
  rmatch ml (Seq (star (Chr is_ws)) b) K y = None.
Proof.
  intros ml b K y Hy Hb.
  change (rmatch ml (Seq (star (Chr is_ws)) b) K y)
    with (rmatch ml (Rep 0 None true (Chr is_ws))
            (fun y' => rmatch ml b K y') y).
  rewrite rmatch_star_chr, Hy. apply Hb.
Qed.

(** The lookahead of [re_li_item] holds at the end of the input. *)
Lemma rmatch_look_end : forall ml y,
  m_rest y = [] ->
  rmatch ml (Look (Alt (Seq (star (Chr is_ws)) (lit (str "<li>"))) Eol)) Some y
  = Some (with_caps (m_caps y) y).
Proof.
  intros ml y Hy.
  change (rmatch ml
            (Look (Alt (Seq (star (Chr is_ws)) (lit (str "<li>"))) Eol))
            Some y)
    with (match orelse
                  (rmatch ml (Seq (star (Chr is_ws)) (lit (str "<li>")))
                     Some y)
                  (fun _ => rmatch ml Eol Some y) with
          | Some y' => Some (with_caps (m_caps y') y)
          | None => None
          end).
  rewrite (rmatch_ws_then_end ml (lit (str "<li>")) Some y Hy).
  - cbn [orelse rmatch]. rewrite Hy. reflexivity.
  - intros K'. apply rmatch_lit_absent. rewrite Hy. reflexivity.
Qed.

Lemma capture_all : forall (l tail : jsstring) cs,
  capture (l ++ tail) ((1, (0, length l)) :: cs) 1 = Some l.
Proof.
  intros l tail cs. unfold capture. cbn [cap_lookup Nat.eqb].
  rewrite Nat.sub_0_r. cbn [skipn].
  rewrite firstn_app, Nat.sub_diag, firstn_all. cbn [firstn].
  rewrite app_nil_r. reflexivity.
Qed.

Lemma item_nonempty : forall body : jsstring,
  str "<li>" ++ body ++ str "</li>" <> [].
Proof. intros body. discriminate. Qed.

(** [re_li_item] takes a text that is one item, whole. *)
Lemma match_here_li_item : forall body,
  Forall (fun u => negb (is_line_terminator u) = true /\ (60 =? u)%N = false)
    body ->
  match_here false re_li_item None (str "<li>" ++ body ++ str "</li>")
  = Some (length (str "<li>" ++ body ++ str "</li>"),
          [(1, (0, length (str "<li>" ++ body ++ str "</li>")))]).
Proof.
  intros body Hbody. unfold match_here, re_li_item.
  set (t := str "<li>" ++ body ++ str "</li>").
  set (x0 := {| m_prev := None; m_rest := t; m_pos := 0; m_caps := [] |}).
  set (look := Look (Alt (Seq (star (Chr is_ws)) (lit (str "<li>"))) Eol)).
  set (w := advance (str "</li>") (advance body (advance (str "<li>") x0))).
  set (y := set_cap 1 (m_pos x0)
              (m_pos x0 + length (str "<li>") + length body
               + length (str "</li>")) w).
  assert (m_rest x0 = str "<li>" ++ body ++ str "</li>" ++ []) as Hr0
    by (cbn [x0 m_rest]; unfold t; rewrite app_nil_r; reflexivity).
  assert (m_rest y = []) as Hy.
  { unfold y. cbn [set_cap m_rest]. unfold w.
    apply (advance_rest (str "</li>")).
    apply (advance_rest body). apply (advance_rest (str "<li>")).
    exact Hr0. }
  assert (str "<li>" <> []) as Hopen by discriminate.
  change (rmatch false
            (Seq (Group 1 (Seq (lit (str "<li>"))
                             (Seq (lazy_star dot) (lit (str "</li>")))))
               look) Some x0)
    with (rmatch false
            (Group 1 (Seq (lit (str "<li>"))
                        (Seq (lazy_star dot) (lit (60%N :: str "/li>")))))
            (fun y' => rmatch false look Some y') x0).
  rewrite (rmatch_lazy_group false (str "<li>") 60 (str "/li>") body []
             (fun y' => rmatch false look Some y') x0
             (with_caps (m_caps y) y) Hopen Hbody Hr0
             (rmatch_look_end false y Hy)).
  unfold y, w. cbn [with_caps set_cap m_pos m_caps].
  rewrite !advance_pos, !advance_caps. unfold t. rewrite !length_app.
  cbn [x0 m_pos m_caps filter]. rewrite !Nat.add_assoc. reflexivity.
Qed.

Lemma can_start_li_item_end : forall prev',
  can_start false re_li_item (Some prev') [] = false.
Proof. intros prev'. reflexivity. Qed.

Lemma can_start_li_run_end : forall prev',
  can_start false re_li_run (Some prev') [] = false.
Proof. intros prev'. reflexivity. Qed.

(** The callback of the first list pass gives a single item back. *)
Lemma li_line_item : forall whole caps body,
  Forall (fun u => negb (is_line_terminator u) = true /\ (60 =? u)%N = false)
    body ->
  caps 1 = Some (str "<li>" ++ body ++ str "</li>") ->
  li_line (fun u => u) (fun u => u) whole caps
  = str "<li>" ++ body ++ str "</li>".
Proof.
  intros whole caps body Hbody Hcaps. unfold li_line. cbv zeta.
  rewrite Hcaps.
  rewrite (replace_g_whole false re_li_item _ _ _ (item_nonempty body)
             (match_here_li_item body Hbody) can_start_li_item_end).
  unfold expand. cbn [flat_map].
  pose proof (capture_all (str "<li>" ++ body ++ str "</li>") [] []) as Hc.
  rewrite app_nil_r in Hc. rewrite Hc, app_nil_r. reflexivity.
Qed.

Lemma li_line_not_at : forall prev rest,
  startsWith (str "<li>") rest = false ->
  match_here true re_li_line prev rest = None.
Proof.
  intros prev rest H. apply match_here_none.
  destruct (can_start true re_li_line prev rest) eqn:E; [|reflexivity].
  apply can_start_li_line in E. congruence.
Qed.

(** The first list pass leaves lines that are one item each as they are. *)
Lemma pass_li_line_items : forall bodies prev,
  Forall (Forall (fun u => negb (is_line_terminator u) = true
                           /\ (60 =? u)%N = false)) bodies ->
  scan (fun u => u) true re_li_line (li_line (fun u => u) (fun u => u))
    prev 0
    (joined [LF] (map (fun b => str "<li>" ++ b ++ str "</li>") bodies))
  = joined [LF] (map (fun b => str "<li>" ++ b ++ str "</li>") bodies).
Proof.
  induction bodies as [|b bs IH]; intros prev Hb.
  - cbn [map joined scan].
    rewrite (li_line_not_at prev [] eq_refl). reflexivity.
  - inversion Hb as [|b0 bs0 Hitem Hbs]; subst.
    assert (Forall (fun u => negb (is_line_terminator u) = true) b) as Hdot
      by (eapply Forall_impl; [|exact Hitem]; intros v (H & _); exact H).
    set (item := fun b0 : jsstring => str "<li>" ++ b0 ++ str "</li>").
    assert (forall tail cs,
              li_line (fun u => u) (fun u => u) (item b)
                (capture (item b ++ tail) ((1, (0, length (item b))) :: cs))
              = item b) as Hout.
    { intros tail cs. apply li_line_item; [exact Hitem|].
      apply capture_all. }
    destruct bs as [|b' bs].
    + cbn [map joined].
      destruct (scan_match true re_li_line
                  (li_line (fun u => u) (fun u => u)) prev (item b) []
                  [(1, (0, length (item b)))] (item_nonempty b)
                  (match_here_li_line b [] prev Hdot (or_introl eq_refl)))
        as (prev' & Hs).
      rewrite app_nil_r in Hs at 1. rewrite Hs, Hout.
      cbn [scan]. rewrite (li_line_not_at prev' [] eq_refl).
      rewrite app_nil_r. reflexivity.
    + rewrite (map_cons item b (b' :: bs)).
      rewrite !joined_more by (cbn [map]; discriminate).
      set (J := joined [LF] (map item (b' :: bs))).
      assert (line_end ([LF] ++ J)) as Ht by (right; exists J; reflexivity).
      destruct (scan_match true re_li_line
                  (li_line (fun u => u) (fun u => u)) prev (item b)
                  ([LF] ++ J) [(1, (0, length (item b)))] (item_nonempty b)
                  (match_here_li_line b ([LF] ++ J) prev Hdot Ht))
        as (prev' & Hs).
      rewrite Hs, Hout. f_equal.
      change ([LF] ++ J) with (LF :: J). cbn [scan].
      rewrite (li_line_not_at prev' (map (fun u => u) (LF :: J)) eq_refl).
      unfold J, item. rewrite (IH (Some LF) Hbs). reflexivity.
Qed.

Lemma length_flat_map_lines : forall (sep : jsstring) (ls : list jsstring),
  sep <> [] -> length ls <= length (flat_map (fun l => sep ++ l) ls).
Proof.
  intros sep ls Hs. induction ls as [|l ls IH]; [apply Nat.le_refl|].
  cbn [flat_map length]. rewrite !length_app.
  destruct sep as [|c sep]; [contradiction|]. cbn [length]. lia.
Qed.

(** The starred group of [re_li_run] runs over every further item: each
    iteration takes the line feed and one item. *)
Lemma repeat_items : forall ml bodies fuel y,
  Forall (Forall (fun u => negb (is_line_terminator u) = true
                           /\ (60 =? u)%N = false)) bodies ->
  m_rest y
  = flat_map (fun l => [LF] ++ l)
      (map (fun b => str "<li>" ++ b ++ str "</li>") bodies) ->
  length bodies < fuel ->
  exists z,
    repeat_loop
      (rmatch ml
         (Group 2 (Seq (star (Chr is_ws))
                     (Seq (lit (str "<li>"))
                        (Seq (lazy_star dot) (lit (str "</li>")))))))
      (groups
         (Group 2 (Seq (star (Chr is_ws))
                     (Seq (lit (str "<li>"))
                        (Seq (lazy_star dot) (lit (str "</li>")))))))
      true Some fuel 0 None y
    = Some z
    /\ m_pos z = m_pos y + length (m_rest y).
Proof.
  intros ml.
  set (item := Seq (lit (str "<li>"))
                 (Seq (lazy_star dot) (lit (str "</li>")))).
  set (gs := groups (Group 2 (Seq (star (Chr is_ws)) item))).
  induction bodies as [|b bs IH]; intros fuel y Hb Hr Hfuel;
    (destruct fuel as [|fuel]; [cbn [length] in Hfuel; lia|]);
    rewrite repeat_loop_step;
    cbn [Nat.eqb andb negb Nat.pred option_map];
    set (d := fun y' : mstate =>
                if m_pos y' =? m_pos y then None
                else repeat_loop _ _ true Some fuel 0 None y').
  - cbn [map flat_map] in Hr. exists y. split; [|rewrite Hr; cbn; lia].
    change (rmatch ml (Group 2 (Seq (star (Chr is_ws)) item)) d
              (clear_caps gs y))
      with (rmatch ml (Seq (star (Chr is_ws)) item)
              (fun y' =>
                 d (set_cap 2 (m_pos (clear_caps gs y)) (m_pos y') y'))
              (clear_caps gs y)).
    rewrite (rmatch_ws_then_end ml item _ (clear_caps gs y) Hr);
      [reflexivity|].
    intros K'. unfold item.
    change (rmatch ml
              (Seq (lit (str "<li>"))
                 (Seq (lazy_star dot) (lit (str "</li>")))) K'
              (clear_caps gs y))
      with (rmatch ml (lit (str "<li>"))
              (fun y' => rmatch ml (Seq (lazy_star dot) (lit (str "</li>")))
                           K' y')
              (clear_caps gs y)).
    apply rmatch_lit_absent. cbn [clear_caps m_rest]. rewrite Hr.
    reflexivity.
  - inversion Hb as [|b0 bs0 Hitem Hbs]; subst.
    set (rest := flat_map (fun l => [LF] ++ l)
                   (map (fun b0 => str "<li>" ++ b0 ++ str "</li>") bs)).
    assert (m_rest y
            = [LF] ++ str "<li>" ++ b ++ (60%N :: str "/li>") ++ rest)
      as Hr'.
    { rewrite Hr. cbn [map flat_map]. rewrite <- !app_assoc. reflexivity. }
    set (yc := clear_caps gs y).
    set (y1 := advance [LF] yc).
    set (y3 := advance (60%N :: str "/li>")
                 (advance b (advance (str "<li>") y1))).
    set (y3' := set_cap 2 (m_pos yc) (m_pos y3) y3).
    assert (m_rest y1 = str "<li>" ++ b ++ (60%N :: str "/li>") ++ rest)
      as Hr1 by (apply (advance_rest [LF]); exact Hr').
    assert (m_rest y3' = rest) as Hr3.
    { unfold y3', y3. cbn [set_cap m_rest].
      apply (advance_rest (60%N :: str "/li>")).
      apply (advance_rest b). apply (advance_rest (str "<li>")).
      exact Hr1. }
    assert (m_pos y3' = m_pos y + (1 + 4 + length b + 5)) as Hp3.
    { unfold y3', y3, y1, yc. cbn [set_cap m_pos].
      rewrite !advance_pos. cbn [clear_caps m_pos].
      change (length [LF]) with 1. change (length (str "<li>")) with 4.
      change (length (60%N :: str "/li>")) with 5. lia. }
    assert (length bs < fuel) as Hlt by (cbn [length] in Hfuel; lia).
    destruct (IH fuel y3' Hbs Hr3 Hlt) as (z & Hz & Hpz).
    exists z. split.
    + assert (rmatch ml (Group 2 (Seq (star (Chr is_ws)) item)) d yc
              = Some z) as Hm.
      { change (rmatch ml (Group 2 (Seq (star (Chr is_ws)) item)) d yc)
          with (rmatch ml (Rep 0 None true (Chr is_ws))
                  (fun y' =>
                     rmatch ml item
                       (fun y'' => d (set_cap 2 (m_pos yc) (m_pos y'') y''))
                       y') yc).
        apply (rmatch_greedy_star ml is_ws _ [LF] yc
                 (str "<li>" ++ b ++ (60%N :: str "/li>") ++ rest) z).
        - repeat constructor.
        - exact Hr'.
        - reflexivity.
        - cbv beta. fold y1. unfold item.
          assert (str "<li>" <> []) as Hopen by discriminate.
          apply (rmatch_lazy_span ml (str "<li>") 60 (str "/li>") b rest
                   _ y1 z Hopen Hitem Hr1).
          fold y3. fold y3'. unfold d.
          assert ((m_pos y3' =? m_pos y) = false) as Hne
            by (apply Nat.eqb_neq; rewrite Hp3; lia).
          rewrite Hne. exact Hz. }
      fold yc. rewrite Hm. reflexivity.
    + rewrite Hpz, Hp3, Hr3, Hr'. rewrite !length_app.
      change (length [LF]) with 1. change (length (str "<li>")) with 4.
      change (length (60%N :: str "/li>")) with 5. lia.
Qed.

(** [re_li_run] takes lines that are one item each, all of them. *)
Lemma match_here_li_run : forall b bodies,
  Forall (Forall (fun u => negb (is_line_terminator u) = true
                           /\ (60 =? u)%N = false)) (b :: bodies) ->
  exists cs,
    match_here false re_li_run None
      (joined [LF] (map (fun b0 => str "<li>" ++ b0 ++ str "</li>")
                      (b :: bodies)))
    = Some (length (joined [LF]
                      (map (fun b0 => str "<li>" ++ b0 ++ str "</li>")
                         (b :: bodies))), cs).
Proof.
  intros b bs Hb. inversion Hb as [|b0 bs0 Hitem Hbs]; subst.
  rewrite map_cons, joined_cons.
  set (rest := flat_map (fun l => [LF] ++ l)
                 (map (fun b0 => str "<li>" ++ b0 ++ str "</li>") bs)).
  unfold match_here, re_li_run.
  set (x0 := {| m_prev := None;
                m_rest := (str "<li>" ++ b ++ str "</li>") ++ rest;
                m_pos := 0; m_caps := [] |}).
  set (more := star (Group 2 (Seq (star (Chr is_ws))
                                (Seq (lit (str "<li>"))
                                   (Seq (lazy_star dot)
                                      (lit (str "</li>"))))))).
  set (w := advance (60%N :: str "/li>")
              (advance b (advance (str "<li>") x0))).
  set (y := set_cap 1 (m_pos x0)
              (m_pos x0 + length (str "<li>") + length b
               + length (60%N :: str "/li>")) w).
  assert (m_rest x0 = str "<li>" ++ b ++ (60%N :: str "/li>") ++ rest)
    as Hr0 by (cbn [x0 m_rest]; rewrite <- !app_assoc; reflexivity).
  assert (m_rest y = rest) as Hy.
  { unfold y. cbn [set_cap m_rest]. unfold w.
    apply (advance_rest (60%N :: str "/li>")).
    apply (advance_rest b). apply (advance_rest (str "<li>")).
    exact Hr0. }
  assert (length bs < S (0 + length (m_rest y))) as Hlt.
  { rewrite Hy. unfold rest.
    pose proof (length_flat_map_lines [LF]
                  (map (fun b0 => str "<li>" ++ b0 ++ str "</li>") bs)
                  ltac:(discriminate)) as Hle.
    rewrite length_map in Hle. lia. }
  destruct (repeat_items false bs (S (0 + length (m_rest y))) y Hbs Hy Hlt)
    as (z & Hz & Hpz).
  assert (str "<li>" <> []) as Hopen by discriminate.
  change (rmatch false
            (Seq (Group 1 (Seq (lit (str "<li>"))
                             (Seq (lazy_star dot) (lit (str "</li>")))))
               more) Some x0)
    with (rmatch false
            (Group 1 (Seq (lit (str "<li>"))
                        (Seq (lazy_star dot) (lit (60%N :: str "/li>")))))
            (fun y' => rmatch false more Some y') x0).
  rewrite (rmatch_lazy_group false (str "<li>") 60 (str "/li>") b rest
             (fun y' => rmatch false more Some y') x0 z Hopen Hitem Hr0 Hz).
  exists (m_caps z). f_equal. f_equal. rewrite Hpz, Hy.
  unfold y, w. cbn [set_cap m_pos]. rewrite !advance_pos.
  rewrite !length_app. cbn [x0 m_pos].
  change (length (str "</li>")) with (length (60%N :: str "/li>")). lia.
Qed.

(** The last list pass wraps lines that are one item each. *)
Lemma pass_li_run_items : forall b bodies,
  Forall (Forall (fun u => negb (is_line_terminator u) = true
                           /\ (60 =? u)%N = false)) (b :: bodies) ->
  replace_g (fun u => u) false re_li_run
    (expand (fun u => u) [TLit (str "<ul>"); TWhole; TLit (str "</ul>")])
    (joined [LF] (map (fun b0 => str "<li>" ++ b0 ++ str "</li>")
                    (b :: bodies)))
  = str "<ul>"
      ++ joined [LF] (map (fun b0 => str "<li>" ++ b0 ++ str "</li>")
                        (b :: bodies))
      ++ str "</ul>".
Proof.
  intros b bs Hb. destruct (match_here_li_run b bs Hb) as (cs & Hm).
  assert (joined [LF] (map (fun b0 => str "<li>" ++ b0 ++ str "</li>")
                         (b :: bs)) <> []) as Hne.
  { rewrite map_cons, joined_cons. discriminate. }
  rewrite (replace_g_whole false re_li_run _ _ cs Hne Hm
             can_start_li_run_end).
  unfold expand. cbn [flat_map]. rewrite !map_id, app_nil_r. reflexivity.
Qed.

(** The last pass turns the line feeds between lines into [<br>]. *)
Lemma breaks_none : forall l,
  Forall (fun u => u <> LF) l ->
  flat_map (fun x : N => if (LF =? x)%N
                         then map (fun u : N => u) (str "<br>") else [x]) l
  = l.
Proof.
  intros l Hn. induction Hn as [|u l Hu Hn IH]; [reflexivity|].
  cbn [flat_map]. rewrite IH. apply N.eqb_neq in Hu.
  rewrite N.eqb_sym in Hu. rewrite Hu. reflexivity.
Qed.

Lemma breaks_lines : forall ls,
  Forall (Forall (fun u => u <> LF)) ls ->
  flat_map (fun x : N => if (LF =? x)%N
                         then map (fun u : N => u) (str "<br>") else [x])
    (joined [LF] ls)
  = joined (str "<br>") ls.
Proof.
  intros ls H. induction H as [|l ls Hn Hls IH]; [reflexivity|].
  destruct ls as [|l' ls]; [cbn [joined]; apply breaks_none; exact Hn|].
  rewrite !joined_two. rewrite !flat_map_app. rewrite (breaks_none l Hn), IH.
  reflexivity.
Qed.

Lemma escapeHtml_lines : forall xs,
  escapeHtml (joined [LF] (map (fun x => str "- " ++ x) xs))
  = joined [LF] (map (fun b => str "- " ++ b) (map escapeHtml xs)).
Proof.
  induction xs as [|x xs IH]; [reflexivity|].
  destruct xs as [|x' xs].
  - cbn [map joined]. rewrite escapeHtml_app. reflexivity.
  - rewrite !map_cons in *. rewrite !joined_two.
    rewrite !escapeHtml_app, IH. reflexivity.
Qed.

(** X24. A list.  A message whose lines are [- ] followed by text without
    backtick or asterisk, one line per item, is rendered as one [<ul>]
    element: each line becomes its text, escaped, inside [<li>] and
    [</li>], the last list pass takes all the items as one run, and the
    line feeds between the items come out as [<br>] inside the list. *)
Theorem list_is_rendered : forall xs,
  xs <> [] ->
  Forall (fun x => one_line_plain x = true) xs ->
  formatMessage (Some (joined [LF] (map (fun x => str "- " ++ x) xs)))
  = str "<ul>"
      ++ joined (str "<br>")
           (map (fun x => str "<li>" ++ escapeHtml x ++ str "</li>") xs)
      ++ str "</ul>".
Proof.
  intros xs Hne Hx.
  assert (joined [LF] (map (fun x => str "- " ++ x) xs) <> []) as Hne'.
  { destruct xs as [|x xs]; [contradiction|].
    rewrite map_cons, joined_cons. discriminate. }
  rewrite (formatMessage_nonempty _ Hne'), escapeHtml_lines.
  assert (Forall (Forall (fun u => negb (is_line_terminator u) = true
                                   /\ u <> 96%N /\ u <> 42%N /\ u <> 60%N
                                   /\ u <> LF)) (map escapeHtml xs)) as Hb.
  { apply Forall_map. eapply Forall_impl; [|exact Hx].
    intros x H. apply escape_one_line. exact H. }
  replace (map (fun x => str "<li>" ++ escapeHtml x ++ str "</li>") xs)
    with (map (fun b => str "<li>" ++ b ++ str "</li>") (map escapeHtml xs))
    by (rewrite map_map; reflexivity).
  assert (map escapeHtml xs <> []) as Hbs
    by (destruct xs; [contradiction|discriminate]).
  set (bs := map escapeHtml xs) in *. clearbody bs. clear xs Hne Hx Hne'.
  assert (Forall (Forall (fun u => negb (is_line_terminator u) = true)) bs)
    as Hdot.
  { eapply Forall_impl; [|exact Hb]. intros b H.
    eapply Forall_impl; [|exact H]. cbv beta. tauto. }
  assert (Forall (Forall (fun u => negb (is_line_terminator u) = true
                                   /\ (60 =? u)%N = false)) bs) as Hitem.
  { eapply Forall_impl; [|exact Hb]. intros b H.
    eapply Forall_impl; [|exact H]. intros v (Hv & _ & _ & H60 & _).
    split; [exact Hv|]. apply N.eqb_neq. intros E. apply H60. symmetry.
    exact E. }
  set (T := joined [LF] (map (fun b => str "- " ++ b) bs)).
  assert (Forall (fun u => u <> 96%N) T /\ Forall (fun u => u <> 42%N) T)
    as (H96 & H42).
  { split; apply Forall_joined; try (repeat constructor; discriminate);
      apply Forall_map; (eapply Forall_impl; [|exact Hb]); intros b H;
      (apply Forall_app; split; [repeat constructor; discriminate|]);
      (eapply Forall_impl; [|exact H]); cbv beta; tauto. }
  assert (Forall (fun l => Forall (fun u => negb (is_line_terminator u) = true)
                             l
                           /\ match l with
                              | [] => False
                              | u :: _ => (35 =? u)%N = false
                              end) (map (fun b => str "- " ++ b) bs))
    as Hlines.
  { apply Forall_map. eapply Forall_impl; [|exact Hdot]. intros b H.
    split; [|reflexivity].
    apply Forall_app; split; [repeat constructor|exact H]. }
  unfold markdown, markdown_on. cbv zeta.
  rewrite (pass_code_block _ _ H96), (pass_inline_code _ _ H96).
  rewrite (pass_bold _ _ H42), (pass_italic _ _ H42).
  match goal with
  | |- context [replace_g ?c true (re_line (str "### ")) ?f T] =>
      replace (replace_g c true (re_line (str "### ")) f T) with T
        by (symmetry; exact (pass_other_lines 35 (str "## ") f _ Hlines))
  end.
  match goal with
  | |- context [replace_g ?c true (re_line (str "## ")) ?f T] =>
      replace (replace_g c true (re_line (str "## ")) f T) with T
        by (symmetry; exact (pass_other_lines 35 (str "# ") f _ Hlines))
  end.
  match goal with
  | |- context [replace_g ?c true (re_line (str "# ")) ?f T] =>
      replace (replace_g c true (re_line (str "# ")) f T) with T
        by (symmetry; exact (pass_other_lines 35 (str " ") f _ Hlines))
  end.
  set (U := joined [LF] (map (fun b => str "<li>" ++ b ++ str "</li>") bs)).
  match goal with
  | |- context [replace_g ?c true (re_line (str "- ")) ?f T] =>
      replace (replace_g c true (re_line (str "- ")) f T) with U
        by (symmetry;
            exact (replace_lines 45 (str " ") (str "<li>") (str "</li>") bs
                     None eq_refl Hdot eq_refl))
  end.
  match goal with
  | |- context [replace_g ?c true re_li_line ?f U] =>
      replace (replace_g c true re_li_line f U) with U
        by (symmetry; exact (pass_li_line_items bs None Hitem))
  end.
  destruct bs as [|b bs]; [contradiction|].
  match goal with
  | |- context [replace_g ?c false re_li_run ?f U] =>
      replace (replace_g c false re_li_run f U)
        with (str "<ul>" ++ U ++ str "</ul>")
        by (symmetry; exact (pass_li_run_items b bs Hitem))
  end.
  match goal with
  | |- replace_g ?c false (chr LF) ?f ?t = _ =>
      change (replace_g c false (chr LF) f t)
        with (replace_char (fun u : N => u) (fun u : N => u) LF (str "<br>")
                t)
  end.
  rewrite replace_char_flat_map, !flat_map_app.
  rewrite (breaks_none (str "<ul>")) by (repeat constructor; discriminate).
  rewrite (breaks_none (str "</ul>")) by (repeat constructor; discriminate).
  unfold U. rewrite breaks_lines; [reflexivity|].
  apply Forall_map. eapply Forall_impl; [|exact Hb]. intros b0 H.
  apply Forall_app; split; [repeat constructor; discriminate|].
  apply Forall_app; split; [|repeat constructor; discriminate].
  eapply Forall_impl; [|exact H]. cbv beta. tauto.
Qed.

Lemma list_is_rendered_witness :
  [str "milk & eggs"; str "bread"] <> []
  /\ Forall (fun x => one_line_plain x = true)
       [str "milk & eggs"; str "bread"]
  /\ formatMessage (Some (str "- milk & eggs" ++ [LF] ++ str "- bread"))
     = str "<ul><li>milk &amp; eggs</li><br><li>bread</li></ul>".
Proof.
  assert ([str "milk & eggs"; str "bread"] <> []) as Hne by discriminate.
  assert (Forall (fun x => one_line_plain x = true)
            [str "milk & eggs"; str "bread"]) as Hx
    by (repeat constructor).
  split; [exact Hne|]. split; [exact Hx|].
  exact (list_is_rendered [str "milk & eggs"; str "bread"] Hne Hx).
Defined.

(** ** Code blocks *)

Lemma ws_is_not_word : forall u, is_ws u = true -> is_word u = false.
Proof.
  intros u H. unfold is_ws, is_line_terminator in H. unfold is_word.
  repeat (apply orb_true_iff in H; destruct H as [H|H]);
    try (apply N.eqb_eq in H; subst u; reflexivity).
  apply andb_true_iff in H. destruct H as [H1 H2].
  apply N.leb_le in H1. apply N.leb_le in H2.
  repeat (apply orb_false_iff; split);
    try (apply andb_false_iff; left; apply N.leb_gt; lia);
    try (apply andb_false_iff; right; apply N.leb_gt; lia);
    apply N.eqb_neq; lia.
Qed.

(** An optional atom that cannot match is skipped. *)
Lemma rmatch_opt_skip : forall ml a k x,
  (forall K, rmatch ml a K (clear_caps (groups a) x) = None) ->
  rmatch ml (Rep 0 (Some 1) true a) k x = k x.
Proof.
  intros ml a k x Ha.
  change (rmatch ml (Rep 0 (Some 1) true a) k x)
    with (repeat_loop (rmatch ml a) (groups a) true k
            (S (0 + length (m_rest x))) 0 (Some 1) x).
  rewrite repeat_loop_step.
  cbn [Nat.eqb andb negb Nat.pred option_map]. rewrite Ha. reflexivity.
Qed.

(** An optional atom is taken when the match goes on after it. *)
Lemma rmatch_opt_take : forall ml a k x z,
  m_rest x <> [] ->
  rmatch ml a
    (fun y => if m_pos y =? m_pos x then None else k y)
    (clear_caps (groups a) x) = Some z ->
  rmatch ml (Rep 0 (Some 1) true a) k x = Some z.
Proof.
  intros ml a k x z Hne Ha.
  change (rmatch ml (Rep 0 (Some 1) true a) k x)
    with (repeat_loop (rmatch ml a) (groups a) true k
            (S (0 + length (m_rest x))) 0 (Some 1) x).
  rewrite repeat_loop_step.
  cbn [Nat.eqb andb negb Nat.pred option_map].
  destruct (m_rest x) as [|u r] eqn:E; [contradiction|].
  cbn [length Nat.add]. 
  assert (forall y, repeat_loop (rmatch ml a) (groups a) true k
                      (S (length r)) 0 (Some 0) y = k y) as Hd
    by (intros y; reflexivity).
  match goal with
  | |- orelse (rmatch ml a ?d _) _ = _ =>
      replace d with (fun y => if m_pos y =? m_pos x then None else k y)
        by reflexivity
  end.
  rewrite Ha. reflexivity.
Qed.

Lemma rmatch_plus_chr_no : forall ml (p : N -> bool) k x,
  match m_rest x with [] => True | u :: _ => p u = false end ->
  rmatch ml (Rep 1 None true (Chr p)) k x = None.
Proof.
  intros ml p k x H.
  change (rmatch ml (Rep 1 None true (Chr p)) k x)
    with (repeat_loop (rmatch ml (Chr p)) [] true k
            (S (1 + length (m_rest x))) 1 None x).
  rewrite repeat_loop_step.
  cbn [Nat.eqb andb negb Nat.pred option_map].
  rewrite clear_caps_nil. cbn [rmatch].
  destruct (m_rest x) as [|u r]; [reflexivity|]. rewrite H. reflexivity.
Qed.

(** What follows the language in [re_code_block], at a state whose input
    is whitespace, code without backtick that does not begin with
    whitespace, and the closing fence. *)
Lemma rmatch_code_tail : forall y sep v body,
  Forall (fun u => is_ws u = true) sep ->
  is_ws v = false ->
  Forall (fun u => (96 =? u)%N = false) (v :: body) ->
  m_rest y = sep ++ (v :: body) ++ str "```" ->
  exists z cs,
    rmatch false
      (Seq (star (Chr is_ws))
         (Seq (opt (chr LF))
            (Seq (Group 2 (lazy_star any)) (lit (str "```"))))) Some y
    = Some z
    /\ m_pos z = m_pos y + length sep + length (v :: body) + 3
    /\ m_caps z
       = (2, (m_pos y + length sep,
              m_pos y + length sep + length (v :: body))) :: cs.
Proof.
  intros y sep v body Hsep Hv Hbody Hr.
  set (ys := advance sep y).
  assert (m_rest ys = (v :: body) ++ str "```" ++ []) as Hrs
    by (rewrite app_nil_r; apply (advance_rest sep); exact Hr).
  set (yb := set_cap 2 (m_pos ys) (m_pos (advance (v :: body) ys))
               (advance (v :: body) ys)).
  assert (m_rest yb = str "```" ++ []) as Hrb
    by (unfold yb; cbn [set_cap m_rest];
        apply (advance_rest (v :: body)); exact Hrs).
  set (z := advance (str "```") yb).
  exists z, (filter (fun e => negb (fst e =? 2)) (m_caps y)).
  split; [|split].
  - change (rmatch false
              (Seq (star (Chr is_ws))
                 (Seq (opt (chr LF))
                    (Seq (Group 2 (lazy_star any)) (lit (str "```")))))
              Some y)
      with (rmatch false (Rep 0 None true (Chr is_ws))
              (fun y1 =>
                 rmatch false (opt (chr LF))
                   (fun y2 =>
                      rmatch false (Rep 0 None false any)
                        (fun y3 =>
                           rmatch false (lit (str "```")) Some
                             (set_cap 2 (m_pos y2) (m_pos y3) y3)) y2) y1)
              y).
    apply (rmatch_greedy_star false is_ws _ sep y
             ((v :: body) ++ str "```") z Hsep Hr).
    + cbn [app]. exact Hv.
    + fold ys. unfold opt. rewrite rmatch_opt_skip.
      * unfold any.
        apply (rmatch_lazy_star false (fun _ => true)
                 (fun u => (96 =? u)%N) _ (v :: body) ys (str "```" ++ []) z).
        -- intros y0 u r Hy Hu.
           apply (rmatch_lit_no false 96 (str "``") _ _ u r);
             [exact Hy|exact Hu].
        -- eapply Forall_impl; [|exact Hbody]. intros u Hu.
           split; [reflexivity|exact Hu].
        -- exact Hrs.
        -- fold yb.
           assert (str "```" <> []) as Hf by discriminate.
           exact (rmatch_lit_ok false (str "```") Some yb [] Hf Hrb).
      * intros K. unfold chr.
        apply (rmatch_chr_no false (N.eqb LF) K _ v (body ++ str "```" ++ [])).
        -- cbn [clear_caps groups m_rest]. exact Hrs.
        -- destruct (LF =? v)%N eqn:E; [|reflexivity].
           apply N.eqb_eq in E. subst v. discriminate.
  - unfold z, yb, ys. rewrite advance_pos. cbn [set_cap m_pos].
    rewrite !advance_pos. change (length (str "```")) with 3. lia.
  - unfold z, yb, ys. rewrite advance_caps. cbn [set_cap m_caps].
    rewrite !advance_pos, !advance_caps. reflexivity.
Qed.

(** [re_code_block] on a fenced block: the word characters after the
    opening fence are taken as the language, the whitespace is passed over
    and the code runs up to the closing fence. *)
Lemma match_here_code_block : forall lang sep v body,
  Forall (fun u => is_word u = true) lang ->
  Forall (fun u => is_ws u = true) sep ->
  is_word (hd v sep) = false ->
  is_ws v = false ->
  Forall (fun u => (96 =? u)%N = false) (v :: body) ->
  exists cs,
    match_here false re_code_block None
      ((str "```" ++ lang ++ sep) ++ (v :: body) ++ str "```")
    = Some (length ((str "```" ++ lang ++ sep) ++ (v :: body) ++ str "```"),
            (2, (length (str "```" ++ lang ++ sep),
                 length (str "```" ++ lang ++ sep) + length (v :: body)))
              :: cs).
Proof.
  intros lang sep v body Hlang Hsep Hhd Hv Hbody.
  assert (length (str "```" ++ lang ++ sep) = 3 + length lang + length sep)
    as Ha by (rewrite !length_app; reflexivity).
  assert (length ((str "```" ++ lang ++ sep) ++ (v :: body) ++ str "```")
          = length (str "```" ++ lang ++ sep) + length (v :: body) + 3)
    as Hn by (rewrite !length_app; change (length (str "```")) with 3; lia).
  rewrite Hn.
  set (a := length (str "```" ++ lang ++ sep)) in *. clearbody a. clear Hn.
  unfold match_here, re_code_block.
  set (x0 := {| m_prev := None;
                m_rest := (str "```" ++ lang ++ sep) ++ (v :: body)
                            ++ str "```";
                m_pos := 0; m_caps := [] |}).
  assert (m_rest x0 = str "```" ++ lang ++ sep ++ (v :: body) ++ str "```")
    as Hr0 by (cbn [x0 m_rest]; rewrite <- !app_assoc; reflexivity).
  assert (str "```" <> []) as Hf by discriminate.
  set (tail := Seq (star (Chr is_ws))
                 (Seq (opt (chr LF))
                    (Seq (Group 2 (lazy_star any)) (lit (str "```"))))).
  change (rmatch false
            (Seq (lit (str "```"))
               (Seq (opt (Group 1 (plus (Chr is_word)))) tail)) Some x0)
    with (rmatch false (lit (str "```"))
            (fun y => rmatch false (opt (Group 1 (plus (Chr is_word))))
                        (fun y' => rmatch false tail Some y') y) x0).
  rewrite (rmatch_lit_ok false (str "```") _ x0
             (lang ++ sep ++ (v :: body) ++ str "```") Hf Hr0).
  set (x1 := advance (str "```") x0).
  assert (m_rest x1 = lang ++ sep ++ (v :: body) ++ str "```") as Hr1
    by (apply (advance_rest (str "```")); exact Hr0).
  assert (m_pos x1 = 3) as Hp1
    by (unfold x1; rewrite advance_pos; reflexivity).
  assert (match sep ++ (v :: body) ++ str "```" with
          | [] => True
          | u :: _ => is_word u = false
          end) as Hnext by (destruct sep; exact Hhd).
  unfold opt at 1.
  destruct lang as [|w lang].
  - destruct (rmatch_code_tail x1 sep v body Hsep Hv Hbody Hr1)
      as (z & cs & Hz & Hpz & Hcz).
    rewrite rmatch_opt_skip.
    + fold tail in Hz. rewrite Hz. exists cs. rewrite Hpz, Hcz.
      assert (m_pos x1 + length sep = a) as E1
        by (rewrite Hp1, Ha; cbn [length]; lia).
      rewrite E1. reflexivity.
    + intros K.
      change (rmatch false (Group 1 (plus (Chr is_word))) K
                (clear_caps (groups (Group 1 (plus (Chr is_word)))) x1))
        with (rmatch false (Rep 1 None true (Chr is_word))
                (fun y => K (set_cap 1
                               (m_pos (clear_caps [1] x1)) (m_pos y) y))
                (clear_caps [1] x1)).
      apply rmatch_plus_chr_no. cbn [clear_caps m_rest]. rewrite Hr1.
      exact Hnext.
  - inversion Hlang as [|w0 l0 Hw Hlang']; subst.
    set (xc := clear_caps (groups (Group 1 (plus (Chr is_word)))) x1).
    set (yl := advance lang (step_over w xc)).
    set (y1 := set_cap 1 (m_pos xc) (m_pos yl) yl).
    assert (m_rest xc = w :: lang ++ sep ++ (v :: body) ++ str "```") as Hrc
      by (unfold xc; cbn [clear_caps m_rest]; exact Hr1).
    assert (m_rest yl = sep ++ (v :: body) ++ str "```") as Hrl.
    { unfold yl. apply (advance_rest lang). cbn [step_over m_rest].
      rewrite Hrc. reflexivity. }
    assert (m_pos y1 = 3 + length (w :: lang)) as Hpy.
    { unfold y1, yl, xc. cbn [set_cap m_pos]. rewrite advance_pos.
      cbn [step_over clear_caps m_pos length]. rewrite Hp1. lia. }
    destruct (rmatch_code_tail y1 sep v body Hsep Hv Hbody Hrl)
      as (z & cs & Hz & Hpz & Hcz).
    rewrite (rmatch_opt_take false (Group 1 (plus (Chr is_word))) _ x1 z).
    + exists cs. rewrite Hpz, Hcz.
      rewrite Hpy. reflexivity.
    + rewrite Hr1. discriminate.
    + fold xc.
      change (rmatch false (Group 1 (plus (Chr is_word)))
                (fun y => if m_pos y =? m_pos x1 then None
                          else rmatch false tail Some y) xc)
        with (rmatch false (Rep 1 None true (Chr is_word))
                (fun y =>
                   if m_pos (set_cap 1 (m_pos xc) (m_pos y) y) =? m_pos x1
                   then None
                   else rmatch false tail Some
                          (set_cap 1 (m_pos xc) (m_pos y) y)) xc).
      rewrite (rmatch_plus_chr false is_word _ xc w _ Hrc Hw).
      apply (rmatch_greedy_star false is_word _ lang (step_over w xc)
               (sep ++ (v :: body) ++ str "```") z Hlang').
      * cbn [step_over m_rest]. rewrite Hrc. reflexivity.
      * exact Hnext.
      * fold yl. fold y1.
        assert ((m_pos y1 =? m_pos x1) = false) as Hne
          by (apply Nat.eqb_neq; rewrite Hpy, Hp1; cbn [length]; lia).
        rewrite Hne. exact Hz.
Qed.

Lemma special_cases : forall u,
  is_special u = true ->
  u = 38%N \/ u = 60%N \/ u = 62%N \/ u = 34%N \/ u = 39%N.
Proof.
  intros u H. unfold is_special in H.
  repeat (apply orb_true_iff in H; destruct H as [H|H]);
    apply N.eqb_eq in H; subst u; tauto.
Qed.

Lemma word_not_special : forall u, is_word u = true -> is_special u = false.
Proof.
  intros u H. destruct (is_special u) eqn:E; [|reflexivity].
  apply special_cases in E.
  destruct E as [E|[E|[E|[E|E]]]]; subst u; discriminate.
Qed.

Lemma ws_not_special : forall u, is_ws u = true -> is_special u = false.
Proof.
  intros u H. destruct (is_special u) eqn:E; [|reflexivity].
  apply special_cases in E.
  destruct E as [E|[E|[E|[E|E]]]]; subst u; discriminate.
Qed.

Lemma escapeHtml_plain : forall s,
  Forall (fun u => is_special u = false) s -> escapeHtml s = s.
Proof.
  intros s H. rewrite escapeHtml_flat_map.
  induction H as [|u s Hu Hs IH]; [reflexivity|].
  cbn [flat_map]. rewrite IH.
  destruct (escape_unit_cases u) as [[_ E]|[E _]]; [|congruence].
  rewrite E. reflexivity.
Qed.

(** Escaping keeps the first unit of a text outside whitespace and word
    characters. *)
Lemma escape_head : forall v x,
  is_ws v = false ->
  exists v' body,
    escapeHtml (v :: x) = v' :: body
    /\ is_ws v' = false
    /\ (is_word v = false -> is_word v' = false).
Proof.
  intros v x Hv. rewrite escapeHtml_flat_map. cbn [flat_map].
  destruct (escape_unit_cases v) as [[_ E]|[_ (w & E & _)]]; rewrite E.
  - exists v, (flat_map escape_unit x). cbn [app]. tauto.
  - exists 38%N, (w ++ flat_map escape_unit x). cbn [app].
    split; [reflexivity|]. split; reflexivity.
Qed.

Lemma line_count_one : forall s : jsstring,
  Forall (fun u => u <> LF) s -> line_count (fun c => c) s = 1.
Proof.
  intros s H. unfold line_count. f_equal.
  induction H as [|u s Hu Hs IH]; [reflexivity|].
  cbn [filter]. apply N.eqb_neq in Hu. rewrite Hu. exact IH.
Qed.

(** The code-block pass on a fenced block of one line. *)
Lemma replace_code_block : forall lang sep v body,
  Forall (fun u => is_word u = true) lang ->
  Forall (fun u => is_ws u = true) sep ->
  is_word (hd v sep) = false ->
  is_ws v = false ->
  Forall (fun u => u <> 96%N /\ u <> LF) (v :: body) ->
  replace_g (fun u => u) false re_code_block
    (code_block (fun u => u) (fun u => u))
    ((str "```" ++ lang ++ sep) ++ (v :: body) ++ str "```")
  = joined [LF]
      (code_block_lines (length (trim (v :: body)) <? 100)
         (trim (v :: body))).
Proof.
  intros lang sep v body Hlang Hsep Hhd Hv Hbody.
  assert (Forall (fun u => (96 =? u)%N = false) (v :: body)) as H96.
  { eapply Forall_impl; [|exact Hbody]. intros u (Hu & _).
    apply N.eqb_neq. intros E. apply Hu. symmetry. exact E. }
  destruct (match_here_code_block lang sep v body Hlang Hsep Hhd Hv H96)
    as (cs & Hm).
  assert ((str "```" ++ lang ++ sep) ++ (v :: body) ++ str "```" <> [])
    as Hne by discriminate.
  rewrite (replace_g_whole false re_code_block _ _ _ Hne Hm
             (fun prev' => eq_refl)).
  unfold code_block. cbv zeta. unfold capture.
  cbn [cap_lookup Nat.eqb]. rewrite middle_of.
  fold (trim (v :: body)).
  assert (Forall (fun u => u <> LF) (trim (v :: body))) as Hlf.
  { apply trim_on_Forall. eapply Forall_impl; [|exact Hbody].
    cbv beta. tauto. }
  rewrite (line_count_one _ Hlf). cbn [Nat.leb andb].
  rewrite !map_id. unfold code_block_lines. cbn [joined].
  rewrite <- !app_assoc. reflexivity.
Qed.

(** A text cut into pieces that begin with [<] and another unit than [l],
    and hold no further [<], holds no [<li>]. *)
Lemma unguarded_pieces : forall pieces prev,
  Forall (fun pc => match pc with
                    | c :: u :: o =>
                        c = 60%N /\ u <> 108%N
                        /\ Forall (fun v => v <> 60%N) (u :: o)
                    | _ => False
                    end) pieces ->
  unguarded (fun _ r => startsWith (str "<li>") r) prev (concat pieces)
  = true.
Proof.
  intros pieces prev H. revert prev.
  induction H as [|pc pieces Hpc Hps IH]; intros prev; [reflexivity|].
  destruct pc as [|c [|u o]]; try contradiction.
  destruct Hpc as (-> & Hu & Ho). cbn [concat].
  rewrite (unguarded_tag u o (concat pieces) prev Hu Ho). apply IH.
Qed.

(** Lines that hold no [`], [*] or [<li>] and begin with neither [#] nor
    [-] are left alone by the passes after the code-block pass, up to the
    line feeds between them. *)
Lemma plain_lines_final : forall lines,
  Forall (Forall (fun u => negb (is_line_terminator u) = true
                           /\ u <> 96%N /\ u <> 42%N /\ u <> LF)) lines ->
  Forall (fun l => match l with
                   | [] => False
                   | u :: _ => (35 =? u)%N = false /\ (45 =? u)%N = false
                   end) lines ->
  unguarded (fun _ r => startsWith (str "<li>") r) None (joined [LF] lines)
  = true ->
  (forall f, replace_g (fun v => v) false re_inline_code f (joined [LF] lines)
             = joined [LF] lines)
  /\ (forall f, replace_g (fun v => v) false re_bold f (joined [LF] lines)
                = joined [LF] lines)
  /\ (forall f, replace_g (fun v => v) false re_italic f (joined [LF] lines)
                = joined [LF] lines)
  /\ (forall p f, In p line_marks ->
        replace_g (fun v => v) true (re_line p) f (joined [LF] lines)
        = joined [LF] lines)
  /\ (forall f, replace_g (fun v => v) true re_li_line f (joined [LF] lines)
                = joined [LF] lines)
  /\ (forall f, replace_g (fun v => v) false re_li_run f (joined [LF] lines)
                = joined [LF] lines)
  /\ replace_g (fun v => v) false (chr LF)
       (expand (fun v => v) [TLit (str "<br>")]) (joined [LF] lines)
     = joined (str "<br>") lines.
Proof.
  intros lines Hunits Hheads Hli.
  assert (forall P : N -> Prop,
            P LF ->
            (forall u, negb (is_line_terminator u) = true
                       /\ u <> 96%N /\ u <> 42%N /\ u <> LF -> P u) ->
            Forall P (joined [LF] lines)) as Hall.
  { intros P HLF HP. apply Forall_joined; [repeat constructor; exact HLF|].
    eapply Forall_impl; [|exact Hunits]. intros l Hl.
    eapply Forall_impl; [|exact Hl]. exact HP. }
  assert (forall c, c = 35%N \/ c = 45%N ->
            Forall (fun l => Forall (fun u => negb (is_line_terminator u)
                                              = true) l
                             /\ match l with
                                | [] => False
                                | u :: _ => (c =? u)%N = false
                                end) lines) as Hlines.
  { intros c Hc. clear Hli Hall.
    induction Hunits as [|l ls Hl Hls IH]; [constructor|].
    inversion Hheads as [|l0 ls0 Hh Hhs]; subst.
    constructor; [|apply IH; exact Hhs]. split.
    - eapply Forall_impl; [|exact Hl]. cbv beta. tauto.
    - destruct l as [|u l]; [contradiction|].
      destruct Hc as [-> | ->]; tauto. }
  split; [intros f; apply pass_inline_code; apply Hall;
          [discriminate|tauto]|].
  split; [intros f; apply pass_bold; apply Hall; [discriminate|tauto]|].
  split; [intros f; apply pass_italic; apply Hall; [discriminate|tauto]|].
  split.
  { intros p f Hp. unfold line_marks in Hp. cbn [In] in Hp.
    destruct Hp as [<-|[<-|[<-|[<-|[]]]]].
    - exact (pass_other_lines 35 (str "## ") f _
               (Hlines 35%N (or_introl eq_refl))).
    - exact (pass_other_lines 35 (str "# ") f _
               (Hlines 35%N (or_introl eq_refl))).
    - exact (pass_other_lines 35 (str " ") f _
               (Hlines 35%N (or_introl eq_refl))).
    - exact (pass_other_lines 45 (str " ") f _
               (Hlines 45%N (or_intror eq_refl))). }
  split; [intros f; apply (pass_li true re_li_line f _ can_start_li_line Hli)|].
  split; [intros f; apply (pass_li false re_li_run f _ can_start_li_run Hli)|].
  change (replace_g (fun v : N => v) false (chr LF)
            (expand (fun v : N => v) [TLit (str "<br>")]) (joined [LF] lines))
    with (replace_char (fun u : N => u) (fun u : N => u) LF (str "<br>")
            (joined [LF] lines)).
  rewrite replace_char_flat_map. apply breaks_lines.
  eapply Forall_impl; [|exact Hunits]. intros l Hl.
  eapply Forall_impl; [|exact Hl]. cbv beta. tauto.
Qed.

(** The element of a code block holds no [<li>] when the code holds no
    [<]. *)
Lemma code_block_lines_no_li : forall compact code,
  Forall (fun u => u <> 60%N) code ->
  unguarded (fun _ r => startsWith (str "<li>") r) None
    (joined [LF] (code_block_lines compact code))
  = true.
Proof.
  intros compact code H60.
  assert (joined [LF] (code_block_lines compact code)
          = concat
              [str "<div class=" ++ [DQUOTE] ++ str "code-block"
                 ++ (if compact then str " compact" else [])
                 ++ [DQUOTE] ++ str ">" ++ [LF] ++ spaces 20;
               str "<pre>"; str "<code>" ++ code; str "</code>";
               str "</pre>" ++ [LF] ++ spaces 16; str "</div>"]) as Et.
  { unfold code_block_lines. cbn [joined concat].
    rewrite <- !app_assoc. reflexivity. }
  rewrite Et. apply unguarded_pieces.
  repeat (apply Forall_cons || apply Forall_nil).
  - split; [reflexivity|]. split; [discriminate|].
    destruct compact; units H60 ltac:(discriminate).
  - split; [reflexivity|]. split; [discriminate|].
    units H60 ltac:(discriminate).
  - split; [reflexivity|]. split; [discriminate|].
    apply Forall_cons; [discriminate|]. units H60 ltac:(discriminate).
  - split; [reflexivity|]. split; [discriminate|].
    units H60 ltac:(discriminate).
  - split; [reflexivity|]. split; [discriminate|].
    units H60 ltac:(discriminate).
  - split; [reflexivity|]. split; [discriminate|].
    units H60 ltac:(discriminate).
Qed.

Lemma code_block_lines_units : forall compact code,
  Forall (fun u => negb (is_line_terminator u) = true
                   /\ u <> 96%N /\ u <> 42%N /\ u <> LF) code ->
  Forall (Forall (fun u => negb (is_line_terminator u) = true
                           /\ u <> 96%N /\ u <> 42%N /\ u <> LF))
    (code_block_lines compact code).
Proof.
  intros compact code H.
  destruct compact;
    line_units H ltac:(repeat split; try reflexivity; discriminate).
Qed.

Lemma code_block_lines_heads : forall compact code,
  Forall (fun l => match l with
                   | [] => False
                   | u :: _ => (35 =? u)%N = false /\ (45 =? u)%N = false
                   end) (code_block_lines compact code).
Proof.
  intros compact code. unfold code_block_lines.
  repeat (apply Forall_cons || apply Forall_nil); split; reflexivity.
Qed.

(** X25. A fenced code block of one line.  A message that is the opening
    fence, word characters, whitespace, one line of code without backtick
    or asterisk that does not begin with whitespace, and the closing fence
    -- the whitespace may be missing when the code does not begin with a
    word character -- is rendered as the three lines of the code-block
    element joined by [<br>]: the code is escaped and trimmed, the class
    [compact] is set exactly when the escaped and trimmed code has fewer
    than 100 units, and the word characters after the opening fence appear
    nowhere in the result. *)
Theorem code_block_is_rendered : forall lang sep v x,
  Forall (fun u => is_word u = true) lang ->
  Forall (fun u => is_ws u = true) sep ->
  is_word (hd v sep) = false ->
  is_ws v = false ->
  one_line_plain (v :: x) = true ->
  formatMessage (Some (str "```" ++ lang ++ sep ++ (v :: x) ++ str "```"))
  = joined (str "<br>")
      (code_block_lines (length (trim (escapeHtml (v :: x))) <? 100)
         (trim (escapeHtml (v :: x)))).
Proof.
  intros lang sep v x Hlang Hsep Hhd Hv Hx.
  rewrite formatMessage_nonempty by discriminate.
  rewrite !escapeHtml_app.
  change (escapeHtml (str "```")) with (str "```").
  rewrite (escapeHtml_plain lang)
    by (eapply Forall_impl; [|exact Hlang]; exact word_not_special).
  rewrite (escapeHtml_plain sep)
    by (eapply Forall_impl; [|exact Hsep]; exact ws_not_special).
  pose proof (escape_one_line (v :: x) Hx) as Hb.
  destruct (escape_head v x Hv) as (v' & body & He & Hv' & Hw').
  rewrite He in *.
  assert (is_word (hd v' sep) = false) as Hhd'.
  { destruct sep as [|s sep]; [apply Hw'; exact Hhd|exact Hhd]. }
  assert (Forall (fun u => u <> 96%N /\ u <> LF) (v' :: body)) as Hfence
    by (eapply Forall_impl; [|exact Hb]; cbv beta; tauto).
  assert (Forall (fun u => negb (is_line_terminator u) = true
                           /\ u <> 96%N /\ u <> 42%N /\ u <> LF)
            (trim (v' :: body))) as Hcode.
  { apply trim_on_Forall. eapply Forall_impl; [|exact Hb]. cbv beta. tauto. }
  assert (Forall (fun u => u <> 60%N) (trim (v' :: body))) as H60.
  { apply trim_on_Forall. eapply Forall_impl; [|exact Hb]. cbv beta. tauto. }
  pose proof (plain_lines_final
                (code_block_lines (length (trim (v' :: body)) <? 100)
                   (trim (v' :: body)))
                (code_block_lines_units _ _ Hcode)
                (code_block_lines_heads _ _)
                (code_block_lines_no_li _ _ H60)) as Hfinal.
  pose proof (replace_code_block lang sep v' body Hlang Hsep Hhd' Hv' Hfence)
    as Hfirst.
  rewrite <- !app_assoc in Hfirst.
  remember (joined [LF]
              (code_block_lines (length (trim (v' :: body)) <? 100)
                 (trim (v' :: body)))) as T eqn:ET.
  destruct Hfinal as (Hic & Hbold & Hit & Hline & Hl1 & Hl2 & Hlf).
  unfold markdown, markdown_on. cbv zeta.
  rewrite Hfirst, Hic, Hbold, Hit.
  final_passes Hline Hl1 Hl2 Hlf. reflexivity.
Qed.

Lemma code_block_is_rendered_witness :
  (Forall (fun u => is_word u = true) (str "python")
   /\ Forall (fun u => is_ws u = true) [LF]
   /\ is_word (hd 112%N [LF]) = false
   /\ is_ws 112%N = false
   /\ one_line_plain (str "print(1 < 2)") = true
   /\ formatMessage (Some (str "```python" ++ [LF] ++ str "print(1 < 2)```"))
      = str "<div class=" ++ [DQUOTE] ++ str "code-block compact" ++ [DQUOTE]
          ++ str "><br>" ++ spaces 20
          ++ str "<pre><code>print(1 &lt; 2)</code></pre><br>" ++ spaces 16
          ++ str "</div>")
  /\ (Forall (fun u => is_word u = true) (str "print")
      /\ Forall (fun u => is_ws u = true) []
      /\ is_word (hd 40%N []) = false
      /\ is_ws 40%N = false
      /\ one_line_plain (str "(1)") = true
      /\ formatMessage (Some (str "```print(1)```"))
         = str "<div class=" ++ [DQUOTE] ++ str "code-block compact"
             ++ [DQUOTE] ++ str "><br>" ++ spaces 20
             ++ str "<pre><code>(1)</code></pre><br>" ++ spaces 16
             ++ str "</div>").
Proof.
  assert (Forall (fun u => is_word u = true) (str "python")) as H1
    by (repeat constructor).
  assert (Forall (fun u => is_ws u = true) [LF]) as H2
    by (repeat constructor).
  assert (Forall (fun u => is_word u = true) (str "print")) as H3
    by (repeat constructor).
  assert (Forall (fun u => is_ws u = true) []) as H4 by constructor.
  split.
  - split; [exact H1|]. split; [exact H2|]. split; [reflexivity|].
    split; [reflexivity|]. split; [reflexivity|].
    exact (code_block_is_rendered (str "python") [LF] 112%N
             (str "rint(1 < 2)") H1 H2 eq_refl eq_refl eq_refl).
  - split; [exact H3|]. split; [exact H4|]. split; [reflexivity|].
    split; [reflexivity|]. split; [reflexivity|].
    exact (code_block_is_rendered (str "print") [] 40%N (str "1)")
             H3 H4 eq_refl eq_refl eq_refl).
Defined.
